(** * tool-query: a JSONPath (RFC 9535) parser, formatter and evaluator

    A shallow embedding of [src/parse.ts], [src/format.ts],
    [src/evaluate.ts], [src/function.ts] and the syntax-tree modules, with
    the properties of the natural-language specification stated over it.

    Conventions.
    - An ECMAScript string is the list of its UTF-16 code units
      ([JSString]); [charCodeAt] is list indexing.
    - Thrown exceptions are the [Throw] case of [Result]; the recursive
      descent parser recurses on a fuel counter and [parser_spec] shows
      that the fuel the entry points supply is never exhausted.
    - The mutable [QueryContext] is threaded explicitly through the
      evaluator ([Eval]). *)

From Stdlib Require Import ZArith List Bool Lia ZifyBool String Ascii.
From Stdlib Require Import DecimalString HexadecimalString.
From Stdlib Require DecimalFacts DecimalPos.
Import ListNotations.

Set Implicit Arguments.
Set Warnings "-register-all".
Local Open Scope Z_scope.

(* ================================================================== *)
(** ** ECMAScript strings *)
(* ================================================================== *)

Definition JSString := list Z.

(** The code units of an ASCII string constant. *)
Fixpoint js (s : string) : JSString :=
  match s with
  | EmptyString => []
  | String a rest => Z.of_nat (nat_of_ascii a) :: js rest
  end.

(** [s.charCodeAt(i)]; an index outside the string gives NaN, which fails
    every equality and range test of the sources exactly as [-1] does. *)
Definition charCodeAt (s : JSString) (i : nat) : Z := nth i s (-1).

(** [s.slice(start, end)] for [0 <= start <= end]. *)
Definition slice (s : JSString) (start end_ : nat) : JSString :=
  firstn (end_ - start) (skipn start s).

Fixpoint jsstring_eqb (a b : JSString) : bool :=
  match a, b with
  | [], [] => true
  | x :: a', y :: b' => (x =? y) && jsstring_eqb a' b'
  | _, _ => false
  end.

(** [String(n)] for an integer [n]. *)
Definition String_of_int (n : Z) : JSString :=
  js (DecimalString.NilZero.string_of_int (Z.to_int n)).

(** [c.toString(16).padStart(4, "0")] for a code unit [c]. *)
Definition toHex4 (c : Z) : JSString :=
  let digits := js (HexadecimalString.NilZero.string_of_uint
                      (N.to_hex_uint (Z.to_N c))) in
  repeat 48 (4 - List.length digits)%nat ++ digits.

(* ================================================================== *)
(** ** Errors and results *)
(* ================================================================== *)

(** [QueryError] carries the message and the offset of the buffer it was
    raised with ([src/error.ts]); the other constructors are the host's
    exception classes. *)
Inductive Error : Type :=
| QueryError (message : string) (offset : nat)
| TypeError (message : string)
| SyntaxError (message : string)
| HostError (message : string).

Inductive Result (A : Type) : Type :=
| Ok (a : A)
| Throw (e : Error).
Arguments Ok {A} a.
Arguments Throw {A} e.

(** Outcome of a fuelled computation. *)
Inductive Outcome (A : Type) : Type :=
| Done (a : A)
| Raise (e : Error)
| OutOfFuel.
Arguments Done {A} a.
Arguments Raise {A} e.
Arguments OutOfFuel {A}.

Definition obind {A B} (m : Outcome A) (k : A -> Outcome B) : Outcome B :=
  match m with
  | Done a => k a
  | Raise e => Raise e
  | OutOfFuel => OutOfFuel
  end.

Declare Scope parse_scope.
Delimit Scope parse_scope with parse.
Notation "x <- m ;; k" := (obind m (fun x => k))
  (at level 61, m at next level, right associativity) : parse_scope.
Notation "' p <- m ;; k" := (obind m (fun x => let 'p := x in k))
  (at level 61, p pattern, m at next level, right associativity) : parse_scope.

(* ================================================================== *)
(** ** JSON nodes *)
(* ================================================================== *)

(** An ECMAScript number, kept as the numeric literal it is converted
    from: [Number lexeme] stands for [Number(lexeme)].  Arithmetic on
    numbers happens only in the host ([equal], [compare],
    [JSON.stringify]). *)
Inductive JSNumber : Type :=
| Number (lexeme : JSString).

(** [Node] of tool-json: any ECMAScript value a query can meet.
    [JUndefined] is the value [undefined], which doubles as the special
    result Nothing of [ValueType]. *)
Inductive Node : Type :=
| JUndefined
| JNull
| JBool (b : bool)
| JNumber (n : JSNumber)
| JString (s : JSString)
| JArray (elements : list Node)
| JObject (members : list (JSString * Node)).

Definition NodeList := list Node.

Definition isString (v : Node) : bool :=
  match v with JString _ => true | _ => false end.
Definition isArray (v : Node) : bool :=
  match v with JArray _ => true | _ => false end.
Definition isObject (v : Node) : bool :=
  match v with JObject _ => true | _ => false end.
Definition isUndefined (v : Node) : bool :=
  match v with JUndefined => true | _ => false end.

(* ================================================================== *)
(** ** Syntax trees ([expression.ts], [selector.ts], [segment.ts], [query.ts]) *)
(* ================================================================== *)

Module DeclaredType.
Inductive t : Type := Value | Logical | Nodes.
Definition eqb (a b : t) : bool :=
  match a, b with
  | Value, Value | Logical, Logical | Nodes, Nodes => true
  | _, _ => false
  end.
End DeclaredType.

Module ComparisonOperator.
Inductive t : Type :=
| Equal | NotEqual | LessThan | LessThanOrEqual
| GreaterThan | GreaterThanOrEqual.
End ComparisonOperator.

Module QueryScope.
Inductive t : Type := Expression | Argument.
End QueryScope.

(** The fields of a [QueryContext] that parsing and evaluation assign. *)
Record QueryState : Type := mkQueryState {
  queryArgument : Node;
  queryScope : option QueryScope.t
}.

Definition ValueType := Node.
Definition LogicalType := bool.
Definition NodesType := NodeList.

(** [ExpressionType = ValueType | LogicalType | NodesType]. *)
Inductive ExpressionType : Type :=
| ValueOf (v : ValueType)
| LogicalOf (b : LogicalType)
| NodesOf (nodes : NodesType).

(** The ECMAScript value behind an [ExpressionType]: the union is not
    tagged at run time. *)
Definition runtimeValue (x : ExpressionType) : Node :=
  match x with
  | ValueOf v => v
  | LogicalOf b => JBool b
  | NodesOf nodes => JArray nodes
  end.

(** [args[i]]. *)
Definition argAt (args : list ExpressionType) (i : nat) : Node :=
  match nth_error args i with
  | Some x => runtimeValue x
  | None => JUndefined
  end.

(** A function extension's [evaluate] receives the arguments and the
    context, may assign the context's fields, and returns or throws. *)
Definition Evaluate (T : Type) : Type :=
  list ExpressionType -> QueryState -> Result T * QueryState.

(** [FunctionExtension = ValueFunctionExtension | LogicalFunctionExtension
    | NodesFunctionExtension] ([function.ts]); [resultType] is fixed by
    the variant. *)
Inductive FunctionExtension : Type :=
| ValueFunctionExtension (name : JSString)
    (parameterTypes : list DeclaredType.t) (evaluate : Evaluate ValueType)
| LogicalFunctionExtension (name : JSString)
    (parameterTypes : list DeclaredType.t) (evaluate : Evaluate LogicalType)
| NodesFunctionExtension (name : JSString)
    (parameterTypes : list DeclaredType.t) (evaluate : Evaluate NodesType).

Definition name (f : FunctionExtension) : JSString :=
  match f with
  | ValueFunctionExtension n _ _
  | LogicalFunctionExtension n _ _
  | NodesFunctionExtension n _ _ => n
  end.

Definition parameterTypes (f : FunctionExtension) : list DeclaredType.t :=
  match f with
  | ValueFunctionExtension _ p _
  | LogicalFunctionExtension _ p _
  | NodesFunctionExtension _ p _ => p
  end.

Definition resultType (f : FunctionExtension) : DeclaredType.t :=
  match f with
  | ValueFunctionExtension _ _ _ => DeclaredType.Value
  | LogicalFunctionExtension _ _ _ => DeclaredType.Logical
  | NodesFunctionExtension _ _ _ => DeclaredType.Nodes
  end.

(** The node identifier of a query expression: ["$"] or ["@"]. *)
Inductive Identifier : Type := RootIdentifier | CurrentIdentifier.

Inductive Selector : Type :=
| NameSelector (name : JSString)
| WildcardSelector
| IndexSelector (index : Z)
| SliceSelector (start end_ step : option Z)
| FilterSelector (expression : Expression)
with Segment : Type :=
| ChildSegment (selectors : list Selector)
| DescendantSegment (selectors : list Selector)
with Expression : Type :=
| OrExpression (operands : list Expression)
| AndExpression (operands : list Expression)
| ComparisonExpression (lhs : Expression) (operator : ComparisonOperator.t)
    (rhs : Expression)
| NotExpression (operand : Expression)
| QueryExpression (identifier : Identifier) (segments : list Segment)
| LiteralExpression (value : Node)
| FunctionExpression (func : FunctionExtension) (args : list Expression).

Record Query : Type := createQuery { segments : list Segment }.

Definition createChildSegment := ChildSegment.
Definition createDescendantSegment := DescendantSegment.
Definition createNameSelector := NameSelector.
Definition createWildcardSelector := WildcardSelector.
Definition createIndexSelector := IndexSelector.
Definition createSliceSelector := SliceSelector.
Definition createFilterSelector := FilterSelector.
Definition createOrExpression := OrExpression.
Definition createAndExpression := AndExpression.
Definition createComparisonExpression := ComparisonExpression.
Definition createNotExpression := NotExpression.
Definition createQueryExpression := QueryExpression.
Definition createLiteralExpression := LiteralExpression.
Definition createFunctionExpression := FunctionExpression.

Definition getExpressionPrecedence (expression : Expression) : Z :=
  match expression with
  | OrExpression _ => 1
  | AndExpression _ => 2
  | ComparisonExpression _ _ _ => 3
  | NotExpression _ => 4
  | QueryExpression _ _ | LiteralExpression _ | FunctionExpression _ _ => 5
  end.

Definition isSingularSelector (selector : Selector) : bool :=
  match selector with
  | NameSelector _ | IndexSelector _ => true
  | _ => false
  end.

Definition isSingularSegment (segment : Segment) : bool :=
  match segment with
  | ChildSegment [selector] => isSingularSelector selector
  | _ => false
  end.

(** [query.segments.every(isSingularSegment)], for a [Query] and for a
    [QueryExpression] alike. *)
Definition isSingularQuery (segments : list Segment) : bool :=
  forallb isSingularSegment segments.

(** The registry of function extensions is an ECMAScript object used as a
    map from names: its own properties, and the object it inherits from.
    An object written as a literal or built by a spread inherits from
    [Object.prototype]; an assignment to the name [__proto__] makes the
    assigned extension object the prototype ([assignExtension]); an
    object of the caller may inherit nothing ([Object.create(null)]).
    An extension object is an ordinary object with the four fields of
    the interface [FunctionExtension], inheriting from
    [Object.prototype]. *)
Inductive Prototype : Type :=
| ObjectPrototype
| ExtensionPrototype (func : FunctionExtension)
| NullPrototype.

(** Own properties, the most recently assigned first. *)
Record Registry : Type := mkRegistry {
  ownProperties : list (JSString * FunctionExtension);
  prototype : Prototype
}.

(** What reading a property of the registry yields when it is not
    [undefined]: a function extension, or a value that is none, such as
    the function [Object] for the name [constructor].  Such a value has
    no property [parameterTypes]. *)
Inductive Property : Type :=
| ExtensionValue (func : FunctionExtension)
| ForeignValue.

(** The context object ([context.ts]): the registry of function
    extensions, looked up by name, and the assignable fields. *)
Record QueryContext : Type := mkQueryContext {
  functionExtensions : option Registry;
  state : QueryState
}.

(** The own property of that name. *)
Fixpoint lookupExtension (exts : list (JSString * FunctionExtension))
    (n : JSString) : option FunctionExtension :=
  match exts with
  | [] => None
  | (k, f) :: rest => if jsstring_eqb k n then Some f else lookupExtension rest n
  end.

(** The property names of [Object.prototype] (ECMA-262, 20.1.3 and
    B.2.2). *)
Definition objectPrototypeNames : list JSString :=
  map js
    [ "constructor"; "hasOwnProperty"; "isPrototypeOf";
      "propertyIsEnumerable"; "toLocaleString"; "toString"; "valueOf";
      "__proto__"; "__defineGetter__"; "__defineSetter__";
      "__lookupGetter__"; "__lookupSetter__" ]%string.

(** The fields of a function extension object ([function.ts]). *)
Definition extensionFieldNames : list JSString :=
  map js ["name"; "parameterTypes"; "resultType"; "evaluate"]%string.

Definition hasName (names : list JSString) (n : JSString) : bool :=
  existsb (jsstring_eqb n) names.

(** A property that is not an own property is looked for along the
    prototype chain.  [__proto__] is an accessor of [Object.prototype]:
    read from the registry, it returns the prototype of the registry. *)
Definition getInherited (proto : Prototype) (n : JSString) : option Property :=
  match proto with
  | ObjectPrototype =>
      if hasName objectPrototypeNames n then Some ForeignValue else None
  | ExtensionPrototype func =>
      if hasName extensionFieldNames n then Some ForeignValue
      else if jsstring_eqb n (js "__proto__") then Some (ExtensionValue func)
      else if hasName objectPrototypeNames n then Some ForeignValue
      else None
  | NullPrototype => None
  end.

(** [registry[name]]. *)
Definition getProperty (registry : Registry) (n : JSString) : option Property :=
  match lookupExtension (ownProperties registry) n with
  | Some func => Some (ExtensionValue func)
  | None => getInherited (prototype registry) n
  end.

(** [context.functionExtensions?.[name]]. *)
Definition getFunctionExtension (context : QueryContext) (n : JSString)
    : option Property :=
  match functionExtensions context with
  | Some registry => getProperty registry n
  | None => None
  end.

Definition withQueryScope (context : QueryContext)
    (scope : option QueryScope.t) : QueryContext :=
  mkQueryContext (functionExtensions context)
    (mkQueryState (queryArgument (state context)) scope).

(* ================================================================== *)
(** ** The input buffer and character classes ([parse.ts]) *)
(* ================================================================== *)

Record InputBuffer : Type := mkInputBuffer {
  input : JSString;
  offset : nat;
  limit : nat
}.

(** [{ input, offset: 0, limit: input.length }]. *)
Definition bufferOf (s : JSString) : InputBuffer :=
  mkInputBuffer s 0 (List.length s).

(** [buf.offset += n]. *)
Definition advance (n : nat) (buf : InputBuffer) : InputBuffer :=
  mkInputBuffer (input buf) (offset buf + n) (limit buf).

(** [buf.offset < buf.limit ? buf.input.charCodeAt(buf.offset) : -1]. *)
Definition peek (buf : InputBuffer) : Z :=
  if (offset buf <? limit buf)%nat then charCodeAt (input buf) (offset buf)
  else -1.

(** [buf.offset < buf.limit && buf.input.charCodeAt(buf.offset) === c]. *)
Definition atChar (c : Z) (buf : InputBuffer) : bool :=
  (offset buf <? limit buf)%nat && (charCodeAt (input buf) (offset buf) =? c).

Definition remaining (buf : InputBuffer) : nat := (limit buf - offset buf)%nat.

Definition isUppercase (c : Z) : bool := (0x41 <=? c) && (c <=? 0x5a).
Definition isLowercase (c : Z) : bool := (0x61 <=? c) && (c <=? 0x7a).
Definition isDigit (c : Z) : bool := (0x30 <=? c) && (c <=? 0x39).

(** [ALPHA = %x41-5A / %x61-7A]. *)
Definition isAlpha (c : Z) : bool := isUppercase c || isLowercase c.

(** [name-first = ALPHA / "_"]. *)
Definition isNameFirstChar (c : Z) : bool := isAlpha c || (c =? 0x5f).

(** [name-char = name-first / DIGIT]. *)
Definition isNameChar (c : Z) : bool := isNameFirstChar c || isDigit c.

Definition isIdentifierChar (c : Z) : bool :=
  isLowercase c || (c =? 0x5f) || isDigit c.

Definition isSpaceChar (c : Z) : bool :=
  (c =? 0x20) || (c =? 0x09) || (c =? 0x0a) || (c =? 0x0d).

Definition isUnescapedStringChar (c : Z) : bool :=
  ((0x20 <=? c) && (c <=? 0x21)) ||
  ((0x23 <=? c) && (c <=? 0x26)) ||
  ((0x28 <=? c) && (c <=? 0x5b)) ||
  ((0x5d <=? c) && (c <=? 0xd7ff)) ||
  ((0xe000 <=? c) && (c <=? 0x10ffff)).

(* ================================================================== *)
(** ** Lexical scanners ([parse.ts]) *)
(* ================================================================== *)

Local Open Scope parse_scope.

(** [while (buf.offset < buf.limit && p(buf.input.charCodeAt(buf.offset)))
    buf.offset += 1;] The counter bounds the iterations by the characters
    left, so it reaches [0] only when [buf.offset >= buf.limit]. *)
Fixpoint scanWhile (p : Z -> bool) (k : nat) (buf : InputBuffer) : InputBuffer :=
  match k with
  | O => buf
  | S k' =>
      if (offset buf <? limit buf)%nat && p (charCodeAt (input buf) (offset buf))
      then scanWhile p k' (advance 1 buf)
      else buf
  end.

Definition skipWhile (p : Z -> bool) (buf : InputBuffer) : InputBuffer :=
  scanWhile p (remaining buf) buf.

(** [S = *B]. *)
Definition parseBlankSpace (buf : InputBuffer) : InputBuffer :=
  skipWhile isSpaceChar buf.

Definition parseFunctionName (buf : InputBuffer)
    : Outcome (JSString * InputBuffer) :=
  let start := offset buf in
  if (limit buf <=? offset buf)%nat
     || negb (isLowercase (charCodeAt (input buf) (offset buf)))
  then Raise (QueryError "Expected identifier" (offset buf))
  else
    let buf := advance 1 buf in
    let buf := skipWhile isIdentifierChar buf in
    Done (slice (input buf) start (offset buf), buf).

Definition parseShorthandName (buf : InputBuffer)
    : Outcome (JSString * InputBuffer) :=
  let start := offset buf in
  if (limit buf <=? offset buf)%nat
     || negb (isNameFirstChar (charCodeAt (input buf) (offset buf)))
  then Raise (QueryError "Expected name" (offset buf))
  else
    let buf := advance 1 buf in
    let buf := skipWhile isNameChar buf in
    Done (slice (input buf) start (offset buf), buf).

(** The digit loop of [parseInt]:
    [value = value * 10 + (c - 0x30)]. *)
Fixpoint parseInt_digits (k : nat) (value : Z) (buf : InputBuffer)
    : Z * InputBuffer :=
  match k with
  | O => (value, buf)
  | S k' =>
      if (offset buf <? limit buf)%nat
         && isDigit (charCodeAt (input buf) (offset buf))
      then parseInt_digits k'
             (value * 10 + (charCodeAt (input buf) (offset buf) - 0x30))
             (advance 1 buf)
      else (value, buf)
  end.

(** [int = "0" / (["-"] DIGIT1 *DIGIT)].  The source accumulates in a
    double; the model keeps the exact integer. *)
Definition parseInt (buf : InputBuffer) : Outcome (Z * InputBuffer) :=
  let c := peek buf in
  if c =? 0x30 then Done (0, advance 1 buf)
  else
    let '(sign, buf, c) :=
      if c =? 0x2d then (-1, advance 1 buf, peek (advance 1 buf))
      else (1, buf, c) in
    if (c <? 0x31) || (0x39 <? c)
    then Raise (QueryError "Expected digit" (offset buf))
    else
      let buf := advance 1 buf in
      let value := c - 0x30 in
      let '(value, buf) := parseInt_digits (remaining buf) value buf in
      Done (value * sign, buf).

(** [number = (int / "-0") [ frac ] [ exp ]]; the result is
    [Number(buf.input.slice(start, buf.offset))]. *)
Definition parseNumber (buf : InputBuffer) : Outcome (JSNumber * InputBuffer) :=
  let start := offset buf in
  let c := peek buf in
  let '(buf, c) :=
    if c =? 0x2d then (advance 1 buf, peek (advance 1 buf)) else (buf, c) in
  if c =? 0x30 then
    let buf := advance 1 buf in
    Done (Number (slice (input buf) start (offset buf)), buf)
  else if (c <? 0x31) || (0x39 <? c) then
    Raise (QueryError "Expected digit" (offset buf))
  else
    let buf := advance 1 buf in
    let buf := skipWhile isDigit buf in
    (* frac = "." 1*DIGIT *)
    buf <-
      (if atChar 0x2e buf then
         let buf := advance 1 buf in
         if (limit buf <=? offset buf)%nat
            || negb (isDigit (charCodeAt (input buf) (offset buf)))
         then Raise (QueryError "Expected fractional part" (offset buf))
         else Done (skipWhile isDigit (advance 1 buf))
       else Done buf) ;;
    (* exp = "e" [ "-" / "+" ] 1*DIGIT *)
    buf <-
      (if (offset buf <? limit buf)%nat
          && ((charCodeAt (input buf) (offset buf) =? 0x45)
              || (charCodeAt (input buf) (offset buf) =? 0x65))
       then
         let buf := advance 1 buf in
         let buf :=
           if charCodeAt (input buf) (offset buf) =? 0x2b then advance 1 buf
           else if charCodeAt (input buf) (offset buf) =? 0x2d then advance 1 buf
           else buf in
         if (limit buf <=? offset buf)%nat
            || negb (isDigit (charCodeAt (input buf) (offset buf)))
         then Raise (QueryError "Expected exponent part" (offset buf))
         else Done (skipWhile isDigit (advance 1 buf))
       else Done buf) ;;
    Done (Number (slice (input buf) start (offset buf)), buf).

Definition parseHexChar (buf : InputBuffer) : Outcome (Z * InputBuffer) :=
  let c := peek buf in
  if (0x30 <=? c) && (c <=? 0x39) then Done (c - 0x30, advance 1 buf)
  else if (0x41 <=? c) && (c <=? 0x46) then Done (c - 0x37, advance 1 buf)
  else if (0x61 <=? c) && (c <=? 0x66) then Done (c - 0x57, advance 1 buf)
  else Raise (QueryError "Expected hex digit" (offset buf)).

(** [(c0 << 12) | (c1 << 8) | (c2 << 4) | c3]; each [parseHexChar]
    advances the buffer by one. *)
Definition parseHexCodePoint (buf : InputBuffer) : Outcome (Z * InputBuffer) :=
  '(c0, buf) <- parseHexChar buf ;;
  '(c1, buf) <- parseHexChar buf ;;
  '(c2, buf) <- parseHexChar buf ;;
  '(c3, buf) <- parseHexChar buf ;;
  Done (Z.lor (Z.lor (Z.lor (Z.shiftl c0 12) (Z.shiftl c1 8)) (Z.shiftl c2 4)) c3,
        buf).

(** The simple escapes of [escapable]: the character an escape letter
    stands for. *)
Definition simpleEscape (c : Z) : option Z :=
  if c =? 0x62 then Some 0x08
  else if c =? 0x66 then Some 0x0c
  else if c =? 0x6e then Some 0x0a
  else if c =? 0x72 then Some 0x0d
  else if c =? 0x74 then Some 0x09
  else if c =? 0x2f then Some 0x2f
  else if c =? 0x5c then Some 0x5c
  else None.

(** The [while (buf.offset < buf.limit)] loop of [parseStringLiteral].
    Every iteration that continues advances the buffer, so a counter one
    above the characters left is never exhausted
    ([parseStringLiteral_loop_post]). *)
Fixpoint parseStringLiteral_loop (k : nat) (quote : Z) (result : JSString)
    (buf : InputBuffer) : Outcome (JSString * InputBuffer) :=
  match k with
  | O => OutOfFuel
  | S k' =>
    if (limit buf <=? offset buf)%nat then Done (result, buf)
    else
      let c := charCodeAt (input buf) (offset buf) in
      if c =? quote then Done (result, advance 1 buf)
      else if isUnescapedStringChar c
              || ((quote =? 0x22) && (c =? 0x27))
              || ((quote =? 0x27) && (c =? 0x22))
      then parseStringLiteral_loop k' quote (result ++ [c]) (advance 1 buf)
      else if c =? 0x5c then
        let buf := advance 1 buf in
        let c := peek buf in
        if ((quote =? 0x22) && (c =? 0x22)) || ((quote =? 0x27) && (c =? 0x27))
        then parseStringLiteral_loop k' quote (result ++ [c]) (advance 1 buf)
        else
          match simpleEscape c with
          | Some e =>
              parseStringLiteral_loop k' quote (result ++ [e]) (advance 1 buf)
          | None =>
            if c =? 0x75 then
              let buf := advance 1 buf in
              '(c0, buf) <- parseHexCodePoint buf ;;
              if (c0 <? 0xd800) || (0xdfff <? c0) then
                (* non-surrogate *)
                parseStringLiteral_loop k' quote (result ++ [c0]) (advance 4 buf)
              else if (0xd800 <=? c0) && (c0 <=? 0xdbff) then
                (* high-surrogate *)
                let buf := advance 4 buf in
                if (limit buf <=? offset buf + 2)%nat
                   || negb (charCodeAt (input buf) (offset buf) =? 0x5c)
                   || negb (charCodeAt (input buf) (offset buf + 1) =? 0x75)
                then Raise (QueryError "Expected low surrogate" (offset buf))
                else
                  let buf := advance 2 buf in
                  '(c1, buf) <- parseHexCodePoint buf ;;
                  if (c1 <? 0xdc00) || (0xdfff <? c1)
                  then Raise (QueryError "Invalid low surrogate" (offset buf))
                  else
                    parseStringLiteral_loop k' quote (result ++ [c0; c1])
                      (advance 4 buf)
              else Raise (QueryError "Unexpected low surrogate" (offset buf))
            else Raise (QueryError "Invalid escape sequence" (offset buf))
          end
      else Raise (QueryError "Invalid string literal character" (offset buf))
  end.

Definition parseStringLiteral (buf : InputBuffer)
    : Outcome (JSString * InputBuffer) :=
  let c := peek buf in
  if (c =? 0x22) || (c =? 0x27) then
    let buf := advance 1 buf in
    parseStringLiteral_loop (S (remaining buf)) c [] buf
  else Raise (QueryError "Expected string literal" (offset buf)).

Definition parseComparisonOperator (buf : InputBuffer)
    : Outcome (option ComparisonOperator.t * InputBuffer) :=
  let c := peek buf in
  if c =? 0x3d then
    let buf := advance 1 buf in
    if negb (atChar 0x3d buf)
    then Raise (QueryError "Expected comparison operator" (offset buf))
    else Done (Some ComparisonOperator.Equal, advance 1 buf)
  else if c =? 0x21 then
    let buf := advance 1 buf in
    if negb (atChar 0x3d buf)
    then Raise (QueryError "Expected comparison operator" (offset buf))
    else Done (Some ComparisonOperator.NotEqual, advance 1 buf)
  else if c =? 0x3c then
    let buf := advance 1 buf in
    if negb (atChar 0x3d buf)
    then Done (Some ComparisonOperator.LessThan, buf)
    else Done (Some ComparisonOperator.LessThanOrEqual, advance 1 buf)
  else if c =? 0x3e then
    let buf := advance 1 buf in
    if negb (atChar 0x3d buf)
    then Done (Some ComparisonOperator.GreaterThan, buf)
    else Done (Some ComparisonOperator.GreaterThanOrEqual, advance 1 buf)
  else Done (None, buf).

(** [name-selector = string-literal]. *)
Definition parseNameSelector (buf : InputBuffer)
    : Outcome (Selector * InputBuffer) :=
  '(name, buf) <- parseStringLiteral buf ;;
  Done (createNameSelector name, buf).

(** [wildcard-selector = "*"]. *)
Definition parseWildcardSelector (buf : InputBuffer)
    : Outcome (Selector * InputBuffer) :=
  if negb (peek buf =? 0x2a)
  then Raise (QueryError "Expected wildcard selector" (offset buf))
  else Done (createWildcardSelector, advance 1 buf).

(** [if (c === "-" || isDigit(c)) { x = parseInt(buf); parseBlankSpace(buf);
    c = ... }], the optional bound of a slice. *)
Definition parseOptionalInt (blank : bool) (buf : InputBuffer)
    : Outcome (option Z * InputBuffer) :=
  let c := peek buf in
  if (c =? 0x2d) || isDigit c then
    '(n, buf) <- parseInt buf ;;
    Done (Some n, if blank then parseBlankSpace buf else buf)
  else Done (None, buf).

Definition parseArraySelector (buf : InputBuffer)
    : Outcome (Selector * InputBuffer) :=
  '(start, buf) <- parseOptionalInt true buf ;;
  if negb (peek buf =? 0x3a) then
    match start with
    | None => Raise (QueryError "Expected index selector" (offset buf))
    | Some index => Done (createIndexSelector index, buf)
    end
  else
    let buf := parseBlankSpace (advance 1 buf) in
    (* [end S] *)
    '(end_, buf) <- parseOptionalInt true buf ;;
    (* [":" [S step]] *)
    '(step, buf) <-
      (if peek buf =? 0x3a
       then parseOptionalInt false (parseBlankSpace (advance 1 buf))
       else Done (None, buf)) ;;
    Done (createSliceSelector start end_ step, buf).

(* ================================================================== *)
(** ** Well-typedness checks ([parse.ts]) *)
(* ================================================================== *)

(** The characters of an ASCII [JSString], for error messages. *)
Fixpoint string_of_js (s : JSString) : string :=
  match s with
  | [] => EmptyString
  | c :: rest => String (ascii_of_nat (Z.to_nat c)) (string_of_js rest)
  end.

Definition string_of_nat (n : nat) : string :=
  DecimalString.NilZero.string_of_uint (Nat.to_uint n).

Definition quoteMark : string := String (ascii_of_nat 34) EmptyString.

Definition arityMessage (func : FunctionExtension) (received : nat) : string :=
  ("Expected " ++ string_of_nat (List.length (parameterTypes func))
   ++ " arguments for function " ++ string_of_js (name func)
   ++ ", but received " ++ string_of_nat received ++ " arguments")%string.

Definition checkLogicalType (expression : Expression) (buf : InputBuffer)
    : Outcome unit :=
  match expression with
  | FunctionExpression func _ =>
      match resultType func with
      | DeclaredType.Value =>
          Raise (QueryError "ValueType function not supported in test expression"
                   (offset buf))
      | DeclaredType.Logical | DeclaredType.Nodes => Done tt
      end
  | _ => Done tt
  end.

Definition checkComparableType (expression : Expression) (buf : InputBuffer)
    : Outcome unit :=
  match expression with
  | FunctionExpression func _ =>
      match resultType func with
      | DeclaredType.Value => Done tt
      | DeclaredType.Logical =>
          Raise (QueryError
                   "LogicalType function not supported in comparison expression"
                   (offset buf))
      | DeclaredType.Nodes =>
          Raise (QueryError
                   "NodesType function not supported in comparison expression"
                   (offset buf))
      end
  | _ => Done tt
  end.

Definition checkValueArgumentType (func : FunctionExtension) (buf : InputBuffer)
    : Outcome unit :=
  match resultType func with
  | DeclaredType.Value => Done tt
  | DeclaredType.Logical =>
      Raise (QueryError
               "LogicalType function not supported in ValueType argument position"
               (offset buf))
  | DeclaredType.Nodes =>
      Raise (QueryError
               "NodesType function not supported in ValueType argument position"
               (offset buf))
  end.

Definition checkLogicalArgumentType (func : FunctionExtension)
    (buf : InputBuffer) : Outcome unit :=
  match resultType func with
  | DeclaredType.Value =>
      Raise (QueryError
               "ValueType function not supported in LogicalType argument position"
               (offset buf))
  | DeclaredType.Logical | DeclaredType.Nodes => Done tt
  end.

Definition checkNodesArgumentType (func : FunctionExtension) (buf : InputBuffer)
    : Outcome unit :=
  match resultType func with
  | DeclaredType.Value =>
      Raise (QueryError
               "ValueType function not supported in NodesType argument position"
               (offset buf))
  | DeclaredType.Logical =>
      Raise (QueryError
               "LogicalType function not supported in NodesType argument position"
               (offset buf))
  | DeclaredType.Nodes => Done tt
  end.

Definition checkArgumentType (parameterType : DeclaredType.t)
    (expression : Expression) (buf : InputBuffer) : Outcome unit :=
  match expression with
  | FunctionExpression func _ =>
      match parameterType with
      | DeclaredType.Value => checkValueArgumentType func buf
      | DeclaredType.Logical => checkLogicalArgumentType func buf
      | DeclaredType.Nodes => checkNodesArgumentType func buf
      end
  | _ =>
      match parameterType with
      | DeclaredType.Value =>
          match expression with
          | QueryExpression _ segments =>
              if negb (isSingularQuery segments) then
                Raise (QueryError
                  "Expected singular query expression in ValueType argument position"
                  (offset buf))
              else Done tt
          | LiteralExpression _ => Done tt
          | _ =>
              Raise (QueryError
                "Expected literal expression in ValueType argument position"
                (offset buf))
          end
      | DeclaredType.Logical =>
          match expression with
          | LiteralExpression _ =>
              Raise (QueryError
                "Expected logical expression in LogicalType argument position"
                (offset buf))
          | _ => Done tt
          end
      | DeclaredType.Nodes =>
          match expression with
          | QueryExpression _ _ => Done tt
          | _ =>
              Raise (QueryError
                "Expected query expression in NodesType argument position"
                (offset buf))
          end
      end
  end.

(** [parseFunctionArguments(func, buf, context)] for a [func] that is no
    function extension ([ForeignValue]): after the opening parenthesis
    and the blank space, the first thing the loop does that involves
    [func] is to read [func.parameterTypes.length], at line 928 when a
    [")"] follows and at line 907 otherwise, and [func.parameterTypes] is
    [undefined]. *)
Definition undefinedLength : string :=
  "Cannot read properties of undefined (reading 'length')".

Definition parseFunctionArguments_foreign (buf : InputBuffer)
    : Outcome (Expression * InputBuffer) :=
  if negb (atChar 0x28 buf)
  then Raise (QueryError "Expected function arguments" (offset buf))
  else Raise (TypeError undefinedLength).

(** [expr.kind === ExpressionKind.Query && !isSingularQuery(expr)]. *)
Definition isNonSingularQueryExpression (expr : Expression) : bool :=
  match expr with
  | QueryExpression _ segments => negb (isSingularQuery segments)
  | _ => false
  end.

(** [if (!Array.isArray(expr)) { expr = [expr]; } expr.push(operand);]. *)
Definition pushOperand (expr : Expression + list Expression)
    (operand : Expression) : Expression + list Expression :=
  match expr with
  | inl e => inr [e; operand]
  | inr operands => inr (operands ++ [operand])
  end.

Definition scopeIsArgument (context : QueryContext) : bool :=
  match queryScope (state context) with
  | Some QueryScope.Argument => true
  | _ => false
  end.

(* ================================================================== *)
(** ** The recursive descent parser ([parse.ts])

    Each function is the buffer form of the source function of the same
    name; the [while (true)] loops of [parseSegment], [parseOrExpression],
    [parseAndExpression] and [parseFunctionArguments] are the [_loop]
    functions.  [context.queryScope] is assigned around a nested parse and
    restored in a [finally] block, so the callee sees the new scope and the
    caller continues with its own: the context is passed down. *)
(* ================================================================== *)

Fixpoint parseSegments (fuel : nat) (context : QueryContext)
    (segments : list Segment) (buf : InputBuffer) {struct fuel}
    : Outcome (list Segment * InputBuffer) :=
  match fuel with
  | O => OutOfFuel
  | S fuel =>
      let buf := parseBlankSpace buf in
      '(segment, buf) <- parseSegment_buf fuel context buf ;;
      match segment with
      | Some segment => parseSegments fuel context (segments ++ [segment]) buf
      | None => Done (segments, buf)
      end
  end

with parseSegment_buf (fuel : nat) (context : QueryContext) (buf : InputBuffer)
    {struct fuel} : Outcome (option Segment * InputBuffer) :=
  match fuel with
  | O => OutOfFuel
  | S fuel =>
      (* bracketed-selection = "[" S selector *(S "," S selector) S "]" *)
      let bracketed (dotCount : nat) (buf : InputBuffer) :=
        if negb (peek buf =? 0x5b) then
          if (dotCount =? 0)%nat then Done (None, buf)
          else Raise (QueryError "Expected bracketed selection" (offset buf))
        else
          let buf := parseBlankSpace (advance 1 buf) in
          '(selectors, buf) <- parseSegment_loop fuel context [] 0%nat buf ;;
          Done (Some (if negb (dotCount =? 2)%nat
                      then createChildSegment selectors
                      else createDescendantSegment selectors), buf) in
      let c := peek buf in
      if c =? 0x2e then
        let buf := advance 1 buf in
        let c := peek buf in
        let '(dotCount, buf, c) :=
          if c =? 0x2e then (2%nat, advance 1 buf, peek (advance 1 buf))
          else (1%nat, buf, c) in
        if c =? 0x2a then
          let selector := createWildcardSelector in
          Done (Some (if (dotCount =? 1)%nat
                      then createChildSegment [selector]
                      else createDescendantSegment [selector]),
                advance 1 buf)
        else if isNameFirstChar c then
          '(name, buf) <- parseShorthandName buf ;;
          let selector := createNameSelector name in
          Done (Some (if (dotCount =? 1)%nat
                      then createChildSegment [selector]
                      else createDescendantSegment [selector]), buf)
        else if (dotCount =? 1)%nat then
          Raise (QueryError "Expected dot segment" (offset buf))
        else bracketed dotCount buf
      else bracketed 0%nat buf
  end

with parseSegment_loop (fuel : nat) (context : QueryContext)
    (selectors : list Selector) (selectorCount : nat) (buf : InputBuffer)
    {struct fuel} : Outcome (list Selector * InputBuffer) :=
  match fuel with
  | O => OutOfFuel
  | S fuel =>
      if atChar 0x5d buf then Done (selectors, advance 1 buf)
      else
        buf <-
          (if negb (selectorCount =? 0)%nat then
             if negb (atChar 0x2c buf)
             then Raise (QueryError "Expected comma" (offset buf))
             else Done (parseBlankSpace (advance 1 buf))
           else Done buf) ;;
        '(selector, buf) <- parseSelector_buf fuel context buf ;;
        parseSegment_loop fuel context (selectors ++ [selector])
          (selectorCount + 1)%nat (parseBlankSpace buf)
  end

with parseSelector_buf (fuel : nat) (context : QueryContext) (buf : InputBuffer)
    {struct fuel} : Outcome (Selector * InputBuffer) :=
  match fuel with
  | O => OutOfFuel
  | S fuel =>
      let c := peek buf in
      if (c =? 0x22) || (c =? 0x27) then parseNameSelector buf
      else if c =? 0x2a then parseWildcardSelector buf
      else if (c =? 0x2d) || isDigit c || (c =? 0x3a) then parseArraySelector buf
      else if c =? 0x3f then parseFilterSelector fuel context buf
      else Raise (QueryError "Expected selector" (offset buf))
  end

with parseFilterSelector (fuel : nat) (context : QueryContext)
    (buf : InputBuffer) {struct fuel} : Outcome (Selector * InputBuffer) :=
  match fuel with
  | O => OutOfFuel
  | S fuel =>
      (* filter-selector = "?" S logical-expr *)
      if negb (atChar 0x3f buf)
      then Raise (QueryError "Expected filter selector" (offset buf))
      else
        let buf := parseBlankSpace (advance 1 buf) in
        '(expression, buf) <-
          parseExpression_buf fuel
            (withQueryScope context (Some QueryScope.Expression)) buf ;;
        Done (createFilterSelector expression, buf)
  end

with parseExpression_buf (fuel : nat) (context : QueryContext)
    (buf : InputBuffer) {struct fuel} : Outcome (Expression * InputBuffer) :=
  match fuel with
  | O => OutOfFuel
  | S fuel => parseOrExpression fuel context buf
  end

with parseOrExpression (fuel : nat) (context : QueryContext)
    (buf : InputBuffer) {struct fuel} : Outcome (Expression * InputBuffer) :=
  match fuel with
  | O => OutOfFuel
  | S fuel =>
      (* logical-or-expr = logical-and-expr *(S "||" S logical-and-expr) *)
      '(expr, buf) <- parseAndExpression fuel context buf ;;
      '(expr, buf) <- parseOrExpression_loop fuel context (inl expr) buf ;;
      match expr with
      | inr operands => Done (createOrExpression operands, buf)
      | inl expr => Done (expr, buf)
      end
  end

with parseOrExpression_loop (fuel : nat) (context : QueryContext)
    (expr : Expression + list Expression) (buf : InputBuffer) {struct fuel}
    : Outcome ((Expression + list Expression) * InputBuffer) :=
  match fuel with
  | O => OutOfFuel
  | S fuel =>
      let buf := parseBlankSpace buf in
      if negb (atChar 0x7c buf) then Done (expr, buf)
      else
        let buf := advance 1 buf in
        if negb (atChar 0x7c buf)
        then Raise (QueryError "Expected || operator" (offset buf))
        else
          let buf := parseBlankSpace (advance 1 buf) in
          '(operand, buf) <- parseAndExpression fuel context buf ;;
          parseOrExpression_loop fuel context (pushOperand expr operand) buf
  end

with parseAndExpression (fuel : nat) (context : QueryContext)
    (buf : InputBuffer) {struct fuel} : Outcome (Expression * InputBuffer) :=
  match fuel with
  | O => OutOfFuel
  | S fuel =>
      (* logical-and-expr = basic-expr *(S "&&" S basic-expr) *)
      '(expr, buf) <- parseBasicExpression fuel context buf ;;
      '(expr, buf) <- parseAndExpression_loop fuel context (inl expr) buf ;;
      match expr with
      | inr operands => Done (createAndExpression operands, buf)
      | inl expr => Done (expr, buf)
      end
  end

with parseAndExpression_loop (fuel : nat) (context : QueryContext)
    (expr : Expression + list Expression) (buf : InputBuffer) {struct fuel}
    : Outcome ((Expression + list Expression) * InputBuffer) :=
  match fuel with
  | O => OutOfFuel
  | S fuel =>
      let buf := parseBlankSpace buf in
      if negb (atChar 0x26 buf) then Done (expr, buf)
      else
        let buf := advance 1 buf in
        if negb (atChar 0x26 buf)
        then Raise (QueryError "Expected && operator" (offset buf))
        else
          let buf := parseBlankSpace (advance 1 buf) in
          '(operand, buf) <- parseBasicExpression fuel context buf ;;
          parseAndExpression_loop fuel context (pushOperand expr operand) buf
  end

with parseBasicExpression (fuel : nat) (context : QueryContext)
    (buf : InputBuffer) {struct fuel} : Outcome (Expression * InputBuffer) :=
  match fuel with
  | O => OutOfFuel
  | S fuel =>
      (* [logical-not-op S] *)
      let '(unaryOp, buf) :=
        if atChar 0x21 buf then (0x21, parseBlankSpace (advance 1 buf))
        else (-1, buf) in
      let c := peek buf in
      '(expr, buf) <-
        (if c =? 0x28 then parseParenExpression fuel context buf
         else
           (* comparison-expr = comparable [S comparison-op S comparable] *)
           '(expr, buf) <- parseComparable fuel context buf ;;
           let exprOffset := offset buf in
           if unaryOp =? -1 then
             let buf := parseBlankSpace buf in
             '(operator, buf) <- parseComparisonOperator buf ;;
             match operator with
             | Some operator =>
                 let buf := parseBlankSpace buf in
                 if isNonSingularQueryExpression expr then
                   Raise (QueryError "Only singular queries can be compared"
                            exprOffset)
                 else
                   _ <- checkComparableType expr buf ;;
                   '(rhs, buf) <- parseComparable fuel context buf ;;
                   if isNonSingularQueryExpression rhs then
                     Raise (QueryError "Only singular queries can be compared"
                              (offset buf))
                   else
                     _ <- checkComparableType rhs buf ;;
                     Done (createComparisonExpression expr operator rhs, buf)
             | None =>
                 if negb (scopeIsArgument context) then
                   _ <- checkLogicalType expr buf ;; Done (expr, buf)
                 else Done (expr, buf)
             end
           else if negb (scopeIsArgument context) then
             _ <- checkLogicalType expr buf ;; Done (expr, buf)
           else Done (expr, buf)) ;;
      Done (if unaryOp =? 0x21 then createNotExpression expr else expr, buf)
  end

with parseParenExpression (fuel : nat) (context : QueryContext)
    (buf : InputBuffer) {struct fuel} : Outcome (Expression * InputBuffer) :=
  match fuel with
  | O => OutOfFuel
  | S fuel =>
      if negb (atChar 0x28 buf)
      then Raise (QueryError "Expected open parenthesis" (offset buf))
      else
        (* S logical-expr S *)
        let buf := parseBlankSpace (advance 1 buf) in
        '(expression, buf) <- parseExpression_buf fuel context buf ;;
        let buf := parseBlankSpace buf in
        if negb (atChar 0x29 buf)
        then Raise (QueryError "Expected close parenthesis" (offset buf))
        else Done (expression, advance 1 buf)
  end

with parseComparable (fuel : nat) (context : QueryContext) (buf : InputBuffer)
    {struct fuel} : Outcome (Expression * InputBuffer) :=
  match fuel with
  | O => OutOfFuel
  | S fuel =>
      (* comparable = literal / singular-query / function-expr *)
      let c := peek buf in
      if c =? 0x40 then
        '(segments, buf) <- parseSegments fuel context [] (advance 1 buf) ;;
        Done (createQueryExpression CurrentIdentifier segments, buf)
      else if c =? 0x24 then
        '(segments, buf) <- parseSegments fuel context [] (advance 1 buf) ;;
        Done (createQueryExpression RootIdentifier segments, buf)
      else if (c =? 0x22) || (c =? 0x27) then
        '(value, buf) <- parseStringLiteral buf ;;
        Done (createLiteralExpression (JString value), buf)
      else if (c =? 0x2d) || isDigit c then
        '(value, buf) <- parseNumber buf ;;
        Done (createLiteralExpression (JNumber value), buf)
      else if negb (isLowercase c) then
        Raise (QueryError "Expected comparable expression" (offset buf))
      else
        '(name, buf) <- parseFunctionName buf ;;
        if jsstring_eqb name (js "true") then
          Done (createLiteralExpression (JBool true), buf)
        else if jsstring_eqb name (js "false") then
          Done (createLiteralExpression (JBool false), buf)
        else if jsstring_eqb name (js "null") then
          Done (createLiteralExpression JNull, buf)
        else
          match getFunctionExtension context name with
          | None =>
              Raise (QueryError
                       ("Unknown function " ++ quoteMark ++ string_of_js name
                        ++ quoteMark)%string (offset buf))
          | Some (ExtensionValue func) =>
              parseFunctionArguments fuel context func buf
          | Some ForeignValue => parseFunctionArguments_foreign buf
          end
  end

with parseFunctionArguments (fuel : nat) (context : QueryContext)
    (func : FunctionExtension) (buf : InputBuffer) {struct fuel}
    : Outcome (Expression * InputBuffer) :=
  match fuel with
  | O => OutOfFuel
  | S fuel =>
      if negb (atChar 0x28 buf)
      then Raise (QueryError "Expected function arguments" (offset buf))
      else
        let buf := parseBlankSpace (advance 1 buf) in
        '(args, buf) <- parseFunctionArguments_loop fuel context func [] buf ;;
        if negb (List.length args =? List.length (parameterTypes func))%nat
        then Raise (QueryError (arityMessage func (List.length args))
                      (offset buf))
        else Done (createFunctionExpression func args, buf)
  end

with parseFunctionArguments_loop (fuel : nat) (context : QueryContext)
    (func : FunctionExtension) (args : list Expression) (buf : InputBuffer)
    {struct fuel} : Outcome (list Expression * InputBuffer) :=
  match fuel with
  | O => OutOfFuel
  | S fuel =>
      if atChar 0x29 buf then Done (args, advance 1 buf)
      else
        buf <-
          (if negb (List.length args =? 0)%nat then
             if negb (atChar 0x2c buf)
             then Raise (QueryError "Expected comma" (offset buf))
             else Done (parseBlankSpace (advance 1 buf))
           else Done buf) ;;
        if (List.length (parameterTypes func) <=? List.length args)%nat
        then Done (args, buf)
        else
          '(arg, buf) <-
            parseExpression_buf fuel
              (withQueryScope context (Some QueryScope.Argument)) buf ;;
          let parameterType :=
            nth (List.length args) (parameterTypes func) DeclaredType.Value in
          _ <- checkArgumentType parameterType arg buf ;;
          parseFunctionArguments_loop fuel context func (args ++ [arg])
            (parseBlankSpace buf)
  end.

(* ================================================================== *)
(** ** Parser entry points ([parse.ts])

    The string forms: build the buffer, parse, and require that the whole
    input was consumed.  [context] is the coerced context
    ([coerceQueryContext(options)]). *)
(* ================================================================== *)

Definition parseQuery_fuel (fuel : nat) (input : JSString)
    (context : QueryContext) : Outcome Query :=
  let buf := bufferOf input in
  (* root-identifier = "$" *)
  let c := peek buf in
  if negb (c =? 0x24) then
    Raise (QueryError
             ("Expected root identifier (" ++ quoteMark ++ "$" ++ quoteMark
              ++ ")")%string (offset buf))
  else
    '(segments, buf) <- parseSegments fuel context [] (advance 1 buf) ;;
    if negb (offset buf =? List.length input)%nat
    then Raise (QueryError "Invalid JSONPath query" (offset buf))
    else Done (createQuery segments).

Definition parseImplicitQuery_fuel (fuel : nat) (input : JSString)
    (context : QueryContext) : Outcome Query :=
  let buf := bufferOf input in
  let c := peek buf in
  '(segments, buf) <-
    (if c =? 0x24 then Done ([], advance 1 buf)
     else if c =? 0x2a then
       Done ([createChildSegment [createWildcardSelector]], advance 1 buf)
     else if isNameFirstChar c then
       '(name, buf) <- parseShorthandName buf ;;
       Done ([createChildSegment [createNameSelector name]], buf)
     else if isSpaceChar c then
       Raise (QueryError "Expected JSONPath query" (offset buf))
     else Done ([], buf)) ;;
  '(segments, buf) <- parseSegments fuel context segments buf ;;
  if negb (offset buf =? List.length input)%nat
  then Raise (QueryError "Invalid JSONPath query" (offset buf))
  else Done (createQuery segments).

Definition parseSegment_fuel (fuel : nat) (input : JSString)
    (context : QueryContext) : Outcome (option Segment) :=
  '(segment, buf) <- parseSegment_buf fuel context (bufferOf input) ;;
  if negb (offset buf =? List.length input)%nat
  then Raise (QueryError "Invalid JSONPath segment" (offset buf))
  else Done segment.

Definition parseSelector_fuel (fuel : nat) (input : JSString)
    (context : QueryContext) : Outcome Selector :=
  '(selector, buf) <- parseSelector_buf fuel context (bufferOf input) ;;
  if negb (offset buf =? List.length input)%nat
  then Raise (QueryError "Invalid JSONPath selector" (offset buf))
  else Done selector.

Definition parseExpression_fuel (fuel : nat) (input : JSString)
    (context : QueryContext) : Outcome Expression :=
  '(expression, buf) <- parseExpression_buf fuel context (bufferOf input) ;;
  if negb (offset buf =? List.length input)%nat
  then Raise (QueryError "Invalid JSONPath expression" (offset buf))
  else Done expression.

(** The fuel of the functions above bounds the depth of their calls: a
    run with [fuel] is the parser on an engine whose call stack holds
    [fuel] nested calls of it.  [parseFuel] is a depth that no input
    reaches: ten calls for every character and ten more
    ([parser_spec]). *)
Definition parseFuel (input : JSString) : nat := 10 * S (List.length input).

(** The result of a run: the exception of the engine where the depth is
    exhausted.  The entry points below run with [parseFuel] and never
    take the last case ([parseQuery_total], [parseSegment_total]): they
    are the parser on an engine whose call stack suffices for the
    input.  On an engine where it does not, the source throws a
    [RangeError] for an input nested deeper than the stack holds. *)
Definition completed {A : Type} (o : Outcome A) : Result A :=
  match o with
  | Done a => Ok a
  | Raise e => Throw e
  | OutOfFuel => Throw (HostError "Maximum call stack size exceeded")
  end.

Definition parseQuery (input : JSString) (context : QueryContext)
    : Result Query :=
  completed (parseQuery_fuel (parseFuel input) input context).

Definition parseImplicitQuery (input : JSString) (context : QueryContext)
    : Result Query :=
  completed (parseImplicitQuery_fuel (parseFuel input) input context).

Definition parseSegment (input : JSString) (context : QueryContext)
    : Result (option Segment) :=
  completed (parseSegment_fuel (parseFuel input) input context).

Definition parseSelector (input : JSString) (context : QueryContext)
    : Result Selector :=
  completed (parseSelector_fuel (parseFuel input) input context).

Definition parseExpression (input : JSString) (context : QueryContext)
    : Result Expression :=
  completed (parseExpression_fuel (parseFuel input) input context).

(** [try { return parse(input, options); } catch { return undefined; }]. *)
Definition orUndefined {A : Type} (r : Result A) : option A :=
  match r with
  | Ok a => Some a
  | Throw _ => None
  end.

Definition tryParseQuery (input : JSString) (context : QueryContext)
    : option Query := orUndefined (parseQuery input context).

Definition tryParseImplicitQuery (input : JSString) (context : QueryContext)
    : option Query := orUndefined (parseImplicitQuery input context).

Definition tryParseSegment (input : JSString) (context : QueryContext)
    : option Segment :=
  match parseSegment input context with
  | Ok segment => segment
  | Throw _ => None
  end.

Definition tryParseSelector (input : JSString) (context : QueryContext)
    : option Selector := orUndefined (parseSelector input context).

Definition tryParseExpression (input : JSString) (context : QueryContext)
    : option Expression := orUndefined (parseExpression input context).

(* ================================================================== *)
(** ** The host *)
(* ================================================================== *)

(** What the sources take from outside the repository: value equality and
    ordering and the scalar-value length of tool-json, and the regular
    expressions and [JSON.stringify] of ECMAScript. *)
Record Host : Type := mkHost {
  (** [equal(a, b)] of tool-json. *)
  equal : Node -> Node -> bool;
  (** [compare(a, b)] of tool-json: a negative, zero or positive number,
      or [None] for [undefined]. *)
  compare : Node -> Node -> option Z;
  (** [unicodeLength(s)] of tool-json. *)
  unicodeLength : JSString -> nat;
  (** [new RegExp(pattern).test(value)]; [None] when the constructor
      throws a [SyntaxError]. *)
  RegExp_test : JSString -> JSString -> option bool;
  (** [JSON.stringify(value)] for a number, array or object. *)
  JSON_stringify : Node -> JSString
}.

(* ================================================================== *)
(** ** The formatter ([format.ts]) *)
(* ================================================================== *)

(** The loop of [isValidShorthandName] from index 1. *)
Definition isValidShorthandName (name : JSString) : bool :=
  match name with
  | [] => false
  | c :: rest => isNameFirstChar c && forallb isNameChar rest
  end.

Definition formatStringLiteral_char (c : Z) : JSString :=
  if isUnescapedStringChar c || (c =? 0x22) then [c]
  else if c =? 0x27 then js "\'"
  else if c =? 0x08 then js "\b"
  else if c =? 0x0c then js "\f"
  else if c =? 0x0a then js "\n"
  else if c =? 0x0d then js "\r"
  else if c =? 0x09 then js "\t"
  else if c =? 0x2f then js "\/"
  else if c =? 0x5c then js "\\"
  else js "\u" ++ toHex4 c.

Definition formatStringLiteral (value : JSString) : JSString :=
  js "'" ++ flat_map formatStringLiteral_char value ++ js "'".

Definition formatNameSelector (name : JSString) : JSString :=
  formatStringLiteral name.

Definition formatIndexSelector (index : Z) : JSString := String_of_int index.

Definition formatSliceSelector (start end_ step : option Z) : JSString :=
  (match start with Some n => String_of_int n | None => [] end)
  ++ js ":"
  ++ (match end_ with Some n => String_of_int n | None => [] end)
  ++ (match step with Some n => js ":" ++ String_of_int n | None => [] end).

Definition formatComparisonOperator (operator : ComparisonOperator.t)
    : JSString :=
  match operator with
  | ComparisonOperator.Equal => js " == "
  | ComparisonOperator.NotEqual => js " != "
  | ComparisonOperator.LessThan => js " < "
  | ComparisonOperator.LessThanOrEqual => js " <= "
  | ComparisonOperator.GreaterThan => js " > "
  | ComparisonOperator.GreaterThanOrEqual => js " >= "
  end.

(** [for (i ...) { if (i !== 0) output += sep; output += items[i]; }]. *)
Fixpoint joinWith (sep : JSString) (items : list JSString) : JSString :=
  match items with
  | [] => []
  | [x] => x
  | x :: rest => x ++ sep ++ joinWith sep rest
  end.

(** [parenthesizeExpression] around an already formatted operand: the
    parentheses are added when the operand's precedence is below the
    required one. *)
Definition parenthesized (expression : Expression) (requiredPrecedence : Z)
    (formatted : JSString) : JSString :=
  let precedence := getExpressionPrecedence expression in
  (if precedence <? requiredPrecedence then js "(" else [])
  ++ formatted
  ++ (if precedence <? requiredPrecedence then js ")" else []).

Definition formatIdentifier (identifier : Identifier) : JSString :=
  match identifier with
  | RootIdentifier => js "$"
  | CurrentIdentifier => js "@"
  end.

Section Format.
Variable host : Host.

Definition formatLiteralExpression (value : Node) : JSString :=
  match value with
  | JString s => formatStringLiteral s
  | JNull => js "null"
  | JBool true => js "true"
  | JBool false => js "false"
  | JUndefined => js "undefined"
  | _ => JSON_stringify host value
  end.

Fixpoint formatSelector (selector : Selector) {struct selector} : JSString :=
  match selector with
  | NameSelector name => formatNameSelector name
  | WildcardSelector => js "*"
  | IndexSelector index => formatIndexSelector index
  | SliceSelector start end_ step => formatSliceSelector start end_ step
  | FilterSelector expression => js "?" ++ formatExpression expression
  end

with formatSegment (segment : Segment) {struct segment} : JSString :=
  match segment with
  | ChildSegment selectors =>
      let bracketed :=
        js "[" ++ joinWith (js ", ") (map formatSelector selectors) ++ js "]" in
      match selectors with
      | [NameSelector name] =>
          if isValidShorthandName name then js "." ++ name else bracketed
      | [WildcardSelector] => js ".*"
      | _ => bracketed
      end
  | DescendantSegment selectors =>
      let bracketed :=
        js "..[" ++ joinWith (js ", ") (map formatSelector selectors)
        ++ js "]" in
      match selectors with
      | [NameSelector name] =>
          if isValidShorthandName name then js ".." ++ name else bracketed
      | [WildcardSelector] => js "..*"
      | _ => bracketed
      end
  end

with formatExpression (expression : Expression) {struct expression}
    : JSString :=
  match expression with
  | OrExpression operands =>
      joinWith (js " || ")
        (map (fun operand => parenthesized operand 1 (formatExpression operand))
           operands)
  | AndExpression operands =>
      joinWith (js " && ")
        (map (fun operand => parenthesized operand 2 (formatExpression operand))
           operands)
  | ComparisonExpression lhs operator rhs =>
      parenthesized lhs 3 (formatExpression lhs)
      ++ formatComparisonOperator operator
      ++ parenthesized rhs 3 (formatExpression rhs)
  | NotExpression operand =>
      js "!" ++ parenthesized operand 4 (formatExpression operand)
  | QueryExpression identifier segments =>
      formatIdentifier identifier ++ List.concat (map formatSegment segments)
  | LiteralExpression value => formatLiteralExpression value
  | FunctionExpression func args =>
      name func ++ js "("
      ++ joinWith (js ", ") (map formatExpression args) ++ js ")"
  end.

Definition parenthesizeExpression (expression : Expression)
    (requiredPrecedence : Z) : JSString :=
  parenthesized expression requiredPrecedence (formatExpression expression).

Definition formatChildSegment (selectors : list Selector) : JSString :=
  formatSegment (ChildSegment selectors).
Definition formatDescendantSegment (selectors : list Selector) : JSString :=
  formatSegment (DescendantSegment selectors).
Definition formatOrExpression (operands : list Expression) : JSString :=
  formatExpression (OrExpression operands).
Definition formatAndExpression (operands : list Expression) : JSString :=
  formatExpression (AndExpression operands).
Definition formatQueryExpression (identifier : Identifier)
    (segments : list Segment) : JSString :=
  formatExpression (QueryExpression identifier segments).

Definition formatQuery (query : Query) : JSString :=
  js "$" ++ List.concat (map formatSegment (segments query)).

End Format.

(* ================================================================== *)
(** ** Intrinsic function extensions ([function.ts]) *)
(* ================================================================== *)

(** The number [n] as an ECMAScript value. *)
Definition numberOfNat (n : nat) : Node :=
  JNumber (Number (String_of_int (Z.of_nat n))).

(** Returns the singular node in the given nodelist, or [undefined] if
    the nodelist is empty or contains more than one node. *)
Definition singularValue (nodes : NodesType) : ValueType :=
  match nodes with
  | [node] => node
  | _ => JUndefined
  end.

(** [args[0] as NodesType]: the cast is not checked at run time.  A
    nodelist is an array; reading [length] of [undefined] or [null]
    throws, and the other values are treated as having no [length]. *)
Definition asNodesType (v : Node) : Result (option NodesType) :=
  match v with
  | JArray nodes => Ok (Some nodes)
  | JString s => Ok (Some (map (fun c => JString [c]) s))
  | JUndefined | JNull =>
      Throw (TypeError "Cannot read properties of undefined (reading 'length')")
  | _ => Ok None
  end.

Section Intrinsics.
Variable host : Host.

Definition lengthFunction : FunctionExtension :=
  ValueFunctionExtension (js "length") [DeclaredType.Value]
    (fun args context =>
       let value := argAt args 0 in
       (Ok match value with
           | JString s => numberOfNat (unicodeLength host s)
           | JArray elements => numberOfNat (List.length elements)
           | JObject members => numberOfNat (List.length members)
           | _ => JUndefined
           end, context)).

Definition countFunction : FunctionExtension :=
  ValueFunctionExtension (js "count") [DeclaredType.Nodes]
    (fun args context =>
       (match asNodesType (argAt args 0) with
        | Ok (Some nodes) => Ok (numberOfNat (List.length nodes))
        | Ok None => Ok JUndefined
        | Throw e => Throw e
        end, context)).

Definition matchFunction : FunctionExtension :=
  LogicalFunctionExtension (js "match")
    [DeclaredType.Value; DeclaredType.Value]
    (fun args context =>
       let value := argAt args 0 in
       let regex := argAt args 1 in
       (match value, regex with
        | JString value, JString regex =>
            match RegExp_test host (js "^(?:" ++ regex ++ js ")$") value with
            | Some b => Ok b
            | None => Throw (SyntaxError "Invalid regular expression")
            end
        | _, _ => Ok false
        end, context)).

Definition searchFunction : FunctionExtension :=
  LogicalFunctionExtension (js "search")
    [DeclaredType.Value; DeclaredType.Value]
    (fun args context =>
       let value := argAt args 0 in
       let regex := argAt args 1 in
       (match value, regex with
        | JString value, JString regex =>
            match RegExp_test host regex value with
            | Some b => Ok b
            | None => Throw (SyntaxError "Invalid regular expression")
            end
        | _, _ => Ok false
        end, context)).

Definition valueFunction : FunctionExtension :=
  ValueFunctionExtension (js "value") [DeclaredType.Nodes]
    (fun args context =>
       (match asNodesType (argAt args 0) with
        | Ok (Some nodes) => Ok (singularValue nodes)
        | Ok None => Ok JUndefined
        | Throw e => Throw e
        end, context)).

(** The object literal [intrinsicFunctions]. *)
Definition intrinsicFunctions : Registry :=
  mkRegistry
    [ (name lengthFunction, lengthFunction);
      (name countFunction, countFunction);
      (name matchFunction, matchFunction);
      (name searchFunction, searchFunction);
      (name valueFunction, valueFunction) ]
    ObjectPrototype.

(* ---------------------------------------------------------------- *)
(** *** Contexts ([context.ts]) *)

(** [functionExtensions] is an array of extensions or an object that
    maps names to extensions, given by its own enumerable properties;
    [queryArgument] is [undefined] when absent. *)
Record QueryContextOptions : Type := mkQueryContextOptions {
  optFunctionExtensions :
    option (list FunctionExtension + list (JSString * FunctionExtension));
  optQueryArgument : Node
}.

(** [{ ...object }]: a new object with the own properties of [object],
    inheriting from [Object.prototype]. *)
Definition spread (own : list (JSString * FunctionExtension)) : Registry :=
  mkRegistry own ObjectPrototype.

(** [functionExtensions[functionExtension.name] = functionExtension], an
    ordinary assignment.  The name [__proto__], when it is no own property
    and the object inherits from [Object.prototype], reaches the setter of
    that accessor, which makes the assigned object the prototype of the
    registry.  Every other name becomes an own property, or replaces
    it: the data properties along the prototype chain are writable. *)
Definition assignExtension (registry : Registry) (func : FunctionExtension)
    : Registry :=
  let own := (name func, func) :: ownProperties registry in
  if jsstring_eqb (name func) (js "__proto__") then
    match lookupExtension (ownProperties registry) (name func),
          prototype registry with
    | Some _, _ | None, NullPrototype => mkRegistry own (prototype registry)
    | None, _ => mkRegistry (ownProperties registry) (ExtensionPrototype func)
    end
  else mkRegistry own (prototype registry).

(** [initQueryContext] on a context that has none of the query fields
    yet: the intrinsics, then the extensions of the options (for an
    array, a spread of the intrinsics and one assignment for each
    extension; for an object, a spread of both), then the query
    argument. *)
Definition initQueryContext (options : option QueryContextOptions)
    : QueryContext :=
  let functionExtensions :=
    match options with
    | Some (mkQueryContextOptions (Some (inl array)) _) =>
        fold_left assignExtension array
          (spread (ownProperties intrinsicFunctions))
    | Some (mkQueryContextOptions (Some (inr mapping)) _) =>
        spread (mapping ++ ownProperties intrinsicFunctions)
    | _ => intrinsicFunctions
    end in
  let queryArgument :=
    match options with
    | Some o => optQueryArgument o
    | None => JUndefined
    end in
  mkQueryContext (Some functionExtensions) (mkQueryState queryArgument None).

Definition createQueryContext (options : option QueryContextOptions)
    : QueryContext := initQueryContext options.

(** Returns [options] itself if it is already a query context. *)
Definition coerceQueryContext
    (options : option (QueryContextOptions + QueryContext)) : QueryContext :=
  match options with
  | Some (inr context) => context
  | Some (inl options) => initQueryContext (Some options)
  | None => initQueryContext None
  end.

End Intrinsics.

(* ================================================================== *)
(** ** JSON access

    tool-json is a dependency, not part of the repository; its accessors
    are written out from section 6 of the specification. *)
(* ================================================================== *)

(** Modelled from the spec: [getChildren(n)] of tool-json, the ordered
    children of a node: array elements, object member values. *)
Definition getChildren (node : Node) : NodeList :=
  match node with
  | JArray elements => elements
  | JObject members => map snd members
  | _ => []
  end.

Fixpoint lookupMember (members : list (JSString * Node)) (key : JSString)
    : Node :=
  match members with
  | [] => JUndefined
  | (k, v) :: rest => if jsstring_eqb k key then v else lookupMember rest key
  end.

(** Modelled from the spec: [getChild(n, k)] of tool-json, the value of
    member [k] of an object, [undefined] otherwise. *)
Definition getChild (node : Node) (key : JSString) : Node :=
  match node with
  | JObject members => lookupMember members key
  | _ => JUndefined
  end.

(** Modelled from the spec: [getDescendants(n)] of tool-json, the
    descendants of a node in pre-order. *)
Fixpoint getDescendants (node : Node) : NodeList :=
  match node with
  | JArray elements =>
      flat_map (fun child => child :: getDescendants child) elements
  | JObject members =>
      flat_map (fun member =>
                  match member with
                  | (_, child) => child :: getDescendants child
                  end) members
  | _ => []
  end.

(* ================================================================== *)
(** ** The evaluator ([evaluate.ts]) *)
(* ================================================================== *)

(** A step of evaluation: it reads and assigns the context's fields and
    returns or throws. *)
Definition Eval (A : Type) : Type := QueryState -> Result A * QueryState.

Definition ret {A} (a : A) : Eval A := fun context => (Ok a, context).

Definition throw {A} (e : Error) : Eval A := fun context => (Throw e, context).

Definition bind {A B} (m : Eval A) (k : A -> Eval B) : Eval B :=
  fun context =>
    match m context with
    | (Ok a, context') => k a context'
    | (Throw e, context') => (Throw e, context')
    end.

(** [try { body } finally { context.queryArgument = saved; }]. *)
Definition tryFinally {A} (body : Eval A) (cleanup : QueryState -> QueryState)
    : Eval A :=
  fun context => let '(r, context') := body context in (r, cleanup context').

Definition setQueryArgument (root : Node) (context : QueryState) : QueryState :=
  mkQueryState root (queryScope context).

Declare Scope eval_scope.
Delimit Scope eval_scope with eval.
Notation "x <- m ;; k" := (bind m (fun x => k))
  (at level 61, m at next level, right associativity) : eval_scope.

(** [for (const x of xs) { output = body(x, output); }] with the
    accumulated [output] threaded through. *)
Fixpoint forEach {A B : Type} (body : A -> B -> Eval B) (xs : list A)
    (output : B) : Eval B :=
  match xs with
  | [] => ret output
  | x :: rest => bind (body x output) (fun output => forEach body rest output)
  end.

Definition existenceTest (nodes : NodeList) : bool :=
  negb (List.length nodes =? 0)%nat.

Definition valueTypeList (value : ValueType) : NodeList :=
  match value with
  | JUndefined => []
  | _ => [value]
  end.

Definition evaluateNameSelector (name : JSString) (node : Node) : NodeList :=
  valueTypeList (getChild node name).

Definition evaluateWildcardSelector (node : Node) : NodeList :=
  getChildren node.

(** [node[index]] of an array: [undefined] outside it. *)
Definition elementAt (elements : list Node) (index : Z) : Node :=
  if index <? 0 then JUndefined
  else nth (Z.to_nat index) elements JUndefined.

Definition evaluateIndexSelector (index : Z) (node : Node) : NodeList :=
  match node with
  | JArray elements =>
      let index :=
        if index <? 0 then index + Z.of_nat (List.length elements) else index in
      valueTypeList (elementAt elements index)
  | _ => []
  end.

(** [for (let i = lower; i < upper; i += step) output.push(node[i]);]
    for [step > 0]; [k] bounds the iterations. *)
Fixpoint sliceUp (k : nat) (elements : list Node) (i upper step : Z)
    : NodeList :=
  match k with
  | O => []
  | S k' =>
      if i <? upper
      then elementAt elements i :: sliceUp k' elements (i + step) upper step
      else []
  end.

(** [for (let i = upper; i > lower; i += step) output.push(node[i]);]
    for [step < 0]. *)
Fixpoint sliceDown (k : nat) (elements : list Node) (i lower step : Z)
    : NodeList :=
  match k with
  | O => []
  | S k' =>
      if lower <? i
      then elementAt elements i :: sliceDown k' elements (i + step) lower step
      else []
  end.

Definition orElse (x : option Z) (d : Z) : Z :=
  match x with Some v => v | None => d end.

Definition evaluateSliceSelector (start end_ step : option Z) (node : Node)
    : NodeList :=
  let elements := match node with JArray elements => elements | _ => [] end in
  let len := Z.of_nat (List.length elements) in
  let step := if negb (len =? 0) then orElse step 1 else 0 in
  if 0 <? step then
    let start := orElse start 0 in
    let end_ := orElse end_ len in
    let start := if 0 <=? start then start else len + start in
    let end_ := if 0 <=? end_ then end_ else len + end_ in
    let lower := Z.min (Z.max start 0) len in
    let upper := Z.min (Z.max end_ 0) len in
    sliceUp (List.length elements) elements lower upper step
  else if step <? 0 then
    let start := orElse start (len - 1) in
    let end_ := orElse end_ (- len - 1) in
    let start := if 0 <=? start then start else len + start in
    let end_ := if 0 <=? end_ then end_ else len + end_ in
    let upper := Z.min (Z.max start (-1)) (len - 1) in
    let lower := Z.min (Z.max end_ (-1)) (len - 1) in
    sliceDown (List.length elements) elements upper lower step
  else [].

(** The decision of [evaluateComparisonExpression] once both sides have
    been evaluated to the nodelists [lhs] and [rhs]. *)
Definition compareNodeLists (host : Host) (operator : ComparisonOperator.t)
    (lhs rhs : NodeList) : bool :=
  if (List.length lhs =? 0)%nat || (List.length rhs =? 0)%nat then
    match operator with
    | ComparisonOperator.Equal
    | ComparisonOperator.LessThanOrEqual
    | ComparisonOperator.GreaterThanOrEqual =>
        (List.length lhs =? List.length rhs)%nat
    | ComparisonOperator.NotEqual =>
        negb (List.length lhs =? List.length rhs)%nat
    | ComparisonOperator.LessThan
    | ComparisonOperator.GreaterThan => false
    end
  else if negb (List.length lhs =? 1)%nat || negb (List.length rhs =? 1)%nat
  then false
  else
    let l := nth 0 lhs JUndefined in
    let r := nth 0 rhs JUndefined in
    match operator with
    | ComparisonOperator.Equal => equal host l r
    | ComparisonOperator.NotEqual => negb (equal host l r)
    | ComparisonOperator.LessThan => orElse (compare host l r) 1 <? 0
    | ComparisonOperator.LessThanOrEqual => orElse (compare host l r) 1 <=? 0
    | ComparisonOperator.GreaterThan => 0 <? orElse (compare host l r) (-1)
    | ComparisonOperator.GreaterThanOrEqual =>
        0 <=? orElse (compare host l r) (-1)
    end.

Local Open Scope eval_scope.

(** [nodes = evaluateSegment(segment, nodes, context)] for each segment in
    turn. *)
Definition evaluateSegments_open
    (evaluateSegment : Segment -> NodeList -> Eval NodeList)
    (segments : list Segment) (nodes : NodeList) : Eval NodeList :=
  forEach (fun segment nodes => evaluateSegment segment nodes) segments nodes.

(** The body of [evaluateQueryExpression], open in the segment
    evaluator. *)
Definition evaluateQueryExpression_open
    (evaluateSegment : Segment -> NodeList -> Eval NodeList)
    (identifier : Identifier) (segments : list Segment) (node : Node)
    : Eval NodeList :=
  fun context =>
    let root :=
      match identifier with
      | CurrentIdentifier => node
      | RootIdentifier => queryArgument context
      end in
    let nodes := [root] in
    let queryArgument := queryArgument context in
    tryFinally
      (fun context =>
         evaluateSegments_open evaluateSegment segments nodes
           (setQueryArgument root context))
      (setQueryArgument queryArgument)
      context.

(** [func.evaluate(args, context)] with the result as an
    [ExpressionType]. *)
Definition callExtension (func : FunctionExtension)
    (args : list ExpressionType) : Eval ExpressionType :=
  fun context =>
    match func with
    | ValueFunctionExtension _ _ evaluate =>
        match evaluate args context with
        | (Ok v, context) => (Ok (ValueOf v), context)
        | (Throw e, context) => (Throw e, context)
        end
    | LogicalFunctionExtension _ _ evaluate =>
        match evaluate args context with
        | (Ok b, context) => (Ok (LogicalOf b), context)
        | (Throw e, context) => (Throw e, context)
        end
    | NodesFunctionExtension _ _ evaluate =>
        match evaluate args context with
        | (Ok nodes, context) => (Ok (NodesOf nodes), context)
        | (Throw e, context) => (Throw e, context)
        end
    end.

Section EvaluateArguments.
(** The evaluators the argument functions call back into. *)
Variable evaluateSegment : Segment -> NodeList -> Eval NodeList.
Variable evaluateExpression : Expression -> Node -> Eval bool.
Variable evaluateFunctionArguments :
  Expression -> Node -> Eval (list ExpressionType).

Definition evaluateValueFunctionArgument (expression : Expression)
    (node : Node) : Eval ExpressionType :=
  match expression with
  | FunctionExpression func _ =>
      match func with
      | ValueFunctionExtension _ _ evaluate =>
          args <- evaluateFunctionArguments expression node ;;
          v <- evaluate args ;; ret (ValueOf v)
      | LogicalFunctionExtension _ _ _ =>
          throw (TypeError
            "LogicalType function not supported in ValueType argument position")
      | NodesFunctionExtension _ _ _ =>
          throw (TypeError
            "NodesType function not supported in ValueType argument position")
      end
  | LiteralExpression value => ret (ValueOf value)
  | QueryExpression identifier segments =>
      nodes <- evaluateQueryExpression_open evaluateSegment identifier
                 segments node ;;
      ret (ValueOf (singularValue nodes))
  | _ =>
      throw (TypeError
        "ValueType function argument must be a ValueType function expression, a literal expression, or a singular query expression")
  end.

Definition evaluateLogicalFunctionArgument (expression : Expression)
    (node : Node) : Eval ExpressionType :=
  match expression with
  | FunctionExpression func _ =>
      match func with
      | ValueFunctionExtension _ _ _ =>
          throw (TypeError
            "ValueType function not supported in LogicalType argument position")
      | LogicalFunctionExtension _ _ evaluate =>
          args <- evaluateFunctionArguments expression node ;;
          b <- evaluate args ;; ret (LogicalOf b)
      | NodesFunctionExtension _ _ evaluate =>
          args <- evaluateFunctionArguments expression node ;;
          nodes <- evaluate args ;; ret (LogicalOf (existenceTest nodes))
      end
  | _ => b <- evaluateExpression expression node ;; ret (LogicalOf b)
  end.

Definition evaluateNodesFunctionArgument (expression : Expression)
    (node : Node) : Eval ExpressionType :=
  match expression with
  | FunctionExpression func _ =>
      match func with
      | ValueFunctionExtension _ _ _ =>
          throw (TypeError
            "ValueType function not supported in NodesType argument position")
      | LogicalFunctionExtension _ _ _ =>
          throw (TypeError
            "LogicalType function not supported in NodesType argument position")
      | NodesFunctionExtension _ _ evaluate =>
          args <- evaluateFunctionArguments expression node ;;
          nodes <- evaluate args ;; ret (NodesOf nodes)
      end
  | QueryExpression identifier segments =>
      nodes <- evaluateQueryExpression_open evaluateSegment identifier
                 segments node ;;
      ret (NodesOf nodes)
  | _ =>
      throw (TypeError
        "NodesType function argument must be a NodesType function expression or a query expression")
  end.

Definition evaluateFunctionArgument (parameterType : DeclaredType.t)
    (expression : Expression) (node : Node) : Eval ExpressionType :=
  match parameterType with
  | DeclaredType.Value => evaluateValueFunctionArgument expression node
  | DeclaredType.Logical => evaluateLogicalFunctionArgument expression node
  | DeclaredType.Nodes => evaluateNodesFunctionArgument expression node
  end.
End EvaluateArguments.

(** The loop of [evaluateFunctionArguments], after the count of the
    arguments has been checked:
    [args.push(evaluateFunctionArgument(parameterTypes[i], args[i], ...))]. *)
Definition evaluateFunctionArguments_open
    (evaluateFunctionArgument :
       DeclaredType.t -> Expression -> Node -> Eval ExpressionType)
    (func : FunctionExtension) (args : list Expression) (node : Node)
    : Eval (list ExpressionType) :=
  if negb (List.length args =? List.length (parameterTypes func))%nat then
    throw (TypeError (arityMessage func (List.length args)))
  else
    (fix loop (parameterTypes : list DeclaredType.t) (args : list Expression)
         (output : list ExpressionType) {struct args}
         : Eval (list ExpressionType) :=
       match parameterTypes, args with
       | argType :: parameterTypes, arg :: args =>
           v <- evaluateFunctionArgument argType arg node ;;
           loop parameterTypes args (output ++ [v])
       | _, _ => ret output
       end) (parameterTypes func) args [].

Section Evaluate.
Variable host : Host.

Fixpoint evaluateSelector (selector : Selector) (node : Node)
    {struct selector} : Eval NodeList :=
  match selector with
  | NameSelector name => ret (evaluateNameSelector name node)
  | WildcardSelector => ret (evaluateWildcardSelector node)
  | IndexSelector index => ret (evaluateIndexSelector index node)
  | SliceSelector start end_ step =>
      ret (evaluateSliceSelector start end_ step node)
  | FilterSelector expression =>
      (* evaluateFilterSelector *)
      forEach
        (fun child output =>
           b <- evaluateExpression expression child ;;
           ret (if b then output ++ [child] else output))
        (getChildren node) []
  end

with evaluateSegment (segment : Segment) (nodes : NodeList)
    {struct segment} : Eval NodeList :=
  match segment with
  | ChildSegment selectors =>
      (* evaluateChildSegment *)
      forEach
        (fun selector output =>
           forEach
             (fun node output =>
                r <- evaluateSelector selector node ;; ret (output ++ r))
             nodes output)
        selectors []
  | DescendantSegment selectors =>
      (* evaluateDescendantSegment *)
      if negb (List.length selectors =? 0)%nat then
        forEach
          (fun node output =>
             output <-
               forEach
                 (fun selector output =>
                    r <- evaluateSelector selector node ;; ret (output ++ r))
                 selectors output ;;
             forEach
               (fun descendant output =>
                  forEach
                    (fun selector output =>
                       r <- evaluateSelector selector descendant ;;
                       ret (output ++ r))
                    selectors output)
               (getDescendants node) output)
          nodes []
      else ret []
  end

with evaluateExpression (expression : Expression) (node : Node)
    {struct expression} : Eval bool :=
  match expression with
  | OrExpression operands =>
      (* evaluateOrExpression *)
      (fix loop (operands : list Expression) : Eval bool :=
         match operands with
         | [] => ret false
         | operand :: rest =>
             b <- evaluateExpression operand node ;;
             if b then ret true else loop rest
         end) operands
  | AndExpression operands =>
      (* evaluateAndExpression *)
      (fix loop (operands : list Expression) : Eval bool :=
         match operands with
         | [] => ret true
         | operand :: rest =>
             b <- evaluateExpression operand node ;;
             if negb b then ret false else loop rest
         end) operands
  | ComparisonExpression lhs operator rhs =>
      (* evaluateComparisonExpression *)
      lhs <- evaluateComparableExpression lhs node ;;
      rhs <- evaluateComparableExpression rhs node ;;
      ret (compareNodeLists host operator lhs rhs)
  | NotExpression operand =>
      (* evaluateNotExpression *)
      b <- evaluateExpression operand node ;; ret (negb b)
  | QueryExpression identifier segments =>
      (* evaluateQueryTestExpression *)
      nodes <- evaluateQueryExpression_open evaluateSegment identifier
                 segments node ;;
      ret (existenceTest nodes)
  | LiteralExpression _ => throw (TypeError "Invalid literal expression")
  | FunctionExpression func args =>
      (* evaluateFunctionTestExpression *)
      args <-
        evaluateFunctionArguments_open
          (evaluateFunctionArgument evaluateSegment evaluateExpression
             evaluateFunctionArguments)
          func args node ;;
      match func with
      | ValueFunctionExtension _ _ _ =>
          throw (TypeError
                   "ValueType function not supported in test expression")
      | LogicalFunctionExtension _ _ evaluate => evaluate args
      | NodesFunctionExtension _ _ evaluate =>
          nodes <- evaluate args ;; ret (existenceTest nodes)
      end
  end

with evaluateComparableExpression (expression : Expression) (node : Node)
    {struct expression} : Eval NodeList :=
  match expression with
  | LiteralExpression value =>
      (* evaluateLiteralExpression *)
      ret [value]
  | QueryExpression identifier segments =>
      evaluateQueryExpression_open evaluateSegment identifier segments node
  | FunctionExpression func args =>
      (* evaluateFunctionExpression *)
      args <-
        evaluateFunctionArguments_open
          (evaluateFunctionArgument evaluateSegment evaluateExpression
             evaluateFunctionArguments)
          func args node ;;
      match func with
      | ValueFunctionExtension _ _ evaluate =>
          v <- evaluate args ;; ret (valueTypeList v)
      | LogicalFunctionExtension _ _ _ =>
          throw (TypeError
            "LogicalType function not supported in comparison expression")
      | NodesFunctionExtension _ _ _ =>
          throw (TypeError
            "NodesType function not supported in comparison expression")
      end
  | _ => throw (TypeError "Invalid ComparableExpressionKind")
  end

with evaluateFunctionArguments (expression : Expression) (node : Node)
    {struct expression} : Eval (list ExpressionType) :=
  match expression with
  | FunctionExpression func args =>
      evaluateFunctionArguments_open
        (evaluateFunctionArgument evaluateSegment evaluateExpression
           evaluateFunctionArguments)
        func args node
  | _ => throw (TypeError "Invalid ExpressionKind")
  end.

End Evaluate.

Section EvaluateEntry.
Variable host : Host.

Definition evaluateFilterSelector (expression : Expression) (node : Node)
    : Eval NodeList :=
  evaluateSelector host (FilterSelector expression) node.

Definition evaluateChildSegment (selectors : list Selector)
    (nodes : NodeList) : Eval NodeList :=
  evaluateSegment host (ChildSegment selectors) nodes.

Definition evaluateDescendantSegment (selectors : list Selector)
    (nodes : NodeList) : Eval NodeList :=
  evaluateSegment host (DescendantSegment selectors) nodes.

Definition evaluateOrExpression (operands : list Expression) (node : Node)
    : Eval bool :=
  evaluateExpression host (OrExpression operands) node.

Definition evaluateAndExpression (operands : list Expression) (node : Node)
    : Eval bool :=
  evaluateExpression host (AndExpression operands) node.

Definition evaluateComparisonExpression (lhs : Expression)
    (operator : ComparisonOperator.t) (rhs : Expression) (node : Node)
    : Eval bool :=
  evaluateExpression host (ComparisonExpression lhs operator rhs) node.

Definition evaluateNotExpression (operand : Expression) (node : Node)
    : Eval bool :=
  evaluateExpression host (NotExpression operand) node.

Definition evaluateQueryExpression (identifier : Identifier)
    (segments : list Segment) (node : Node) : Eval NodeList :=
  evaluateQueryExpression_open (evaluateSegment host) identifier segments node.

Definition evaluateQueryTestExpression (identifier : Identifier)
    (segments : list Segment) (node : Node) : Eval bool :=
  evaluateExpression host (QueryExpression identifier segments) node.

Definition evaluateFunctionTestExpression (func : FunctionExtension)
    (args : list Expression) (node : Node) : Eval bool :=
  evaluateExpression host (FunctionExpression func args) node.

Definition evaluateFunctionExpression (func : FunctionExtension)
    (args : list Expression) (node : Node) : Eval NodeList :=
  evaluateComparableExpression host (FunctionExpression func args) node.

(** [evaluateQuery] on a parsed query and a coerced context. *)
Definition evaluateQuery_parsed (query : Query) (root : Node)
    : Eval NodeList :=
  fun context =>
    let nodes := [root] in
    let queryArgument := queryArgument context in
    tryFinally
      (fun context =>
         evaluateSegments_open (evaluateSegment host) (segments query) nodes
           (setQueryArgument root context))
      (setQueryArgument queryArgument)
      context.

(** [evaluateQuery(query, root, options)]: a query given as a string is
    parsed first, with the same context. *)
Definition evaluateQuery (query : Query + JSString) (root : Node)
    (context : QueryContext) : Result NodeList * QueryContext :=
  match query with
  | inl query =>
      let '(r, st) := evaluateQuery_parsed query root (state context) in
      (r, mkQueryContext (functionExtensions context) st)
  | inr input =>
      match parseQuery input context with
      | Throw e => (Throw e, context)
      | Ok query =>
          let '(r, st) := evaluateQuery_parsed query root (state context) in
          (r, mkQueryContext (functionExtensions context) st)
      end
  end.

End EvaluateEntry.

(* ================================================================== *)
(** ** A small host

    An instance of [Host] to run the definitions on concrete inputs:
    numbers are compared when their literals are decimal integers, strings
    by code unit, and the regular expressions it accepts are the literal
    ones, with an unterminated group rejected as in ECMAScript. *)
(* ================================================================== *)

Module SmallHost.

Fixpoint digitsValue (acc : Z) (s : JSString) : option Z :=
  match s with
  | [] => Some acc
  | c :: rest =>
      if isDigit c then digitsValue (acc * 10 + (c - 0x30)) rest else None
  end.

Definition integerValue (n : JSNumber) : option Z :=
  match n with
  | Number (45 :: (_ :: _) as digits) =>
      option_map Z.opp (digitsValue 0 digits)
  | Number ((_ :: _) as digits) => digitsValue 0 digits
  | Number [] => None
  end.

Definition numberEqb (a b : JSNumber) : bool :=
  match integerValue a, integerValue b with
  | Some x, Some y => x =? y
  | _, _ => match a, b with Number x, Number y => jsstring_eqb x y end
  end.

Fixpoint equal (a b : Node) {struct a} : bool :=
  match a, b with
  | JUndefined, JUndefined => true
  | JNull, JNull => true
  | JBool x, JBool y => Bool.eqb x y
  | JNumber x, JNumber y => numberEqb x y
  | JString x, JString y => jsstring_eqb x y
  | JArray xs, JArray ys =>
      (fix all2 (xs ys : list Node) {struct xs} : bool :=
         match xs, ys with
         | [], [] => true
         | x :: xs', y :: ys' => equal x y && all2 xs' ys'
         | _, _ => false
         end) xs ys
  | JObject xs, JObject ys =>
      (fix all2 (xs ys : list (JSString * Node)) {struct xs} : bool :=
         match xs, ys with
         | [], [] => true
         | (k, x) :: xs', (k', y) :: ys' =>
             jsstring_eqb k k' && equal x y && all2 xs' ys'
         | _, _ => false
         end) xs ys
  | _, _ => false
  end.

Definition sign (c : comparison) : Z :=
  match c with Lt => -1 | Eq => 0 | Gt => 1 end.

Fixpoint compareStrings (a b : JSString) : Z :=
  match a, b with
  | [], [] => 0
  | [], _ :: _ => -1
  | _ :: _, [] => 1
  | x :: a', y :: b' =>
      if x <? y then -1 else if y <? x then 1 else compareStrings a' b'
  end.

Definition compare (a b : Node) : option Z :=
  match a, b with
  | JNumber x, JNumber y =>
      match integerValue x, integerValue y with
      | Some x, Some y => Some (sign (x ?= y))
      | _, _ => None
      end
  | JString x, JString y => Some (compareStrings x y)
  | _, _ => None
  end.

Definition unicodeLength (s : JSString) : nat :=
  List.length (filter (fun c => negb ((0xdc00 <=? c) && (c <=? 0xdfff))) s).

(** The nesting depth of groups after [s], or [None] when a group is
    closed that was not opened. *)
Fixpoint groupDepth (depth : nat) (s : JSString) : option nat :=
  match s with
  | [] => Some depth
  | c :: rest =>
      if c =? 0x28 then groupDepth (S depth) rest
      else if c =? 0x29 then
        match depth with
        | O => None
        | S d => groupDepth d rest
        end
      else groupDepth depth rest
  end.

Fixpoint startsWith (prefix s : JSString) : bool :=
  match prefix, s with
  | [], _ => true
  | x :: p', y :: s' => (x =? y) && startsWith p' s'
  | _ :: _, [] => false
  end.

Fixpoint includes (s sub : JSString) : bool :=
  startsWith sub s
  || match s with
     | [] => false
     | _ :: s' => includes s' sub
     end.

(** A pattern [^(?:literal)$] matches the whole value, any other
    pattern is searched for as a substring; a pattern whose groups do
    not balance is a [SyntaxError]. *)
Definition RegExp_test (pattern value : JSString) : option bool :=
  match groupDepth 0 pattern with
  | Some O =>
      if startsWith (js "^(?:") pattern
      then Some (jsstring_eqb pattern (js "^(?:" ++ value ++ js ")$"))
      else Some (includes value pattern)
  | _ => None
  end.

Definition JSON_stringify (v : Node) : JSString :=
  match v with
  | JNumber (Number lexeme) => lexeme
  | _ => js "{}"
  end.

Definition host : Host :=
  mkHost equal compare unicodeLength RegExp_test JSON_stringify.

(** [createQueryContext()]: the intrinsic functions, no query argument. *)
Definition context : QueryContext := createQueryContext host None.

End SmallHost.

(* ================================================================== *)
(** * Properties of the evaluator *)
(* ================================================================== *)

Section EvaluatorFacts.
Variable host : Host.

(** [evaluateComparisonExpression] evaluates the left side, then the
    right side, and decides on the two nodelists. *)
Lemma evaluateComparisonExpression_eq lhs operator rhs node context :
  evaluateComparisonExpression host lhs operator rhs node context =
  match evaluateComparableExpression host lhs node context with
  | (Ok l, context1) =>
      match evaluateComparableExpression host rhs node context1 with
      | (Ok r, context2) => (Ok (compareNodeLists host operator l r), context2)
      | (Throw e, context2) => (Throw e, context2)
      end
  | (Throw e, context1) => (Throw e, context1)
  end.
Proof.
  unfold evaluateComparisonExpression; cbn [evaluateExpression].
  unfold bind, ret.
  destruct (evaluateComparableExpression host lhs node context) as [[l|e] c1];
    [|reflexivity].
  destruct (evaluateComparableExpression host rhs node c1) as [[r|e] c2];
    reflexivity.
Qed.

Lemma compareNodeLists_both_empty operator :
  compareNodeLists host operator [] [] =
  match operator with
  | ComparisonOperator.Equal
  | ComparisonOperator.LessThanOrEqual
  | ComparisonOperator.GreaterThanOrEqual => true
  | _ => false
  end.
Proof. destruct operator; reflexivity. Qed.

Lemma compareNodeLists_left_empty operator y r :
  compareNodeLists host operator [] (y :: r) =
  match operator with
  | ComparisonOperator.NotEqual => true
  | _ => false
  end.
Proof. destruct operator; reflexivity. Qed.

Lemma compareNodeLists_right_empty operator x l :
  compareNodeLists host operator (x :: l) [] =
  match operator with
  | ComparisonOperator.NotEqual => true
  | _ => false
  end.
Proof. destruct operator; reflexivity. Qed.

Lemma compareNodeLists_singletons operator x y :
  compareNodeLists host operator [x] [y] =
  match operator with
  | ComparisonOperator.Equal => equal host x y
  | ComparisonOperator.NotEqual => negb (equal host x y)
  | ComparisonOperator.LessThan => orElse (compare host x y) 1 <? 0
  | ComparisonOperator.LessThanOrEqual => orElse (compare host x y) 1 <=? 0
  | ComparisonOperator.GreaterThan => 0 <? orElse (compare host x y) (-1)
  | ComparisonOperator.GreaterThanOrEqual =>
      0 <=? orElse (compare host x y) (-1)
  end.
Proof. destruct operator; reflexivity. Qed.

Lemma compareNodeLists_not_singular operator x l y r :
  l <> [] \/ r <> [] ->
  compareNodeLists host operator (x :: l) (y :: r) = false.
Proof.
  intros H. unfold compareNodeLists. cbn [List.length Nat.eqb orb].
  destruct l as [|x' l], r as [|y' r]; cbn; try reflexivity.
  destruct H as [H|H]; congruence.
Qed.

End EvaluatorFacts.

(** ** Claim C1: comparisons whose sides are Nothing or a single value *)

Definition isOrdering (operator : ComparisonOperator.t) : Prop :=
  operator = ComparisonOperator.LessThan \/
  operator = ComparisonOperator.LessThanOrEqual \/
  operator = ComparisonOperator.GreaterThan \/
  operator = ComparisonOperator.GreaterThanOrEqual.

(** C1.  Let the two sides of a comparison evaluate, left then right, to
    nodelists [l] and [r] of length 0 (Nothing) or 1.  Then the
    comparison returns a boolean [b] in the context the right side left,
    and: for [==], [b] is true iff both sides are empty or both are
    present and [equal]; for [!=], [b] is true iff exactly one side is
    empty or both are present and not [equal]; [<=] and [>=] are true
    when both sides are empty; and [<], [>], [<=], [>=] are false when
    exactly one side is empty. *)
Theorem C1_comparison_with_nothing
    (host : Host) (lhs rhs : Expression) (operator : ComparisonOperator.t)
    (node : Node) (context context1 context2 : QueryState) (l r : NodeList) :
  evaluateComparableExpression host lhs node context = (Ok l, context1) ->
  evaluateComparableExpression host rhs node context1 = (Ok r, context2) ->
  (List.length l <= 1)%nat ->
  (List.length r <= 1)%nat ->
  exists b : bool,
    evaluateComparisonExpression host lhs operator rhs node context
      = (Ok b, context2)
    /\ (operator = ComparisonOperator.Equal ->
        (b = true <->
         (l = [] /\ r = []) \/
         (exists x y, l = [x] /\ r = [y] /\ equal host x y = true)))
    /\ (operator = ComparisonOperator.NotEqual ->
        (b = true <->
         (l = [] /\ r <> []) \/ (l <> [] /\ r = []) \/
         (exists x y, l = [x] /\ r = [y] /\ equal host x y = false)))
    /\ ((operator = ComparisonOperator.LessThanOrEqual \/
         operator = ComparisonOperator.GreaterThanOrEqual) ->
        l = [] -> r = [] -> b = true)
    /\ (isOrdering operator ->
        (l = [] /\ r <> []) \/ (l <> [] /\ r = []) -> b = false).
Proof.
  intros Hl Hr Ll Lr.
  exists (compareNodeLists host operator l r).
  split.
  { rewrite evaluateComparisonExpression_eq, Hl, Hr. reflexivity. }
  destruct l as [|x [|x' l]]; cbn in Ll; try lia;
  destruct r as [|y [|y' r]]; cbn in Lr; try lia.
  - (* both empty *)
    rewrite compareNodeLists_both_empty.
    split; [|split; [|split]].
    + intros ->. split; [intros _; left; split; reflexivity | reflexivity].
    + intros ->. split; [discriminate|].
      intros [[_ H]|[[H _]|(x & y & H & _)]]; congruence.
    + intros [->| ->] _ _; reflexivity.
    + intros _ [[_ H]|[H _]]; congruence.
  - (* left empty, right present *)
    rewrite compareNodeLists_left_empty.
    split; [|split; [|split]].
    + intros ->. split; [discriminate|].
      intros [[_ H]|(x & y' & H & _)]; discriminate.
    + intros ->. split; [|reflexivity].
      intros _. left; split; [reflexivity | discriminate].
    + intros _ _ H; discriminate.
    + intros [->|[->|[->| ->]]] _; reflexivity.
  - (* left present, right empty *)
    rewrite compareNodeLists_right_empty.
    split; [|split; [|split]].
    + intros ->. split; [discriminate|].
      intros [[H _]|(x' & y & _ & H & _)]; discriminate.
    + intros ->. split; [|reflexivity].
      intros _. right; left; split; [discriminate | reflexivity].
    + intros _ H; discriminate.
    + intros [->|[->|[->| ->]]] _; reflexivity.
  - (* both present *)
    rewrite compareNodeLists_singletons.
    split; [|split; [|split]].
    + intros ->. split.
      * intros H. right; exists x, y; auto.
      * intros [[H _]|(x' & y' & H1 & H2 & H3)]; [discriminate|].
        injection H1 as <-; injection H2 as <-; exact H3.
    + intros ->. split.
      * intros H. right; right; exists x, y; repeat split.
        destruct (equal host x y); [discriminate | reflexivity].
      * intros [[H _]|[[_ H]|(x' & y' & H1 & H2 & H3)]]; try discriminate.
        injection H1 as <-; injection H2 as <-; rewrite H3; reflexivity.
    + intros _ H; discriminate.
    + intros _ [[H _]|[_ H]]; discriminate.
Qed.

Lemma C1_comparison_with_nothing_witness :
  exists b : bool,
    evaluateComparisonExpression SmallHost.host
      (QueryExpression CurrentIdentifier [ChildSegment [NameSelector (js "d")]])
      ComparisonOperator.Equal (LiteralExpression JNull)
      (JObject []) (mkQueryState JUndefined None)
    = (Ok b, mkQueryState JUndefined None).
Proof.
  destruct (@C1_comparison_with_nothing SmallHost.host
              (QueryExpression CurrentIdentifier
                 [ChildSegment [NameSelector (js "d")]])
              (LiteralExpression JNull) ComparisonOperator.Equal
              (JObject []) (mkQueryState JUndefined None)
              (mkQueryState JUndefined None) (mkQueryState JUndefined None)
              [] [JNull] eq_refl eq_refl (le_S _ _ (le_n 0)) (le_n 1))
    as (b & H & _).
  exists b. exact H.
Defined.

(** ** Claim C7: a side that is not a singular nodelist *)

(** C7, as stated, fails: with the left side empty and the right side of
    length 2, [!=] evaluates to true.  The comparison is
    [@[5] != @[0, 1]] on the node [[null, true]]. *)
Lemma C7_counterexample :
  ~ (forall (host : Host) (lhs rhs : Expression)
            (operator : ComparisonOperator.t) (node : Node)
            (context context1 context2 : QueryState) (l r : NodeList),
        evaluateComparableExpression host lhs node context = (Ok l, context1) ->
        evaluateComparableExpression host rhs node context1 = (Ok r, context2) ->
        (1 < List.length l)%nat \/ (1 < List.length r)%nat ->
        evaluateComparisonExpression host lhs operator rhs node context
          = (Ok false, context2)).
Proof.
  intros claim.
  specialize (claim SmallHost.host
    (QueryExpression CurrentIdentifier [ChildSegment [IndexSelector 5]])
    (QueryExpression CurrentIdentifier
       [ChildSegment [IndexSelector 0; IndexSelector 1]])
    ComparisonOperator.NotEqual
    (JArray [JNull; JBool true])
    (mkQueryState JUndefined None) (mkQueryState JUndefined None)
    (mkQueryState JUndefined None)
    [] [JNull; JBool true] eq_refl eq_refl (or_intror (le_n 2))).
  vm_compute in claim. discriminate claim.
Qed.

(** C7, amended.  Let the two sides evaluate to [l] and [r], at least one
    of them longer than 1.  The comparison returns a boolean [b]; when
    neither side is empty, [b] is false for every operator; when one
    side is empty, [b] is true for [!=] and false for every other
    operator. *)
Theorem C7_comparison_not_singular
    (host : Host) (lhs rhs : Expression) (operator : ComparisonOperator.t)
    (node : Node) (context context1 context2 : QueryState) (l r : NodeList) :
  evaluateComparableExpression host lhs node context = (Ok l, context1) ->
  evaluateComparableExpression host rhs node context1 = (Ok r, context2) ->
  (1 < List.length l)%nat \/ (1 < List.length r)%nat ->
  exists b : bool,
    evaluateComparisonExpression host lhs operator rhs node context
      = (Ok b, context2)
    /\ (l <> [] -> r <> [] -> b = false)
    /\ (l = [] \/ r = [] ->
        (b = true <-> operator = ComparisonOperator.NotEqual)).
Proof.
  intros Hl Hr Hlen.
  exists (compareNodeLists host operator l r).
  split.
  { rewrite evaluateComparisonExpression_eq, Hl, Hr. reflexivity. }
  destruct l as [|x l], r as [|y r]; cbn in Hlen.
  - lia.
  - rewrite compareNodeLists_left_empty.
    split; [congruence|]. intros _.
    destruct operator; split; congruence.
  - rewrite compareNodeLists_right_empty.
    split; [congruence|]. intros _.
    destruct operator; split; congruence.
  - rewrite compareNodeLists_not_singular.
    + split; [reflexivity|]. intros [H|H]; discriminate.
    + destruct l, r; cbn in Hlen; try lia;
        try (left; discriminate); right; discriminate.
Qed.

Lemma C7_comparison_not_singular_witness :
  exists b : bool,
    evaluateComparisonExpression SmallHost.host
      (QueryExpression CurrentIdentifier [ChildSegment [IndexSelector 0]])
      ComparisonOperator.NotEqual
      (QueryExpression CurrentIdentifier
         [ChildSegment [IndexSelector 0; IndexSelector 1]])
      (JArray [JNull; JBool true]) (mkQueryState JUndefined None)
    = (Ok b, mkQueryState JUndefined None)
    /\ b = false.
Proof.
  destruct (@C7_comparison_not_singular SmallHost.host
              (QueryExpression CurrentIdentifier
                 [ChildSegment [IndexSelector 0]])
              (QueryExpression CurrentIdentifier
                 [ChildSegment [IndexSelector 0; IndexSelector 1]])
              ComparisonOperator.NotEqual
              (JArray [JNull; JBool true])
              (mkQueryState JUndefined None) (mkQueryState JUndefined None)
              (mkQueryState JUndefined None)
              [JNull] [JNull; JBool true] eq_refl eq_refl
              (or_intror (le_n 2)))
    as (b & H & Hfalse & _).
  exists b. split; [exact H|].
  apply Hfalse; discriminate.
Defined.

(** ** Claim C4: selectors outer, nodes inner *)

(** The results of [f] on the elements of [xs], in order, appended. *)
Fixpoint collect {A : Type} (f : A -> Eval NodeList) (xs : list A)
    : Eval NodeList :=
  match xs with
  | [] => ret []
  | x :: rest => a <- f x ;; b <- collect f rest ;; ret (a ++ b)
  end.

(** The specification's order for a child segment: for each selector (in
    source order), then for each node of the input nodelist (in input
    order), the result of the selector on the node. *)
Definition selectorMajor (host : Host) (selectors : list Selector)
    (nodes : NodeList) : Eval NodeList :=
  collect (fun selector =>
             collect (fun node => evaluateSelector host selector node) nodes)
          selectors.

Lemma forEach_ext {A B : Type} (f g : A -> B -> Eval B) xs :
  (forall x output context, f x output context = g x output context) ->
  forall output context, forEach f xs output context = forEach g xs output context.
Proof.
  intros Hfg. induction xs as [|x xs IH]; intros output context; cbn.
  - reflexivity.
  - unfold bind. rewrite Hfg.
    destruct (g x output context) as [[o|e] c]; [apply IH | reflexivity].
Qed.

Lemma forEach_append {A : Type} (f : A -> Eval NodeList) xs :
  forall output context,
    forEach (fun x output => r <- f x ;; ret (output ++ r)) xs output context
    = (r <- collect f xs ;; ret (output ++ r)) context.
Proof.
  induction xs as [|x xs IH]; intros output context; cbn.
  - unfold bind, ret. rewrite app_nil_r. reflexivity.
  - unfold bind, ret in *.
    destruct (f x context) as [[a|e] c1]; [|reflexivity].
    rewrite IH.
    destruct (collect f xs c1) as [[b|e] c2]; [|reflexivity].
    rewrite app_assoc. reflexivity.
Qed.

(** C4.  Evaluating a child segment equals the selector-major
    collection: the selectors are iterated in the outer loop, the input
    nodes in the inner loop, and the results are appended in that order. *)
Theorem C4_child_segment_selector_major
    (host : Host) (selectors : list Selector) (nodes : NodeList)
    (context : QueryState) :
  evaluateChildSegment host selectors nodes context
  = selectorMajor host selectors nodes context.
Proof.
  unfold evaluateChildSegment, selectorMajor. cbn [evaluateSegment].
  rewrite (forEach_ext _
             (fun selector output =>
                r <- collect (fun node => evaluateSelector host selector node)
                       nodes ;;
                ret (output ++ r))).
  - rewrite forEach_append. unfold bind, ret.
    destruct (collect _ selectors context) as [[r|e] c]; reflexivity.
  - intros selector output c. apply forEach_append.
Qed.

(** With two selectors, every match of the first selector comes before
    any match of the second: [$['a', 'b']] style selection on two nodes. *)
Example child_segment_two_selectors :
  fst (evaluateChildSegment SmallHost.host
         [NameSelector (js "a"); NameSelector (js "b")]
         [JObject [(js "a", JBool true); (js "b", JNull)];
          JObject [(js "a", JBool false); (js "b", JString (js "x"))]]
         (mkQueryState JUndefined None))
  = Ok [JBool true; JBool false; JNull; JString (js "x")].
Proof. reflexivity. Qed.

(** ** Claim C9: the query argument around a sub-query *)

(** C9.  [evaluateQueryExpression] runs the segments from the nodelist
    [[root]] with [context.queryArgument] set to [root], where [root] is
    the current node for ["@"] and the context's query argument for
    ["$"]; [evaluateQuery] does the same with the given root.  Whether
    they return or throw, the context they leave has the query argument
    it had on entry. *)
Theorem C9_query_argument_restored
    (host : Host) (identifier : Identifier) (subSegments : list Segment)
    (query : Query + JSString) (node root : Node) (context : QueryState)
    (queryContext : QueryContext) :
  let subRoot :=
    match identifier with
    | CurrentIdentifier => node
    | RootIdentifier => queryArgument context
    end in
  fst (evaluateQueryExpression host identifier subSegments node context)
    = fst (evaluateSegments_open (evaluateSegment host) subSegments [subRoot]
             (setQueryArgument subRoot context))
  /\ queryArgument
       (snd (evaluateQueryExpression host identifier subSegments node context))
     = queryArgument context
  /\ (forall parsed : Query,
        fst (evaluateQuery_parsed host parsed root context)
          = fst (evaluateSegments_open (evaluateSegment host)
                   (segments parsed) [root]
                   (setQueryArgument root context))
        /\ queryArgument (snd (evaluateQuery_parsed host parsed root context))
           = queryArgument context)
  /\ queryArgument (state (snd (evaluateQuery host query root queryContext)))
     = queryArgument (state queryContext).
Proof.
  cbn zeta. repeat split.
  - unfold evaluateQueryExpression, evaluateQueryExpression_open, tryFinally.
    destruct (evaluateSegments_open _ _ _ _); reflexivity.
  - unfold evaluateQueryExpression, evaluateQueryExpression_open, tryFinally.
    destruct (evaluateSegments_open _ _ _ _); reflexivity.
  - unfold evaluateQuery_parsed, tryFinally.
    destruct (evaluateSegments_open _ _ _ _); reflexivity.
  - unfold evaluateQuery_parsed, tryFinally.
    destruct (evaluateSegments_open _ _ _ _); reflexivity.
  - unfold evaluateQuery, evaluateQuery_parsed, tryFinally.
    destruct query as [parsed|input].
    + destruct (evaluateSegments_open _ _ _ _); reflexivity.
    + destruct (parseQuery input queryContext); [|reflexivity].
      destruct (evaluateSegments_open _ _ _ _); reflexivity.
Qed.

(** A sub-query that throws: the filter [?'x'] evaluates a literal as a
    test expression.  The query argument is restored all the same. *)
Example query_argument_restored_on_throw :
  evaluateQueryExpression SmallHost.host CurrentIdentifier
    [ChildSegment [FilterSelector (LiteralExpression (JString (js "x")))]]
    (JArray [JNull]) (mkQueryState (JBool true) None)
  = (Throw (TypeError "Invalid literal expression"),
     mkQueryState (JBool true) None).
Proof. reflexivity. Qed.

(** ** Claim C5: [match] and [search] on an invalid regular expression *)

(** C5 describes what [match] and [search] are documented to do; the
    code does otherwise.  When both arguments are strings, the pattern is
    handed to [new RegExp], and a pattern the constructor rejects makes
    [evaluate] throw the constructor's [SyntaxError] instead of returning
    false.  (When an argument is not a string the result is false, as
    claimed.) *)
Theorem C5_match_throws_on_invalid_regex
    (host : Host) (value regex : JSString) (context : QueryState) :
  RegExp_test host (js "^(?:" ++ regex ++ js ")$") value = None ->
  RegExp_test host regex value = None ->
  callExtension (matchFunction host)
    [ValueOf (JString value); ValueOf (JString regex)] context
    = (Throw (SyntaxError "Invalid regular expression"), context)
  /\ callExtension (searchFunction host)
       [ValueOf (JString value); ValueOf (JString regex)] context
     = (Throw (SyntaxError "Invalid regular expression"), context).
Proof.
  intros Hmatch Hsearch.
  unfold callExtension, matchFunction, searchFunction, argAt.
  cbn [nth_error runtimeValue].
  rewrite Hmatch, Hsearch. split; reflexivity.
Qed.

Lemma C5_match_throws_on_invalid_regex_witness :
  callExtension (matchFunction SmallHost.host)
    [ValueOf (JString (js "a")); ValueOf (JString (js "("))]
    (mkQueryState JUndefined None)
    = (Throw (SyntaxError "Invalid regular expression"),
       mkQueryState JUndefined None)
  /\ callExtension (searchFunction SmallHost.host)
       [ValueOf (JString (js "a")); ValueOf (JString (js "("))]
       (mkQueryState JUndefined None)
     = (Throw (SyntaxError "Invalid regular expression"),
        mkQueryState JUndefined None).
Proof.
  apply (@C5_match_throws_on_invalid_regex SmallHost.host (js "a") (js "(")
           (mkQueryState JUndefined None) eq_refl eq_refl).
Defined.

(** The part of the documentation the code meets: an argument that is
    not a string gives false. *)
Lemma match_search_not_strings (host : Host) (args : list ExpressionType)
    (context : QueryState) :
  isString (argAt args 0) = false \/ isString (argAt args 1) = false ->
  callExtension (matchFunction host) args context = (Ok (LogicalOf false), context)
  /\ callExtension (searchFunction host) args context
     = (Ok (LogicalOf false), context).
Proof.
  intros H. cbn.
  destruct (argAt args 0), (argAt args 1); cbn in H;
    try (split; reflexivity); destruct H; discriminate.
Qed.

Local Open Scope parse_scope.

(* ================================================================== *)

(** ** Well-typed syntax trees *)

(** The sides a comparison may have: a literal, a singular query, or a
    call of a function whose declared result type is Value. *)
Definition isComparable (e : Expression) : bool :=
  match e with
  | LiteralExpression _ => true
  | QueryExpression _ segments => isSingularQuery segments
  | FunctionExpression func _ =>
      DeclaredType.eqb (resultType func) DeclaredType.Value
  | _ => false
  end.

(** A comparison has comparable sides. *)
Definition comparisonGate (e : Expression) : bool :=
  match e with
  | ComparisonExpression lhs _ rhs => isComparable lhs && isComparable rhs
  | _ => true
  end.

(** A call has as many arguments as its function declares parameters. *)
Definition arityExact (e : Expression) : bool :=
  match e with
  | FunctionExpression func args =>
      (List.length args =? List.length (parameterTypes func))%nat
  | _ => true
  end.

(** [P] holds of every expression in a selector, segment or expression. *)
Fixpoint everySelector (P : Expression -> bool) (selector : Selector)
    {struct selector} : bool :=
  match selector with
  | FilterSelector expression => everyExpression P expression
  | _ => true
  end

with everySegment (P : Expression -> bool) (segment : Segment)
    {struct segment} : bool :=
  match segment with
  | ChildSegment selectors => forallb (everySelector P) selectors
  | DescendantSegment selectors => forallb (everySelector P) selectors
  end

with everyExpression (P : Expression -> bool) (expression : Expression)
    {struct expression} : bool :=
  P expression
  && match expression with
     | OrExpression operands => forallb (everyExpression P) operands
     | AndExpression operands => forallb (everyExpression P) operands
     | ComparisonExpression lhs _ rhs =>
         everyExpression P lhs && everyExpression P rhs
     | NotExpression operand => everyExpression P operand
     | QueryExpression _ segments => forallb (everySegment P) segments
     | LiteralExpression _ => true
     | FunctionExpression _ args => forallb (everyExpression P) args
     end.

Definition everyQuery (P : Expression -> bool) (query : Query) : bool :=
  forallb (everySegment P) (segments query).

Definition wellTypedNode (e : Expression) : bool :=
  comparisonGate e && arityExact e.

(** The operands an [||] or [&&] loop has collected all satisfy [P]. *)
Definition wtOperands (P : Expression -> bool)
    (expr : Expression + list Expression) : bool :=
  match expr with
  | inl e => everyExpression P e
  | inr operands => forallb (everyExpression P) operands
  end.

Lemma wtOperands_push P expr operand :
  wtOperands P expr = true -> everyExpression P operand = true ->
  wtOperands P (pushOperand expr operand) = true.
Proof.
  destruct expr as [e|operands]; cbn [wtOperands pushOperand forallb].
  - intros -> ->. reflexivity.
  - intros H1 H2. rewrite forallb_app, H1. cbn. rewrite H2. reflexivity.
Qed.

(** What [parseComparable] returns: a query, a literal or a call. *)
Definition isComparableKind (e : Expression) : bool :=
  match e with
  | QueryExpression _ _ | LiteralExpression _ | FunctionExpression _ _ => true
  | _ => false
  end.

Lemma isComparable_checked e :
  isComparableKind e = true ->
  isNonSingularQueryExpression e = false ->
  (forall func args,
      e = FunctionExpression func args ->
      resultType func = DeclaredType.Value) ->
  isComparable e = true.
Proof.
  destruct e as [| | | |identifier segs|value|func args]; cbn;
    try discriminate; intros _ Hs Hf.
  - destruct (isSingularQuery segs); [reflexivity | discriminate].
  - reflexivity.
  - rewrite (Hf _ _ eq_refl). reflexivity.
Qed.

(** ** Postconditions of the parse functions *)

(** The buffer [b] is [buf] moved forward. *)
Definition ext (buf b : InputBuffer) : Prop :=
  limit b = limit buf /\ (offset buf <= offset b)%nat.

(** The buffer [b] is [buf] moved forward by at least one character that
    was inside the limit. *)
Definition strict (buf b : InputBuffer) : Prop :=
  limit b = limit buf /\ (offset buf < offset b)%nat
  /\ (offset buf < limit buf)%nat.

Definition isQueryError (e : Error) : Prop :=
  match e with
  | QueryError _ _ => True
  | _ => False
  end.

(** The exceptions of the parser: a [QueryError], or the [TypeError] of
    [parseFunctionArguments] on a value that is no function extension. *)
Definition isParserError (e : Error) : Prop :=
  match e with
  | QueryError _ _ => True
  | TypeError message => message = undefinedLength
  | _ => False
  end.

(** [post N Q o]: a result of [o] satisfies [Q], an error of [o] is one
    of the parser's, and [o] runs out of fuel only if [N]. *)
Definition post {A : Type} (N : Prop) (Q : A -> Prop) (o : Outcome A) : Prop :=
  match o with
  | Done a => Q a
  | Raise e => isParserError e
  | OutOfFuel => N
  end.

Lemma post_bind {A B : Type} (N1 N2 : Prop) (Q1 : A -> Prop) (Q2 : B -> Prop)
    (m : Outcome A) (k : A -> Outcome B) :
  post N1 Q1 m ->
  (N1 -> N2) ->
  (forall a, Q1 a -> post N2 Q2 (k a)) ->
  post N2 Q2 (obind m k).
Proof.
  intros Hm HN Hk. destruct m as [a|e|]; cbn in *; auto.
Qed.

Lemma obind_assoc {A B C : Type} (m : Outcome A) (k1 : A -> Outcome B)
    (k2 : B -> Outcome C) :
  obind (obind m k1) k2 = obind m (fun a => obind (k1 a) k2).
Proof. destruct m; reflexivity. Qed.

Lemma post_weaken {A : Type} (N1 N2 : Prop) (Q1 Q2 : A -> Prop) (o : Outcome A) :
  post N1 Q1 o -> (N1 -> N2) -> (forall a, Q1 a -> Q2 a) -> post N2 Q2 o.
Proof. intros H HN HQ. destruct o; cbn in *; auto. Qed.

(** *** Buffer arithmetic *)

Lemma scanWhile_ext p k buf : ext buf (scanWhile p k buf).
Proof.
  revert buf. induction k as [|k IH]; intros buf; cbn.
  - split; [reflexivity | apply le_n].
  - destruct (_ && _).
    + destruct (IH (advance 1 buf)) as [Hl Ho]. cbn in Hl, Ho.
      split; [exact Hl | lia].
    + split; [reflexivity | apply le_n].
Qed.

Lemma skipWhile_ext p buf : ext buf (skipWhile p buf).
Proof. apply scanWhile_ext. Qed.

(** Replace every [skipWhile p b] by a fresh buffer that [ext]ends [b]. *)
Ltac abstract_skip p b :=
  let x := fresh "sb" in
  let H := fresh "Hsb" in
  pose proof (skipWhile_ext p b) as H;
  set (x := skipWhile p b) in *; clearbody x.

Ltac abstract_skips :=
  unfold parseBlankSpace in *;
  repeat match goal with
         | |- context [skipWhile ?p ?b] => abstract_skip p b
         | H : context [skipWhile ?p ?b] |- _ => abstract_skip p b
         end.

(** Facts [offset b < limit b] from the tests the code made. *)
Ltac inside_from H b :=
  lazymatch goal with
  | _ : (offset b < limit b)%nat |- _ => fail
  | _ =>
      assert (offset b < limit b)%nat
        by (clear - H;
            unfold atChar, peek, isNameFirstChar, isAlpha, isUppercase,
              isLowercase, isDigit, isSpaceChar in H;
            destruct (Nat.ltb_spec (offset b) (limit b));
            [ assumption | exfalso; lia ])
  end.

Ltac inside_facts :=
  repeat match goal with
         | H : context [atChar _ ?b] |- _ => inside_from H b
         | H : context [peek ?b] |- _ => inside_from H b
         | H : context [(limit ?b <=? offset ?b)%nat] |- _ => inside_from H b
         end.

Ltac split_ifs :=
  repeat match goal with
         | H : context [if ?c then _ else _] |- _ => destruct c eqn:?
         | |- context [if ?c then _ else _] => destruct c eqn:?
         end.

Ltac buf_solve :=
  cbn [fst snd] in *; subst;
  split_ifs; abstract_skips; subst; inside_facts;
  unfold ext, strict, remaining in *;
  cbn [offset limit input advance bufferOf] in *;
  repeat match goal with
         | H : _ /\ _ |- _ => destruct H
         end;
  repeat split; try lia.


Create HintDb parser.

Ltac wt_hyps :=
  repeat match goal with
         | H : _ /\ _ |- _ => destruct H
         | H : negb _ = false |- _ => apply negb_false_iff in H
         end;
  subst;
  cbn [wtOperands fst snd] in *.

Ltac wt_rewrite :=
  repeat match goal with
         | H : _ = true |- _ => rewrite H
         end.

Ltac wt_solve :=
  wt_hyps;
  try (apply wtOperands_push; [assumption | assumption]);
  rewrite ?forallb_app;
  cbn;
  try match goal with
      | HP' : forall e, wellTypedNode e = true -> _ = true |- _ =>
          rewrite ?HP' by (cbn; wt_rewrite; reflexivity)
      end;
  wt_rewrite;
  try reflexivity.


(** One step through the code of a parse function: decide a test, or
    pass a call whose postcondition is known. *)
Ltac post_callee :=
  first
    [ solve [auto with parser]
    | match goal with
      | H : forall _, _ |- _ =>
          solve [eapply H; first [ solve [auto with parser] | solve [wt_solve] ]]
      end ].

Ltac decide_test c :=
  let E := fresh "Heqb" in
  destruct c eqn:E; try (exfalso; cbv in E; discriminate E).

Ltac post_step :=
  lazymatch goal with
  | |- post _ _ (Raise _) => first [exact I | reflexivity]
  | |- post _ _ (parseFunctionArguments_foreign _) =>
      unfold parseFunctionArguments_foreign
  | |- post _ _ OutOfFuel => cbn [post]
  | |- post _ _ (Done _) => cbn [post fst snd]
  | |- post _ _ (obind (Done _) _) => cbn [obind]
  | |- post _ _ (obind (Raise _) _) => exact I
  | |- post _ _ (obind (obind _ _) _) => rewrite obind_assoc
  | |- post _ _ (obind (if ?c then _ else _) _) => decide_test c
  | |- post _ _ (obind (match ?x with _ => _ end) _) => destruct x eqn:?
  | |- post _ _ (obind _ _) =>
      eapply post_bind;
      [ post_callee
      | first [ tauto | intro; solve [buf_solve] ]
      | let a := fresh "a" in
        let H := fresh "Hpost" in
        intros a H;
        lazymatch type of a with
        | unit => destruct a
        | (_ * _)%type =>
            let r := fresh "r" in
            let b := fresh "b" in
            destruct a as [r b]; cbn [fst snd] in H
        | _ => idtac
        end;
        cbn beta iota ]
  | |- post _ _ (if ?c then _ else _) => decide_test c
  | |- post _ _ (match (if ?c then _ else _) with _ => _ end) =>
      decide_test c
  | |- post _ _ (match ?x with _ => _ end) => destruct x eqn:?
  end.

Ltac post_steps := repeat (cbv zeta; post_step).

(** *** The lexical scanners *)

Lemma parseInt_digits_ext k value buf :
  ext buf (snd (parseInt_digits k value buf)).
Proof.
  revert value buf. induction k as [|k IH]; intros value buf; cbn.
  - split; [reflexivity | apply le_n].
  - destruct (_ && _).
    + destruct (IH (value * 10 + (charCodeAt (input buf) (offset buf) - 48))
                  (advance 1 buf)) as [Hl Ho].
      cbn in Hl, Ho. split; [exact Hl | lia].
    + split; [reflexivity | apply le_n].
Qed.

Lemma parseShorthandName_post buf :
  post False (fun r => strict buf (snd r)) (parseShorthandName buf).
Proof. unfold parseShorthandName. post_steps. buf_solve. Qed.

Lemma parseFunctionName_post buf :
  post False (fun r => strict buf (snd r)) (parseFunctionName buf).
Proof. unfold parseFunctionName. post_steps. buf_solve. Qed.

Lemma parseInt_post buf :
  post False (fun r => strict buf (snd r)) (parseInt buf).
Proof.
  unfold parseInt. post_steps; try buf_solve.
  all: match goal with
       | H : parseInt_digits ?k ?v ?b = _ |- _ =>
           pose proof (parseInt_digits_ext k v b) as Hd; rewrite H in Hd;
           cbn [snd] in Hd
       end.
  all: repeat match goal with
       | H : (_, _) = (_, _) |- _ => injection H as ? ? ?; subst
       end.
  all: buf_solve.
Qed.

Lemma parseNumber_post buf :
  post False (fun r => strict buf (snd r)) (parseNumber buf).
Proof. unfold parseNumber. post_steps; buf_solve. Qed.

Lemma parseHexChar_post buf :
  post False (fun r => strict buf (snd r)) (parseHexChar buf).
Proof. unfold parseHexChar. post_steps; buf_solve. Qed.

#[local] Hint Resolve parseShorthandName_post parseFunctionName_post
  parseInt_post parseNumber_post parseHexChar_post : parser.

Lemma parseHexCodePoint_post buf :
  post False (fun r => strict buf (snd r)) (parseHexCodePoint buf).
Proof. unfold parseHexCodePoint. post_steps; buf_solve. Qed.

#[local] Hint Resolve parseHexCodePoint_post : parser.

Lemma parseStringLiteral_loop_post k quote result buf :
  (remaining buf < k)%nat ->
  post False (fun r => ext buf (snd r))
    (parseStringLiteral_loop k quote result buf).
Proof.
  revert result buf. induction k as [|k IH]; intros result buf Hk; [lia|].
  cbn [parseStringLiteral_loop].
  post_steps; try buf_solve.
  all: try (eapply post_weaken; [apply IH; buf_solve | tauto | intros; buf_solve]).
Qed.

Lemma parseStringLiteral_post buf :
  post False (fun r => strict buf (snd r)) (parseStringLiteral buf).
Proof.
  unfold parseStringLiteral. post_steps.
  eapply post_weaken;
    [apply parseStringLiteral_loop_post; buf_solve | tauto | intros; buf_solve].
Qed.

Lemma parseComparisonOperator_post buf :
  post False
    (fun r => match fst r with
              | Some _ => strict buf (snd r)
              | None => snd r = buf
              end)
    (parseComparisonOperator buf).
Proof. unfold parseComparisonOperator. post_steps; try reflexivity; buf_solve. Qed.

#[local] Hint Resolve parseStringLiteral_post parseComparisonOperator_post
  : parser.

Section SelectorScanners.
Variable P : Expression -> bool.

Lemma parseNameSelector_post buf :
  post False (fun r => strict buf (snd r) /\ everySelector P (fst r) = true)
    (parseNameSelector buf).
Proof. unfold parseNameSelector. post_steps. split; [buf_solve | reflexivity]. Qed.

Lemma parseWildcardSelector_post buf :
  post False (fun r => strict buf (snd r) /\ everySelector P (fst r) = true)
    (parseWildcardSelector buf).
Proof.
  unfold parseWildcardSelector. post_steps. split; [buf_solve | reflexivity].
Qed.

Lemma parseOptionalInt_post blank buf :
  post False
    (fun r => match fst r with
              | Some _ => strict buf (snd r)
              | None => snd r = buf
              end)
    (parseOptionalInt blank buf).
Proof.
  unfold parseOptionalInt. post_steps; try reflexivity.
  destruct blank; buf_solve.
Qed.

#[local] Hint Resolve parseOptionalInt_post : parser.

Lemma parseArraySelector_post buf :
  post False (fun r => strict buf (snd r) /\ everySelector P (fst r) = true)
    (parseArraySelector buf).
Proof.
  unfold parseArraySelector. post_steps; (split; [|reflexivity]).
  all: repeat match goal with
       | H : match ?x with Some _ => _ | None => _ end |- _ => destruct x
       end; subst.
  all: try discriminate.
  all: buf_solve.
Qed.
End SelectorScanners.

#[local] Hint Resolve parseNameSelector_post parseWildcardSelector_post
  parseArraySelector_post parseOptionalInt_post : parser.

Lemma checkLogicalType_post e buf :
  post False (fun _ => True) (checkLogicalType e buf).
Proof.
  unfold checkLogicalType.
  destruct e as [| | | | | |func args]; cbn; auto.
  destruct (resultType func); cbn; auto.
Qed.

Lemma checkComparableType_post e buf :
  post False
    (fun _ => forall func args,
         e = FunctionExpression func args ->
         resultType func = DeclaredType.Value)
    (checkComparableType e buf).
Proof.
  unfold checkComparableType.
  destruct e as [| | | | | |func args]; cbn; try discriminate.
  destruct (resultType func) eqn:E; cbn; auto.
  intros f a H. injection H as <- _. exact E.
Qed.

Lemma checkArgumentType_post parameterType e buf :
  post False (fun _ => True) (checkArgumentType parameterType e buf).
Proof.
  unfold checkArgumentType, checkValueArgumentType, checkLogicalArgumentType,
    checkNodesArgumentType.
  destruct e as [| | | |identifier segs|value|func args], parameterType;
    cbn; auto;
    try (destruct (resultType func); cbn; auto).
  destruct (isSingularQuery segs); cbn; auto.
Qed.

#[local] Hint Resolve checkLogicalType_post checkComparableType_post
  checkArgumentType_post : parser.

(** ** The invariant of the recursive descent parser *)

Section ParserInvariant.
(** A property of expressions that every well-typed node has. *)
Variable P : Expression -> bool.
Hypothesis HP : forall e, wellTypedNode e = true -> P e = true.

Definition ParserSpec (fuel : nat) : Prop :=
  (forall context segments buf,
      forallb (everySegment P) segments = true ->
      post (fuel < 2 + 10 * remaining buf)%nat
        (fun r => ext buf (snd r) /\ forallb (everySegment P) (fst r) = true)
        (parseSegments fuel context segments buf))
  /\ (forall context buf,
      post (fuel < 1 + 10 * remaining buf)%nat
        (fun r => match fst r with
                  | Some segment => strict buf (snd r) /\ everySegment P segment = true
                  | None => snd r = buf
                  end)
        (parseSegment_buf fuel context buf))
  /\ (forall context selectors selectorCount buf,
      forallb (everySelector P) selectors = true ->
      post (fuel < 3 + 10 * remaining buf)%nat
        (fun r => strict buf (snd r) /\ forallb (everySelector P) (fst r) = true)
        (parseSegment_loop fuel context selectors selectorCount buf))
  /\ (forall context buf,
      post (fuel < 2 + 10 * remaining buf)%nat
        (fun r => strict buf (snd r) /\ everySelector P (fst r) = true)
        (parseSelector_buf fuel context buf))
  /\ (forall context buf,
      post (fuel < 1 + 10 * remaining buf)%nat
        (fun r => strict buf (snd r) /\ everySelector P (fst r) = true)
        (parseFilterSelector fuel context buf))
  /\ (forall context buf,
      post (fuel < 6 + 10 * remaining buf)%nat
        (fun r => strict buf (snd r) /\ everyExpression P (fst r) = true)
        (parseExpression_buf fuel context buf))
  /\ (forall context buf,
      post (fuel < 5 + 10 * remaining buf)%nat
        (fun r => strict buf (snd r) /\ everyExpression P (fst r) = true)
        (parseOrExpression fuel context buf))
  /\ (forall context expr buf,
      wtOperands P expr = true ->
      post (fuel < 1 + 10 * remaining buf)%nat
        (fun r => ext buf (snd r) /\ wtOperands P (fst r) = true)
        (parseOrExpression_loop fuel context expr buf))
  /\ (forall context buf,
      post (fuel < 4 + 10 * remaining buf)%nat
        (fun r => strict buf (snd r) /\ everyExpression P (fst r) = true)
        (parseAndExpression fuel context buf))
  /\ (forall context expr buf,
      wtOperands P expr = true ->
      post (fuel < 1 + 10 * remaining buf)%nat
        (fun r => ext buf (snd r) /\ wtOperands P (fst r) = true)
        (parseAndExpression_loop fuel context expr buf))
  /\ (forall context buf,
      post (fuel < 3 + 10 * remaining buf)%nat
        (fun r => strict buf (snd r) /\ everyExpression P (fst r) = true)
        (parseBasicExpression fuel context buf))
  /\ (forall context buf,
      post (fuel < 1 + 10 * remaining buf)%nat
        (fun r => strict buf (snd r) /\ everyExpression P (fst r) = true)
        (parseParenExpression fuel context buf))
  /\ (forall context buf,
      post (fuel < 2 + 10 * remaining buf)%nat
        (fun r => strict buf (snd r) /\ everyExpression P (fst r) = true
                  /\ isComparableKind (fst r) = true)
        (parseComparable fuel context buf))
  /\ (forall context func buf,
      post (fuel < 1 + 10 * remaining buf)%nat
        (fun r => strict buf (snd r) /\ everyExpression P (fst r) = true
                  /\ isComparableKind (fst r) = true)
        (parseFunctionArguments fuel context func buf))
  /\ (forall context func args buf,
      forallb (everyExpression P) args = true ->
      post (fuel < 7 + 10 * remaining buf)%nat
        (fun r => ext buf (snd r) /\ forallb (everyExpression P) (fst r) = true)
        (parseFunctionArguments_loop fuel context func args buf)).

Lemma parser_spec_0 : ParserSpec 0.
Proof. unfold ParserSpec. repeat split; intros; cbn; lia. Qed.

Ltac post_rec :=
  eapply post_weaken;
  [ post_callee
  | intro; solve [buf_solve]
  | let a := fresh "a" in
    let H := fresh "Hpost" in
    intros a H;
    lazymatch type of a with
    | unit => destruct a
    | (_ * _)%type =>
        let r := fresh "r" in
        let b := fresh "b" in
        destruct a as [r b]; cbn [fst snd] in H
    | _ => idtac
    end;
    cbn beta iota ].

Ltac finish :=
  lazymatch goal with
  | |- post _ _ _ => try post_rec
  | |- _ => idtac
  end;
  repeat match goal with
         | H : match ?x with Some _ => _ | None => _ end |- _ => destruct x
         | H : _ /\ _ |- _ => destruct H
         end;
  try discriminate;
  repeat match goal with
         | |- _ /\ _ => split
         end;
  try reflexivity;
  lazymatch goal with
  | |- ext _ _ => try solve [buf_solve]
  | |- strict _ _ => try solve [buf_solve]
  | |- _ = true => try solve [wt_solve]
  | |- _ => idtac
  end.

Lemma parser_spec_S fuel : ParserSpec fuel -> ParserSpec (S fuel).
Proof.
  intros (Hsegments & Hsegment & Hsegloop & Hselector & Hfilter & Hexpr & Hor
          & Horloop & Hand & Handloop & Hbasic & Hparen & Hcomparable
          & Hfunargs & Hfunloop).
  unfold ParserSpec. repeat apply conj.
  - intros context segments buf Hwt. cbn [parseSegments].
    post_steps; finish.
  - intros context buf. cbn [parseSegment_buf].
    post_steps; finish.
  - intros context selectors selectorCount buf Hwt. cbn [parseSegment_loop].
    post_steps; finish.
  - intros context buf. cbn [parseSelector_buf].
    post_steps; finish.
  - intros context buf. cbn [parseFilterSelector].
    post_steps; finish.
  - intros context buf. cbn [parseExpression_buf].
    post_steps; finish.
  - intros context buf. cbn [parseOrExpression].
    post_steps; finish.
  - intros context expr buf Hwt. cbn [parseOrExpression_loop].
    post_steps; finish.
  - intros context buf. cbn [parseAndExpression].
    post_steps; finish.
  - intros context expr buf Hwt. cbn [parseAndExpression_loop].
    post_steps; finish.
  - intros context buf. cbn [parseBasicExpression].
    post_steps; finish.
    (* the comparison: both sides passed the singular-query and the
       comparable-type checks *)
    wt_hyps. cbn. rewrite HP.
    + wt_rewrite. reflexivity.
    + unfold wellTypedNode, comparisonGate, arityExact.
      rewrite 2 isComparable_checked by assumption. reflexivity.
  - intros context buf. cbn [parseParenExpression].
    post_steps; finish.
  - intros context buf. cbn [parseComparable].
    post_steps; finish.
  - intros context func buf. cbn [parseFunctionArguments].
    post_steps; finish.
  - intros context func args buf Hwt. cbn [parseFunctionArguments_loop].
    post_steps; finish.
Qed.

Lemma parser_spec fuel : ParserSpec fuel.
Proof.
  induction fuel as [|fuel IH]; [apply parser_spec_0 | apply parser_spec_S, IH].
Qed.

End ParserInvariant.

(** ** The entry points *)

Section EntryPoints.
Variable P : Expression -> bool.
Hypothesis HP : forall e, wellTypedNode e = true -> P e = true.

Lemma parseQuery_fuel_post input context :
  post False (fun query => everyQuery P query = true)
    (parseQuery_fuel (parseFuel input) input context).
Proof.
  unfold parseQuery_fuel.
  destruct (negb (peek (bufferOf input) =? 36)) eqn:E; [exact I|].
  eapply post_bind.
  - apply (proj1 (@parser_spec P HP (parseFuel input))). reflexivity.
  - unfold parseFuel, remaining. cbn. lia.
  - intros [segs b] [_ Hwt]. cbn [fst snd] in *.
    destruct (negb (offset b =? List.length input)%nat); [exact I | exact Hwt].
Qed.

Lemma parseImplicitQuery_fuel_post input context :
  post False (fun query => everyQuery P query = true)
    (parseImplicitQuery_fuel (parseFuel input) input context).
Proof.
  unfold parseImplicitQuery_fuel.
  assert (Hcont : forall segs b,
             forallb (everySegment P) segs = true ->
             ext (bufferOf input) b ->
             post False (fun query => everyQuery P query = true)
               ('(segments, buf) <-
                  parseSegments (parseFuel input) context segs b ;;
                if negb (offset buf =? List.length input)%nat
                then Raise (QueryError "Invalid JSONPath query" (offset buf))
                else Done (createQuery segments))).
  { intros segs b Hwt Hext. eapply post_bind.
    - apply (proj1 (@parser_spec P HP (parseFuel input))). exact Hwt.
    - unfold parseFuel, remaining, ext in *. cbn in *. lia.
    - intros [segs' b'] [_ Hwt']. cbn [fst snd] in *.
      destruct (negb (offset b' =? List.length input)%nat);
        [exact I | exact Hwt']. }
  post_steps; try (apply Hcont; [reflexivity | buf_solve]).
  all: eapply post_bind; [apply parseShorthandName_post | tauto |].
  all: intros [name b] H; cbn [fst snd obind] in *.
  all: apply Hcont; [reflexivity | buf_solve].
Qed.

Lemma parseSegment_fuel_post input context :
  post False
    (fun r => match r with
              | Some segment => everySegment P segment = true
              | None => input = []
              end)
    (parseSegment_fuel (parseFuel input) input context).
Proof.
  unfold parseSegment_fuel. eapply post_bind.
  - apply (proj1 (proj2 (@parser_spec P HP (parseFuel input)))).
  - unfold parseFuel, remaining. cbn. lia.
  - intros [[segment|] b] H; cbn [fst snd] in *.
    + destruct (negb (offset b =? List.length input)%nat);
        [exact I | apply H].
    + subst b. cbn [offset bufferOf].
      destruct input; [reflexivity | exact I].
Qed.

Lemma parseSelector_fuel_post input context :
  post False (fun selector => everySelector P selector = true)
    (parseSelector_fuel (parseFuel input) input context).
Proof.
  unfold parseSelector_fuel. eapply post_bind.
  - apply (@parser_spec P HP (parseFuel input)).
  - unfold parseFuel, remaining. cbn. lia.
  - intros [selector b] [_ H]; cbn [fst snd] in *.
    destruct (negb (offset b =? List.length input)%nat); [exact I | exact H].
Qed.

Lemma parseExpression_fuel_post input context :
  post False (fun expression => everyExpression P expression = true)
    (parseExpression_fuel (parseFuel input) input context).
Proof.
  unfold parseExpression_fuel. eapply post_bind.
  - apply (@parser_spec P HP (parseFuel input)).
  - unfold parseFuel, remaining. cbn. lia.
  - intros [expression b] [_ H]; cbn [fst snd] in *.
    destruct (negb (offset b =? List.length input)%nat); [exact I | exact H].
Qed.

End EntryPoints.

(** What a parse returns satisfies its postcondition. *)
Lemma completed_checked {A : Type} (Q : A -> Prop) (o : Outcome A) (a : A) :
  post False Q o -> completed o = Ok a -> Q a.
Proof.
  destruct o as [a'|e|]; cbn; intros H E; try discriminate.
  injection E as <-. exact H.
Qed.


Lemma wellTypedNode_arityExact e :
  wellTypedNode e = true -> arityExact e = true.
Proof. unfold wellTypedNode. intros H. apply andb_prop in H. apply H. Qed.

(** The entry points never exhaust the fuel they are given. *)
Lemma parseQuery_total input context :
  parseQuery_fuel (parseFuel input) input context <> OutOfFuel.
Proof.
  pose proof (@parseQuery_fuel_post arityExact wellTypedNode_arityExact input context) as H.
  intros E. rewrite E in H. exact H.
Qed.

Lemma parseSegment_total input context :
  parseSegment_fuel (parseFuel input) input context <> OutOfFuel.
Proof.
  pose proof (@parseSegment_fuel_post arityExact wellTypedNode_arityExact input context) as H.
  intros E. rewrite E in H. exact H.
Qed.

(** ** The checks on what the parser returns *)

Section Checked.
Variable P : Expression -> bool.
Hypothesis HP : forall e, wellTypedNode e = true -> P e = true.

(** Every expression of a tree that an entry point returns satisfies
    the checks the parser makes. *)
Lemma parseQuery_checked input context query :
  parseQuery input context = Ok query -> everyQuery P query = true.
Proof.
  intros E.
  eapply (@completed_checked _ (fun tree => everyQuery P tree = true)); [|exact E].
  apply (@parseQuery_fuel_post P HP).
Qed.

Lemma parseImplicitQuery_checked input context query :
  parseImplicitQuery input context = Ok query -> everyQuery P query = true.
Proof.
  intros E.
  eapply (@completed_checked _ (fun tree => everyQuery P tree = true)); [|exact E].
  apply (@parseImplicitQuery_fuel_post P HP).
Qed.

Lemma parseSelector_checked input context selector :
  parseSelector input context = Ok selector ->
  everySelector P selector = true.
Proof.
  intros E.
  eapply (@completed_checked _ (fun tree => everySelector P tree = true)); [|exact E].
  apply (@parseSelector_fuel_post P HP).
Qed.

Lemma parseExpression_checked input context expression :
  parseExpression input context = Ok expression ->
  everyExpression P expression = true.
Proof.
  intros E.
  eapply (@completed_checked _ (fun tree => everyExpression P tree = true)); [|exact E].
  apply (@parseExpression_fuel_post P HP).
Qed.

End Checked.

(** The gate where it is applied: [$[?@.* == 1]], [$[?1 == @..a]] and
    [$[?match(@.a, 'x') == true]] are rejected, [$[?@.a[0] == $['b']]]
    is accepted. *)
Example gate_rejects_wildcard_query :
  parseQuery (js "$[?@.* == 1]") SmallHost.context
  = Throw (QueryError "Only singular queries can be compared" 7).
Proof. vm_compute. reflexivity. Qed.

Example gate_rejects_descendant_query :
  parseQuery (js "$[?1 == @..a]") SmallHost.context
  = Throw (QueryError "Only singular queries can be compared" 12).
Proof. vm_compute. reflexivity. Qed.

Example gate_rejects_logical_function :
  parseQuery (js "$[?match(@.a, 'x') == true]") SmallHost.context
  = Throw (QueryError
             "LogicalType function not supported in comparison expression" 22).
Proof. vm_compute. reflexivity. Qed.

Example gate_accepts_singular_queries :
  parseQuery (js "$[?@.a[0] == $['b']]") SmallHost.context
  = Ok (createQuery
          [ChildSegment
             [FilterSelector
                (ComparisonExpression
                   (QueryExpression CurrentIdentifier
                      [ChildSegment [NameSelector (js "a")];
                       ChildSegment [IndexSelector 0]])
                   ComparisonOperator.Equal
                   (QueryExpression RootIdentifier
                      [ChildSegment [NameSelector (js "b")]]))]]).
Proof. vm_compute. reflexivity. Qed.

Example arity_too_few :
  parseQuery (js "$[?match(@.a)]") SmallHost.context
  = Throw (QueryError
             "Expected 2 arguments for function match, but received 1 arguments"
             13).
Proof. vm_compute. reflexivity. Qed.

Example arity_none :
  parseQuery (js "$[?count() == 1]") SmallHost.context
  = Throw (QueryError
             "Expected 1 arguments for function count, but received 0 arguments"
             10).
Proof. vm_compute. reflexivity. Qed.

(** An argument too many is not read: the loop of
    [parseFunctionArguments] ends after the comma that follows the last
    declared argument, the call is returned with the declared number of
    arguments, and the caller finds the next argument where it expects
    something else. *)
Example arity_too_many :
  parseQuery (js "$[?match(@.a, 'b', 'c')]") SmallHost.context
  = Throw (QueryError "Expected comma" 19).
Proof. vm_compute. reflexivity. Qed.

(** The loop ends there without a closing parenthesis, too:
    [$[?length(@.a, == 1]] is accepted, as a call with one argument. *)
Example arity_trailing_comma :
  option_map (formatQuery SmallHost.host)
    (tryParseQuery (js "$[?length(@.a, == 1]") SmallHost.context)
  = Some (js "$[?length(@.a) == 1]").
Proof. vm_compute. reflexivity. Qed.

(** A name that the registry inherits is no unknown function.
    [constructor] is the function [Object], which has no
    [parameterTypes]: the parser throws a [TypeError]. *)
Example inherited_name_called :
  parseQuery (js "$[?constructor()]") SmallHost.context
  = Throw (TypeError undefinedLength)
  /\ parseExpression (js "constructor(1)") SmallHost.context
     = Throw (TypeError undefinedLength)
  /\ parseSegment (js "[?constructor()]") SmallHost.context
     = Throw (TypeError undefinedLength)
  /\ parseQuery (js "$[?constructor]") SmallHost.context
     = Throw (QueryError "Expected function arguments" 14)
  /\ parseQuery (js "$[?size()]") SmallHost.context
     = Throw (QueryError ("Unknown function " ++ quoteMark ++ "size"
                          ++ quoteMark)%string 7).
Proof. repeat split; vm_compute; reflexivity. Qed.

(** ** Claim C3: the singular query gate *)

(** C3 states what the singular query gate is for, and [parseQuery] is
    documented to throw a [QueryError] if the input is malformed; the
    code misses it where a side of the comparison is the call of a name
    that the registry inherits.  [$[?constructor() == @.*]] is a
    comparison whose right side is not a singular query and whose left
    side is no call of a function with result type Value: the lookup of
    [constructor] finds the function [Object] of the prototype chain,
    and reading its [parameterTypes.length] throws a [TypeError] where
    the claim has a parse error.  A name that is found nowhere, in the
    same place, and a comparison that is read up to its operator raise
    a [QueryError]. *)
Theorem C3_comparison_with_inherited_name (host : Host) :
  parseQuery (js "$[?constructor() == @.*]") (createQueryContext host None)
  = Throw (TypeError undefinedLength)
  /\ parseQuery (js "$[?size() == @.*]") (createQueryContext host None)
     = Throw (QueryError ("Unknown function " ++ quoteMark ++ "size"
                          ++ quoteMark)%string 7)
  /\ parseQuery (js "$[?length(@) == @.*]") (createQueryContext host None)
     = Throw (QueryError "Only singular queries can be compared" 19).
Proof. repeat split; vm_compute; reflexivity. Qed.

(** ** Claim C8: the arity of function calls *)

(** C8 states what the arity check is for, and [parseQuery] is
    documented to throw a [QueryError] if the input is malformed; the
    code misses it where an argument of the call is the call of a name
    that the registry inherits.  [$[?match(constructor())]] calls
    [match], which has two parameters, with one argument: the lookup of
    [constructor] finds the function [Object] of the prototype chain,
    and reading its [parameterTypes.length], for the arity check of
    that call, throws a [TypeError] where the claim has a parse error.
    A name that is found nowhere, in the same place, and a call whose
    closing parenthesis is reached raise a [QueryError]. *)
Theorem C8_call_with_inherited_name (host : Host) :
  parseQuery (js "$[?match(constructor())]") (createQueryContext host None)
  = Throw (TypeError undefinedLength)
  /\ parseQuery (js "$[?match(size())]") (createQueryContext host None)
     = Throw (QueryError ("Unknown function " ++ quoteMark ++ "size"
                          ++ quoteMark)%string 13)
  /\ parseQuery (js "$[?match(@.a)]") (createQueryContext host None)
     = Throw (QueryError
                "Expected 2 arguments for function match, but received 1 arguments"
                13).
Proof. repeat split; vm_compute; reflexivity. Qed.

(** ** Claim C10: [parseSegment] on the empty string *)

(** C10 states what the grammar quoted in [parseSegment] asks for,
    [bracketed-selection = "[" S selector *(S "," S selector) S "]"];
    the code misses it.  The empty string gives [undefined], as
    claimed.  But the loop over the selectors tests for the closing
    bracket before it asks for the first selector, so [[]] and [..[]],
    which begin no segment of that grammar, are returned as segments
    without selectors, by [parseQuery] as well.  And [[?constructor()]]
    throws a [TypeError] where the claim has a parse error: the name is
    found in the prototype chain of the registry. *)
Theorem C10_parseSegment_without_selectors (host : Host) :
  parseSegment [] (createQueryContext host None) = Ok None
  /\ parseSegment (js "[]") (createQueryContext host None)
     = Ok (Some (ChildSegment []))
  /\ parseSegment (js "..[]") (createQueryContext host None)
     = Ok (Some (DescendantSegment []))
  /\ parseQuery (js "$[ ]..[]") (createQueryContext host None)
     = Ok (createQuery [ChildSegment []; DescendantSegment []])
  /\ parseSegment (js "[?constructor()]") (createQueryContext host None)
     = Throw (TypeError undefinedLength).
Proof. repeat split; vm_compute; reflexivity. Qed.

(** ** Claim C6: the first character of a shorthand name *)

(** C6, as stated, fails: [$.é] (the code unit U+00E9 after the dot) is
    rejected. *)
Lemma C6_counterexample :
  parseQuery (js "$." ++ [0xe9]) SmallHost.context
  = Throw (QueryError "Expected dot segment" 2).
Proof. vm_compute. reflexivity. Qed.

Lemma scanWhile_all p k pre rest :
  forallb p rest = true ->
  (List.length rest <= k)%nat ->
  scanWhile p k
    (mkInputBuffer (pre ++ rest) (List.length pre) (List.length (pre ++ rest)))
  = mkInputBuffer (pre ++ rest) (List.length (pre ++ rest))
      (List.length (pre ++ rest)).
Proof.
  revert pre rest. induction k as [|k IH]; intros pre rest Hall Hk.
  - destruct rest; [|cbn in Hk; lia]. rewrite app_nil_r. reflexivity.
  - destruct rest as [|c rest].
    + rewrite app_nil_r. cbn [scanWhile offset limit input].
      rewrite Nat.ltb_irrefl. reflexivity.
    + cbn [scanWhile input offset limit]. cbn in Hall, Hk.
      apply andb_prop in Hall. destruct Hall as [Hc Hall].
      assert (Hlt : (List.length pre <? List.length (pre ++ c :: rest))%nat
                    = true).
      { apply Nat.ltb_lt. rewrite length_app. cbn. lia. }
      rewrite Hlt. unfold charCodeAt. rewrite nth_middle, Hc. cbn [andb].
      unfold advance. cbn [input offset limit].
      replace (pre ++ c :: rest) with ((pre ++ [c]) ++ rest)
        by (rewrite <- app_assoc; reflexivity).
      replace (List.length pre + 1)%nat with (List.length (pre ++ [c]))
        by (rewrite length_app; reflexivity).
      apply IH; [exact Hall | lia].
Qed.

Lemma isNameFirstChar_spec c :
  isNameFirstChar c = true <->
  (0x41 <= c <= 0x5a) \/ (0x61 <= c <= 0x7a) \/ c = 0x5f.
Proof.
  unfold isNameFirstChar, isAlpha, isUppercase, isLowercase. lia.
Qed.

Lemma parseFuel_ge input :
  exists fuel, parseFuel input = S (S (S (S fuel))).
Proof.
  unfold parseFuel. exists (10 * S (List.length input) - 4)%nat. lia.
Qed.

Lemma parseQuery_shorthand_rejected c rest context :
  isNameFirstChar c = false -> c <> 0x2a -> c <> 0x2e ->
  parseQuery (js "$." ++ c :: rest) context
  = Throw (QueryError "Expected dot segment" 2).
Proof.
  intros Hfirst Hstar Hdot.
  unfold parseQuery, parseQuery_fuel.
  destruct (parseFuel_ge (js "$." ++ c :: rest)) as [fuel ->].
  change (js "$.") with [36; 46].
  cbn.
  destruct (Z.eqb_spec c 46) as [?|_]; [contradiction|].
  destruct (Z.eqb_spec c 42) as [?|_]; [contradiction|].
  match goal with
  | |- context [if ?b then _ else _] => destruct b eqn:E
  end.
  - exfalso. unfold isNameFirstChar, isAlpha, isUppercase, isLowercase in Hfirst.
    lia.
  - reflexivity.
Qed.

Lemma scanWhile_name p k a b c rest :
  forallb p rest = true ->
  (List.length rest <= k)%nat ->
  scanWhile p k
    (mkInputBuffer (a :: b :: c :: rest) 3 (S (S (S (List.length rest)))))
  = mkInputBuffer (a :: b :: c :: rest) (S (S (S (List.length rest))))
      (S (S (S (List.length rest)))).
Proof. intros Hall Hk. apply (@scanWhile_all p k [a; b; c] rest Hall Hk). Qed.

Lemma parseShorthandName_all a b c rest :
  isNameFirstChar c = true ->
  forallb isNameChar rest = true ->
  parseShorthandName
    (mkInputBuffer (a :: b :: c :: rest) 2 (S (S (S (List.length rest)))))
  = Done (c :: rest,
          mkInputBuffer (a :: b :: c :: rest) (S (S (S (List.length rest))))
            (S (S (S (List.length rest))))).
Proof.
  intros Hfirst Hrest. unfold parseShorthandName.
  cbn [offset limit input Nat.leb charCodeAt nth].
  rewrite Hfirst. cbn [negb orb].
  unfold skipWhile, remaining, advance.
  cbn [offset limit input Nat.add Nat.sub].
  rewrite Nat.sub_0_r.
  rewrite (@scanWhile_name isNameChar (List.length rest) a b c rest Hrest
             (le_n _)).
  cbn [offset input]. unfold slice.
  cbn [Nat.sub skipn firstn]. rewrite firstn_all. reflexivity.
Qed.

Lemma peek_end i n : peek (mkInputBuffer i n n) = -1.
Proof. unfold peek. cbn [offset limit]. rewrite Nat.ltb_irrefl. reflexivity. Qed.

Lemma parseQuery_shorthand_accepted name context :
  isValidShorthandName name = true ->
  parseQuery (js "$." ++ name) context
  = Ok (createQuery [ChildSegment [NameSelector name]]).
Proof.
  destruct name as [|c rest]; [discriminate|].
  cbn [isValidShorthandName]. intros H. apply andb_prop in H.
  destruct H as [Hfirst Hrest].
  unfold parseQuery, parseQuery_fuel.
  destruct (parseFuel_ge (js "$." ++ c :: rest)) as [fuel ->].
  change (js "$.") with [36; 46].
  assert (Hdot : (c =? 46) = false)
    by (unfold isNameFirstChar, isAlpha, isUppercase, isLowercase in Hfirst; lia).
  assert (Hstar : (c =? 42) = false)
    by (unfold isNameFirstChar, isAlpha, isUppercase, isLowercase in Hfirst; lia).
  cbn.
  rewrite Hdot, Hstar, Hfirst.
  change (advance 1 (advance 1 (bufferOf (36 :: 46 :: c :: rest))))
    with (mkInputBuffer (36 :: 46 :: c :: rest) 2
            (S (S (S (List.length rest))))).
  rewrite parseShorthandName_all by assumption.
  cbn.
  rewrite Nat.sub_diag. cbn.
  rewrite peek_end. cbn.
  rewrite Nat.eqb_refl. reflexivity.
Qed.

(** C6, amended.  The first character of a shorthand name is [A-Z],
    [a-z] or ["_"] and nothing else.  A dot followed by a name that
    starts with such a character and continues with name characters
    parses into a child segment with a name selector; a dot followed by a
    code unit from U+0080 up is rejected with a parse error. *)
Theorem C6_shorthand_name_first (c : Z) (rest : JSString)
    (context : QueryContext) :
  (isNameFirstChar c = true <->
   (0x41 <= c <= 0x5a) \/ (0x61 <= c <= 0x7a) \/ c = 0x5f)
  /\ (isNameFirstChar c = true -> forallb isNameChar rest = true ->
      parseQuery (js "$." ++ c :: rest) context
      = Ok (createQuery [ChildSegment [NameSelector (c :: rest)]]))
  /\ (0x80 <= c ->
      parseQuery (js "$." ++ c :: rest) context
      = Throw (QueryError "Expected dot segment" 2)).
Proof.
  split; [apply isNameFirstChar_spec | split].
  - intros Hfirst Hrest. apply parseQuery_shorthand_accepted.
    cbn [isValidShorthandName]. rewrite Hfirst, Hrest. reflexivity.
  - intros Hc. apply parseQuery_shorthand_rejected; [|lia|lia].
    unfold isNameFirstChar, isAlpha, isUppercase, isLowercase. lia.
Qed.

Lemma C6_shorthand_name_first_witness :
  parseQuery (js "$." ++ 0x61 :: [0x31]) SmallHost.context
  = Ok (createQuery [ChildSegment [NameSelector (0x61 :: [0x31])]])
  /\ parseQuery (js "$." ++ 0xe9 :: [0x31]) SmallHost.context
     = Throw (QueryError "Expected dot segment" 2).
Proof.
  split.
  - apply (proj1 (proj2 (C6_shorthand_name_first 0x61 [0x31]
                           SmallHost.context)));
      reflexivity.
  - apply (proj2 (proj2 (C6_shorthand_name_first 0xe9 [0x31]
                           SmallHost.context))).
    discriminate.
Defined.

(** ** Claim C2: parsing the formatter's output *)

(** C2 states what the formatter is for; the code misses it.  The query
    [$[?!(!@.a)]] is accepted, and is formatted as [$[?!!@.a]]: the
    operand of [!] has precedence 4, which is not below the required 4,
    so it gets no parentheses.  The parser rejects that output. *)
Theorem C2_formatted_query_rejected :
  exists query : Query,
    parseQuery (js "$[?!(!@.a)]") SmallHost.context = Ok query
    /\ formatQuery SmallHost.host query = js "$[?!!@.a]"
    /\ parseQuery (formatQuery SmallHost.host query) SmallHost.context
       = Throw (QueryError "Expected comparable expression" 4).
Proof.
  exists (createQuery
            [ChildSegment
               [FilterSelector
                  (NotExpression
                     (NotExpression
                        (QueryExpression CurrentIdentifier
                           [ChildSegment [NameSelector (js "a")]])))]]).
  repeat split; vm_compute; reflexivity.
Qed.

(** A second way to the same failure.  After [parseHexCodePoint] has
    consumed the four digits of a [\uXXXX] escape, [parseStringLiteral]
    advances the buffer by four more, so [$['\u0001abcd']] is accepted
    as the name U+0001; its formatted form [$['\u0001']] is rejected. *)
Lemma formatted_escape_rejected :
  exists query : Query,
    parseQuery (js "$['\u0001abcd']") SmallHost.context = Ok query
    /\ query = createQuery [ChildSegment [NameSelector [1]]]
    /\ formatQuery SmallHost.host query = js "$['\u0001']"
    /\ parseQuery (formatQuery SmallHost.host query) SmallHost.context
       = Throw (QueryError "Expected comma" 13).
Proof.
  exists (createQuery [ChildSegment [NameSelector [1]]]).
  repeat split; vm_compute; reflexivity.
Qed.

(** Where the parser and the formatter agree, the round trip holds: the
    transcoding cases of the test suite. *)
Example round_trip_filter :
  exists query : Query,
    parseQuery (js "$.a[?@<2 || @.b == 'k']") SmallHost.context = Ok query
    /\ formatQuery SmallHost.host query = js "$.a[?@ < 2 || @.b == 'k']"
    /\ option_map (formatQuery SmallHost.host)
         (tryParseQuery (formatQuery SmallHost.host query) SmallHost.context)
       = Some (formatQuery SmallHost.host query).
Proof.
  destruct (parseQuery (js "$.a[?@<2 || @.b == 'k']") SmallHost.context)
    as [query|e] eqn:E; [|vm_compute in E; discriminate E].
  exists query. split; [reflexivity|].
  vm_compute in E. injection E as <-. split; vm_compute; reflexivity.
Qed.

(** The arity check of [parseFunctionArguments]: what it returns is a
    call of [func] with exactly the declared number of arguments. *)
Lemma parseFunctionArguments_arity fuel context func buf e b :
  parseFunctionArguments fuel context func buf = Done (e, b) ->
  exists args,
    e = FunctionExpression func args
    /\ List.length args = List.length (parameterTypes func).
Proof.
  destruct fuel as [|fuel]; [discriminate|].
  cbn [parseFunctionArguments].
  destruct (negb (atChar 40 buf)); [discriminate|].
  destruct (parseFunctionArguments_loop fuel context func []
              (parseBlankSpace (advance 1 buf))) as [[args b']| |];
    cbn [obind]; try discriminate.
  destruct (Nat.eqb_spec (List.length args) (List.length (parameterTypes func)))
    as [Hlen|_]; cbn [negb]; [|discriminate].
  intros H. injection H as <- <-. exists args. split; [reflexivity | exact Hlen].
Qed.

(* ================================================================== *)
(** * Further properties of the evaluator *)
(* ================================================================== *)

(** Decides the integer tests of the goal that follow from the
    hypotheses. *)
Ltac decide_tests :=
  repeat (match goal with
          | |- context [?a <? ?b] =>
              first [ replace (a <? b) with true by lia
                    | replace (a <? b) with false by lia ]
          | |- context [?a <=? ?b] =>
              first [ replace (a <=? b) with true by lia
                    | replace (a <=? b) with false by lia ]
          | |- context [?a =? ?b] =>
              first [ replace (a =? b) with true by lia
                    | replace (a =? b) with false by lia ]
          end; cbv iota).

(** ** Index selectors *)

Lemma valueTypeList_length value : (List.length (valueTypeList value) <= 1)%nat.
Proof. destruct value; cbn; lia. Qed.

(** X1.  An index selector on an array of length [len]: an index in
    [0 .. len - 1] selects the element at that position, an index in
    [-len .. -1] selects what [index + len] selects, and any other index
    selects nothing.  A value that is not an array has no indexed
    children. *)
Theorem evaluateIndexSelector_bounds (index : Z) (elements : list Node) :
  let len := Z.of_nat (List.length elements) in
  (0 <= index < len ->
   evaluateIndexSelector index (JArray elements)
   = valueTypeList (nth (Z.to_nat index) elements JUndefined))
  /\ (- len <= index < 0 ->
      evaluateIndexSelector index (JArray elements)
      = evaluateIndexSelector (index + len) (JArray elements))
  /\ (index < - len \/ len <= index ->
      evaluateIndexSelector index (JArray elements) = [])
  /\ (forall node, isArray node = false -> evaluateIndexSelector index node = []).
Proof.
  cbn zeta. unfold evaluateIndexSelector, elementAt. repeat split.
  - intros H. decide_tests. reflexivity.
  - intros H. decide_tests. reflexivity.
  - intros [H|H]; decide_tests; [reflexivity|].
    rewrite nth_overflow by lia. reflexivity.
  - intros node H. destruct node; try reflexivity. discriminate H.
Qed.

Lemma evaluateIndexSelector_bounds_witness :
  evaluateIndexSelector 1 (JArray [JNull; JBool true]) = [JBool true]
  /\ evaluateIndexSelector (-1) (JArray [JNull; JBool true])
     = evaluateIndexSelector 1 (JArray [JNull; JBool true])
  /\ evaluateIndexSelector 2 (JArray [JNull; JBool true]) = []
  /\ evaluateIndexSelector 0 (JObject []) = [].
Proof.
  pose proof (evaluateIndexSelector_bounds 1 [JNull; JBool true]) as H1.
  pose proof (evaluateIndexSelector_bounds (-1) [JNull; JBool true]) as H2.
  pose proof (evaluateIndexSelector_bounds 2 [JNull; JBool true]) as H3.
  pose proof (evaluateIndexSelector_bounds 0 []) as H4.
  cbn zeta in *.
  split; [apply (proj1 H1); cbn; lia|].
  split; [apply (proj1 (proj2 H2)); cbn; lia|].
  split; [apply (proj1 (proj2 (proj2 H3))); cbn; lia|].
  apply (proj2 (proj2 (proj2 H4))). reflexivity.
Defined.

(** ** Slice selectors *)

Lemma skipn_cons_nth {A : Type} (d : A) (xs : list A) (n : nat) :
  (n < List.length xs)%nat -> skipn n xs = nth n xs d :: skipn (S n) xs.
Proof.
  revert n. induction xs as [|x xs IH]; intros n H; cbn in H; [lia|].
  destruct n as [|n]; [reflexivity|].
  cbn [skipn nth]. apply IH. lia.
Qed.

Lemma sliceUp_unit (k : nat) (elements : list Node) (i upper : Z) :
  0 <= i -> upper <= Z.of_nat (List.length elements) ->
  upper - i <= Z.of_nat k ->
  sliceUp k elements i upper 1
  = firstn (Z.to_nat (upper - i)) (skipn (Z.to_nat i) elements).
Proof.
  revert i. induction k as [|k IH]; intros i Hi Hupper Hk.
  - replace (Z.to_nat (upper - i)) with O by lia. reflexivity.
  - cbn [sliceUp]. destruct (Z.ltb_spec i upper) as [Hlt|Hge].
    + rewrite IH by lia.
      rewrite (skipn_cons_nth JUndefined elements (n := Z.to_nat i)) by lia.
      replace (Z.to_nat (upper - i)) with (S (Z.to_nat (upper - (i + 1))))
        by lia.
      replace (Z.to_nat (i + 1)) with (S (Z.to_nat i)) by lia.
      unfold elementAt. replace (i <? 0) with false by lia. reflexivity.
    + replace (Z.to_nat (upper - i)) with O by lia. reflexivity.
Qed.

(** X2.  A slice with the default step or step 1 and bounds inside the array
    selects the elements from [start] up to, not including, [end], in
    order; an absent start is 0 and an absent end is the length, so [[:]]
    selects every element. *)
Theorem evaluateSliceSelector_forward
    (start end_ step : option Z) (elements : list Node) :
  let len := Z.of_nat (List.length elements) in
  let s := orElse start 0 in
  let e := orElse end_ len in
  step = None \/ step = Some 1 ->
  0 <= s <= len -> 0 <= e <= len ->
  evaluateSliceSelector start end_ step (JArray elements)
  = firstn (Z.to_nat (e - s)) (skipn (Z.to_nat s) elements).
Proof.
  cbn zeta. intros Hstep Hs He. unfold evaluateSliceSelector.
  assert (Hone : orElse step 1 = 1) by (destruct Hstep; subst; reflexivity).
  rewrite Hone.
  destruct (Z.eqb_spec (Z.of_nat (List.length elements)) 0) as [Hlen|Hlen];
    cbn [negb].
  - destruct elements; [|cbn in Hlen; lia].
    rewrite skipn_nil, firstn_nil. reflexivity.
  - cbv zeta. decide_tests.
    rewrite sliceUp_unit by lia.
    f_equal; [|f_equal]; lia.
Qed.

Lemma evaluateSliceSelector_forward_witness :
  evaluateSliceSelector (Some 1) None None
    (JArray [JNull; JBool true; JBool false])
  = [JBool true; JBool false].
Proof.
  apply (@evaluateSliceSelector_forward (Some 1) None None
           [JNull; JBool true; JBool false]);
    [left; reflexivity | cbn; lia | cbn; lia].
Defined.

(** X3.  A negative bound counts from the end of the array: for every step, a
    start or an end in [-len .. -1] selects what the bound plus the length
    selects. *)
Theorem evaluateSliceSelector_negative_bounds
    (bound : Z) (other step : option Z) (elements : list Node) :
  let len := Z.of_nat (List.length elements) in
  - len <= bound < 0 ->
  evaluateSliceSelector (Some bound) other step (JArray elements)
  = evaluateSliceSelector (Some (bound + len)) other step (JArray elements)
  /\ evaluateSliceSelector other (Some bound) step (JArray elements)
     = evaluateSliceSelector other (Some (bound + len)) step (JArray elements).
Proof.
  cbn zeta. intros H. unfold evaluateSliceSelector. cbn [orElse].
  replace (0 <=? bound) with false by lia.
  replace (0 <=? bound + Z.of_nat (List.length elements)) with true by lia.
  rewrite (Z.add_comm bound). split; reflexivity.
Qed.

Lemma evaluateSliceSelector_negative_bounds_witness :
  evaluateSliceSelector (Some (-2)) None None
    (JArray [JNull; JBool true; JBool false])
  = evaluateSliceSelector (Some 1) None None
      (JArray [JNull; JBool true; JBool false]).
Proof.
  refine (proj1 (@evaluateSliceSelector_negative_bounds (-2) None None
                   [JNull; JBool true; JBool false] _)).
  cbn. lia.
Defined.

Lemma firstn_succ_nth {A : Type} (d : A) (xs : list A) (n : nat) :
  (n < List.length xs)%nat -> firstn (S n) xs = firstn n xs ++ [nth n xs d].
Proof.
  revert n. induction xs as [|x xs IH]; intros n H; cbn in H; [lia|].
  destruct n as [|n]; [reflexivity|].
  cbn [firstn nth app]. f_equal. apply IH. lia.
Qed.

Lemma sliceDown_unit (k : nat) (elements : list Node) (i : Z) :
  -1 <= i < Z.of_nat (List.length elements) ->
  i + 1 <= Z.of_nat k ->
  sliceDown k elements i (-1) (-1) = rev (firstn (Z.to_nat (i + 1)) elements).
Proof.
  revert i. induction k as [|k IH]; intros i Hi Hk.
  - replace (Z.to_nat (i + 1)) with O by lia. reflexivity.
  - cbn [sliceDown]. destruct (Z.ltb_spec (-1) i) as [Hlt|Hge].
    + rewrite IH by lia.
      replace (Z.to_nat (i + 1)) with (S (Z.to_nat i)) by lia.
      replace (Z.to_nat (i + -1 + 1)) with (Z.to_nat i) by lia.
      rewrite (firstn_succ_nth JUndefined) by lia.
      rewrite rev_app_distr. unfold elementAt.
      replace (i <? 0) with false by lia. reflexivity.
    + replace (Z.to_nat (i + 1)) with O by lia. reflexivity.
Qed.

(** X4.  The slice [[::-1]] selects the elements of an array in reverse
    order. *)
Theorem evaluateSliceSelector_reverse (elements : list Node) :
  evaluateSliceSelector None None (Some (-1)) (JArray elements) = rev elements.
Proof.
  unfold evaluateSliceSelector. cbn [orElse].
  destruct (Z.eqb_spec (Z.of_nat (List.length elements)) 0) as [Hlen|Hlen];
    cbn [negb].
  - destruct elements; [reflexivity | cbn in Hlen; lia].
  - cbv zeta. decide_tests.
    rewrite Z.max_l, Z.min_r, Z.max_r, Z.min_l by lia.
    rewrite sliceDown_unit by lia.
    replace (Z.to_nat (Z.of_nat (List.length elements) - 1 + 1))
      with (List.length elements) by lia.
    rewrite firstn_all. reflexivity.
Qed.

Lemma sliceUp_In (k : nat) (elements : list Node) (i upper step : Z) :
  0 <= i -> upper <= Z.of_nat (List.length elements) -> 0 < step ->
  forall x, In x (sliceUp k elements i upper step) -> In x elements.
Proof.
  revert i. induction k as [|k IH]; intros i Hi Hupper Hstep x Hx;
    [contradiction|].
  cbn [sliceUp] in Hx. destruct (Z.ltb_spec i upper) as [Hlt|Hge];
    [|contradiction].
  destruct Hx as [<-|Hx].
  - unfold elementAt. replace (i <? 0) with false by lia.
    apply nth_In. lia.
  - apply (IH (i + step)); [lia | exact Hupper | exact Hstep | exact Hx].
Qed.

Lemma sliceDown_In (k : nat) (elements : list Node) (i lower step : Z) :
  i < Z.of_nat (List.length elements) -> -1 <= lower -> step < 0 ->
  forall x, In x (sliceDown k elements i lower step) -> In x elements.
Proof.
  revert i. induction k as [|k IH]; intros i Hi Hlower Hstep x Hx;
    [contradiction|].
  cbn [sliceDown] in Hx. destruct (Z.ltb_spec lower i) as [Hlt|Hge];
    [|contradiction].
  destruct Hx as [<-|Hx].
  - unfold elementAt. replace (i <? 0) with false by lia.
    apply nth_In. lia.
  - apply (IH (i + step)); [lia | exact Hlower | exact Hstep | exact Hx].
Qed.

(** X5.  Whatever its bounds and step, a slice selects only elements of the
    array it is applied to, never a position outside it; it selects
    nothing when the step is 0 or the value is not an array. *)
Theorem evaluateSliceSelector_within
    (start end_ step : option Z) (node : Node) :
  (forall x, In x (evaluateSliceSelector start end_ step node) ->
             exists elements, node = JArray elements /\ In x elements)
  /\ evaluateSliceSelector start end_ (Some 0) node = []
  /\ (isArray node = false -> evaluateSliceSelector start end_ step node = []).
Proof.
  assert (Hnot : isArray node = false ->
                 evaluateSliceSelector start end_ step node = []).
  { intros H. destruct node; try reflexivity. discriminate H. }
  split; [|split; [|exact Hnot]].
  - intros x Hx. destruct node as [| | | | |elements|];
      try (rewrite Hnot in Hx by reflexivity; contradiction).
    exists elements. split; [reflexivity|].
    unfold evaluateSliceSelector in Hx. cbv zeta in Hx.
    destruct (negb (Z.of_nat (List.length elements) =? 0)).
    + destruct (Z.ltb_spec 0 (orElse step 1)) as [Hpos|Hnpos].
      * revert Hx. apply sliceUp_In; lia.
      * destruct (Z.ltb_spec (orElse step 1) 0) as [Hneg|Hnneg];
          [|contradiction].
        revert Hx. apply sliceDown_In; lia.
    + cbn in Hx. contradiction.
  - unfold evaluateSliceSelector. cbn [orElse].
    destruct (negb _); reflexivity.
Qed.

Lemma evaluateSliceSelector_within_witness :
  (exists elements,
      JArray [JNull; JBool true] = JArray elements /\ In (JBool true) elements)
  /\ evaluateSliceSelector None None None JNull = [].
Proof.
  split.
  - apply (proj1 (evaluateSliceSelector_within (Some 1) None (Some 2)
                    (JArray [JNull; JBool true]))).
    left. reflexivity.
  - apply (proj2 (proj2 (evaluateSliceSelector_within None None None JNull))).
    reflexivity.
Defined.

(** ** Nodelists through segments *)

Lemma evaluateSegment_nil (host : Host) (segment : Segment)
    (context : QueryState) :
  evaluateSegment host segment [] context = (Ok [], context).
Proof.
  destruct segment as [selectors|selectors]; cbn [evaluateSegment].
  - enough (H : forall output : NodeList,
               forEach
                 (fun selector output =>
                    forEach
                      (fun node output =>
                         bind (evaluateSelector host selector node)
                           (fun r => ret (output ++ r)))
                      [] output)
                 selectors output context
               = (Ok output, context)) by apply H.
    induction selectors as [|selector selectors IH]; intros output;
      [reflexivity|].
    cbn [forEach]. unfold bind at 1. cbn [ret]. apply IH.
  - destruct (negb _); reflexivity.
Qed.

(** X6.  Once the nodelist is empty it stays empty: the remaining segments of
    a query are applied to no node, so they select nothing and raise
    nothing, whatever their selectors are. *)
Theorem evaluateSegments_nil (host : Host) (segments : list Segment)
    (context : QueryState) :
  evaluateSegments_open (evaluateSegment host) segments [] context
  = (Ok [], context).
Proof.
  unfold evaluateSegments_open.
  induction segments as [|segment segments IH]; [reflexivity|].
  cbn [forEach]. unfold bind. rewrite evaluateSegment_nil. exact IH.
Qed.

(** A filter whose expression throws on every node is never run when the
    name before it is missing. *)
Example missing_member_skips_filter :
  evaluateQuery_parsed SmallHost.host
    (createQuery
       [ChildSegment [NameSelector (js "a")];
        ChildSegment [FilterSelector (LiteralExpression JNull)]])
    (JObject [(js "b", JArray [JNull])]) (mkQueryState JUndefined None)
  = (Ok [], mkQueryState JUndefined None).
Proof. reflexivity. Qed.

Lemma evaluateSingularSegment (host : Host) (segment : Segment)
    (nodes : NodeList) (context : QueryState) :
  isSingularSegment segment = true ->
  (List.length nodes <= 1)%nat ->
  exists output,
    evaluateSegment host segment nodes context = (Ok output, context)
    /\ (List.length output <= 1)%nat.
Proof.
  intros Hsingular Hnodes.
  destruct segment as [[|selector [|]]|]; try discriminate Hsingular.
  cbn [isSingularSegment] in Hsingular.
  destruct nodes as [|node [|]]; [| |cbn in Hnodes; lia].
  - exists []. rewrite evaluateSegment_nil. split; [reflexivity | cbn; lia].
  - destruct selector; try discriminate Hsingular;
      cbn [evaluateSegment evaluateSelector forEach];
      unfold bind, ret; cbn [app]; eexists; (split; [reflexivity|]).
    + apply valueTypeList_length.
    + unfold evaluateIndexSelector. destruct node; cbn [List.length]; try lia.
      apply valueTypeList_length.
Qed.

(** X7.  A singular query (every segment a child segment with one name or
    index selector) selects at most one node.  It never throws, and it
    leaves the context as it found it. *)
Theorem evaluateSingularQuery (host : Host) (identifier : Identifier)
    (segments : list Segment) (node : Node) (context : QueryState) :
  isSingularQuery segments = true ->
  exists nodes,
    evaluateQueryExpression host identifier segments node context
    = (Ok nodes, context)
    /\ (List.length nodes <= 1)%nat.
Proof.
  intros Hsingular.
  assert (Hrun : forall nodes context,
             (List.length nodes <= 1)%nat ->
             exists output,
               evaluateSegments_open (evaluateSegment host) segments nodes
                 context = (Ok output, context)
               /\ (List.length output <= 1)%nat).
  { unfold isSingularQuery in Hsingular. unfold evaluateSegments_open.
    induction segments as [|segment segments IH]; intros nodes c Hnodes.
    - exists nodes. split; [reflexivity | exact Hnodes].
    - cbn [forallb] in Hsingular. apply andb_prop in Hsingular.
      destruct Hsingular as [Hsegment Hrest].
      destruct (@evaluateSingularSegment host segment nodes c Hsegment Hnodes)
        as (output & Heq & Hlen).
      cbn [forEach]. unfold bind. rewrite Heq. apply IH; assumption. }
  unfold evaluateQueryExpression, evaluateQueryExpression_open, tryFinally.
  match goal with
  | |- context [evaluateSegments_open _ _ [?root] ?c] =>
      destruct (Hrun [root] c) as (output & Heq & Hlen); [cbn; lia|];
      rewrite Heq
  end.
  exists output. split; [|exact Hlen].
  destruct context. reflexivity.
Qed.

Lemma evaluateSingularQuery_witness :
  exists nodes,
    evaluateQueryExpression SmallHost.host CurrentIdentifier
      [ChildSegment [NameSelector (js "a")]; ChildSegment [IndexSelector (-1)]]
      (JObject [(js "a", JArray [JNull; JBool true])])
      (mkQueryState JNull None)
    = (Ok nodes, mkQueryState JNull None)
    /\ (List.length nodes <= 1)%nat.
Proof.
  apply (@evaluateSingularQuery SmallHost.host CurrentIdentifier
           [ChildSegment [NameSelector (js "a")];
            ChildSegment [IndexSelector (-1)]]).
  reflexivity.
Defined.

(** ** Logical expressions *)

(** X8.  Negation distributes over the logical operators as De Morgan's laws
    say, and a double negation is the operand itself: the two sides
    evaluate the same operands in the same order, so they agree on the
    result, on the exception when an operand throws, and on the context
    they leave. *)
Theorem evaluateNotExpression_laws (host : Host)
    (operands : list Expression) (operand : Expression) (node : Node)
    (context : QueryState) :
  evaluateNotExpression host (OrExpression operands) node context
  = evaluateAndExpression host (map NotExpression operands) node context
  /\ evaluateNotExpression host (AndExpression operands) node context
     = evaluateOrExpression host (map NotExpression operands) node context
  /\ evaluateNotExpression host (NotExpression operand) node context
     = evaluateExpression host operand node context.
Proof.
  unfold evaluateNotExpression, evaluateAndExpression, evaluateOrExpression.
  split; [|split].
  - revert context.
    induction operands as [|first rest IH]; intros context; [reflexivity|].
    cbn [evaluateExpression map] in *. unfold bind in *.
    destruct (evaluateExpression host first node context) as [[[|]|e] c];
      cbn [negb ret]; [reflexivity | apply IH | reflexivity].
  - revert context.
    induction operands as [|first rest IH]; intros context; [reflexivity|].
    cbn [evaluateExpression map] in *. unfold bind in *.
    destruct (evaluateExpression host first node context) as [[[|]|e] c];
      cbn [negb ret]; [apply IH | reflexivity | reflexivity].
  - cbn [evaluateExpression]. unfold bind, ret.
    destruct (evaluateExpression host operand node context) as [[[|]|e] c];
      reflexivity.
Qed.

(** ** Filter selectors *)

(** X9.  A filter selects, in order, the children on which its expression
    evaluates to true: when the expression returns on every child and
    leaves the context as it was, the result is the list of children
    filtered by the expression's value. *)
Theorem evaluateFilterSelector_filters (host : Host) (expression : Expression)
    (node : Node) (context : QueryState) (test : Node -> bool) :
  (forall child, In child (getChildren node) ->
     evaluateExpression host expression child context
     = (Ok (test child), context)) ->
  evaluateFilterSelector host expression node context
  = (Ok (filter test (getChildren node)), context).
Proof.
  unfold evaluateFilterSelector. cbn [evaluateSelector].
  generalize (getChildren node) as children. intros children Hpure.
  enough (H : forall output,
             forEach
               (fun child output =>
                  bind (evaluateExpression host expression child)
                    (fun b => ret (if b then output ++ [child] else output)))
               children output context
             = (Ok (output ++ filter test children), context))
    by apply (H []).
  induction children as [|child children IH]; intros output.
  - cbn. rewrite app_nil_r. reflexivity.
  - cbn [forEach filter]. unfold bind at 1. unfold bind at 1.
    rewrite Hpure by (left; reflexivity). cbn [ret].
    rewrite IH by (intros c Hc; apply Hpure; right; exact Hc).
    destruct (test child); [|reflexivity].
    rewrite <- app_assoc. reflexivity.
Qed.

Lemma evaluateFilterSelector_filters_witness :
  evaluateFilterSelector SmallHost.host
    (ComparisonExpression (QueryExpression CurrentIdentifier [])
       ComparisonOperator.Equal (LiteralExpression JNull))
    (JArray [JNull; JBool true; JNull]) (mkQueryState JUndefined None)
  = (Ok [JNull; JNull], mkQueryState JUndefined None).
Proof.
  apply (@evaluateFilterSelector_filters SmallHost.host
           (ComparisonExpression (QueryExpression CurrentIdentifier [])
              ComparisonOperator.Equal (LiteralExpression JNull))
           (JArray [JNull; JBool true; JNull]) (mkQueryState JUndefined None)
           (fun child => SmallHost.equal child JNull)).
  intros child [<-|[<-|[<-|[]]]]; reflexivity.
Defined.

(** When the expression throws on a child, the filter throws that
    exception and no later child is examined. *)
Lemma evaluateFilterSelector_throws (host : Host) (expression : Expression)
    (before after : list Node) (child : Node)
    (context context' : QueryState) (e : Error) :
  (forall c, In c before ->
     evaluateExpression host expression c context = (Ok false, context)) ->
  evaluateExpression host expression child context = (Throw e, context') ->
  evaluateFilterSelector host expression (JArray (before ++ child :: after))
    context
  = (Throw e, context').
Proof.
  intros Hbefore Hchild.
  unfold evaluateFilterSelector. cbn [evaluateSelector getChildren].
  generalize (@nil Node) as output.
  induction before as [|b before IH]; intros output.
  - cbn [app forEach]. unfold bind at 1. unfold bind at 1.
    rewrite Hchild. reflexivity.
  - cbn [app forEach]. unfold bind at 1. unfold bind at 1.
    rewrite Hbefore by (left; reflexivity). cbn [ret].
    apply IH. intros c Hc. apply Hbefore. right. exact Hc.
Qed.

(** ** The context across evaluation *)

(** Induction over selectors, segments and expressions together, with
    the induction hypothesis for every element of a list of operands,
    arguments, selectors or segments. *)
Section SyntaxInduction.
Variable PSelector : Selector -> Prop.
Variable PSegment : Segment -> Prop.
Variable PExpression : Expression -> Prop.
Hypothesis HName : forall name, PSelector (NameSelector name).
Hypothesis HWildcard : PSelector WildcardSelector.
Hypothesis HIndex : forall index, PSelector (IndexSelector index).
Hypothesis HSlice :
  forall start end_ step, PSelector (SliceSelector start end_ step).
Hypothesis HFilter :
  forall expression,
    PExpression expression -> PSelector (FilterSelector expression).
Hypothesis HChild :
  forall selectors,
    Forall PSelector selectors -> PSegment (ChildSegment selectors).
Hypothesis HDescendant :
  forall selectors,
    Forall PSelector selectors -> PSegment (DescendantSegment selectors).
Hypothesis HOr :
  forall operands,
    Forall PExpression operands -> PExpression (OrExpression operands).
Hypothesis HAnd :
  forall operands,
    Forall PExpression operands -> PExpression (AndExpression operands).
Hypothesis HComparison :
  forall lhs operator rhs,
    PExpression lhs -> PExpression rhs ->
    PExpression (ComparisonExpression lhs operator rhs).
Hypothesis HNot :
  forall operand, PExpression operand -> PExpression (NotExpression operand).
Hypothesis HQuery :
  forall identifier segments,
    Forall PSegment segments ->
    PExpression (QueryExpression identifier segments).
Hypothesis HLiteral : forall value, PExpression (LiteralExpression value).
Hypothesis HFunction :
  forall func args,
    Forall PExpression args -> PExpression (FunctionExpression func args).

Fixpoint selector_induction (selector : Selector) {struct selector}
    : PSelector selector :=
  match selector with
  | NameSelector name => HName name
  | WildcardSelector => HWildcard
  | IndexSelector index => HIndex index
  | SliceSelector start end_ step => HSlice start end_ step
  | FilterSelector expression =>
      HFilter (expression_induction expression)
  end

with segment_induction (segment : Segment) {struct segment}
    : PSegment segment :=
  match segment with
  | ChildSegment selectors =>
      HChild
        ((fix each (l : list Selector) : Forall PSelector l :=
            match l with
            | [] => Forall_nil _
            | x :: rest => Forall_cons x (selector_induction x) (each rest)
            end) selectors)
  | DescendantSegment selectors =>
      HDescendant
        ((fix each (l : list Selector) : Forall PSelector l :=
            match l with
            | [] => Forall_nil _
            | x :: rest => Forall_cons x (selector_induction x) (each rest)
            end) selectors)
  end

with expression_induction (expression : Expression) {struct expression}
    : PExpression expression :=
  let each :=
    fix each (l : list Expression) : Forall PExpression l :=
      match l with
      | [] => Forall_nil _
      | x :: rest => Forall_cons x (expression_induction x) (each rest)
      end in
  match expression with
  | OrExpression operands => HOr (each operands)
  | AndExpression operands => HAnd (each operands)
  | ComparisonExpression lhs operator rhs =>
      HComparison operator (expression_induction lhs)
        (expression_induction rhs)
  | NotExpression operand => HNot (expression_induction operand)
  | QueryExpression identifier segments =>
      HQuery identifier
        ((fix each (l : list Segment) : Forall PSegment l :=
            match l with
            | [] => Forall_nil _
            | x :: rest => Forall_cons x (segment_induction x) (each rest)
            end) segments)
  | LiteralExpression value => HLiteral value
  | FunctionExpression func args => HFunction func (each args)
  end.

End SyntaxInduction.

(** The function extensions a selector, segment or expression calls. *)
Fixpoint selectorExtensions (selector : Selector) {struct selector}
    : list FunctionExtension :=
  match selector with
  | FilterSelector expression => expressionExtensions expression
  | _ => []
  end

with segmentExtensions (segment : Segment) {struct segment}
    : list FunctionExtension :=
  match segment with
  | ChildSegment selectors => flat_map selectorExtensions selectors
  | DescendantSegment selectors => flat_map selectorExtensions selectors
  end

with expressionExtensions (expression : Expression) {struct expression}
    : list FunctionExtension :=
  match expression with
  | OrExpression operands => flat_map expressionExtensions operands
  | AndExpression operands => flat_map expressionExtensions operands
  | ComparisonExpression lhs _ rhs =>
      expressionExtensions lhs ++ expressionExtensions rhs
  | NotExpression operand => expressionExtensions operand
  | QueryExpression _ segments => flat_map segmentExtensions segments
  | LiteralExpression _ => []
  | FunctionExpression func args =>
      func :: flat_map expressionExtensions args
  end.

(** A function extension whose [evaluate] leaves the context's fields as
    they were, whether it returns or throws. *)
Definition keepsContext (func : FunctionExtension) : Prop :=
  forall args context, snd (callExtension func args context) = context.

(** A step of evaluation that leaves the context as it found it. *)
Definition keeps {A : Type} (m : Eval A) : Prop :=
  forall context, snd (m context) = context.

Lemma keeps_ret {A : Type} (a : A) : keeps (ret a).
Proof. intros context. reflexivity. Qed.

Lemma keeps_throw {A : Type} (e : Error) : keeps (@throw A e).
Proof. intros context. reflexivity. Qed.

Lemma keeps_bind {A B : Type} (m : Eval A) (k : A -> Eval B) :
  keeps m -> (forall a, keeps (k a)) -> keeps (bind m k).
Proof.
  intros Hm Hk context. unfold bind.
  specialize (Hm context). destruct (m context) as [[a|e] c]; cbn in Hm; subst c.
  - apply Hk.
  - reflexivity.
Qed.

Lemma keeps_forEach {A B : Type} (body : A -> B -> Eval B) (xs : list A) :
  (forall x, In x xs -> forall output, keeps (body x output)) ->
  forall output, keeps (forEach body xs output).
Proof.
  induction xs as [|x xs IH]; intros Hbody output; cbn [forEach].
  - apply keeps_ret.
  - apply keeps_bind.
    + apply Hbody. left. reflexivity.
    + intros o. apply IH. intros y Hy. apply Hbody. right. exact Hy.
Qed.

Lemma keeps_evaluateQueryExpression_open
    (evaluateSegment : Segment -> NodeList -> Eval NodeList)
    (identifier : Identifier) (segments : list Segment) (node : Node) :
  (forall segment, In segment segments ->
     forall nodes, keeps (evaluateSegment segment nodes)) ->
  keeps (evaluateQueryExpression_open evaluateSegment identifier segments node).
Proof.
  intros Hsegments context.
  unfold evaluateQueryExpression_open, tryFinally, evaluateSegments_open.
  match goal with
  | |- context [forEach ?body segments ?start ?c] =>
      pose proof (@keeps_forEach _ _ body segments Hsegments start c) as H;
      destruct (forEach body segments start c) as [r c']
  end.
  cbn [snd] in *. subst c'. destruct context. reflexivity.
Qed.

Lemma keepsContext_evaluate (func : FunctionExtension) :
  keepsContext func ->
  match func with
  | ValueFunctionExtension _ _ evaluate => forall args, keeps (evaluate args)
  | LogicalFunctionExtension _ _ evaluate => forall args, keeps (evaluate args)
  | NodesFunctionExtension _ _ evaluate => forall args, keeps (evaluate args)
  end.
Proof.
  intros H. destruct func as [n p evaluate|n p evaluate|n p evaluate];
    intros args context; specialize (H args context);
    unfold callExtension in H;
    destruct (evaluate args context) as [[r|e] c]; exact H.
Qed.

Lemma keeps_evaluateFunctionArguments_open
    (evaluateFunctionArgument :
       DeclaredType.t -> Expression -> Node -> Eval ExpressionType)
    (func : FunctionExtension) (args : list Expression) (node : Node) :
  (forall arg, In arg args ->
     forall parameterType,
       keeps (evaluateFunctionArgument parameterType arg node)) ->
  keeps (evaluateFunctionArguments_open evaluateFunctionArgument func args node).
Proof.
  intros Hargs. unfold evaluateFunctionArguments_open.
  destruct (negb _); [apply keeps_throw|].
  match goal with
  | |- keeps (?loop _ _ _) =>
      enough (H : forall output types, keeps (loop types args output))
        by apply H
  end.
  induction args as [|arg args IH]; intros output types.
  - destruct types; apply keeps_ret.
  - destruct types as [|argType types]; [apply keeps_ret|].
    apply keeps_bind.
    + apply Hargs. left. reflexivity.
    + intros v. apply IH. intros a Ha. apply Hargs. right. exact Ha.
Qed.

Lemma each_keeps {A : Type} (P : A -> Prop)
    (extensions : A -> list FunctionExtension) (xs : list A) :
  Forall (fun x => Forall keepsContext (extensions x) -> P x) xs ->
  Forall keepsContext (flat_map extensions xs) ->
  forall x, In x xs -> P x.
Proof.
  intros HP Hext x Hx.
  rewrite Forall_flat_map in Hext. rewrite Forall_forall in HP, Hext.
  apply HP; [exact Hx | apply Hext; exact Hx].
Qed.

Ltac keeps_steps :=
  repeat first [ apply keeps_ret | apply keeps_throw | assumption
               | apply keeps_bind; [|intro] ].

Section KeepsContext.
Variable host : Host.

Definition keepsSelector (selector : Selector) : Prop :=
  Forall keepsContext (selectorExtensions selector) ->
  forall node, keeps (evaluateSelector host selector node).

Definition keepsSegment (segment : Segment) : Prop :=
  Forall keepsContext (segmentExtensions segment) ->
  forall nodes, keeps (evaluateSegment host segment nodes).

Definition keepsExpression (expression : Expression) : Prop :=
  Forall keepsContext (expressionExtensions expression) ->
  forall node,
    keeps (evaluateExpression host expression node)
    /\ keeps (evaluateComparableExpression host expression node)
    /\ keeps (evaluateFunctionArguments host expression node)
    /\ forall parameterType,
         keeps (evaluateFunctionArgument (evaluateSegment host)
                  (evaluateExpression host) (evaluateFunctionArguments host)
                  parameterType expression node).

Lemma keepsSelector_filter expression :
  keepsExpression expression -> keepsSelector (FilterSelector expression).
Proof.
  intros IH Hext node. cbn [evaluateSelector].
  apply keeps_forEach. intros child _ output.
  destruct (IH Hext child) as (H & _). keeps_steps.
Qed.

Lemma keeps_selectors selectors :
  Forall keepsSelector selectors ->
  Forall keepsContext (flat_map selectorExtensions selectors) ->
  forall selector, In selector selectors ->
  forall node output,
    keeps (bind (evaluateSelector host selector node)
             (fun r => ret (output ++ r))).
Proof.
  intros IH Hext selector Hin node output.
  pose proof (each_keeps _ _ IH Hext selector Hin node). keeps_steps.
Qed.

Lemma keepsSegment_child selectors :
  Forall keepsSelector selectors -> keepsSegment (ChildSegment selectors).
Proof.
  intros IH Hext nodes. cbn [evaluateSegment].
  apply keeps_forEach. intros selector Hin output.
  apply keeps_forEach. intros node _ output'.
  apply (keeps_selectors IH Hext). exact Hin.
Qed.

Lemma keepsSegment_descendant selectors :
  Forall keepsSelector selectors -> keepsSegment (DescendantSegment selectors).
Proof.
  intros IH Hext nodes. cbn [evaluateSegment].
  destruct (negb _); [|apply keeps_ret].
  apply keeps_forEach. intros node _ output.
  apply keeps_bind.
  - apply keeps_forEach. intros selector Hin output'.
    apply (keeps_selectors IH Hext). exact Hin.
  - intros output'. apply keeps_forEach. intros descendant _ output''.
    apply keeps_forEach. intros selector Hin output3.
    apply (keeps_selectors IH Hext). exact Hin.
Qed.

(** What an expression that is not a call is as a function argument. *)
Lemma keeps_argument expression node :
  (forall func args, expression <> FunctionExpression func args) ->
  keeps (evaluateExpression host expression node) ->
  (forall identifier segments,
     expression = QueryExpression identifier segments ->
     keeps (evaluateQueryExpression_open (evaluateSegment host) identifier
              segments node)) ->
  forall parameterType,
    keeps (evaluateFunctionArgument (evaluateSegment host)
             (evaluateExpression host) (evaluateFunctionArguments host)
             parameterType expression node).
Proof.
  intros Hcall Htest Hquery parameterType.
  destruct parameterType;
    unfold evaluateFunctionArgument, evaluateValueFunctionArgument,
      evaluateLogicalFunctionArgument, evaluateNodesFunctionArgument;
    destruct expression as [| | | |identifier segs|value|func args];
    try (exfalso; eapply Hcall; reflexivity);
    try specialize (Hquery _ _ eq_refl);
    keeps_steps.
Qed.

Lemma keepsExpression_or operands :
  Forall keepsExpression operands -> keepsExpression (OrExpression operands).
Proof.
  intros IH Hext node. cbn [expressionExtensions] in Hext.
  assert (Htest : keeps (evaluateExpression host (OrExpression operands) node)).
  { cbn [evaluateExpression].
    pose proof (fun operand Hin =>
                  proj1 (each_keeps _ _ IH Hext operand Hin node)) as Heach.
    clear IH Hext. induction operands as [|operand rest IHrest];
      [apply keeps_ret|].
    apply keeps_bind.
    - apply Heach. left. reflexivity.
    - intros [|]; [apply keeps_ret|].
      apply IHrest. intros o Ho. apply Heach. right. exact Ho. }
  split; [exact Htest|]. split; [apply keeps_throw|].
  split; [apply keeps_throw|].
  apply keeps_argument; [discriminate | exact Htest | discriminate].
Qed.

Lemma keepsExpression_and operands :
  Forall keepsExpression operands -> keepsExpression (AndExpression operands).
Proof.
  intros IH Hext node. cbn [expressionExtensions] in Hext.
  assert (Htest : keeps (evaluateExpression host (AndExpression operands) node)).
  { cbn [evaluateExpression].
    pose proof (fun operand Hin =>
                  proj1 (each_keeps _ _ IH Hext operand Hin node)) as Heach.
    clear IH Hext. induction operands as [|operand rest IHrest];
      [apply keeps_ret|].
    apply keeps_bind.
    - apply Heach. left. reflexivity.
    - intros [|]; [|apply keeps_ret].
      apply IHrest. intros o Ho. apply Heach. right. exact Ho. }
  split; [exact Htest|]. split; [apply keeps_throw|].
  split; [apply keeps_throw|].
  apply keeps_argument; [discriminate | exact Htest | discriminate].
Qed.

Lemma keepsExpression_comparison lhs operator rhs :
  keepsExpression lhs -> keepsExpression rhs ->
  keepsExpression (ComparisonExpression lhs operator rhs).
Proof.
  intros IHl IHr Hext node. cbn [expressionExtensions] in Hext.
  apply Forall_app in Hext. destruct Hext as [Hl Hr].
  destruct (IHl Hl node) as (_ & Hlhs & _).
  destruct (IHr Hr node) as (_ & Hrhs & _).
  assert (Htest : keeps (evaluateExpression host
                           (ComparisonExpression lhs operator rhs) node)).
  { cbn [evaluateExpression]. keeps_steps. }
  split; [exact Htest|]. split; [apply keeps_throw|].
  split; [apply keeps_throw|].
  apply keeps_argument; [discriminate | exact Htest | discriminate].
Qed.

Lemma keepsExpression_not operand :
  keepsExpression operand -> keepsExpression (NotExpression operand).
Proof.
  intros IH Hext node. cbn [expressionExtensions] in Hext.
  destruct (IH Hext node) as (Hoperand & _).
  assert (Htest : keeps (evaluateExpression host (NotExpression operand) node)).
  { cbn [evaluateExpression]. keeps_steps. }
  split; [exact Htest|]. split; [apply keeps_throw|].
  split; [apply keeps_throw|].
  apply keeps_argument; [discriminate | exact Htest | discriminate].
Qed.

Lemma keepsExpression_query identifier segments :
  Forall keepsSegment segments ->
  keepsExpression (QueryExpression identifier segments).
Proof.
  intros IH Hext node. cbn [expressionExtensions] in Hext.
  assert (Hquery : forall node,
             keeps (evaluateQueryExpression_open (evaluateSegment host)
                      identifier segments node)).
  { intros n. apply keeps_evaluateQueryExpression_open.
    intros segment Hin. apply (each_keeps _ _ IH Hext segment Hin). }
  assert (Htest : keeps (evaluateExpression host
                           (QueryExpression identifier segments) node)).
  { cbn [evaluateExpression]. pose proof (Hquery node). keeps_steps. }
  split; [exact Htest|]. split; [apply Hquery|].
  split; [apply keeps_throw|].
  apply keeps_argument; [discriminate | exact Htest |].
  intros i s E. injection E as <- <-. apply Hquery.
Qed.

Lemma keepsExpression_literal value : keepsExpression (LiteralExpression value).
Proof.
  intros _ node.
  split; [apply keeps_throw|]. split; [apply keeps_ret|].
  split; [apply keeps_throw|].
  apply keeps_argument; [discriminate | apply keeps_throw | discriminate].
Qed.

Lemma keepsExpression_function func args :
  Forall keepsExpression args -> keepsExpression (FunctionExpression func args).
Proof.
  intros IH Hext node. cbn [expressionExtensions] in Hext.
  apply Forall_cons_iff in Hext. destruct Hext as [Hfunc Hext].
  apply keepsContext_evaluate in Hfunc.
  assert (Hargs : keeps (evaluateFunctionArguments_open
                           (evaluateFunctionArgument (evaluateSegment host)
                              (evaluateExpression host)
                              (evaluateFunctionArguments host))
                           func args node)).
  { apply keeps_evaluateFunctionArguments_open. intros arg Hin.
    apply (each_keeps _ _ IH Hext arg Hin node). }
  split; [|split; [|split]].
  - cbn [evaluateExpression]. destruct func; keeps_steps; apply Hfunc.
  - cbn [evaluateComparableExpression]. destruct func; keeps_steps; apply Hfunc.
  - exact Hargs.
  - intros parameterType.
    destruct parameterType;
      unfold evaluateFunctionArgument, evaluateValueFunctionArgument,
        evaluateLogicalFunctionArgument, evaluateNodesFunctionArgument;
      destruct func; keeps_steps; solve [exact Hargs | apply Hfunc].
Qed.

Ltac keeps_cases :=
  first [ exact keepsSelector_filter | exact keepsSegment_child
        | exact keepsSegment_descendant | exact keepsExpression_or
        | exact keepsExpression_and | exact keepsExpression_comparison
        | exact keepsExpression_not | exact keepsExpression_query
        | exact keepsExpression_literal | exact keepsExpression_function
        | intros; intros _ node; apply keeps_ret ].

Lemma keeps_evaluateSegment segment : keepsSegment segment.
Proof.
  apply segment_induction
    with (PSelector := keepsSelector) (PExpression := keepsExpression);
    keeps_cases.
Qed.

Lemma keeps_evaluateExpression expression : keepsExpression expression.
Proof.
  apply expression_induction
    with (PSelector := keepsSelector) (PSegment := keepsSegment);
    keeps_cases.
Qed.

End KeepsContext.

Lemma intrinsicFunctions_keepContext (host : Host) :
  Forall keepsContext (map snd (ownProperties (intrinsicFunctions host))).
Proof.
  cbn [intrinsicFunctions ownProperties map snd].
  repeat apply Forall_cons; try apply Forall_nil;
    intros args context; unfold callExtension; cbn;
    repeat match goal with
           | |- context [match ?x with _ => _ end] => destruct x
           end;
    reflexivity.
Qed.

(** X10.  Evaluation leaves the context as it found it.  When the function
    extensions that a query calls leave the context's fields alone, as the
    intrinsic functions do, then so do the evaluation of the query, of a
    segment and of a filter expression: the query argument and the query
    scope after the call are those before it, whether the call returns or
    throws. *)
Theorem evaluation_keeps_context (host : Host) :
  (forall query root,
      Forall keepsContext (flat_map segmentExtensions (segments query)) ->
      keeps (evaluateQuery_parsed host query root))
  /\ (forall segment nodes,
         Forall keepsContext (segmentExtensions segment) ->
         keeps (evaluateSegment host segment nodes))
  /\ (forall expression node,
         Forall keepsContext (expressionExtensions expression) ->
         keeps (evaluateExpression host expression node)).
Proof.
  split; [|split].
  - intros query root Hext context.
    unfold evaluateQuery_parsed, tryFinally, evaluateSegments_open.
    rewrite Forall_flat_map, Forall_forall in Hext.
    match goal with
    | |- context [forEach ?body ?xs ?start ?c] =>
        pose proof (@keeps_forEach _ _ body xs
                      (fun segment Hin nodes =>
                         @keeps_evaluateSegment host segment
                           (Hext segment Hin) nodes)
                      start c) as H;
        destruct (forEach body xs start c) as [r c']
    end.
    cbn [snd] in *. subst c'. destruct context. reflexivity.
  - intros segment nodes Hext. apply keeps_evaluateSegment. exact Hext.
  - intros expression node Hext.
    apply (@keeps_evaluateExpression host expression Hext node).
Qed.

Lemma evaluation_keeps_context_witness :
  snd (evaluateQuery_parsed SmallHost.host
         (createQuery
            [ChildSegment
               [FilterSelector
                  (FunctionExpression (matchFunction SmallHost.host)
                     [QueryExpression CurrentIdentifier [];
                      LiteralExpression (JString (js "("))])]])
         (JArray [JString (js "a")]) (mkQueryState JNull None))
  = mkQueryState JNull None.
Proof.
  apply (proj1 (evaluation_keeps_context SmallHost.host)).
  cbn. constructor; [|constructor].
  apply (Forall_inv (Forall_inv_tail (Forall_inv_tail
           (intrinsicFunctions_keepContext SmallHost.host)))).
Defined.

(** ** Descendant segments *)

Lemma collect_empty {A : Type} (f : A -> Eval NodeList) (xs : list A) :
  (forall x context, f x context = (Ok [], context)) ->
  forall context, collect f xs context = (Ok [], context).
Proof.
  intros Hf. induction xs as [|x xs IH]; intros context; [reflexivity|].
  cbn [collect]. unfold bind, ret. rewrite Hf, IH. reflexivity.
Qed.

Lemma bind_ext {A B : Type} (m m' : Eval A) (k k' : A -> Eval B) context :
  m context = m' context ->
  (forall a context, k a context = k' a context) ->
  bind m k context = bind m' k' context.
Proof.
  intros Hm Hk. unfold bind. rewrite Hm.
  destruct (m' context) as [[a|e] c]; [apply Hk | reflexivity].
Qed.

Lemma collect_cons_append {A : Type} (f : A -> Eval NodeList) (x : A)
    (xs : list A) (output : NodeList) context :
  bind (bind (f x) (fun r => ret (output ++ r)))
    (fun output => bind (collect f xs) (fun r => ret (output ++ r))) context
  = bind (collect f (x :: xs)) (fun r => ret (output ++ r)) context.
Proof.
  cbn [collect]. unfold bind, ret.
  destruct (f x context) as [[a|e] c1]; [|reflexivity].
  destruct (collect f xs c1) as [[b|e] c2]; [|reflexivity].
  rewrite app_assoc. reflexivity.
Qed.

(** X11.  A descendant segment is node-major: for each input node in input
    order, the node itself and then each of its descendants in document
    order is visited, and at each visited node the selectors are applied
    in source order.  (A child segment is selector-major.) *)
Theorem evaluateDescendantSegment_node_major
    (host : Host) (selectors : list Selector) (nodes : NodeList)
    (context : QueryState) :
  evaluateDescendantSegment host selectors nodes context
  = collect
      (fun node =>
         collect
           (fun visited =>
              collect (fun selector => evaluateSelector host selector visited)
                selectors)
           (node :: getDescendants node))
      nodes context.
Proof.
  unfold evaluateDescendantSegment. cbn [evaluateSegment].
  destruct selectors as [|selector selectors]; cbn [List.length Nat.eqb negb].
  - symmetry. apply collect_empty. intros node c.
    apply collect_empty. reflexivity.
  - set (each := fun visited : Node =>
                   collect (fun s => evaluateSelector host s visited)
                     (selector :: selectors)).
    rewrite (forEach_ext _
               (fun node output =>
                  bind (collect each (node :: getDescendants node))
                    (fun r => ret (output ++ r)))).
    + rewrite forEach_append. unfold bind, ret.
      destruct (collect _ nodes context) as [[r|e] c]; reflexivity.
    + intros node output c. rewrite <- collect_cons_append.
      apply bind_ext.
      * apply forEach_append.
      * intros a c1.
        rewrite (forEach_ext _
                   (fun visited output =>
                      bind (each visited) (fun r => ret (output ++ r))))
          by (intros; apply forEach_append).
        apply forEach_append.
Qed.

(** ** Intrinsic functions applied to a query *)

(** X12.  [count] of a query is the number of nodes the query selects, and
    [value] of a query is the node it selects when it selects exactly
    one, and Nothing otherwise.  Both leave the context as the query
    left it. *)
Theorem evaluate_count_and_value (host : Host) (identifier : Identifier)
    (segments : list Segment) (node : Node) (context context' : QueryState)
    (nodes : NodeList) :
  evaluateQueryExpression host identifier segments node context
  = (Ok nodes, context') ->
  evaluateFunctionExpression host countFunction
    [QueryExpression identifier segments] node context
  = (Ok [numberOfNat (List.length nodes)], context')
  /\ evaluateFunctionExpression host valueFunction
       [QueryExpression identifier segments] node context
     = (Ok match nodes with
           | [JUndefined] => []
           | [selected] => [selected]
           | _ => []
           end, context').
Proof.
  unfold evaluateQueryExpression, evaluateFunctionExpression. intros Hquery.
  split; cbn; unfold bind; rewrite Hquery; cbn.
  - reflexivity.
  - destruct nodes as [|[] [|]]; reflexivity.
Qed.

Lemma evaluate_count_and_value_witness :
  evaluateFunctionExpression SmallHost.host countFunction
    [QueryExpression CurrentIdentifier [ChildSegment [WildcardSelector]]]
    (JArray [JNull; JBool true]) (mkQueryState JNull None)
  = (Ok [numberOfNat 2], mkQueryState JNull None)
  /\ evaluateFunctionExpression SmallHost.host valueFunction
       [QueryExpression CurrentIdentifier [ChildSegment [WildcardSelector]]]
       (JArray [JNull; JBool true]) (mkQueryState JNull None)
     = (Ok [], mkQueryState JNull None).
Proof.
  apply (@evaluate_count_and_value SmallHost.host CurrentIdentifier
           [ChildSegment [WildcardSelector]] (JArray [JNull; JBool true])
           (mkQueryState JNull None) (mkQueryState JNull None)
           [JNull; JBool true]).
  reflexivity.
Defined.

(** ** Queries in stages *)

(** X13.  Evaluating the segments of a query one after the other composes: the
    segments [first ++ second] applied to a nodelist give what [second]
    gives on the result of [first], with the same exception and context
    when a segment throws. *)
Theorem evaluateSegments_app (host : Host) (first second : list Segment)
    (nodes : NodeList) (context : QueryState) :
  evaluateSegments_open (evaluateSegment host) (first ++ second) nodes context
  = bind (evaluateSegments_open (evaluateSegment host) first nodes)
      (evaluateSegments_open (evaluateSegment host) second) context.
Proof.
  unfold evaluateSegments_open. revert nodes context.
  induction first as [|segment first IH]; intros nodes context.
  - reflexivity.
  - cbn [app forEach]. unfold bind at 1 2 3.
    destruct (evaluateSegment host segment nodes context) as [[output|e] c];
      [|reflexivity].
    rewrite IH. reflexivity.
Qed.

(* ================================================================== *)
(** * Well-typed expressions and [TypeError] *)
(* ================================================================== *)

(** Where an expression stands: as a test (the expression of a filter,
    an operand of [||], [&&] or [!]), as a side of a comparison, or as
    the argument of a parameter of a declared type. *)
Inductive Position : Type :=
| TestPosition
| ComparablePosition
| ArgumentPosition (parameterType : DeclaredType.t).

Definition isLogicalPosition (position : Position) : bool :=
  match position with
  | TestPosition | ArgumentPosition DeclaredType.Logical => true
  | _ => false
  end.

(** The result types of the functions a position takes. *)
Definition resultFits (position : Position) (result : DeclaredType.t) : bool :=
  match position, result with
  | TestPosition, (DeclaredType.Logical | DeclaredType.Nodes) => true
  | ComparablePosition, DeclaredType.Value => true
  | ArgumentPosition DeclaredType.Value, DeclaredType.Value => true
  | ArgumentPosition DeclaredType.Logical,
    (DeclaredType.Logical | DeclaredType.Nodes) => true
  | ArgumentPosition DeclaredType.Nodes, DeclaredType.Nodes => true
  | _, _ => false
  end.

(** Well-typedness of a syntax tree, as far as the evaluator checks it
    while it runs: every expression stands in a position that takes its
    kind, and every call has one argument for each parameter, in an
    argument position of the parameter's declared type.  (Whether a
    compared query is singular is the parser's check; the evaluator does
    not depend on it.) *)
Fixpoint selectorTyped (selector : Selector) {struct selector} : bool :=
  match selector with
  | FilterSelector expression => expressionTyped TestPosition expression
  | _ => true
  end

with segmentTyped (segment : Segment) {struct segment} : bool :=
  match segment with
  | ChildSegment selectors => forallb selectorTyped selectors
  | DescendantSegment selectors => forallb selectorTyped selectors
  end

with expressionTyped (position : Position) (expression : Expression)
    {struct expression} : bool :=
  match expression with
  | OrExpression operands =>
      isLogicalPosition position
      && forallb (expressionTyped TestPosition) operands
  | AndExpression operands =>
      isLogicalPosition position
      && forallb (expressionTyped TestPosition) operands
  | ComparisonExpression lhs _ rhs =>
      isLogicalPosition position
      && expressionTyped ComparablePosition lhs
      && expressionTyped ComparablePosition rhs
  | NotExpression operand =>
      isLogicalPosition position && expressionTyped TestPosition operand
  | QueryExpression _ segments => forallb segmentTyped segments
  | LiteralExpression _ =>
      match position with
      | ComparablePosition | ArgumentPosition DeclaredType.Value => true
      | _ => false
      end
  | FunctionExpression func args =>
      resultFits position (resultType func)
      && (fix each (types : list DeclaredType.t) (args : list Expression)
              {struct args} : bool :=
            match types, args with
            | [], [] => true
            | parameterType :: types, arg :: args =>
                expressionTyped (ArgumentPosition parameterType) arg
                && each types args
            | _, _ => false
            end) (parameterTypes func) args
  end.

(** The variant of [ExpressionType] an argument of a declared type is. *)
Definition hasKind (parameterType : DeclaredType.t) (value : ExpressionType)
    : Prop :=
  match parameterType, value with
  | DeclaredType.Value, ValueOf _ => True
  | DeclaredType.Logical, LogicalOf _ => True
  | DeclaredType.Nodes, NodesOf _ => True
  | _, _ => False
  end.

(** A step of evaluation that does not throw a [TypeError], and whose
    result satisfies [Q] when it returns. *)
Definition safe {A : Type} (Q : A -> Prop) (m : Eval A) : Prop :=
  forall context,
    match fst (m context) with
    | Ok a => Q a
    | Throw (TypeError _) => False
    | Throw _ => True
    end.

(** A function extension that does not throw a [TypeError] when its
    arguments are of the declared types. *)
Definition safeExtension (func : FunctionExtension) : Prop :=
  forall args,
    Forall2 hasKind (parameterTypes func) args ->
    safe (fun _ => True) (callExtension func args).

Lemma safe_ret {A : Type} (Q : A -> Prop) (a : A) : Q a -> safe Q (ret a).
Proof. intros H context. exact H. Qed.

Lemma safe_bind {A B : Type} (Q : A -> Prop) (R : B -> Prop)
    (m : Eval A) (k : A -> Eval B) :
  safe Q m -> (forall a, Q a -> safe R (k a)) -> safe R (bind m k).
Proof.
  intros Hm Hk context. unfold bind. specialize (Hm context).
  destruct (m context) as [[a|e] c]; cbn [fst] in *.
  - apply (Hk a Hm).
  - exact Hm.
Qed.

Lemma safe_weaken {A : Type} (Q R : A -> Prop) (m : Eval A) :
  safe Q m -> (forall a, Q a -> R a) -> safe R m.
Proof.
  intros Hm HQR context. specialize (Hm context).
  destruct (fst (m context)) as [a|e]; [apply HQR; exact Hm | exact Hm].
Qed.

Lemma safe_forEach {A B : Type} (body : A -> B -> Eval B) (xs : list A) :
  (forall x, In x xs -> forall output, safe (fun _ => True) (body x output)) ->
  forall output, safe (fun _ => True) (forEach body xs output).
Proof.
  induction xs as [|x xs IH]; intros Hbody output; cbn [forEach].
  - apply safe_ret. exact I.
  - apply safe_bind with (Q := fun _ => True).
    + apply Hbody. left. reflexivity.
    + intros o _. apply IH. intros y Hy. apply Hbody. right. exact Hy.
Qed.

Lemma safe_evaluateQueryExpression_open
    (evaluateSegment : Segment -> NodeList -> Eval NodeList)
    (identifier : Identifier) (segments : list Segment) (node : Node) :
  (forall segment, In segment segments ->
     forall nodes, safe (fun _ => True) (evaluateSegment segment nodes)) ->
  safe (fun _ => True)
    (evaluateQueryExpression_open evaluateSegment identifier segments node).
Proof.
  intros Hsegments context.
  unfold evaluateQueryExpression_open, tryFinally, evaluateSegments_open.
  match goal with
  | |- context [forEach ?body segments ?start ?c] =>
      pose proof (@safe_forEach _ _ body segments Hsegments start c) as H;
      destruct (forEach body segments start c) as [r c']
  end.
  exact H.
Qed.

Lemma safeExtension_evaluate (func : FunctionExtension) args :
  safeExtension func ->
  Forall2 hasKind (parameterTypes func) args ->
  match func with
  | ValueFunctionExtension _ _ evaluate => safe (fun _ => True) (evaluate args)
  | LogicalFunctionExtension _ _ evaluate => safe (fun _ => True) (evaluate args)
  | NodesFunctionExtension _ _ evaluate => safe (fun _ => True) (evaluate args)
  end.
Proof.
  intros H Hargs. specialize (H args Hargs).
  destruct func as [n p evaluate|n p evaluate|n p evaluate];
    intros context; specialize (H context);
    unfold callExtension in H;
    destruct (evaluate args context) as [[r|e] c]; exact H.
Qed.

Lemma safe_evaluateFunctionArguments_open
    (evaluateFunctionArgument :
       DeclaredType.t -> Expression -> Node -> Eval ExpressionType)
    (func : FunctionExtension) (args : list Expression) (node : Node) :
  Forall2 (fun parameterType arg =>
             safe (hasKind parameterType)
               (evaluateFunctionArgument parameterType arg node))
    (parameterTypes func) args ->
  safe (Forall2 hasKind (parameterTypes func))
    (evaluateFunctionArguments_open evaluateFunctionArgument func args node).
Proof.
  intros Hargs. unfold evaluateFunctionArguments_open.
  rewrite (Forall2_length Hargs), Nat.eqb_refl. cbn [negb].
  match goal with
  | |- safe _ (?loop _ _ _) =>
      enough (H : forall types args output done,
                 Forall2 (fun parameterType arg =>
                            safe (hasKind parameterType)
                              (evaluateFunctionArgument parameterType arg node))
                   types args ->
                 Forall2 hasKind done output ->
                 safe (Forall2 hasKind (done ++ types))
                   (loop types args output))
        by (apply (H (parameterTypes func) args [] [] Hargs); constructor)
  end.
  clear. intros types args. revert types.
  induction args as [|arg args IH]; intros types output done Hargs Hdone;
    inversion Hargs; subst.
  - apply safe_ret. rewrite app_nil_r. exact Hdone.
  - eapply safe_bind; [eassumption|].
    intros v Hv. cbv beta.
    match goal with
    | |- safe (Forall2 hasKind (done ++ ?t :: ?ts)) _ =>
        replace (done ++ t :: ts) with ((done ++ [t]) ++ ts)
          by (rewrite <- app_assoc; reflexivity)
    end.
    apply IH; [assumption|].
    apply Forall2_app; [exact Hdone|]. constructor; [exact Hv | constructor].
Qed.

Lemma typed_arguments (typed : Position -> Expression -> bool) types args :
  (fix each (types : list DeclaredType.t) (args : list Expression)
       {struct args} : bool :=
     match types, args with
     | [], [] => true
     | parameterType :: types, arg :: args =>
         typed (ArgumentPosition parameterType) arg && each types args
     | _, _ => false
     end) types args = true ->
  Forall2 (fun parameterType arg =>
             typed (ArgumentPosition parameterType) arg = true)
    types args.
Proof.
  revert types. induction args as [|arg args IH]; intros types H;
    destruct types as [|t types]; try discriminate H; constructor.
  - apply andb_prop in H. tauto.
  - apply IH. apply andb_prop in H. tauto.
Qed.

Section TypeSafety.
Variable host : Host.

Definition safeSelector (selector : Selector) : Prop :=
  selectorTyped selector = true ->
  Forall safeExtension (selectorExtensions selector) ->
  forall node, safe (fun _ => True) (evaluateSelector host selector node).

Definition safeSegment (segment : Segment) : Prop :=
  segmentTyped segment = true ->
  Forall safeExtension (segmentExtensions segment) ->
  forall nodes, safe (fun _ => True) (evaluateSegment host segment nodes).

Definition safeAt (position : Position) (expression : Expression)
    (node : Node) : Prop :=
  match position with
  | TestPosition =>
      safe (fun _ => True) (evaluateExpression host expression node)
  | ComparablePosition =>
      safe (fun _ => True) (evaluateComparableExpression host expression node)
  | ArgumentPosition parameterType =>
      safe (hasKind parameterType)
        (evaluateFunctionArgument (evaluateSegment host)
           (evaluateExpression host) (evaluateFunctionArguments host)
           parameterType expression node)
  end.

Definition safeExpression (expression : Expression) : Prop :=
  forall position,
    expressionTyped position expression = true ->
    Forall safeExtension (expressionExtensions expression) ->
    forall node, safeAt position expression node.

(** An expression that is not a call, not a literal and not a query, in
    a logical position. *)
Lemma safeAt_logical position expression node :
  isLogicalPosition position = true ->
  match expression with
  | OrExpression _ | AndExpression _ | ComparisonExpression _ _ _
  | NotExpression _ => True
  | _ => False
  end ->
  safe (fun _ => True) (evaluateExpression host expression node) ->
  safeAt position expression node.
Proof.
  intros Hposition Hkind Htest.
  destruct position as [| |[]]; try discriminate Hposition;
    [exact Htest|].
  unfold safeAt, evaluateFunctionArgument, evaluateLogicalFunctionArgument.
  destruct expression; try contradiction;
    (eapply safe_bind; [exact Htest|]; intros b _; apply safe_ret; exact I).
Qed.

Lemma each_safe {A : Type} (P : A -> Prop) (typed : A -> bool)
    (extensions : A -> list FunctionExtension) (xs : list A) :
  Forall (fun x => typed x = true ->
                   Forall safeExtension (extensions x) -> P x) xs ->
  forallb typed xs = true ->
  Forall safeExtension (flat_map extensions xs) ->
  forall x, In x xs -> P x.
Proof.
  intros HP Htyped Hext x Hx.
  rewrite Forall_flat_map in Hext. rewrite Forall_forall in HP, Hext.
  rewrite forallb_forall in Htyped.
  apply HP; [exact Hx | apply Htyped; exact Hx | apply Hext; exact Hx].
Qed.

Lemma safeSelector_filter expression :
  safeExpression expression -> safeSelector (FilterSelector expression).
Proof.
  intros IH Htyped Hext node. cbn [evaluateSelector].
  apply safe_forEach. intros child _ output.
  eapply safe_bind; [apply (IH TestPosition Htyped Hext child)|].
  intros b _. apply safe_ret. exact I.
Qed.

Lemma safe_selectors selectors :
  Forall safeSelector selectors ->
  forallb selectorTyped selectors = true ->
  Forall safeExtension (flat_map selectorExtensions selectors) ->
  forall selector, In selector selectors ->
  forall node output,
    safe (fun _ => True)
      (bind (evaluateSelector host selector node)
         (fun r => ret (output ++ r))).
Proof.
  intros IH Htyped Hext selector Hin node output.
  eapply safe_bind;
    [apply (each_safe _ _ _ IH Htyped Hext selector Hin node)|].
  intros r _. apply safe_ret. exact I.
Qed.

Lemma safeSegment_child selectors :
  Forall safeSelector selectors -> safeSegment (ChildSegment selectors).
Proof.
  intros IH Htyped Hext nodes. cbn [evaluateSegment].
  apply safe_forEach. intros selector Hin output.
  apply safe_forEach. intros node _ output'.
  apply (safe_selectors IH Htyped Hext). exact Hin.
Qed.

Lemma safeSegment_descendant selectors :
  Forall safeSelector selectors -> safeSegment (DescendantSegment selectors).
Proof.
  intros IH Htyped Hext nodes. cbn [evaluateSegment].
  destruct (negb _); [|apply safe_ret; exact I].
  apply safe_forEach. intros node _ output.
  apply safe_bind with (Q := fun _ => True).
  - apply safe_forEach. intros selector Hin output'.
    apply (safe_selectors IH Htyped Hext). exact Hin.
  - intros output' _. apply safe_forEach. intros descendant _ output''.
    apply safe_forEach. intros selector Hin output3.
    apply (safe_selectors IH Htyped Hext). exact Hin.
Qed.

Lemma safeExpression_or operands :
  Forall safeExpression operands -> safeExpression (OrExpression operands).
Proof.
  intros IH position Htyped Hext node.
  cbn [expressionTyped] in Htyped. apply andb_prop in Htyped.
  destruct Htyped as [Hposition Htyped]. cbn [expressionExtensions] in Hext.
  apply safeAt_logical; [exact Hposition | exact I |].
  cbn [evaluateExpression].
  pose proof (fun operand Hin =>
                each_safe _ _ _
                  (Forall_impl _ (fun e (H : safeExpression e) => H TestPosition)
                     IH)
                  Htyped Hext operand Hin node) as Heach.
  cbn [safeAt] in Heach. clear IH Htyped Hext.
  induction operands as [|operand rest IHrest]; [apply safe_ret; exact I|].
  eapply safe_bind; [apply Heach; left; reflexivity|].
  intros [|] _; [apply safe_ret; exact I|].
  apply IHrest. intros o Ho. apply Heach. right. exact Ho.
Qed.

Lemma safeExpression_and operands :
  Forall safeExpression operands -> safeExpression (AndExpression operands).
Proof.
  intros IH position Htyped Hext node.
  cbn [expressionTyped] in Htyped. apply andb_prop in Htyped.
  destruct Htyped as [Hposition Htyped]. cbn [expressionExtensions] in Hext.
  apply safeAt_logical; [exact Hposition | exact I |].
  cbn [evaluateExpression].
  pose proof (fun operand Hin =>
                each_safe _ _ _
                  (Forall_impl _ (fun e (H : safeExpression e) => H TestPosition)
                     IH)
                  Htyped Hext operand Hin node) as Heach.
  cbn [safeAt] in Heach. clear IH Htyped Hext.
  induction operands as [|operand rest IHrest]; [apply safe_ret; exact I|].
  eapply safe_bind; [apply Heach; left; reflexivity|].
  intros [|] _; [|apply safe_ret; exact I].
  apply IHrest. intros o Ho. apply Heach. right. exact Ho.
Qed.

Lemma safeExpression_comparison lhs operator rhs :
  safeExpression lhs -> safeExpression rhs ->
  safeExpression (ComparisonExpression lhs operator rhs).
Proof.
  intros IHl IHr position Htyped Hext node.
  cbn [expressionTyped] in Htyped. apply andb_prop in Htyped.
  destruct Htyped as [Htyped Hrhs]. apply andb_prop in Htyped.
  destruct Htyped as [Hposition Hlhs]. cbn [expressionExtensions] in Hext.
  apply Forall_app in Hext. destruct Hext as [Hl Hr].
  apply safeAt_logical; [exact Hposition | exact I |].
  cbn [evaluateExpression].
  eapply safe_bind; [apply (IHl ComparablePosition Hlhs Hl node)|].
  intros l _.
  eapply safe_bind; [apply (IHr ComparablePosition Hrhs Hr node)|].
  intros r _. apply safe_ret. exact I.
Qed.

Lemma safeExpression_not operand :
  safeExpression operand -> safeExpression (NotExpression operand).
Proof.
  intros IH position Htyped Hext node.
  cbn [expressionTyped] in Htyped. apply andb_prop in Htyped.
  destruct Htyped as [Hposition Htyped]. cbn [expressionExtensions] in Hext.
  apply safeAt_logical; [exact Hposition | exact I |].
  cbn [evaluateExpression].
  eapply safe_bind; [apply (IH TestPosition Htyped Hext node)|].
  intros b _. apply safe_ret. exact I.
Qed.

Lemma safeExpression_query identifier segments :
  Forall safeSegment segments ->
  safeExpression (QueryExpression identifier segments).
Proof.
  intros IH position Htyped Hext node.
  cbn [expressionTyped] in Htyped. cbn [expressionExtensions] in Hext.
  assert (Hquery : safe (fun _ => True)
                     (evaluateQueryExpression_open (evaluateSegment host)
                        identifier segments node)).
  { apply safe_evaluateQueryExpression_open.
    intros segment Hin. apply (each_safe _ _ _ IH Htyped Hext segment Hin). }
  assert (Htest : safe (fun _ => True)
                    (evaluateExpression host
                       (QueryExpression identifier segments) node)).
  { cbn [evaluateExpression]. eapply safe_bind; [exact Hquery|].
    intros nodes _. apply safe_ret. exact I. }
  destruct position as [| |[]]; cbn [safeAt].
  - exact Htest.
  - exact Hquery.
  - unfold evaluateFunctionArgument, evaluateValueFunctionArgument.
    eapply safe_bind; [exact Hquery|]. intros nodes _. apply safe_ret. exact I.
  - unfold evaluateFunctionArgument, evaluateLogicalFunctionArgument.
    eapply safe_bind; [exact Htest|]. intros b _. apply safe_ret. exact I.
  - unfold evaluateFunctionArgument, evaluateNodesFunctionArgument.
    eapply safe_bind; [exact Hquery|]. intros nodes _. apply safe_ret. exact I.
Qed.

Lemma safeExpression_literal value : safeExpression (LiteralExpression value).
Proof.
  intros position Htyped _ node.
  destruct position as [| |[]]; try discriminate Htyped;
    apply safe_ret; exact I.
Qed.

Lemma safeExpression_function func args :
  Forall safeExpression args -> safeExpression (FunctionExpression func args).
Proof.
  intros IH position Htyped Hext node.
  cbn [expressionTyped] in Htyped. apply andb_prop in Htyped.
  destruct Htyped as [Hresult Htyped].
  apply typed_arguments in Htyped.
  cbn [expressionExtensions] in Hext.
  apply Forall_cons_iff in Hext. destruct Hext as [Hfunc Hext].
  assert (Hargs : safe (Forall2 hasKind (parameterTypes func))
                    (evaluateFunctionArguments_open
                       (evaluateFunctionArgument (evaluateSegment host)
                          (evaluateExpression host)
                          (evaluateFunctionArguments host))
                       func args node)).
  { apply safe_evaluateFunctionArguments_open.
    rewrite Forall_flat_map in Hext. clear Hresult Hfunc.
    induction Htyped as [|t arg types args Harg Htyped IHargs];
      constructor.
    - apply (Forall_inv IH (ArgumentPosition t) Harg (Forall_inv Hext) node).
    - apply IHargs; [exact (Forall_inv_tail IH) | exact (Forall_inv_tail Hext)]. }
  assert (Hcall : forall values,
             Forall2 hasKind (parameterTypes func) values ->
             match func with
             | ValueFunctionExtension _ _ evaluate =>
                 safe (fun _ => True) (evaluate values)
             | LogicalFunctionExtension _ _ evaluate =>
                 safe (fun _ => True) (evaluate values)
             | NodesFunctionExtension _ _ evaluate =>
                 safe (fun _ => True) (evaluate values)
             end)
    by (intros values Hvalues; apply safeExtension_evaluate; assumption).
  destruct position as [| |[]], func as [n p evaluate|n p evaluate|n p evaluate];
    try discriminate Hresult;
    cbn [safeAt evaluateExpression evaluateComparableExpression
         evaluateFunctionArguments];
    unfold evaluateFunctionArgument, evaluateValueFunctionArgument,
      evaluateLogicalFunctionArgument, evaluateNodesFunctionArgument;
    cbn [evaluateFunctionArguments];
    (eapply safe_bind; [exact Hargs|]); intros values Hvalues;
    specialize (Hcall values Hvalues); cbn beta iota in Hcall;
    first [ exact Hcall
          | eapply safe_bind; [exact Hcall|]; intros r _; apply safe_ret;
            exact I ].
Qed.

Ltac safe_cases :=
  first [ exact safeSelector_filter | exact safeSegment_child
        | exact safeSegment_descendant | exact safeExpression_or
        | exact safeExpression_and | exact safeExpression_comparison
        | exact safeExpression_not | exact safeExpression_query
        | exact safeExpression_literal | exact safeExpression_function
        | intros; intros _ _ node; apply safe_ret; exact I ].

Lemma safe_evaluateSegment segment : safeSegment segment.
Proof.
  apply segment_induction
    with (PSelector := safeSelector) (PExpression := safeExpression);
    safe_cases.
Qed.

Lemma safe_evaluateExpression expression : safeExpression expression.
Proof.
  apply expression_induction
    with (PSelector := safeSelector) (PSegment := safeSegment);
    safe_cases.
Qed.

End TypeSafety.

Lemma intrinsicFunctions_safe (host : Host) :
  Forall safeExtension (map snd (ownProperties (intrinsicFunctions host))).
Proof.
  cbn [intrinsicFunctions ownProperties map snd].
  repeat apply Forall_cons; try apply Forall_nil;
    intros args Hargs context; cbn [parameterTypes lengthFunction countFunction
      matchFunction searchFunction valueFunction] in Hargs;
    repeat match goal with
           | H : Forall2 hasKind (_ :: _) _ |- _ =>
               inversion H; clear H; subst
           | H : Forall2 hasKind [] _ |- _ => inversion H; clear H; subst
           | H : hasKind _ ?v |- _ => destruct v; try contradiction; clear H
           end;
    unfold callExtension; cbn;
    repeat match goal with
           | |- context [match ?x with _ => _ end] => is_var x; destruct x
           | |- context [RegExp_test ?h ?p ?v] => destruct (RegExp_test h p v)
           end;
    exact I.
Qed.

(** X14.  Evaluation raises a [TypeError] only for an ill-typed expression.
    When a query, segment or filter expression is well-typed, and the
    function extensions it calls raise no [TypeError] on arguments of
    their declared types, as the intrinsic functions do, its evaluation
    raises no [TypeError]: none of the checks the evaluator makes while it
    runs fails. *)
Theorem evaluation_type_safe (host : Host) :
  (forall query root,
      forallb segmentTyped (segments query) = true ->
      Forall safeExtension (flat_map segmentExtensions (segments query)) ->
      safe (fun _ => True) (evaluateQuery_parsed host query root))
  /\ (forall segment nodes,
         segmentTyped segment = true ->
         Forall safeExtension (segmentExtensions segment) ->
         safe (fun _ => True) (evaluateSegment host segment nodes))
  /\ (forall expression node,
         expressionTyped TestPosition expression = true ->
         Forall safeExtension (expressionExtensions expression) ->
         safe (fun _ => True) (evaluateExpression host expression node)).
Proof.
  split; [|split].
  - intros query root Htyped Hext context.
    unfold evaluateQuery_parsed, tryFinally, evaluateSegments_open.
    rewrite Forall_flat_map, Forall_forall in Hext.
    rewrite forallb_forall in Htyped.
    match goal with
    | |- context [forEach ?body ?xs ?start ?c] =>
        pose proof (@safe_forEach _ _ body xs
                      (fun segment Hin nodes =>
                         @safe_evaluateSegment host segment
                           (Htyped segment Hin) (Hext segment Hin) nodes)
                      start c) as H;
        destruct (forEach body xs start c) as [r c']
    end.
    exact H.
  - intros segment nodes Htyped Hext.
    apply safe_evaluateSegment; assumption.
  - intros expression node Htyped Hext.
    apply (@safe_evaluateExpression host expression TestPosition Htyped Hext
             node).
Qed.

Lemma evaluation_type_safe_witness :
  match
    fst (evaluateQuery_parsed SmallHost.host
           (createQuery
              [ChildSegment
                 [FilterSelector
                    (ComparisonExpression
                       (FunctionExpression countFunction
                          [QueryExpression CurrentIdentifier
                             [ChildSegment [WildcardSelector]]])
                       ComparisonOperator.Equal
                       (LiteralExpression (JNumber (Number (js "2")))))]])
           (JArray [JArray [JNull; JNull]; JNull]) (mkQueryState JNull None))
  with
  | Ok _ => True
  | Throw (TypeError _) => False
  | Throw _ => True
  end.
Proof.
  apply (proj1 (evaluation_type_safe SmallHost.host)).
  - reflexivity.
  - cbn. constructor; [|constructor].
    apply (Forall_inv (Forall_inv_tail
             (intrinsicFunctions_safe SmallHost.host))).
Defined.

(** An ill-typed expression that the parser accepts: a literal as the
    test of a filter.  Its evaluation raises a [TypeError]. *)
Example literal_test_expression :
  parseQuery (js "$[?'x']") SmallHost.context
  = Ok (createQuery
          [ChildSegment [FilterSelector (LiteralExpression (JString (js "x")))]])
  /\ fst (evaluateQuery SmallHost.host (inr (js "$[?'x']")) (JArray [JNull])
            SmallHost.context)
     = Throw (TypeError "Invalid literal expression").
Proof. split; vm_compute; reflexivity. Qed.

(* ================================================================== *)
(** * Further properties of the parser *)
(* ================================================================== *)

(** ** The other entry points *)

(** X15.  [parseImplicitQuery], [parseSelector] and [parseExpression] apply the
    checks of [parseQuery]: in every tree that one of them returns, each
    comparison has comparable sides and each call has the declared
    number of arguments. *)
Theorem parse_entry_points_checked (input : JSString) (context : QueryContext) :
  (forall query,
      parseImplicitQuery input context = Ok query ->
      everyQuery wellTypedNode query = true)
  /\ (forall selector,
         parseSelector input context = Ok selector ->
         everySelector wellTypedNode selector = true)
  /\ (forall expression,
         parseExpression input context = Ok expression ->
         everyExpression wellTypedNode expression = true).
Proof.
  split; [|split].
  - intros query. apply parseImplicitQuery_checked. exact (fun e H => H).
  - intros selector. apply parseSelector_checked. exact (fun e H => H).
  - intros expression. apply parseExpression_checked. exact (fun e H => H).
Qed.

Lemma parse_entry_points_checked_witness :
  everyExpression wellTypedNode
    (ComparisonExpression
       (FunctionExpression (countFunction) 
          [QueryExpression CurrentIdentifier
             [ChildSegment [WildcardSelector]]])
       ComparisonOperator.GreaterThan
       (LiteralExpression (JNumber (Number (js "1")))))
  = true.
Proof.
  apply (proj2 (proj2 (parse_entry_points_checked (js "count(@.*) > 1")
                         SmallHost.context))).
  reflexivity.
Defined.

(** ** The root identifier *)

(** X16.  [parseQuery] requires the root identifier at the start: an input that
    does not begin with ["$"], the empty string and a string with leading
    blank space among them, is rejected at offset 0. *)
Theorem parseQuery_root_identifier (input : JSString) (context : QueryContext) :
  charCodeAt input 0 <> 0x24 ->
  parseQuery input context
  = Throw (QueryError
             ("Expected root identifier (" ++ quoteMark ++ "$" ++ quoteMark
              ++ ")")%string 0).
Proof.
  intros H. unfold parseQuery, parseQuery_fuel.
  destruct input as [|c rest]; [reflexivity|].
  unfold charCodeAt in H. cbn [nth] in H.
  unfold peek, bufferOf, charCodeAt. cbn.
  destruct (Z.eqb_spec c 36) as [->|_]; [contradiction|]. reflexivity.
Qed.

Lemma parseQuery_root_identifier_witness :
  parseQuery (js " $") SmallHost.context
  = Throw (QueryError
             ("Expected root identifier (" ++ quoteMark ++ "$" ++ quoteMark
              ++ ")")%string 0).
Proof.
  apply parseQuery_root_identifier. discriminate.
Defined.

(** ** Buffers in the middle of an input *)

(** The buffer over [consumed ++ rest] that stands after [consumed]. *)
Definition bufferAt (consumed rest : JSString) : InputBuffer :=
  mkInputBuffer (consumed ++ rest) (List.length consumed)
    (List.length (consumed ++ rest)).

Lemma bufferOf_bufferAt (s : JSString) : bufferOf s = bufferAt [] s.
Proof. reflexivity. Qed.

Lemma bufferAt_inside consumed c rest :
  (offset (bufferAt consumed (c :: rest))
   <? limit (bufferAt consumed (c :: rest)))%nat = true
  /\ (limit (bufferAt consumed (c :: rest))
      <=? offset (bufferAt consumed (c :: rest)))%nat = false
  /\ charCodeAt (input (bufferAt consumed (c :: rest)))
       (offset (bufferAt consumed (c :: rest))) = c.
Proof.
  unfold bufferAt, charCodeAt. cbn [offset limit input].
  rewrite length_app, nth_middle. cbn [List.length]. repeat split; lia.
Qed.

Lemma bufferAt_end consumed :
  (offset (bufferAt consumed []) <? limit (bufferAt consumed []))%nat = false
  /\ (limit (bufferAt consumed []) <=? offset (bufferAt consumed []))%nat
     = true.
Proof.
  unfold bufferAt. cbn [offset limit input]. rewrite app_nil_r. split; lia.
Qed.

Lemma peek_bufferAt consumed c rest : peek (bufferAt consumed (c :: rest)) = c.
Proof.
  unfold peek. destruct (bufferAt_inside consumed c rest) as (-> & _ & ->).
  reflexivity.
Qed.

Lemma peek_bufferAt_end consumed : peek (bufferAt consumed []) = -1.
Proof.
  unfold peek. destruct (bufferAt_end consumed) as (-> & _). reflexivity.
Qed.

Lemma atChar_bufferAt x consumed c rest :
  atChar x (bufferAt consumed (c :: rest)) = (c =? x).
Proof.
  unfold atChar. destruct (bufferAt_inside consumed c rest) as (-> & _ & ->).
  reflexivity.
Qed.

Lemma atChar_bufferAt_end x consumed : atChar x (bufferAt consumed []) = false.
Proof.
  unfold atChar. destruct (bufferAt_end consumed) as (-> & _). reflexivity.
Qed.

Lemma advance_bufferAt consumed c rest :
  advance 1 (bufferAt consumed (c :: rest)) = bufferAt (consumed ++ [c]) rest.
Proof.
  unfold advance, bufferAt. cbn [offset limit input].
  replace ((consumed ++ [c]) ++ rest) with (consumed ++ c :: rest)
    by (rewrite <- app_assoc; reflexivity).
  rewrite (length_app consumed [c]). reflexivity.
Qed.

Lemma remaining_bufferAt consumed rest :
  remaining (bufferAt consumed rest) = List.length rest.
Proof.
  unfold remaining, bufferAt. cbn [offset limit]. rewrite length_app. lia.
Qed.

Lemma offset_bufferAt consumed rest :
  offset (bufferAt consumed rest) = List.length consumed.
Proof. reflexivity. Qed.

Lemma offset_bufferAt_end consumed rest :
  (offset (bufferAt consumed rest) =? List.length (consumed ++ rest))%nat
  = match rest with [] => true | _ :: _ => false end.
Proof.
  unfold bufferAt. cbn [offset]. rewrite length_app.
  destruct rest; cbn [List.length]; lia.
Qed.

(** Scanning a class of characters stops at the first character outside
    it. *)
Lemma skipWhile_bufferAt p consumed scanned rest :
  forallb p scanned = true ->
  match rest with [] => true | c :: _ => negb (p c) end = true ->
  skipWhile p (bufferAt consumed (scanned ++ rest))
  = bufferAt (consumed ++ scanned) rest.
Proof.
  intros Hscanned Hrest. unfold skipWhile. rewrite remaining_bufferAt.
  assert (H : forall k consumed,
             (List.length scanned <= k)%nat ->
             scanWhile p k (bufferAt consumed (scanned ++ rest))
             = bufferAt (consumed ++ scanned) rest).
  { clear consumed. intros k. revert k Hscanned.
    induction scanned as [|c scanned IH]; intros k Hscanned consumed Hk.
    - rewrite app_nil_r. cbn [app]. destruct k as [|k]; [reflexivity|].
      cbn [scanWhile]. destruct rest as [|c rest].
      + destruct (bufferAt_end consumed) as (-> & _). reflexivity.
      + destruct (bufferAt_inside consumed c rest) as (-> & _ & ->).
        apply negb_true_iff in Hrest. rewrite Hrest. reflexivity.
    - cbn [forallb] in Hscanned. apply andb_prop in Hscanned.
      destruct Hscanned as [Hc Hscanned].
      destruct k as [|k]; [cbn in Hk; lia|].
      cbn [scanWhile app].
      destruct (bufferAt_inside consumed c (scanned ++ rest)) as (-> & _ & ->).
      rewrite Hc. cbn [andb]. rewrite advance_bufferAt.
      rewrite IH by (assumption || (cbn in Hk; lia)).
      rewrite <- app_assoc. reflexivity. }
  apply H. rewrite length_app. lia.
Qed.

Arguments bufferAt : simpl never.

(** ** String literals written by the formatter *)

(** The code units [formatStringLiteral] writes as themselves or with a
    two-character escape: U+0020 and above except the surrogates, and the
    control characters that have a letter.  The other code units are
    written as [\uXXXX]. *)
Definition hasShortForm (c : Z) : bool :=
  ((0x20 <=? c) && (c <=? 0xd7ff)) || ((0xe000 <=? c) && (c <=? 0x10ffff))
  || (c =? 0x08) || (c =? 0x09) || (c =? 0x0a) || (c =? 0x0c) || (c =? 0x0d).

Lemma parseStringLiteral_loop_quote k consumed rest result :
  parseStringLiteral_loop (S k) 0x27 result (bufferAt consumed (0x27 :: rest))
  = Done (result, bufferAt (consumed ++ [0x27]) rest).
Proof.
  cbn [parseStringLiteral_loop].
  destruct (bufferAt_inside consumed 0x27 rest) as (_ & -> & ->).
  rewrite advance_bufferAt. reflexivity.
Qed.

Lemma parseStringLiteral_loop_plain k c consumed rest result :
  isUnescapedStringChar c || (c =? 0x22) = true ->
  parseStringLiteral_loop (S k) 0x27 result (bufferAt consumed (c :: rest))
  = parseStringLiteral_loop k 0x27 (result ++ [c])
      (bufferAt (consumed ++ [c]) rest).
Proof.
  intros Hc. cbn [parseStringLiteral_loop].
  destruct (bufferAt_inside consumed c rest) as (_ & -> & ->).
  rewrite advance_bufferAt.
  replace (c =? 39) with false
    by (unfold isUnescapedStringChar in Hc; lia).
  match goal with
  | |- (if ?b then _ else _) = _ =>
      replace b with true
        by (destruct (isUnescapedStringChar c); cbn in *; lia)
  end.
  reflexivity.
Qed.

Lemma parseStringLiteral_loop_escape k c e consumed rest result :
  (e = 0x27 /\ c = 0x27) \/ (simpleEscape e = Some c) ->
  parseStringLiteral_loop (S k) 0x27 result
    (bufferAt consumed (0x5c :: e :: rest))
  = parseStringLiteral_loop k 0x27 (result ++ [c])
      (bufferAt (consumed ++ [0x5c; e]) rest).
Proof.
  intros He. cbn [parseStringLiteral_loop].
  destruct (bufferAt_inside consumed 0x5c (e :: rest)) as (_ & -> & ->).
  rewrite !advance_bufferAt, peek_bufferAt.
  replace (consumed ++ [0x5c; e]) with ((consumed ++ [0x5c]) ++ [e])
    by (rewrite <- app_assoc; reflexivity).
  cbn. destruct He as [[-> ->]|He]; [reflexivity|].
  destruct (Z.eqb_spec e 39) as [->|_]; [discriminate He|].
  rewrite He. reflexivity.
Qed.

Lemma formatStringLiteral_char_short c :
  hasShortForm c = true ->
  (isUnescapedStringChar c || (c =? 0x22) = true
   /\ formatStringLiteral_char c = [c])
  \/ (exists e,
         formatStringLiteral_char c = [0x5c; e]
         /\ ((e = 0x27 /\ c = 0x27) \/ simpleEscape e = Some c)).
Proof.
  intros H. unfold formatStringLiteral_char.
  destruct (isUnescapedStringChar c || (c =? 0x22)) eqn:E;
    [left; split; reflexivity|].
  right. unfold hasShortForm in H. unfold isUnescapedStringChar in E.
  assert (Hc : c = 0x27 \/ c = 0x08 \/ c = 0x0c \/ c = 0x0a \/ c = 0x0d
               \/ c = 0x09 \/ c = 0x5c) by lia.
  destruct Hc as [->|[->|[->|[->|[->|[->| ->]]]]]]; cbn;
    eexists; (split; [reflexivity|]); cbn; auto.
Qed.

Lemma parseStringLiteral_loop_formatted value :
  forallb hasShortForm value = true ->
  forall k consumed rest result,
    (List.length value < k)%nat ->
    parseStringLiteral_loop k 0x27 result
      (bufferAt consumed
         (flat_map formatStringLiteral_char value ++ 0x27 :: rest))
    = Done (result ++ value,
            bufferAt
              (consumed ++ flat_map formatStringLiteral_char value ++ [0x27])
              rest).
Proof.
  induction value as [|c value IH]; intros Hvalue k consumed rest result Hk;
    (destruct k as [|k]; [cbn in Hk; lia|]).
  - cbn [flat_map app]. rewrite parseStringLiteral_loop_quote, app_nil_r.
    reflexivity.
  - cbn [forallb] in Hvalue. apply andb_prop in Hvalue.
    destruct Hvalue as [Hc Hvalue]. cbn [flat_map].
    destruct (formatStringLiteral_char_short c Hc)
      as [[Hplain ->]|(e & -> & He)]; cbn [app].
    + rewrite parseStringLiteral_loop_plain by exact Hplain.
      rewrite IH by (assumption || (cbn in Hk; lia)).
      rewrite <- !app_assoc. reflexivity.
    + rewrite (parseStringLiteral_loop_escape k consumed _ result He).
      rewrite IH by (assumption || (cbn in Hk; lia)).
      rewrite <- !app_assoc. reflexivity.
Qed.

Lemma parseStringLiteral_formatted (value consumed rest : JSString) :
  forallb hasShortForm value = true ->
  parseStringLiteral (bufferAt consumed (formatStringLiteral value ++ rest))
  = Done (value, bufferAt (consumed ++ formatStringLiteral value) rest).
Proof.
  intros Hvalue. unfold parseStringLiteral, formatStringLiteral.
  change (js "'") with [0x27]. cbn [app].
  rewrite peek_bufferAt, advance_bufferAt. cbn [Z.eqb Pos.eqb orb].
  rewrite <- app_assoc. cbn [app].
  rewrite parseStringLiteral_loop_formatted.
  - rewrite <- !app_assoc. reflexivity.
  - exact Hvalue.
  - rewrite remaining_bufferAt, length_app.
    assert (H : (List.length value
                 <= List.length (flat_map formatStringLiteral_char value))%nat).
    { clear. induction value as [|c value IH]; [cbn; lia|].
      cbn [flat_map List.length]. rewrite length_app.
      assert (1 <= List.length (formatStringLiteral_char c))%nat; [|lia].
      unfold formatStringLiteral_char.
      repeat match goal with
             | |- context [if ?b then _ else _] => destruct b
             end; rewrite ?length_app; cbn; lia. }
    cbn [List.length]. lia.
Qed.

(** X17.  [parseStringLiteral] reads a literal written by [formatStringLiteral]
    back to the string it was written from, and stops right after the
    closing quote, whenever no code unit of the string needs a [\uXXXX]
    escape. *)
Theorem parseStringLiteral_formatStringLiteral
    (value consumed rest : JSString) :
  forallb hasShortForm value = true ->
  parseStringLiteral (bufferAt consumed (formatStringLiteral value ++ rest))
  = Done (value, bufferAt (consumed ++ formatStringLiteral value) rest).
Proof. apply parseStringLiteral_formatted. Qed.

Lemma parseStringLiteral_formatStringLiteral_witness :
  parseStringLiteral
    (bufferAt (js "$[") (formatStringLiteral (js "it's") ++ js "]"))
  = Done (js "it's",
          bufferAt (js "$[" ++ formatStringLiteral (js "it's")) (js "]")).
Proof.
  apply parseStringLiteral_formatStringLiteral. reflexivity.
Defined.

(** ** A literal the input ends in *)

Lemma parseStringLiteral_loop_unterminated quote value :
  quote = 0x22 \/ quote = 0x27 ->
  forallb isUnescapedStringChar value = true ->
  forall k consumed result,
    (List.length value < k)%nat ->
    parseStringLiteral_loop k quote result (bufferAt consumed value)
    = Done (result ++ value, bufferAt (consumed ++ value) []).
Proof.
  intros Hquote.
  induction value as [|c value IH]; intros Hvalue k consumed result Hk;
    (destruct k as [|k]; [cbn in Hk; lia|]).
  - cbn [parseStringLiteral_loop].
    destruct (bufferAt_end consumed) as (_ & ->). rewrite !app_nil_r.
    reflexivity.
  - cbn [forallb] in Hvalue. apply andb_prop in Hvalue.
    destruct Hvalue as [Hc Hvalue]. cbn [parseStringLiteral_loop].
    destruct (bufferAt_inside consumed c value) as (_ & -> & ->).
    rewrite advance_bufferAt, Hc. cbn [orb].
    replace (c =? quote) with false
      by (unfold isUnescapedStringChar in Hc; lia).
    rewrite IH by (assumption || (cbn in Hk; lia)).
    rewrite <- !app_assoc. reflexivity.
Qed.

(** X18.  A string literal need not be closed.  When the input ends inside a
    literal, [parseStringLiteral] returns the characters read so far, so
    [parseSelector] accepts an opening quote followed by unescaped
    characters as the name selector of those characters. *)
Theorem parseSelector_unterminated_literal
    (quote : Z) (value : JSString) (context : QueryContext) :
  quote = 0x22 \/ quote = 0x27 ->
  forallb isUnescapedStringChar value = true ->
  parseSelector (quote :: value) context = Ok (NameSelector value).
Proof.
  intros Hquote Hvalue. unfold parseSelector, parseSelector_fuel.
  destruct (parseFuel_ge (quote :: value)) as [fuel ->].
  cbn [parseSelector_buf]. rewrite bufferOf_bufferAt, peek_bufferAt.
  replace ((quote =? 34) || (quote =? 39)) with true by lia.
  unfold parseNameSelector, parseStringLiteral.
  rewrite peek_bufferAt, advance_bufferAt.
  replace ((quote =? 34) || (quote =? 39)) with true by lia.
  rewrite parseStringLiteral_loop_unterminated
    by (assumption || (rewrite remaining_bufferAt; lia)).
  cbn [obind app]. rewrite offset_bufferAt, Nat.eqb_refl. reflexivity.
Qed.

Lemma parseSelector_unterminated_literal_witness :
  parseSelector (js "'abc") SmallHost.context = Ok (NameSelector (js "abc")).
Proof.
  apply (@parseSelector_unterminated_literal 0x27 (js "abc") SmallHost.context).
  - right. reflexivity.
  - reflexivity.
Defined.

(** ** Numbers that start with zero *)

Lemma slice_bufferAt consumed scanned rest :
  slice (input (bufferAt (consumed ++ scanned) rest)) (List.length consumed)
    (offset (bufferAt (consumed ++ scanned) rest))
  = scanned.
Proof.
  unfold slice, bufferAt. cbn [input offset].
  rewrite <- app_assoc, skipn_app, skipn_all, Nat.sub_diag. cbn [skipn app].
  rewrite length_app.
  replace (List.length consumed + List.length scanned - List.length consumed)%nat
    with (List.length scanned) by lia.
  rewrite firstn_app, firstn_all, Nat.sub_diag. cbn [firstn].
  apply app_nil_r.
Qed.

(** X19.  A number literal that starts with [0] or [-0] ends there: the
    literal is the zero alone and whatever follows it, a fraction or an
    exponent included, is left in the buffer. *)
Theorem parseNumber_leading_zero (consumed rest : JSString) :
  parseNumber (bufferAt consumed (0x30 :: rest))
  = Done (Number (js "0"), bufferAt (consumed ++ js "0") rest)
  /\ parseNumber (bufferAt consumed (0x2d :: 0x30 :: rest))
     = Done (Number (js "-0"), bufferAt (consumed ++ js "-0") rest).
Proof.
  unfold parseNumber. split.
  - rewrite peek_bufferAt. cbn [Z.eqb Pos.eqb]. cbv zeta.
    rewrite advance_bufferAt, offset_bufferAt.
    rewrite (slice_bufferAt consumed [0x30] rest). reflexivity.
  - rewrite peek_bufferAt. cbn [Z.eqb Pos.eqb]. cbv zeta.
    rewrite advance_bufferAt, peek_bufferAt. cbn [Z.eqb Pos.eqb].
    rewrite advance_bufferAt, offset_bufferAt, <- app_assoc. cbn [app].
    rewrite (slice_bufferAt consumed [0x2d; 0x30] rest). reflexivity.
Qed.

(** So a filter that compares with a decimal fraction below one is
    rejected. *)
Example fraction_below_one_rejected :
  parseQuery (js "$[?@.a < 0.5]") SmallHost.context
  = Throw (QueryError "Expected comma" 10).
Proof. vm_compute. reflexivity. Qed.

(** ** The types of function arguments *)

(** The expressions a parameter of each declared type takes: a Value
    parameter a literal, a singular query or a call of a Value function;
    a Logical parameter anything but a literal and a call of a Value
    function; a Nodes parameter a query or a call of a Nodes function. *)
Definition argumentFits (parameterType : DeclaredType.t)
    (expression : Expression) : bool :=
  match parameterType, expression with
  | DeclaredType.Value, LiteralExpression _ => true
  | DeclaredType.Value, QueryExpression _ segments => isSingularQuery segments
  | DeclaredType.Value, FunctionExpression func _ =>
      DeclaredType.eqb (resultType func) DeclaredType.Value
  | DeclaredType.Value, _ => false
  | DeclaredType.Logical, LiteralExpression _ => false
  | DeclaredType.Logical, FunctionExpression func _ =>
      negb (DeclaredType.eqb (resultType func) DeclaredType.Value)
  | DeclaredType.Logical, _ => true
  | DeclaredType.Nodes, QueryExpression _ _ => true
  | DeclaredType.Nodes, FunctionExpression func _ =>
      DeclaredType.eqb (resultType func) DeclaredType.Nodes
  | DeclaredType.Nodes, _ => false
  end.

Lemma checkArgumentType_fits parameterType expression buf :
  checkArgumentType parameterType expression buf = Done tt ->
  argumentFits parameterType expression = true.
Proof.
  unfold checkArgumentType, checkValueArgumentType, checkLogicalArgumentType,
    checkNodesArgumentType, argumentFits.
  destruct parameterType, expression as [| | | |identifier segs|value|func args];
    try discriminate; try reflexivity;
    try (destruct (resultType func); (discriminate || reflexivity)).
  destruct (isSingularQuery segs); [reflexivity | discriminate].
Qed.

(** The arguments collected so far fit the parameters at their
    positions. *)
Definition argumentsFit (func : FunctionExtension) (args : list Expression)
    : Prop :=
  forall i arg,
    nth_error args i = Some arg ->
    argumentFits (nth i (parameterTypes func) DeclaredType.Value) arg = true.

Lemma parseFunctionArguments_loop_fit fuel :
  forall context func args buf args' b,
    parseFunctionArguments_loop fuel context func args buf = Done (args', b) ->
    argumentsFit func args -> argumentsFit func args'.
Proof.
  induction fuel as [|fuel IH]; intros context func args buf args' b Hparse Hfit;
    [discriminate Hparse|].
  cbn [parseFunctionArguments_loop] in Hparse.
  destruct (atChar 41 buf).
  { injection Hparse as <- <-. exact Hfit. }
  match type of Hparse with
  | obind ?m _ = _ => destruct m as [buf'| |]; try discriminate Hparse
  end.
  cbn [obind] in Hparse.
  destruct (List.length (parameterTypes func) <=? List.length args)%nat.
  { injection Hparse as <- <-. exact Hfit. }
  destruct (parseExpression_buf fuel _ buf') as [[arg buf'']| |];
    try discriminate Hparse.
  cbn [obind] in Hparse.
  destruct (checkArgumentType _ arg buf'') as [[]| |] eqn:Hcheck;
    try discriminate Hparse.
  cbn [obind] in Hparse.
  apply (IH _ _ _ _ _ _ Hparse).
  intros i a Hi.
  destruct (Nat.lt_ge_cases i (List.length args)) as [Hlt|Hge].
  - rewrite nth_error_app1 in Hi by exact Hlt. apply Hfit. exact Hi.
  - rewrite nth_error_app2 in Hi by exact Hge.
    destruct (i - List.length args)%nat as [|n] eqn:E; cbn in Hi.
    + injection Hi as <-. replace i with (List.length args) by lia.
      eapply checkArgumentType_fits. exact Hcheck.
    + destruct n; discriminate Hi.
Qed.

(** X20.  A call that [parseFunctionArguments] accepts is well-typed in its
    arguments: there is one argument for every declared parameter, and
    each fits the declared type of its parameter. *)
Theorem parseFunctionArguments_typed
    (fuel : nat) (context : QueryContext) (func : FunctionExtension)
    (buf b : InputBuffer) (expression : Expression) :
  parseFunctionArguments fuel context func buf = Done (expression, b) ->
  exists args,
    expression = FunctionExpression func args
    /\ Forall2 (fun parameterType arg => argumentFits parameterType arg = true)
         (parameterTypes func) args.
Proof.
  destruct fuel as [|fuel]; [discriminate|].
  cbn [parseFunctionArguments].
  destruct (negb (atChar 40 buf)); [discriminate|].
  destruct (parseFunctionArguments_loop fuel context func []
              (parseBlankSpace (advance 1 buf))) as [[args b']| |] eqn:Hloop;
    cbn [obind]; try discriminate.
  destruct (Nat.eqb_spec (List.length args) (List.length (parameterTypes func)))
    as [Hlen|_]; cbn [negb]; [|discriminate].
  intros H. injection H as <- <-. exists args. split; [reflexivity|].
  assert (Hfit : argumentsFit func args).
  { eapply parseFunctionArguments_loop_fit; [exact Hloop|].
    intros i arg Hi. destruct i; discriminate Hi. }
  unfold argumentsFit in Hfit. clear Hloop. revert Hlen Hfit.
  generalize (parameterTypes func) as types.
  induction args as [|arg args IH]; intros types Hlen Hfit;
    destruct types as [|t types]; try discriminate Hlen; constructor.
  - apply (Hfit O arg eq_refl).
  - apply IH; [cbn in Hlen; lia|].
    intros i a Hi. apply (Hfit (S i) a Hi).
Qed.

Lemma parseFunctionArguments_typed_witness :
  exists args,
    FunctionExpression countFunction
      [QueryExpression CurrentIdentifier [ChildSegment [WildcardSelector]]]
    = FunctionExpression countFunction args
    /\ Forall2 (fun parameterType arg => argumentFits parameterType arg = true)
         (parameterTypes countFunction) args.
Proof.
  apply (@parseFunctionArguments_typed 20 SmallHost.context countFunction
           (bufferAt (js "count") (js "(@.*)"))
           (bufferAt (js "count(@.*)") [])).
  vm_compute. reflexivity.
Defined.

(** A Value parameter does not take a query that may select several
    nodes, and a Nodes parameter does not take a literal. *)
Example argument_types_rejected :
  parseQuery (js "$[?length(@.*) == 1]") SmallHost.context
  = Throw (QueryError
             "Expected singular query expression in ValueType argument position"
             13)
  /\ parseQuery (js "$[?count(1) == 1]") SmallHost.context
     = Throw (QueryError
                "Expected query expression in NodesType argument position" 10).
Proof. split; vm_compute; reflexivity. Qed.

(** ** The registry of function extensions *)

Lemma jsstring_eqb_eq (a b : JSString) : jsstring_eqb a b = true <-> a = b.
Proof.
  revert b. induction a as [|x a IH]; intros [|y b]; cbn [jsstring_eqb];
    try (split; [discriminate | discriminate]); [tauto|].
  rewrite andb_true_iff, Z.eqb_eq, IH. split.
  - intros [-> ->]. reflexivity.
  - intros E. injection E as -> ->. split; reflexivity.
Qed.

Lemma jsstring_eqb_refl (a : JSString) : jsstring_eqb a a = true.
Proof. apply jsstring_eqb_eq. reflexivity. Qed.

Lemma lookupExtension_app exts exts' n :
  lookupExtension (exts ++ exts') n
  = match lookupExtension exts n with
    | Some func => Some func
    | None => lookupExtension exts' n
    end.
Proof.
  induction exts as [|[k func] exts IH]; [reflexivity|].
  cbn [app lookupExtension]. destruct (jsstring_eqb k n); [reflexivity|].
  exact IH.
Qed.

(** The last extension of an array that has the name [n]. *)
Definition lastNamed (extensions : list FunctionExtension) (n : JSString)
    : option FunctionExtension :=
  find (fun func => jsstring_eqb (name func) n) (rev extensions).

Lemma lastNamed_snoc extensions func n :
  lastNamed (extensions ++ [func]) n
  = if jsstring_eqb (name func) n then Some func else lastNamed extensions n.
Proof. unfold lastNamed. rewrite rev_app_distr. reflexivity. Qed.

(** The object that the assignments of [initQueryContext] build from
    [registry]: an extension named [__proto__] becomes the prototype, and
    every other extension an own property. *)
Lemma fold_assignExtension extensions registry :
  lookupExtension (ownProperties registry) (js "__proto__") = None ->
  prototype registry <> NullPrototype ->
  let final := fold_left assignExtension extensions registry in
  lookupExtension (ownProperties final) (js "__proto__") = None
  /\ prototype final
     = match lastNamed extensions (js "__proto__") with
       | Some func => ExtensionPrototype func
       | None => prototype registry
       end
  /\ forall n,
       n <> js "__proto__" ->
       lookupExtension (ownProperties final) n
       = match lastNamed extensions n with
         | Some func => Some func
         | None => lookupExtension (ownProperties registry) n
         end.
Proof.
  intros Hown Hproto. cbv zeta.
  induction extensions as [|func extensions IH] using rev_ind.
  - cbn. auto.
  - rewrite fold_left_app. cbn [fold_left].
    destruct IH as (IHown & IHproto & IHlookup).
    set (final := fold_left assignExtension extensions registry) in *.
    assert (Hfinal : prototype final <> NullPrototype).
    { rewrite IHproto. destruct (lastNamed extensions (js "__proto__"));
        [discriminate | exact Hproto]. }
    unfold assignExtension.
    destruct (jsstring_eqb (name func) (js "__proto__")) eqn:E.
    + apply jsstring_eqb_eq in E. rewrite E, IHown.
      destruct (prototype final) eqn:Ep; try contradiction;
        cbn [ownProperties prototype]; (split; [exact IHown | split]).
      all: try (rewrite lastNamed_snoc, E, jsstring_eqb_refl; reflexivity).
      all: intros n Hn; rewrite lastNamed_snoc, E;
        destruct (jsstring_eqb (js "__proto__") n) eqn:En;
        [apply jsstring_eqb_eq in En; congruence | apply IHlookup, Hn].
    + cbn [ownProperties prototype lookupExtension]. rewrite E.
      split; [exact IHown | split].
      * rewrite lastNamed_snoc, E. exact IHproto.
      * intros n Hn. rewrite lastNamed_snoc.
        destruct (jsstring_eqb (name func) n); [reflexivity|].
        apply IHlookup, Hn.
Qed.

Lemma existsb_reversed {A : Type} (f : A -> bool) (l : list A) :
  existsb f (rev l) = existsb f l.
Proof.
  induction l as [|x l IH]; [reflexivity|].
  cbn [rev existsb]. rewrite existsb_app, IH. cbn [existsb].
  rewrite orb_false_r. apply orb_comm.
Qed.

(** X21.  Looking a name up in a context created with an array of
    extensions finds the last extension of that name in the array,
    whatever the name is.  For a name that no extension of the array has,
    the lookup finds what it finds in a context created without
    extensions, an intrinsic function or a member of [Object.prototype],
    with one exception: an extension named [__proto__] becomes the
    prototype of the registry, and from then on the names of its fields
    are found, as values that are no function extensions. *)
Theorem createQueryContext_lookup (host : Host)
    (extensions : list FunctionExtension) (queryArgument : Node)
    (n : JSString) :
  getFunctionExtension
    (createQueryContext host
       (Some (mkQueryContextOptions (Some (inl extensions)) queryArgument)))
    n
  = match lastNamed extensions n with
    | Some func => Some (ExtensionValue func)
    | None =>
        if hasName extensionFieldNames n
           && existsb (fun func => jsstring_eqb (name func) (js "__proto__"))
                extensions
        then Some ForeignValue
        else getFunctionExtension (createQueryContext host None) n
    end.
Proof.
  unfold getFunctionExtension, createQueryContext, initQueryContext.
  cbn [functionExtensions].
  destruct (@fold_assignExtension extensions
              (spread (ownProperties (intrinsicFunctions host))))
    as (Hown & Hproto & Hlookup); [reflexivity | discriminate |].
  set (final := fold_left assignExtension extensions _) in *.
  assert (Hexists :
            existsb (fun func => jsstring_eqb (name func) (js "__proto__"))
              extensions
            = match lastNamed extensions (js "__proto__") with
              | Some _ => true
              | None => false
              end).
  { unfold lastNamed.
    rewrite <- (existsb_reversed _ extensions).
    induction (rev extensions) as [|func l IH]; [reflexivity|].
    cbn [existsb find]. destruct (jsstring_eqb (name func) (js "__proto__"));
      [reflexivity | exact IH]. }
  unfold getProperty.
  destruct (jsstring_eqb n (js "__proto__")) eqn:En.
  - apply jsstring_eqb_eq in En. subst n. rewrite Hown, Hproto, Hexists.
    destruct (lastNamed extensions (js "__proto__")); reflexivity.
  - assert (Hn : n <> js "__proto__")
      by (intros ->; rewrite jsstring_eqb_refl in En; discriminate).
    rewrite (Hlookup n Hn), Hproto, Hexists.
    destruct (lastNamed extensions n); [reflexivity|].
    cbn [spread ownProperties prototype intrinsicFunctions].
    destruct (lookupExtension _ n) eqn:Eint.
    + destruct (hasName extensionFieldNames n) eqn:Ef; [|reflexivity].
      exfalso. unfold hasName, extensionFieldNames in Ef.
      cbn [map existsb] in Ef.
      repeat (apply orb_prop in Ef; destruct Ef as [Ef|Ef]);
        try discriminate Ef;
        apply jsstring_eqb_eq in Ef; subst n; discriminate Eint.
    + destruct (lastNamed extensions (js "__proto__")); cbn [getInherited];
        rewrite ?En; destruct (hasName extensionFieldNames n);
        reflexivity.
Qed.

(** The five intrinsic functions by name, in a context created without
    options; [size] is unknown, and [constructor] is inherited. *)
Example intrinsic_functions_registered :
  map (fun n => getFunctionExtension SmallHost.context (js n))
    ["length"; "count"; "match"; "search"; "value"; "size"; "constructor"]%string
  = [Some (ExtensionValue (lengthFunction SmallHost.host));
     Some (ExtensionValue countFunction);
     Some (ExtensionValue (matchFunction SmallHost.host));
     Some (ExtensionValue (searchFunction SmallHost.host));
     Some (ExtensionValue valueFunction); None; Some ForeignValue].
Proof. reflexivity. Qed.

(** An extension named [__proto__] is found under its name, through the
    accessor; the names [name] and [evaluate] are then found as well,
    and a call of one of them makes the parser throw a [TypeError]. *)
Example proto_extension_registered :
  let func :=
    LogicalFunctionExtension (js "__proto__") []
      (fun _ context => (Ok true, context)) in
  let context :=
    createQueryContext SmallHost.host
      (Some (mkQueryContextOptions (Some (inl [func])) JUndefined)) in
  map (fun n => getFunctionExtension context (js n))
    ["__proto__"; "name"; "evaluate"; "count"; "size"]%string
  = [Some (ExtensionValue func); Some ForeignValue; Some ForeignValue;
     Some (ExtensionValue countFunction); None]
  /\ parseQuery (js "$[?name()]") context = Throw (TypeError undefinedLength)
  /\ parseQuery (js "$[?name()]") SmallHost.context
     = Throw (QueryError ("Unknown function " ++ quoteMark ++ "name"
                          ++ quoteMark)%string 7).
Proof. repeat split; vm_compute; reflexivity. Qed.

(** ** Integers written by the formatter *)

(** The value [parseInt]'s digit loop computes from [acc] over the
    digits [d]. *)
Fixpoint decimalValue (acc : Z) (d : Decimal.uint) : Z :=
  match d with
  | Decimal.Nil => acc
  | Decimal.D0 d => decimalValue (acc * 10 + 0) d
  | Decimal.D1 d => decimalValue (acc * 10 + 1) d
  | Decimal.D2 d => decimalValue (acc * 10 + 2) d
  | Decimal.D3 d => decimalValue (acc * 10 + 3) d
  | Decimal.D4 d => decimalValue (acc * 10 + 4) d
  | Decimal.D5 d => decimalValue (acc * 10 + 5) d
  | Decimal.D6 d => decimalValue (acc * 10 + 6) d
  | Decimal.D7 d => decimalValue (acc * 10 + 7) d
  | Decimal.D8 d => decimalValue (acc * 10 + 8) d
  | Decimal.D9 d => decimalValue (acc * 10 + 9) d
  end.

Lemma decimalValue_of_uint_acc d acc :
  Z.pos (Pos.of_uint_acc d acc) = decimalValue (Z.pos acc) d.
Proof.
  revert acc. induction d; intros acc; cbn [Pos.of_uint_acc decimalValue];
    try reflexivity; rewrite IHd; f_equal; lia.
Qed.

Definition notDigitNext (rest : JSString) : bool :=
  match rest with
  | [] => true
  | c :: _ => negb (isDigit c)
  end.

Lemma parseInt_digits_uint (d : Decimal.uint) :
  forall k consumed rest acc,
    notDigitNext rest = true ->
    (List.length (js (DecimalString.NilEmpty.string_of_uint d)) <= k)%nat ->
    parseInt_digits k acc
      (bufferAt consumed (js (DecimalString.NilEmpty.string_of_uint d) ++ rest))
    = (decimalValue acc d,
       bufferAt (consumed ++ js (DecimalString.NilEmpty.string_of_uint d)) rest).
Proof.
  assert (Hstop : forall k consumed rest acc,
             notDigitNext rest = true ->
             parseInt_digits k acc (bufferAt consumed rest)
             = (acc, bufferAt consumed rest)).
  { intros k consumed rest acc Hrest. destruct k as [|k]; [reflexivity|].
    cbn [parseInt_digits]. destruct rest as [|c rest].
    - destruct (bufferAt_end consumed) as (-> & _). reflexivity.
    - destruct (bufferAt_inside consumed c rest) as (-> & _ & ->).
      cbn [notDigitNext] in Hrest. apply negb_true_iff in Hrest.
      rewrite Hrest. reflexivity. }
  induction d; intros k consumed rest acc Hrest Hk;
    cbn [DecimalString.NilEmpty.string_of_uint js app decimalValue];
    try (rewrite app_nil_r; apply Hstop; exact Hrest);
    (destruct k as [|k]; [cbn in Hk; lia|]);
    cbn [parseInt_digits];
    match goal with
    | |- context [bufferAt consumed (?c :: ?tail)] =>
        destruct (bufferAt_inside consumed c tail) as (-> & _ & ->);
        rewrite advance_bufferAt
    end;
    cbn [nat_of_ascii Z.of_nat isDigit];
    rewrite IHd by (assumption || (cbn in Hk; lia));
    rewrite <- app_assoc; reflexivity.
Qed.

Lemma nzhead_not_D0 (d l : Decimal.uint) : Decimal.nzhead d <> Decimal.D0 l.
Proof.
  induction d; cbn [Decimal.nzhead]; try discriminate. exact IHd.
Qed.

(** The decimal digits of a positive number start with a digit from 1 to
    9, and the digit loop gives the number back. *)
Lemma to_uint_leading (p : positive) :
  exists (first : Z) (tail : Decimal.uint),
    js (DecimalString.NilEmpty.string_of_uint (Pos.to_uint p))
    = (0x30 + first) :: js (DecimalString.NilEmpty.string_of_uint tail)
    /\ 1 <= first <= 9
    /\ decimalValue first tail = Z.pos p.
Proof.
  pose proof (DecimalPos.Unsigned.of_to p) as Hof.
  pose proof (DecimalPos.Unsigned.to_of (Pos.to_uint p)) as Hto.
  rewrite Hof in Hto. cbn [N.to_uint] in Hto.
  pose proof (DecimalPos.Unsigned.to_uint_nonzero p) as Hnz.
  destruct (Pos.to_uint p) as [|tail|tail|tail|tail|tail|tail|tail|tail|tail|tail]
    eqn:E;
    [ exfalso; exact (DecimalPos.Unsigned.to_uint_nonnil p E)
    | exfalso
    | exists 1, tail | exists 2, tail | exists 3, tail | exists 4, tail
    | exists 5, tail | exists 6, tail | exists 7, tail | exists 8, tail
    | exists 9, tail ];
    try (cbn [Pos.of_uint] in Hof; injection Hof as Hof;
         rewrite <- Hof, decimalValue_of_uint_acc;
         split; [reflexivity | split; [lia | reflexivity]]).
  unfold Decimal.unorm in Hto. cbn [Decimal.nzhead] in Hto.
  destruct (Decimal.nzhead tail) eqn:Hhead; try discriminate Hto.
  - apply Hnz. exact Hto.
  - exact (@nzhead_not_D0 tail u Hhead).
Qed.

(** The integers ECMAScript holds exactly and prints in plain decimal
    notation. *)
Definition isSafeInteger (n : Z) : bool :=
  (- (2 ^ 53 - 1) <=? n) && (n <=? 2 ^ 53 - 1).

Lemma parseInt_decimal (n : Z) (consumed rest : JSString) :
  notDigitNext rest = true ->
  parseInt (bufferAt consumed (String_of_int n ++ rest))
  = Done (n, bufferAt (consumed ++ String_of_int n) rest).
Proof.
  intros Hrest. unfold parseInt, String_of_int.
  destruct n as [|p|p]; cbn [Z.to_int DecimalString.NilZero.string_of_int].
  - change (js (DecimalString.NilZero.string_of_uint Decimal.zero))
      with [0x30].
    cbn [app]. rewrite peek_bufferAt, advance_bufferAt. reflexivity.
  - destruct (to_uint_leading p) as (first & tail & Hdigits & Hfirst & Hvalue).
    assert (Hzero : DecimalString.NilZero.string_of_uint (Pos.to_uint p)
                    = DecimalString.NilEmpty.string_of_uint (Pos.to_uint p)).
    { unfold DecimalString.NilZero.string_of_uint.
      destruct (Pos.to_uint p) eqn:E; try reflexivity.
      exfalso. exact (DecimalPos.Unsigned.to_uint_nonnil p E). }
    rewrite Hzero, Hdigits. cbn [app].
    rewrite peek_bufferAt.
    replace (48 + first =? 48) with false by lia.
    replace (48 + first =? 45) with false by lia.
    replace ((48 + first <? 49) || (57 <? 48 + first)) with false by lia.
    rewrite advance_bufferAt.
    rewrite parseInt_digits_uint
      by (assumption || (rewrite remaining_bufferAt, length_app; lia)).
    rewrite <- app_assoc. cbn [app].
    replace (48 + first - 48) with first by lia.
    rewrite Hvalue, Z.mul_1_r. reflexivity.
  - destruct (to_uint_leading p) as (first & tail & Hdigits & Hfirst & Hvalue).
    assert (Hzero : DecimalString.NilZero.string_of_uint (Pos.to_uint p)
                    = DecimalString.NilEmpty.string_of_uint (Pos.to_uint p)).
    { unfold DecimalString.NilZero.string_of_uint.
      destruct (Pos.to_uint p) eqn:E; try reflexivity.
      exfalso. exact (DecimalPos.Unsigned.to_uint_nonnil p E). }
    rewrite Hzero. cbn [js app]. rewrite Hdigits.
    change (Z.of_nat (nat_of_ascii "-")) with 0x2d. cbn [app].
    rewrite peek_bufferAt. cbn [Z.eqb Pos.eqb].
    rewrite advance_bufferAt, peek_bufferAt.
    replace ((48 + first <? 49) || (57 <? 48 + first)) with false by lia.
    rewrite advance_bufferAt.
    rewrite parseInt_digits_uint
      by (assumption || (rewrite remaining_bufferAt, length_app; lia)).
    rewrite <- !app_assoc. cbn [app].
    replace (48 + first - 48) with first by lia.
    rewrite Hvalue. replace (Z.pos p * -1) with (Z.neg p) by lia.
    reflexivity.
Qed.

(** X22.  [parseInt] reads an integer written by [String(n)] back to [n], and
    stops after its last digit.  (The model computes with exact integers;
    the statement is for the integers that ECMAScript numbers hold
    exactly and [String] writes in plain decimal notation.) *)
Theorem parseInt_String_of_int (n : Z) (consumed rest : JSString) :
  isSafeInteger n = true ->
  notDigitNext rest = true ->
  parseInt (bufferAt consumed (String_of_int n ++ rest))
  = Done (n, bufferAt (consumed ++ String_of_int n) rest).
Proof. intros _. apply parseInt_decimal. Qed.

Lemma parseInt_String_of_int_witness :
  parseInt (bufferAt (js "$[") (String_of_int (-120) ++ js "]"))
  = Done (-120, bufferAt (js "$[" ++ String_of_int (-120)) (js "]")).
Proof.
  apply parseInt_String_of_int; reflexivity.
Defined.

(** ** Queries written by the formatter *)

(** What may follow a segment in a formatted query: the end of the input
    or the start of the next segment. *)
Definition segmentNext (rest : JSString) : bool :=
  match rest with
  | [] => true
  | c :: _ => (c =? 0x2e) || (c =? 0x5b)
  end.

(** What may follow a shorthand name: anything but a name character. *)
Definition nameEnd (rest : JSString) : bool :=
  match rest with
  | [] => true
  | c :: _ => negb (isNameChar c)
  end.

Lemma segmentNext_nameEnd rest : segmentNext rest = true -> nameEnd rest = true.
Proof.
  destruct rest as [|c rest]; [reflexivity|]. cbn [segmentNext nameEnd].
  unfold isNameChar, isNameFirstChar, isAlpha, isUppercase, isLowercase,
    isDigit.
  lia.
Qed.

Lemma parseBlankSpace_bufferAt consumed rest :
  match rest with [] => true | c :: _ => negb (isSpaceChar c) end = true ->
  parseBlankSpace (bufferAt consumed rest) = bufferAt consumed rest.
Proof.
  intros H. unfold parseBlankSpace.
  pose proof (@skipWhile_bufferAt isSpaceChar consumed [] rest eq_refl H)
    as Hskip.
  cbn [app] in Hskip. rewrite app_nil_r in Hskip. exact Hskip.
Qed.

Lemma parseShorthandName_bufferAt consumed name rest :
  isValidShorthandName name = true ->
  match rest with [] => true | c :: _ => negb (isNameChar c) end = true ->
  parseShorthandName (bufferAt consumed (name ++ rest))
  = Done (name, bufferAt (consumed ++ name) rest).
Proof.
  intros Hname Hrest. destruct name as [|c name]; [discriminate Hname|].
  cbn [isValidShorthandName] in Hname. apply andb_prop in Hname.
  destruct Hname as [Hc Hname].
  unfold parseShorthandName. cbn [app].
  destruct (bufferAt_inside consumed c (name ++ rest)) as (_ & -> & ->).
  rewrite Hc. cbn [negb orb]. rewrite advance_bufferAt, offset_bufferAt.
  rewrite (skipWhile_bufferAt isNameChar (consumed ++ [c]) name rest Hname Hrest).
  rewrite <- app_assoc. cbn [app].
  rewrite (slice_bufferAt consumed (c :: name) rest). reflexivity.
Qed.

Lemma parseSegment_buf_shorthand fuel context consumed name rest :
  isValidShorthandName name = true ->
  nameEnd rest = true ->
  parseSegment_buf (S fuel) context (bufferAt consumed (0x2e :: name ++ rest))
  = Done (Some (ChildSegment [NameSelector name]),
          bufferAt (consumed ++ 0x2e :: name) rest).
Proof.
  intros Hname Hrest. cbn [parseSegment_buf].
  rewrite peek_bufferAt. cbn [Z.eqb Pos.eqb]. rewrite advance_bufferAt.
  destruct name as [|c tail]; [discriminate Hname|].
  assert (Hc : isNameFirstChar c = true).
  { cbn [isValidShorthandName] in Hname. apply andb_prop in Hname. tauto. }
  cbn [app]. rewrite peek_bufferAt.
  replace (c =? 46) with false
    by (unfold isNameFirstChar, isAlpha, isUppercase, isLowercase in Hc; lia).
  replace (c =? 42) with false
    by (unfold isNameFirstChar, isAlpha, isUppercase, isLowercase in Hc; lia).
  rewrite Hc. change (c :: tail ++ rest) with ((c :: tail) ++ rest).
  rewrite parseShorthandName_bufferAt.
  - cbn [obind Nat.eqb]. rewrite <- app_assoc. reflexivity.
  - exact Hname.
  - exact Hrest.
Qed.

Lemma String_of_int_first (n : Z) :
  exists c tail,
    String_of_int n = c :: tail /\ ((c =? 0x2d) || isDigit c = true).
Proof.
  unfold String_of_int.
  destruct n as [|p|p]; cbn [Z.to_int DecimalString.NilZero.string_of_int].
  - exists 0x30, []. split; reflexivity.
  - destruct (to_uint_leading p) as (first & tail & Hdigits & Hfirst & _).
    unfold DecimalString.NilZero.string_of_uint.
    destruct (Pos.to_uint p) eqn:E;
      try (exfalso; exact (DecimalPos.Unsigned.to_uint_nonnil p E));
      rewrite Hdigits; eexists; eexists; (split; [reflexivity|]);
      unfold isDigit; lia.
  - exists 0x2d. eexists. split; reflexivity.
Qed.

Lemma parseSelector_buf_name fuel context consumed name rest :
  forallb hasShortForm name = true ->
  parseSelector_buf (S fuel) context
    (bufferAt consumed (formatStringLiteral name ++ rest))
  = Done (NameSelector name, bufferAt (consumed ++ formatStringLiteral name) rest).
Proof.
  intros Hname. cbn [parseSelector_buf].
  replace (peek (bufferAt consumed (formatStringLiteral name ++ rest)))
    with 0x27 by (symmetry; apply peek_bufferAt).
  cbn [Z.eqb Pos.eqb orb]. unfold parseNameSelector.
  rewrite parseStringLiteral_formatted by exact Hname. reflexivity.
Qed.

(** The selectors other than filters whose text the parser reads back:
    names that need no [\uXXXX] escape, indexes and slice bounds that are
    safe integers. *)
Definition isSafeBound (bound : option Z) : bool :=
  match bound with
  | Some n => isSafeInteger n
  | None => true
  end.

Definition isPlainSelector (selector : Selector) : bool :=
  match selector with
  | NameSelector name => forallb hasShortForm name
  | WildcardSelector => true
  | IndexSelector index => isSafeInteger index
  | SliceSelector start end_ step =>
      isSafeBound start && isSafeBound end_ && isSafeBound step
  | FilterSelector _ => false
  end.

Definition isPlainSegment (segment : Segment) : bool :=
  match segment with
  | ChildSegment selectors => forallb isPlainSelector selectors
  | DescendantSegment selectors => forallb isPlainSelector selectors
  end.

(** What may follow a selector in a bracketed selection. *)
Definition selectorNext (rest : JSString) : bool :=
  match rest with
  | [] => true
  | c :: _ => (c =? 0x2c) || (c =? 0x5d)
  end.

(** What may follow an optional integer: not a digit, not a sign, not
    blank space. *)
Definition boundNext (rest : JSString) : bool :=
  match rest with
  | [] => true
  | c :: _ => negb (isDigit c) && negb (c =? 0x2d) && negb (isSpaceChar c)
  end.

Definition boundText (bound : option Z) : JSString :=
  match bound with
  | Some n => String_of_int n
  | None => []
  end.

Lemma boundNext_notDigit rest : boundNext rest = true -> notDigitNext rest = true.
Proof.
  destruct rest as [|c rest]; [reflexivity|]. cbn [boundNext notDigitNext].
  intros H. apply andb_prop in H. destruct H as [H _].
  apply andb_prop in H. tauto.
Qed.

Lemma boundNext_notSpace rest :
  boundNext rest = true ->
  match rest with [] => true | c :: _ => negb (isSpaceChar c) end = true.
Proof.
  destruct rest as [|c rest]; [reflexivity|]. cbn [boundNext].
  intros H. apply andb_prop in H. tauto.
Qed.

Lemma selectorNext_boundNext rest : selectorNext rest = true -> boundNext rest = true.
Proof.
  destruct rest as [|c rest]; [reflexivity|]. cbn [selectorNext boundNext].
  unfold isDigit, isSpaceChar. lia.
Qed.

Lemma parseOptionalInt_bound blank bound consumed rest :
  boundNext rest = true ->
  parseOptionalInt blank (bufferAt consumed (boundText bound ++ rest))
  = Done (bound, bufferAt (consumed ++ boundText bound) rest).
Proof.
  intros Hrest. unfold parseOptionalInt.
  destruct bound as [n|]; cbn [boundText].
  - destruct (String_of_int_first n) as (c & tail & Htext & Hc).
    assert (Hpeek : peek (bufferAt consumed (String_of_int n ++ rest)) = c)
      by (rewrite Htext; apply peek_bufferAt).
    rewrite Hpeek, Hc.
    rewrite parseInt_decimal by (apply boundNext_notDigit; exact Hrest).
    cbn [obind].
    rewrite parseBlankSpace_bufferAt by (apply boundNext_notSpace; exact Hrest).
    destruct blank; reflexivity.
  - cbn [app]. rewrite app_nil_r.
    destruct rest as [|c rest].
    + rewrite peek_bufferAt_end. reflexivity.
    + rewrite peek_bufferAt. cbn [boundNext] in Hrest.
      replace ((c =? 45) || isDigit c) with false
        by (destruct (isDigit c), (c =? 45); cbn in *; congruence).
      reflexivity.
Qed.

Lemma peek_not_colon consumed rest :
  selectorNext rest = true -> (peek (bufferAt consumed rest) =? 0x3a) = false.
Proof.
  destruct rest as [|c rest]; intros H.
  - rewrite peek_bufferAt_end. reflexivity.
  - rewrite peek_bufferAt. cbn [selectorNext] in H. lia.
Qed.

Lemma parseArraySelector_index index consumed rest :
  selectorNext rest = true ->
  parseArraySelector (bufferAt consumed (String_of_int index ++ rest))
  = Done (IndexSelector index, bufferAt (consumed ++ String_of_int index) rest).
Proof.
  intros Hrest. unfold parseArraySelector.
  change (String_of_int index) with (boundText (Some index)).
  rewrite (@parseOptionalInt_bound true (Some index) consumed rest)
    by (apply selectorNext_boundNext; exact Hrest).
  cbn [obind boundText]. rewrite peek_not_colon by exact Hrest. reflexivity.
Qed.

Lemma parseArraySelector_slice host start end_ step consumed rest :
  selectorNext rest = true ->
  parseArraySelector
    (bufferAt consumed
       (formatSelector host (SliceSelector start end_ step) ++ rest))
  = Done (SliceSelector start end_ step,
          bufferAt
            (consumed ++ formatSelector host (SliceSelector start end_ step))
            rest).
Proof.
  intros Hrest. unfold parseArraySelector.
  cbn [formatSelector]. unfold formatSliceSelector.
  fold (boundText start). fold (boundText end_).
  change (js ":") with [0x3a].
  pose proof (selectorNext_boundNext rest Hrest) as Hbound.
  rewrite <- !app_assoc.
  rewrite (@parseOptionalInt_bound true start consumed) by reflexivity.
  cbn [obind app]. rewrite peek_bufferAt. cbn [Z.eqb Pos.eqb negb].
  rewrite advance_bufferAt.
  destruct step as [n|]; cbn [app].
  - change (match Some n with
            | Some n0 => String_of_int n0
            | None => []
            end) with (boundText (Some n)).
    rewrite parseBlankSpace_bufferAt.
    + rewrite (@parseOptionalInt_bound true end_) by reflexivity.
      cbn [obind]. rewrite peek_bufferAt. cbn [Z.eqb Pos.eqb].
      rewrite advance_bufferAt.
      rewrite parseBlankSpace_bufferAt.
      * rewrite (@parseOptionalInt_bound false (Some n)) by exact Hbound.
        cbn [obind boundText]. rewrite <- !app_assoc. reflexivity.
      * cbn [boundText]. destruct (String_of_int_first n) as (c & tail & -> & Hc).
        cbn [app]. unfold isSpaceChar, isDigit in *. lia.
    + destruct end_ as [e|]; cbn [boundText app]; [|reflexivity].
      destruct (String_of_int_first e) as (c & tail & -> & Hc).
      cbn [app]. unfold isSpaceChar, isDigit in *. lia.
  - rewrite parseBlankSpace_bufferAt.
    + rewrite (@parseOptionalInt_bound true end_) by exact Hbound.
      cbn [obind]. rewrite peek_not_colon by exact Hrest.
      cbn [obind]. rewrite <- !app_assoc, !app_nil_r. reflexivity.
    + destruct end_ as [e|]; cbn [boundText app].
      * destruct (String_of_int_first e) as (c & tail & -> & Hc).
        cbn [app]. unfold isSpaceChar, isDigit in *. lia.
      * apply boundNext_notSpace. exact Hbound.
Qed.

Lemma parseSelector_buf_plain host fuel context selector consumed rest :
  isPlainSelector selector = true ->
  selectorNext rest = true ->
  parseSelector_buf (S fuel) context
    (bufferAt consumed (formatSelector host selector ++ rest))
  = Done (selector, bufferAt (consumed ++ formatSelector host selector) rest).
Proof.
  intros Hplain Hrest.
  destruct selector as [name| |index|start end_ step|expression];
    cbn [isPlainSelector] in Hplain.
  - apply parseSelector_buf_name. exact Hplain.
  - cbn [parseSelector_buf formatSelector]. change (js "*") with [0x2a].
    cbn [app]. rewrite peek_bufferAt. cbn [Z.eqb Pos.eqb orb].
    unfold parseWildcardSelector.
    rewrite peek_bufferAt, advance_bufferAt. reflexivity.
  - cbn [parseSelector_buf formatSelector]. unfold formatIndexSelector.
    destruct (String_of_int_first index) as (c & tail & Htext & Hc).
    assert (Hpeek : peek (bufferAt consumed (String_of_int index ++ rest)) = c)
      by (rewrite Htext; apply peek_bufferAt).
    rewrite Hpeek.
    assert (Hclass : ((c =? 34) || (c =? 39) = false) /\ (c =? 42) = false)
      by (unfold isDigit in Hc; lia).
    destruct Hclass as [-> ->].
    replace ((c =? 45) || isDigit c || (c =? 58)) with true
      by (destruct (c =? 45), (isDigit c); cbn in *; congruence).
    apply parseArraySelector_index. exact Hrest.
  - cbn [parseSelector_buf].
    assert (Hfirst : exists c tail,
               formatSelector host (SliceSelector start end_ step) ++ rest
               = c :: tail
               /\ (c =? 0x2d) || isDigit c || (c =? 0x3a) = true
               /\ (c =? 0x22) || (c =? 0x27) = false
               /\ (c =? 0x2a) = false).
    { cbn [formatSelector]. unfold formatSliceSelector.
      destruct start as [n|].
      - destruct (String_of_int_first n) as (c & tail & -> & Hc).
        exists c. eexists. split; [cbn [app]; reflexivity|].
        unfold isDigit in *. lia.
      - exists 0x3a. eexists. repeat split. }
    destruct Hfirst as (c & tail & Htext & Hc & Hquote & Hstar).
    assert (Hpeek : peek (bufferAt consumed
                            (formatSelector host (SliceSelector start end_ step)
                             ++ rest)) = c)
      by (rewrite Htext; apply peek_bufferAt).
    rewrite Hpeek, Hquote, Hstar, Hc.
    apply parseArraySelector_slice. exact Hrest.
  - discriminate Hplain.
Qed.

(** The text of the selectors after the first one of a bracketed
    selection. *)
Definition moreSelectors (host : Host) (selectors : list Selector) : JSString :=
  List.concat (map (fun selector => js ", " ++ formatSelector host selector)
                 selectors).

Lemma joinWith_cons (sep x : JSString) (xs : list JSString) :
  joinWith sep (x :: xs) = x ++ List.concat (map (fun y => sep ++ y) xs).
Proof.
  revert x. induction xs as [|y ys IH]; intros x.
  - cbn. rewrite app_nil_r. reflexivity.
  - change (joinWith sep (x :: y :: ys))
      with (x ++ sep ++ joinWith sep (y :: ys)).
    rewrite IH. cbn [map List.concat]. rewrite <- !app_assoc. reflexivity.
Qed.

Lemma joinWith_selectors host selector selectors :
  joinWith (js ", ") (map (formatSelector host) (selector :: selectors))
  = formatSelector host selector ++ moreSelectors host selectors.
Proof.
  cbn [map]. rewrite joinWith_cons. unfold moreSelectors.
  rewrite map_map. reflexivity.
Qed.

Lemma formatSelector_first host selector :
  isPlainSelector selector = true ->
  exists c tail,
    formatSelector host selector = c :: tail
    /\ negb (isSpaceChar c) && negb (c =? 0x5d) = true.
Proof.
  destruct selector as [name| |index|start end_ step|expression]; intros H;
    cbn [formatSelector].
  - eexists. eexists. split; reflexivity.
  - eexists. eexists. split; reflexivity.
  - unfold formatIndexSelector.
    destruct (String_of_int_first index) as (c & tail & -> & Hc).
    exists c, tail. split; [reflexivity|].
    unfold isSpaceChar, isDigit in *. lia.
  - unfold formatSliceSelector. destruct start as [n|].
    + destruct (String_of_int_first n) as (c & tail & -> & Hc).
      exists c. eexists. split; [cbn [app]; reflexivity|].
      unfold isSpaceChar, isDigit in *. lia.
    + eexists. eexists. split; reflexivity.
  - discriminate H.
Qed.

Lemma selectorNext_more host selectors rest :
  selectorNext (moreSelectors host selectors ++ 0x5d :: rest) = true.
Proof. destruct selectors; reflexivity. Qed.

Lemma parseSegment_loop_more host context selectors :
  forallb isPlainSelector selectors = true ->
  forall fuel parsed count consumed rest,
    (List.length selectors + 2 <= fuel)%nat ->
    count <> O ->
    parseSegment_loop fuel context parsed count
      (bufferAt consumed (moreSelectors host selectors ++ 0x5d :: rest))
    = Done (parsed ++ selectors,
            bufferAt (consumed ++ moreSelectors host selectors ++ [0x5d]) rest).
Proof.
  induction selectors as [|selector selectors IH];
    intros Hplain fuel parsed count consumed rest Hfuel Hcount;
    (destruct fuel as [|fuel]; [cbn in Hfuel; lia|]);
    cbn [parseSegment_loop].
  - cbn [moreSelectors map List.concat app]. rewrite atChar_bufferAt.
    cbn [Z.eqb Pos.eqb]. rewrite advance_bufferAt, app_nil_r. reflexivity.
  - cbn [forallb] in Hplain. apply andb_prop in Hplain.
    destruct Hplain as [Hselector Hplain].
    unfold moreSelectors. cbn [map List.concat].
    fold (moreSelectors host selectors).
    change (js ", ") with [0x2c; 0x20]. rewrite <- !app_assoc. cbn [app].
    rewrite !atChar_bufferAt. cbn [Z.eqb Pos.eqb negb].
    replace (count =? 0)%nat with false by lia. cbn [negb].
    rewrite advance_bufferAt.
    destruct (formatSelector_first host selector Hselector)
      as (c & tail & Htext & Hc).
    apply andb_prop in Hc. destruct Hc as [Hspace Hclose].
    assert (Hblank : parseBlankSpace
                       (bufferAt (consumed ++ [0x2c])
                          (0x20 :: formatSelector host selector
                             ++ moreSelectors host selectors ++ 0x5d :: rest))
                     = bufferAt ((consumed ++ [0x2c]) ++ [0x20])
                         (formatSelector host selector
                          ++ moreSelectors host selectors ++ 0x5d :: rest)).
    { unfold parseBlankSpace.
      apply (@skipWhile_bufferAt isSpaceChar (consumed ++ [0x2c]) [0x20]);
        [reflexivity|].
      rewrite Htext. cbn [app]. exact Hspace. }
    rewrite Hblank. cbn [obind].
    assert (Hfuel' : exists f, fuel = S f)
      by (exists (fuel - 1)%nat; cbn in Hfuel; lia).
    destruct Hfuel' as [f Hf]. rewrite Hf at 1.
    rewrite (@parseSelector_buf_plain host f context selector _ _ Hselector
               (selectorNext_more host selectors rest)).
    cbn [obind].
    rewrite parseBlankSpace_bufferAt
      by (destruct selectors; reflexivity).
    rewrite IH by (assumption || (cbn in Hfuel; lia)).
    rewrite <- !app_assoc. reflexivity.
Qed.

Lemma parseSegment_loop_plain host context selectors fuel consumed rest :
  forallb isPlainSelector selectors = true ->
  (List.length selectors + 2 <= fuel)%nat ->
  parseSegment_loop fuel context [] O
    (bufferAt consumed
       (joinWith (js ", ") (map (formatSelector host) selectors)
        ++ 0x5d :: rest))
  = Done (selectors,
          bufferAt
            (consumed
             ++ joinWith (js ", ") (map (formatSelector host) selectors)
             ++ [0x5d])
            rest).
Proof.
  intros Hplain Hfuel. destruct selectors as [|selector selectors].
  - destruct fuel as [|fuel]; [cbn in Hfuel; lia|].
    cbn [map joinWith app parseSegment_loop]. rewrite atChar_bufferAt.
    cbn [Z.eqb Pos.eqb]. rewrite advance_bufferAt. reflexivity.
  - rewrite joinWith_selectors.
    cbn [forallb] in Hplain. apply andb_prop in Hplain.
    destruct Hplain as [Hselector Hplain].
    destruct fuel as [|fuel]; [cbn in Hfuel; lia|].
    cbn [parseSegment_loop].
    destruct (formatSelector_first host selector Hselector)
      as (c & tail & Htext & Hc).
    apply andb_prop in Hc. destruct Hc as [Hspace Hclose].
    assert (Hat : atChar 0x5d
                    (bufferAt consumed
                       ((formatSelector host selector
                         ++ moreSelectors host selectors) ++ 0x5d :: rest))
                  = false).
    { rewrite Htext. cbn [app]. rewrite atChar_bufferAt.
      apply negb_true_iff. exact Hclose. }
    rewrite Hat. cbn [Nat.eqb negb obind].
    assert (Hfuel' : exists f, fuel = S f)
      by (exists (fuel - 1)%nat; cbn in Hfuel; lia).
    destruct Hfuel' as [f Hf]. rewrite Hf at 1.
    rewrite <- app_assoc.
    rewrite (@parseSelector_buf_plain host f context selector _ _ Hselector
               (selectorNext_more host selectors rest)).
    cbn [obind].
    rewrite parseBlankSpace_bufferAt
      by (destruct selectors; reflexivity).
    rewrite parseSegment_loop_more
      by (assumption || (cbn in Hfuel; lia) || discriminate).
    rewrite <- !app_assoc. reflexivity.
Qed.

Lemma joinWith_first host selectors rest :
  forallb isPlainSelector selectors = true ->
  match
    joinWith (js ", ") (map (formatSelector host) selectors) ++ 0x5d :: rest
  with
  | [] => true
  | c :: _ => negb (isSpaceChar c)
  end = true.
Proof.
  destruct selectors as [|selector selectors]; [reflexivity|].
  cbn [forallb]. intros H. apply andb_prop in H. destruct H as [H _].
  rewrite joinWith_selectors.
  destruct (formatSelector_first host selector H) as (c & tail & -> & Hc).
  cbn [app]. apply andb_prop in Hc. tauto.
Qed.

Lemma parseSegment_buf_child host fuel context selectors consumed rest :
  forallb isPlainSelector selectors = true ->
  (List.length selectors + 2 <= fuel)%nat ->
  parseSegment_buf (S fuel) context
    (bufferAt consumed
       (js "[" ++ joinWith (js ", ") (map (formatSelector host) selectors)
        ++ js "]" ++ rest))
  = Done (Some (ChildSegment selectors),
          bufferAt
            (consumed ++ js "["
             ++ joinWith (js ", ") (map (formatSelector host) selectors)
             ++ js "]")
            rest).
Proof.
  intros Hplain Hfuel. change (js "[") with [0x5b]. change (js "]") with [0x5d].
  cbn [app parseSegment_buf]. rewrite peek_bufferAt.
  cbn [Z.eqb Pos.eqb negb]. rewrite advance_bufferAt.
  rewrite parseBlankSpace_bufferAt by (apply joinWith_first; exact Hplain).
  rewrite parseSegment_loop_plain by assumption.
  cbn [obind Nat.eqb negb]. rewrite <- !app_assoc. reflexivity.
Qed.

Lemma parseSegment_buf_descendant host fuel context selectors consumed rest :
  forallb isPlainSelector selectors = true ->
  (List.length selectors + 2 <= fuel)%nat ->
  parseSegment_buf (S fuel) context
    (bufferAt consumed
       (js "..[" ++ joinWith (js ", ") (map (formatSelector host) selectors)
        ++ js "]" ++ rest))
  = Done (Some (DescendantSegment selectors),
          bufferAt
            (consumed ++ js "..["
             ++ joinWith (js ", ") (map (formatSelector host) selectors)
             ++ js "]")
            rest).
Proof.
  intros Hplain Hfuel. change (js "..[") with [0x2e; 0x2e; 0x5b].
  change (js "]") with [0x5d].
  cbn [app parseSegment_buf]. rewrite peek_bufferAt.
  cbn [Z.eqb Pos.eqb]. rewrite advance_bufferAt, peek_bufferAt.
  cbn [Z.eqb Pos.eqb]. rewrite advance_bufferAt, peek_bufferAt.
  cbn [Z.eqb Pos.eqb negb Nat.eqb]. 
  replace (isNameFirstChar 91) with false by reflexivity.
  rewrite advance_bufferAt.
  rewrite parseBlankSpace_bufferAt by (apply joinWith_first; exact Hplain).
  rewrite parseSegment_loop_plain by assumption.
  cbn [obind Nat.eqb negb]. rewrite <- !app_assoc. reflexivity.
Qed.

Lemma parseSegment_buf_descendant_shorthand fuel context consumed name rest :
  isValidShorthandName name = true ->
  nameEnd rest = true ->
  parseSegment_buf (S fuel) context
    (bufferAt consumed (js ".." ++ name ++ rest))
  = Done (Some (DescendantSegment [NameSelector name]),
          bufferAt (consumed ++ js ".." ++ name) rest).
Proof.
  intros Hname Hrest. change (js "..") with [0x2e; 0x2e].
  cbn [app parseSegment_buf].
  rewrite peek_bufferAt. cbn [Z.eqb Pos.eqb]. rewrite advance_bufferAt.
  rewrite peek_bufferAt. cbn [Z.eqb Pos.eqb]. rewrite advance_bufferAt.
  destruct name as [|c tail]; [discriminate Hname|].
  assert (Hc : isNameFirstChar c = true).
  { cbn [isValidShorthandName] in Hname. apply andb_prop in Hname. tauto. }
  cbn [app]. rewrite peek_bufferAt.
  replace (c =? 42) with false
    by (unfold isNameFirstChar, isAlpha, isUppercase, isLowercase in Hc; lia).
  rewrite Hc. change (c :: tail ++ rest) with ((c :: tail) ++ rest).
  rewrite parseShorthandName_bufferAt.
  - cbn [obind Nat.eqb]. rewrite <- !app_assoc. reflexivity.
  - exact Hname.
  - exact Hrest.
Qed.

Lemma parseSegment_buf_wildcard fuel context consumed rest :
  parseSegment_buf (S fuel) context (bufferAt consumed (js ".*" ++ rest))
  = Done (Some (ChildSegment [WildcardSelector]),
          bufferAt (consumed ++ js ".*") rest)
  /\ parseSegment_buf (S fuel) context (bufferAt consumed (js "..*" ++ rest))
     = Done (Some (DescendantSegment [WildcardSelector]),
             bufferAt (consumed ++ js "..*") rest).
Proof.
  change (js ".*") with [0x2e; 0x2a]. change (js "..*") with [0x2e; 0x2e; 0x2a].
  cbn [app parseSegment_buf]. split.
  - rewrite peek_bufferAt. cbn [Z.eqb Pos.eqb]. rewrite advance_bufferAt.
    rewrite peek_bufferAt. cbn [Z.eqb Pos.eqb Nat.eqb].
    rewrite advance_bufferAt, <- !app_assoc. reflexivity.
  - rewrite peek_bufferAt. cbn [Z.eqb Pos.eqb]. rewrite advance_bufferAt.
    rewrite peek_bufferAt. cbn [Z.eqb Pos.eqb]. rewrite advance_bufferAt.
    rewrite peek_bufferAt. cbn [Z.eqb Pos.eqb Nat.eqb].
    rewrite advance_bufferAt, <- !app_assoc. reflexivity.
Qed.

Lemma parseSegment_buf_plain host fuel context segment consumed rest :
  isPlainSegment segment = true ->
  nameEnd rest = true ->
  (List.length (formatSegment host segment) + 2 <= fuel)%nat ->
  parseSegment_buf (S fuel) context
    (bufferAt consumed (formatSegment host segment ++ rest))
  = Done (Some segment, bufferAt (consumed ++ formatSegment host segment) rest).
Proof.
  intros Hplain Hrest Hfuel.
  assert (Hcount : forall selectors,
             forallb isPlainSelector selectors = true ->
             (List.length selectors
              <= List.length
                   (joinWith (js ", ") (map (formatSelector host) selectors)))%nat).
  { clear. intros selectors Hplain.
    destruct selectors as [|selector selectors]; [cbn; lia|].
    rewrite joinWith_selectors. cbn [forallb] in Hplain.
    apply andb_prop in Hplain. destruct Hplain as [Hselector Hplain].
    destruct (formatSelector_first host selector Hselector)
      as (c & tail & -> & _).
    rewrite length_app. cbn [List.length].
    enough (List.length selectors
            <= List.length (moreSelectors host selectors))%nat by lia.
    clear. induction selectors as [|s selectors IH]; [cbn; lia|].
    unfold moreSelectors in *. cbn [map List.concat List.length].
    rewrite !length_app. change (List.length (js ", ")) with 2%nat. lia. }
  assert (Hchild : forall selectors,
             forallb isPlainSelector selectors = true ->
             (List.length
                (js "["
                 ++ joinWith (js ", ") (map (formatSelector host) selectors)
                 ++ js "]") + 2 <= fuel)%nat ->
             parseSegment_buf (S fuel) context
               (bufferAt consumed
                  ((js "["
                    ++ joinWith (js ", ") (map (formatSelector host) selectors)
                    ++ js "]") ++ rest))
             = Done (Some (ChildSegment selectors),
                     bufferAt
                       (consumed
                        ++ js "["
                        ++ joinWith (js ", ")
                             (map (formatSelector host) selectors)
                        ++ js "]")
                       rest)).
  { intros selectors Hsel Hlen. specialize (Hcount selectors Hsel).
    rewrite <- !app_assoc. apply parseSegment_buf_child; [exact Hsel|].
    rewrite !length_app in Hlen. lia. }
  assert (Hdescendant : forall selectors,
             forallb isPlainSelector selectors = true ->
             (List.length
                (js "..["
                 ++ joinWith (js ", ") (map (formatSelector host) selectors)
                 ++ js "]") + 2 <= fuel)%nat ->
             parseSegment_buf (S fuel) context
               (bufferAt consumed
                  ((js "..["
                    ++ joinWith (js ", ") (map (formatSelector host) selectors)
                    ++ js "]") ++ rest))
             = Done (Some (DescendantSegment selectors),
                     bufferAt
                       (consumed
                        ++ js "..["
                        ++ joinWith (js ", ")
                             (map (formatSelector host) selectors)
                        ++ js "]")
                       rest)).
  { intros selectors Hsel Hlen. specialize (Hcount selectors Hsel).
    rewrite <- !app_assoc. apply parseSegment_buf_descendant; [exact Hsel|].
    rewrite !length_app in Hlen. lia. }
  clear Hcount.
  destruct segment as [selectors|selectors]; cbn [isPlainSegment] in Hplain;
    cbn [formatSegment] in Hfuel |- *.
  - destruct selectors as [|[name| |index|start end_ step|expression] [|]];
      cbv iota beta zeta in Hfuel |- *;
      try (apply Hchild; assumption).
    + destruct (isValidShorthandName name) eqn:Hshort;
        [|apply Hchild; assumption].
      change (js ".") with [0x2e]. cbn [app].
      apply parseSegment_buf_shorthand; assumption.
    + apply parseSegment_buf_wildcard.
  - destruct selectors as [|[name| |index|start end_ step|expression] [|]];
      cbv iota beta zeta in Hfuel |- *;
      try (apply Hdescendant; assumption).
    + destruct (isValidShorthandName name) eqn:Hshort;
        [|apply Hdescendant; assumption].
      apply parseSegment_buf_descendant_shorthand; assumption.
    + apply parseSegment_buf_wildcard.
Qed.

Lemma formatSegment_first host segment :
  exists c tail,
    formatSegment host segment = c :: tail /\ ((c =? 0x2e) || (c =? 0x5b) = true).
Proof.
  destruct segment as [selectors|selectors]; cbn [formatSegment];
    destruct selectors as [|[name| |index|start end_ step|expression] [|]];
    cbv iota beta zeta;
    try destruct (isValidShorthandName name);
    eexists; eexists; (split; [reflexivity|]); reflexivity.
Qed.

Lemma segmentNext_segments host segments :
  segmentNext (List.concat (map (formatSegment host) segments)) = true.
Proof.
  destruct segments as [|segment segments]; [reflexivity|].
  cbn [map List.concat].
  destruct (formatSegment_first host segment) as (c & tail & -> & Hc).
  exact Hc.
Qed.

Lemma parseSegments_plain host context segments :
  forallb isPlainSegment segments = true ->
  forall fuel parsed consumed,
    (List.length (List.concat (map (formatSegment host) segments)) + 4
     <= fuel)%nat ->
    parseSegments fuel context parsed
      (bufferAt consumed (List.concat (map (formatSegment host) segments)))
    = Done (parsed ++ segments,
            bufferAt
              (consumed ++ List.concat (map (formatSegment host) segments)) []).
Proof.
  induction segments as [|segment segments IH];
    intros Hplain fuel parsed consumed Hfuel.
  - destruct fuel as [|[|fuel]]; try (cbn in Hfuel; lia).
    cbn [map List.concat]. cbn [parseSegments].
    rewrite parseBlankSpace_bufferAt by reflexivity.
    cbn [parseSegment_buf]. rewrite peek_bufferAt_end.
    cbn [Z.eqb negb Nat.eqb obind]. rewrite !app_nil_r. reflexivity.
  - cbn [forallb] in Hplain. apply andb_prop in Hplain.
    destruct Hplain as [Hsegment Hplain].
    cbn [map List.concat] in Hfuel |- *. rewrite length_app in Hfuel.
    destruct (formatSegment_first host segment) as (c & tail & Htext & Hc).
    assert (Hlen : (1 <= List.length (formatSegment host segment))%nat)
      by (rewrite Htext; cbn [List.length]; lia).
    destruct fuel as [|fuel]; [lia|].
    cbn [parseSegments].
    pose proof (segmentNext_nameEnd _ (segmentNext_segments host segments))
      as Hnext.
    assert (Hfuel' : exists f, fuel = S f) by (exists (fuel - 1)%nat; lia).
    destruct Hfuel' as [f Hf].
    rewrite parseBlankSpace_bufferAt.
    + rewrite Hf at 1.
      rewrite (@parseSegment_buf_plain host f context segment consumed _
                 Hsegment Hnext) by lia.
      cbn [obind].
      rewrite IH by (assumption || lia).
      rewrite <- !app_assoc. reflexivity.
    + rewrite Htext. cbn [app]. unfold isSpaceChar. lia.
Qed.

(** X23.  Parsing the text of a query without filters gives the query back.
    For every query whose selectors are names that need no [\uXXXX]
    escape, wildcards, and indexes and slices over safe integers, in
    child and descendant segments, [parseQuery(formatQuery(query))] is
    the query; and so for a segment with [parseSegment] and a selector
    with [parseSelector]. *)
Theorem parseQuery_formatQuery_plain (host : Host) (context : QueryContext) :
  (forall query,
      forallb isPlainSegment (segments query) = true ->
      parseQuery (formatQuery host query) context = Ok query)
  /\ (forall segment,
         isPlainSegment segment = true ->
         parseSegment (formatSegment host segment) context = Ok (Some segment))
  /\ (forall selector,
         isPlainSelector selector = true ->
         parseSelector (formatSelector host selector) context = Ok selector).
Proof.
  split; [|split].
  - intros [segs] Hplain. cbn [segments] in Hplain.
    unfold parseQuery, parseQuery_fuel, formatQuery. cbn [segments].
    change (js "$") with [0x24]. cbn [app].
    rewrite bufferOf_bufferAt, peek_bufferAt, advance_bufferAt.
    cbn [Z.eqb Pos.eqb negb app].
    rewrite (@parseSegments_plain host context segs Hplain).
    + cbn [obind app]. rewrite offset_bufferAt, Nat.eqb_refl. reflexivity.
    + unfold parseFuel. cbn [List.length]. lia.
  - intros segment Hplain. unfold parseSegment, parseSegment_fuel.
    rewrite bufferOf_bufferAt.
    assert (Hfuel : exists f,
               parseFuel (formatSegment host segment) = S f
               /\ (List.length (formatSegment host segment) + 2 <= f)%nat)
      by (unfold parseFuel;
          exists (10 * S (List.length (formatSegment host segment)) - 1)%nat;
          split; lia).
    destruct Hfuel as (f & -> & Hf).
    pose proof (@parseSegment_buf_plain host f context segment [] []
                  Hplain eq_refl Hf) as H.
    rewrite app_nil_r in H. rewrite H. cbn [obind app].
    rewrite offset_bufferAt, Nat.eqb_refl. reflexivity.
  - intros selector Hplain. unfold parseSelector, parseSelector_fuel.
    rewrite bufferOf_bufferAt.
    destruct (parseFuel_ge (formatSelector host selector)) as [f ->].
    pose proof (@parseSelector_buf_plain host (S (S (S f))) context selector
                  [] [] Hplain eq_refl) as H.
    rewrite app_nil_r in H. rewrite H. cbn [obind app].
    rewrite offset_bufferAt, Nat.eqb_refl. reflexivity.
Qed.

Lemma parseQuery_formatQuery_plain_witness :
  parseQuery
    (formatQuery SmallHost.host
       (createQuery
          [ChildSegment [NameSelector (js "store")];
           DescendantSegment [NameSelector (js "it's"); WildcardSelector];
           ChildSegment [IndexSelector (-1); SliceSelector (Some 1) None (Some 2)]]))
    SmallHost.context
  = Ok (createQuery
          [ChildSegment [NameSelector (js "store")];
           DescendantSegment [NameSelector (js "it's"); WildcardSelector];
           ChildSegment [IndexSelector (-1); SliceSelector (Some 1) None (Some 2)]]).
Proof.
  apply (proj1 (parseQuery_formatQuery_plain SmallHost.host SmallHost.context)).
  reflexivity.
Defined.

Example formatQuery_plain :
  formatQuery SmallHost.host
    (createQuery
       [ChildSegment [NameSelector (js "store")];
        DescendantSegment [NameSelector (js "it's"); WildcardSelector];
        ChildSegment [IndexSelector (-1); SliceSelector (Some 1) None (Some 2)]])
  = js "$.store..['it\'s', *][-1, 1::2]".
Proof. reflexivity. Qed.

(** ** Queries with and without the root identifier *)

(** X24.  On an input that starts with ["$"], [parseImplicitQuery] does what
    [parseQuery] does; on the empty input, which [parseQuery] rejects, it
    returns the query without segments. *)
Theorem parseImplicitQuery_rooted (input : JSString) (context : QueryContext) :
  (charCodeAt input 0 = 0x24 ->
   parseImplicitQuery input context = parseQuery input context)
  /\ parseImplicitQuery [] context = Ok (createQuery []).
Proof.
  split; [|reflexivity].
  intros H. unfold parseImplicitQuery, parseQuery, parseImplicitQuery_fuel,
    parseQuery_fuel.
  destruct input as [|c rest]; [discriminate H|].
  unfold charCodeAt in H. cbn [nth] in H. subst c.
  rewrite bufferOf_bufferAt, peek_bufferAt. reflexivity.
Qed.

Lemma parseImplicitQuery_rooted_witness :
  parseImplicitQuery (js "$.a") SmallHost.context
  = parseQuery (js "$.a") SmallHost.context.
Proof.
  apply (proj1 (parseImplicitQuery_rooted (js "$.a") SmallHost.context)).
  reflexivity.
Defined.

(** ** Unicode escapes *)

(** The value of a hexadecimal digit, as [parseHexChar] reads it. *)
Definition hexDigitValue (c : Z) : option Z :=
  if (0x30 <=? c) && (c <=? 0x39) then Some (c - 0x30)
  else if (0x41 <=? c) && (c <=? 0x46) then Some (c - 0x37)
  else if (0x61 <=? c) && (c <=? 0x66) then Some (c - 0x57)
  else None.

Lemma parseHexChar_bufferAt consumed c rest v :
  hexDigitValue c = Some v ->
  parseHexChar (bufferAt consumed (c :: rest))
  = Done (v, bufferAt (consumed ++ [c]) rest).
Proof.
  unfold hexDigitValue, parseHexChar. rewrite peek_bufferAt, advance_bufferAt.
  repeat match goal with
         | |- context [if ?b then _ else _] => destruct b
         end; intros H; try discriminate H; injection H as <-; reflexivity.
Qed.

Lemma advance_bufferAt_many skipped consumed rest :
  advance (List.length skipped) (bufferAt consumed (skipped ++ rest))
  = bufferAt (consumed ++ skipped) rest.
Proof.
  unfold advance, bufferAt. cbn [offset limit input].
  rewrite <- !app_assoc, (length_app consumed skipped). reflexivity.
Qed.

Lemma parseStringLiteral_loop_unicode_escape
    (k : nat) (quote h0 h1 h2 h3 v0 v1 v2 v3 : Z)
    (skipped consumed rest result : JSString) :
  quote = 0x22 \/ quote = 0x27 ->
  hexDigitValue h0 = Some v0 -> hexDigitValue h1 = Some v1 ->
  hexDigitValue h2 = Some v2 -> hexDigitValue h3 = Some v3 ->
  let code :=
    Z.lor (Z.lor (Z.lor (Z.shiftl v0 12) (Z.shiftl v1 8)) (Z.shiftl v2 4)) v3 in
  code < 0xd800 \/ 0xdfff < code ->
  List.length skipped = 4%nat ->
  parseStringLiteral_loop (S k) quote result
    (bufferAt consumed (js "\u" ++ [h0; h1; h2; h3] ++ skipped ++ rest))
  = parseStringLiteral_loop k quote (result ++ [code])
      (bufferAt (consumed ++ js "\u" ++ [h0; h1; h2; h3] ++ skipped) rest).
Proof.
  intros Hquote H0 H1 H2 H3 code Hcode Hskipped.
  change (js "\u") with [0x5c; 0x75]. cbn [app].
  cbn [parseStringLiteral_loop].
  destruct (bufferAt_inside consumed 0x5c
              (0x75 :: h0 :: h1 :: h2 :: h3 :: skipped ++ rest))
    as (_ & -> & ->).
  replace (92 =? quote) with false by lia.
  cbn [isUnescapedStringChar Z.leb Z.compare Pos.compare Pos.compare_cont
       andb orb Z.eqb Pos.eqb].
  replace ((quote =? 34) && false || (quote =? 39) && false) with false
    by (destruct (quote =? 34), (quote =? 39); reflexivity).
  rewrite advance_bufferAt, peek_bufferAt.
  cbn [Z.eqb Pos.eqb andb orb simpleEscape].
  replace ((quote =? 34) && false || (quote =? 39) && false) with false
    by (destruct (quote =? 34), (quote =? 39); reflexivity).
  rewrite advance_bufferAt. unfold parseHexCodePoint.
  rewrite (parseHexChar_bufferAt _ _ _ H0). cbn [obind].
  rewrite (parseHexChar_bufferAt _ _ _ H1). cbn [obind].
  rewrite (parseHexChar_bufferAt _ _ _ H2). cbn [obind].
  rewrite (parseHexChar_bufferAt _ _ _ H3). cbn [obind].
  fold code.
  replace ((code <? 55296) || (57343 <? code)) with true by lia.
  rewrite <- Hskipped, advance_bufferAt_many.
  rewrite <- !app_assoc. reflexivity.
Qed.

Lemma parseStringLiteral_loop_close k quote consumed rest result :
  parseStringLiteral_loop (S k) quote result (bufferAt consumed (quote :: rest))
  = Done (result, bufferAt (consumed ++ [quote]) rest).
Proof.
  cbn [parseStringLiteral_loop].
  destruct (bufferAt_inside consumed quote rest) as (_ & -> & ->).
  rewrite Z.eqb_refl, advance_bufferAt. reflexivity.
Qed.

(** X25.  After a [\uXXXX] escape of a code unit that is not a surrogate,
    [parseStringLiteral] skips four more characters of the input.  A
    literal made of one such escape and four more characters is the
    string of the escaped code unit alone: the four characters
    contribute nothing. *)
Theorem parseStringLiteral_unicode_escape
    (quote h0 h1 h2 h3 v0 v1 v2 v3 : Z) (skipped consumed rest : JSString) :
  quote = 0x22 \/ quote = 0x27 ->
  hexDigitValue h0 = Some v0 -> hexDigitValue h1 = Some v1 ->
  hexDigitValue h2 = Some v2 -> hexDigitValue h3 = Some v3 ->
  let code :=
    Z.lor (Z.lor (Z.lor (Z.shiftl v0 12) (Z.shiftl v1 8)) (Z.shiftl v2 4)) v3 in
  code < 0xd800 \/ 0xdfff < code ->
  List.length skipped = 4%nat ->
  parseStringLiteral
    (bufferAt consumed
       (quote :: js "\u" ++ [h0; h1; h2; h3] ++ skipped ++ quote :: rest))
  = Done ([code],
          bufferAt
            (consumed
             ++ quote :: js "\u" ++ [h0; h1; h2; h3] ++ skipped ++ [quote])
            rest).
Proof.
  intros Hquote H0 H1 H2 H3 code Hcode Hskipped.
  unfold parseStringLiteral. rewrite peek_bufferAt, advance_bufferAt.
  replace ((quote =? 34) || (quote =? 39)) with true by lia.
  rewrite remaining_bufferAt.
  change (js "\u") with [0x5c; 0x75]. cbn [app List.length].
  rewrite (@parseStringLiteral_loop_unicode_escape _ quote h0 h1 h2 h3
             v0 v1 v2 v3 skipped (consumed ++ [quote]) (quote :: rest) []
             Hquote H0 H1 H2 H3 Hcode Hskipped).
  fold code. rewrite parseStringLiteral_loop_close.
  change (js "\u") with [0x5c; 0x75]. rewrite <- !app_assoc. reflexivity.
Qed.

Lemma parseStringLiteral_unicode_escape_witness :
  parseStringLiteral
    (bufferAt (js "$[")
       (0x27 :: js "\u" ++ js "0041" ++ js "WXYZ" ++ 0x27 :: js "]"))
  = Done (js "A",
          bufferAt
            (js "$[" ++ 0x27 :: js "\u" ++ js "0041" ++ js "WXYZ" ++ [0x27])
            (js "]")).
Proof.
  apply (@parseStringLiteral_unicode_escape 0x27 0x30 0x30 0x34 0x31
           0 0 4 1 (js "WXYZ") (js "$[") (js "]"));
    try reflexivity.
  - right. reflexivity.
  - left. reflexivity.
Defined.

(** The literal ['\u0041WXYZ'] is the string ["A"]. *)
Example unicode_escape_skips :
  parseSelector (js "'\u0041WXYZ'") SmallHost.context
  = Ok (NameSelector (js "A")).
Proof. vm_compute. reflexivity. Qed.

(* ================================================================== *)
(** * The parser and its fuel *)
(* ================================================================== *)

(** [within o o']: the outcome [o'] of a run with more fuel is the
    outcome [o], unless the run with less fuel ran out of it. *)
Definition within {A : Type} (o o' : Outcome A) : Prop :=
  o = OutOfFuel \/ o = o'.

Lemma within_refl {A : Type} (o : Outcome A) : within o o.
Proof. right. reflexivity. Qed.

Lemma within_trans {A : Type} (o1 o2 o3 : Outcome A) :
  within o1 o2 -> within o2 o3 -> within o1 o3.
Proof.
  intros [->| ->] H; [left; reflexivity | exact H].
Qed.

Lemma within_bind {A B : Type} (m m' : Outcome A) (k k' : A -> Outcome B) :
  within m m' -> (forall a, within (k a) (k' a)) ->
  within (obind m k) (obind m' k').
Proof.
  intros [->| ->] Hk; [left; reflexivity|].
  destruct m' as [a| |]; cbn [obind]; [apply Hk | apply within_refl..].
Qed.

Definition ParserMono (fuel fuel' : nat) : Prop :=
  (forall context segments buf,
      within (parseSegments fuel context segments buf)
        (parseSegments fuel' context segments buf))
  /\ (forall context buf,
         within (parseSegment_buf fuel context buf)
           (parseSegment_buf fuel' context buf))
  /\ (forall context selectors selectorCount buf,
         within (parseSegment_loop fuel context selectors selectorCount buf)
           (parseSegment_loop fuel' context selectors selectorCount buf))
  /\ (forall context buf,
         within (parseSelector_buf fuel context buf)
           (parseSelector_buf fuel' context buf))
  /\ (forall context buf,
         within (parseFilterSelector fuel context buf)
           (parseFilterSelector fuel' context buf))
  /\ (forall context buf,
         within (parseExpression_buf fuel context buf)
           (parseExpression_buf fuel' context buf))
  /\ (forall context buf,
         within (parseOrExpression fuel context buf)
           (parseOrExpression fuel' context buf))
  /\ (forall context expr buf,
         within (parseOrExpression_loop fuel context expr buf)
           (parseOrExpression_loop fuel' context expr buf))
  /\ (forall context buf,
         within (parseAndExpression fuel context buf)
           (parseAndExpression fuel' context buf))
  /\ (forall context expr buf,
         within (parseAndExpression_loop fuel context expr buf)
           (parseAndExpression_loop fuel' context expr buf))
  /\ (forall context buf,
         within (parseBasicExpression fuel context buf)
           (parseBasicExpression fuel' context buf))
  /\ (forall context buf,
         within (parseParenExpression fuel context buf)
           (parseParenExpression fuel' context buf))
  /\ (forall context buf,
         within (parseComparable fuel context buf)
           (parseComparable fuel' context buf))
  /\ (forall context func buf,
         within (parseFunctionArguments fuel context func buf)
           (parseFunctionArguments fuel' context func buf))
  /\ (forall context func args buf,
         within (parseFunctionArguments_loop fuel context func args buf)
           (parseFunctionArguments_loop fuel' context func args buf)).

(** One step through two runs of the same code. *)
Ltac within_step :=
  lazymatch goal with
  | |- within ?o ?o => apply within_refl
  | |- within (obind _ _) (obind _ _) =>
      apply within_bind; [|intros [? ?] || intros ?]
  | |- within (if ?c then _ else _) (if ?c then _ else _) => destruct c
  | |- within (match ?x with _ => _ end) (match ?x with _ => _ end) =>
      destruct x
  | |- within _ _ => solve [auto]
  end.

Lemma parser_mono_step fuel fuel' :
  ParserMono fuel fuel' -> ParserMono (S fuel) (S fuel').
Proof.
  intros (Hsegments & Hsegment & Hsegloop & Hselector & Hfilter & Hexpr & Hor
          & Horloop & Hand & Handloop & Hbasic & Hparen & Hcomparable
          & Hfunargs & Hfunloop).
  unfold ParserMono. repeat apply conj; intros.
  - cbn [parseSegments]. cbv zeta. repeat within_step.
  - cbn [parseSegment_buf]. cbv zeta. repeat within_step.
  - cbn [parseSegment_loop]. cbv zeta. repeat within_step.
  - cbn [parseSelector_buf]. cbv zeta. repeat within_step.
  - cbn [parseFilterSelector]. cbv zeta. repeat within_step.
  - cbn [parseExpression_buf]. cbv zeta. repeat within_step.
  - cbn [parseOrExpression]. cbv zeta. repeat within_step.
  - cbn [parseOrExpression_loop]. cbv zeta. repeat within_step.
  - cbn [parseAndExpression]. cbv zeta. repeat within_step.
  - cbn [parseAndExpression_loop]. cbv zeta. repeat within_step.
  - cbn [parseBasicExpression]. cbv zeta. repeat within_step.
  - cbn [parseParenExpression]. cbv zeta. repeat within_step.
  - cbn [parseComparable]. cbv zeta. repeat within_step.
  - cbn [parseFunctionArguments]. cbv zeta. repeat within_step.
  - cbn [parseFunctionArguments_loop]. cbv zeta. repeat within_step.
Qed.

Lemma parser_mono (fuel extra : nat) : ParserMono fuel (fuel + extra).
Proof.
  induction fuel as [|fuel IH].
  - unfold ParserMono. repeat apply conj; intros; left; reflexivity.
  - apply parser_mono_step, IH.
Qed.

Lemma parseQuery_fuel_mono fuel fuel' input context :
  (fuel <= fuel')%nat ->
  within (parseQuery_fuel fuel input context)
    (parseQuery_fuel fuel' input context).
Proof.
  intros Hle. replace fuel' with (fuel + (fuel' - fuel))%nat by lia.
  destruct (parser_mono fuel (fuel' - fuel)) as (Hsegments & _).
  unfold parseQuery_fuel. cbv zeta. repeat within_step.
Qed.

(** The outcome of [parseQuery] is the outcome of any run that did not
    run out of fuel. *)
Lemma parseQuery_at_fuel fuel input context (o : Outcome Query) :
  parseQuery_fuel fuel input context = o ->
  o <> OutOfFuel ->
  parseQuery input context = completed o.
Proof.
  intros Ho Hfuel. unfold parseQuery.
  destruct (Nat.le_ge_cases fuel (parseFuel input)) as [Hle|Hle].
  - destruct (parseQuery_fuel_mono input context Hle) as [E|E].
    + rewrite Ho in E. contradiction.
    + rewrite <- E, Ho. reflexivity.
  - destruct (parseQuery_fuel_mono input context Hle) as [E|E].
    + exfalso. exact (parseQuery_total _ _ E).
    + rewrite E, Ho. reflexivity.
Qed.

Lemma parseQuery_raises fuel input context e :
  parseQuery_fuel fuel input context = Raise e ->
  parseQuery input context = Throw e.
Proof.
  intros H. rewrite (@parseQuery_at_fuel _ _ _ _ H); [reflexivity | discriminate].
Qed.

(* ================================================================== *)
(** * Inputs that the checks of the parser reject *)
(* ================================================================== *)

(** ** Plain queries inside an input *)

(** What may follow the segments of a query that is an operand: the end
    of the input, or a character that does not continue the query. *)
Definition segmentsEnd (rest : JSString) : bool :=
  match rest with
  | [] => true
  | c :: _ =>
      negb (c =? 0x2e) && negb (c =? 0x5b) && negb (isSpaceChar c)
      && negb (isNameChar c)
  end.

Definition segmentsText (host : Host) (segments : list Segment) : JSString :=
  List.concat (map (formatSegment host) segments).

Lemma segmentsEnd_nameEnd rest : segmentsEnd rest = true -> nameEnd rest = true.
Proof.
  destruct rest as [|c rest]; [reflexivity|]. cbn [segmentsEnd nameEnd].
  intros H. repeat (apply andb_prop in H; destruct H as [H ?]). assumption.
Qed.

Lemma segmentsText_cons host segment segments :
  segmentsText host (segment :: segments)
  = formatSegment host segment ++ segmentsText host segments.
Proof. reflexivity. Qed.

(** The parser reads the segments a plain query was written with, and
    goes on with what follows them. *)
Lemma parseSegments_plain_prefix host context segments :
  forallb isPlainSegment segments = true ->
  forall fuel parsed consumed rest,
    nameEnd rest = true ->
    (List.length (segmentsText host segments) + 3 <= fuel)%nat ->
    parseSegments (List.length segments + fuel) context parsed
      (bufferAt consumed (segmentsText host segments ++ rest))
    = parseSegments fuel context (parsed ++ segments)
        (bufferAt (consumed ++ segmentsText host segments) rest).
Proof.
  induction segments as [|segment segments IH];
    intros Hplain fuel parsed consumed rest Hrest Hfuel.
  - cbn [segmentsText map List.concat List.length Nat.add app].
    rewrite !app_nil_r. reflexivity.
  - cbn [forallb] in Hplain. apply andb_prop in Hplain.
    destruct Hplain as [Hsegment Hplain].
    rewrite segmentsText_cons in Hfuel |- *. rewrite length_app in Hfuel.
    destruct (formatSegment_first host segment) as (c & tail & Htext & Hc).
    cbn [List.length Nat.add parseSegments].
    rewrite parseBlankSpace_bufferAt
      by (rewrite Htext; cbn [app]; unfold isSpaceChar; lia).
    assert (Hf : exists f, (List.length segments + fuel)%nat = S f
                           /\ (List.length (formatSegment host segment) + 2
                               <= f)%nat)
      by (exists (List.length segments + fuel - 1)%nat; lia).
    destruct Hf as (f & Hf & Hbound).
    rewrite Hf at 1. rewrite <- app_assoc.
    rewrite (@parseSegment_buf_plain host f context segment consumed
               (segmentsText host segments ++ rest) Hsegment).
    + cbn [obind]. rewrite IH by (assumption || lia).
      rewrite <- !app_assoc. reflexivity.
    + destruct segments as [|next segments].
      * exact Hrest.
      * rewrite segmentsText_cons.
        destruct (formatSegment_first host next) as (c' & tail' & -> & Hc').
        cbn [app nameEnd].
        unfold isNameChar, isNameFirstChar, isAlpha, isUppercase,
          isLowercase, isDigit.
        lia.
    + exact Hbound.
Qed.

(** It stops, after the blank space, at what ends the query. *)
Lemma parseSegments_stop fuel context parsed consumed blanks rest :
  forallb isSpaceChar blanks = true ->
  segmentsEnd rest = true ->
  parseSegments (S (S fuel)) context parsed
    (bufferAt consumed (blanks ++ rest))
  = Done (parsed, bufferAt (consumed ++ blanks) rest).
Proof.
  intros Hblanks Hrest. cbn [parseSegments]. unfold parseBlankSpace.
  rewrite (skipWhile_bufferAt isSpaceChar consumed blanks rest Hblanks).
  - cbn [parseSegment_buf]. destruct rest as [|c rest].
    + rewrite peek_bufferAt_end. reflexivity.
    + rewrite peek_bufferAt. cbn [segmentsEnd] in Hrest.
      replace (c =? 46) with false by lia.
      replace (c =? 91) with false by lia. reflexivity.
  - destruct rest as [|c rest]; [reflexivity|]. cbn [segmentsEnd] in Hrest.
    lia.
Qed.

Lemma parseSegments_plain_rest host context segments fuel parsed consumed
    blanks rest :
  forallb isPlainSegment segments = true ->
  forallb isSpaceChar blanks = true ->
  segmentsEnd rest = true ->
  (2 * List.length (segmentsText host segments) + 5 <= fuel)%nat ->
  parseSegments fuel context parsed
    (bufferAt consumed (segmentsText host segments ++ blanks ++ rest))
  = Done (parsed ++ segments,
          bufferAt (consumed ++ segmentsText host segments ++ blanks) rest).
Proof.
  intros Hplain Hblanks Hrest Hfuel.
  assert (Hcount : (List.length segments
                    <= List.length (segmentsText host segments))%nat).
  { clear. induction segments as [|segment segments IH]; [cbn; lia|].
    rewrite segmentsText_cons, length_app.
    destruct (formatSegment_first host segment) as (c & tail & -> & _).
    cbn [List.length]. lia. }
  replace fuel
    with (List.length segments + (fuel - List.length segments))%nat by lia.
  rewrite parseSegments_plain_prefix; [|exact Hplain| |lia].
  - assert (Hf : exists f, (fuel - List.length segments)%nat = S (S f))
      by (exists (fuel - List.length segments - 2)%nat; lia).
    destruct Hf as [f ->].
    rewrite parseSegments_stop by assumption.
    rewrite <- !app_assoc. reflexivity.
  - destruct blanks as [|b blanks].
    + apply segmentsEnd_nameEnd, Hrest.
    + cbn [app nameEnd]. cbn [forallb] in Hblanks.
      apply andb_prop in Hblanks. destruct Hblanks as [Hb _].
      unfold isSpaceChar in Hb.
      unfold isNameChar, isNameFirstChar, isAlpha, isUppercase,
        isLowercase, isDigit.
      lia.
Qed.

(** ** Comparison operators *)





(** ** Operands written by the formatter *)

(** A query expression with selectors other than filters. *)
Definition isPlainQuery (e : Expression) : bool :=
  match e with
  | QueryExpression _ segments => forallb isPlainSegment segments
  | _ => false
  end.

(** An argument that fits every declared type: a singular query. *)
Definition isPlainArgument (e : Expression) : bool :=
  isPlainQuery e && isComparable e.

(** A name as [parseFunctionName] reads it. *)
Definition isIdentifier (n : JSString) : bool :=
  match n with
  | [] => false
  | c :: rest => isLowercase c && forallb isIdentifierChar rest
  end.

(** A name that [parseComparable] takes for the name of a function. *)
Definition isFunctionName (n : JSString) : bool :=
  isIdentifier n
  && negb (jsstring_eqb n (js "true"))
  && negb (jsstring_eqb n (js "false"))
  && negb (jsstring_eqb n (js "null")).

(** A call of a function that the context has under its name, with
    singular queries as arguments. *)
Definition isCall (context : QueryContext) (e : Expression) : Prop :=
  match e with
  | FunctionExpression func args =>
      isFunctionName (name func) = true
      /\ getFunctionExtension context (name func) = Some (ExtensionValue func)
      /\ forallb isPlainArgument args = true
  | _ => False
  end.

Lemma parseFunctionName_bufferAt consumed n rest :
  isIdentifier n = true ->
  match rest with [] => true | c :: _ => negb (isIdentifierChar c) end = true ->
  parseFunctionName (bufferAt consumed (n ++ rest))
  = Done (n, bufferAt (consumed ++ n) rest).
Proof.
  intros Hname Hrest. unfold isIdentifier in Hname.
  destruct n as [|c n]; [discriminate Hname|].
  apply andb_prop in Hname. destruct Hname as [Hc Hn].
  unfold parseFunctionName. cbn [app].
  destruct (bufferAt_inside consumed c (n ++ rest)) as (_ & -> & ->).
  rewrite Hc. cbn [negb orb]. rewrite advance_bufferAt, offset_bufferAt.
  rewrite (skipWhile_bufferAt isIdentifierChar (consumed ++ [c]) n rest Hn Hrest).
  rewrite <- app_assoc. cbn [app].
  rewrite (slice_bufferAt consumed (c :: n) rest). reflexivity.
Qed.

Lemma isFunctionName_identifier n :
  isFunctionName n = true -> isIdentifier n = true.
Proof.
  unfold isFunctionName. intros H.
  do 3 (apply andb_prop in H; destruct H as [H _]). exact H.
Qed.

Lemma isFunctionName_first n :
  isFunctionName n = true ->
  exists c tail, n = c :: tail /\ isLowercase c = true.
Proof.
  intros H. apply isFunctionName_identifier in H. unfold isIdentifier in H.
  destruct n as [|c tail]; [discriminate|].
  apply andb_prop in H. exists c, tail. tauto.
Qed.

Lemma checkArgumentType_argument parameterType arg buf :
  isPlainArgument arg = true ->
  checkArgumentType parameterType arg buf = Done tt.
Proof.
  unfold isPlainArgument.
  destruct arg as [| | | |identifier segs| |]; try discriminate.
  cbn [isPlainQuery isComparable checkArgumentType]. intros H.
  apply andb_prop in H. destruct H as [_ ->].
  destruct parameterType; reflexivity.
Qed.

Lemma formatIdentifier_first identifier :
  exists c, formatIdentifier identifier = [c] /\ (c = 0x40 \/ c = 0x24).
Proof.
  destruct identifier; eexists; (split; [reflexivity|]); [right | left];
    reflexivity.
Qed.

(** [parseComparable] on a plain query: the query, and the blank space
    after it. *)
Lemma parseComparable_query host context identifier segments fuel consumed
    blanks rest :
  forallb isPlainSegment segments = true ->
  forallb isSpaceChar blanks = true ->
  segmentsEnd rest = true ->
  (2 * List.length (segmentsText host segments) + 6 <= fuel)%nat ->
  parseComparable fuel context
    (bufferAt consumed
       (formatExpression host (QueryExpression identifier segments)
        ++ blanks ++ rest))
  = Done (QueryExpression identifier segments,
          bufferAt
            (consumed
             ++ formatExpression host (QueryExpression identifier segments)
             ++ blanks)
            rest).
Proof.
  intros Hplain Hblanks Hrest Hfuel.
  destruct fuel as [|fuel]; [lia|].
  cbn [formatExpression].
  fold (segmentsText host segments).
  destruct identifier; cbn [formatIdentifier js app parseComparable];
    rewrite peek_bufferAt, advance_bufferAt;
    rewrite (@parseSegments_plain_rest host context segments fuel [] _ blanks
               rest Hplain Hblanks Hrest) by lia;
    cbn [Z.eqb Pos.eqb obind app]; rewrite <- !app_assoc; reflexivity.
Qed.

(** What may follow an argument: a comma or the closing parenthesis. *)
Definition argumentEnd (rest : JSString) : bool :=
  match rest with
  | [] => false
  | c :: _ => (c =? 0x2c) || (c =? 0x29)
  end.

Lemma argumentEnd_segmentsEnd rest :
  argumentEnd rest = true -> segmentsEnd rest = true.
Proof.
  destruct rest as [|c rest]; [discriminate|]. cbn [argumentEnd segmentsEnd].
  unfold isSpaceChar, isNameChar, isNameFirstChar, isAlpha, isUppercase,
    isLowercase, isDigit.
  lia.
Qed.

Lemma isPlainArgument_query arg :
  isPlainArgument arg = true ->
  exists identifier segments,
    arg = QueryExpression identifier segments
    /\ forallb isPlainSegment segments = true
    /\ isSingularQuery segments = true.
Proof.
  unfold isPlainArgument.
  destruct arg as [| | | |identifier segs| |]; try discriminate.
  cbn [isPlainQuery isComparable]. intros H. apply andb_prop in H.
  exists identifier, segs. tauto.
Qed.

(** An argument, read in the scope of an argument. *)
Lemma parseExpression_buf_argument host context arg fuel consumed rest :
  isPlainArgument arg = true ->
  argumentEnd rest = true ->
  scopeIsArgument context = true ->
  (2 * List.length (formatExpression host arg) + 10 <= fuel)%nat ->
  parseExpression_buf fuel context
    (bufferAt consumed (formatExpression host arg ++ rest))
  = Done (arg, bufferAt (consumed ++ formatExpression host arg) rest).
Proof.
  intros Harg Hrest Hscope Hfuel.
  destruct (isPlainArgument_query arg Harg)
    as (identifier & segs & -> & Hplain & _).
  assert (Hlen : (List.length (segmentsText host segs)
                  <= List.length
                       (formatExpression host
                          (QueryExpression identifier segs)))%nat).
  { cbn [formatExpression]. rewrite length_app. unfold segmentsText. lia. }
  destruct fuel as [|[|[|[|fuel]]]]; try lia.
  cbn [parseExpression_buf parseOrExpression parseAndExpression
         parseBasicExpression].
  pose proof (@parseComparable_query host context identifier segs fuel
                consumed [] rest Hplain eq_refl
                (argumentEnd_segmentsEnd _ Hrest)) as Hq.
  cbn [app] in Hq. rewrite app_nil_r in Hq.
  destruct (formatIdentifier_first identifier) as (c & Hc & Hcs).
  assert (Htext : formatExpression host (QueryExpression identifier segs)
                  = c :: segmentsText host segs).
  { cbn [formatExpression]. rewrite Hc. reflexivity. }
  rewrite Htext in *. cbn [app].
  rewrite atChar_bufferAt.
  replace (c =? 33) with false by lia. rewrite peek_bufferAt.
  replace (c =? 40) with false by lia.
  cbn [app] in Hq. rewrite Hq by (cbn [List.length] in Hfuel; lia).
  cbn [obind Z.eqb Pos.eqb].
  destruct rest as [|r rest]; [discriminate Hrest|].
  cbn [argumentEnd] in Hrest.
  rewrite parseBlankSpace_bufferAt by (unfold isSpaceChar; lia).
  unfold parseComparisonOperator. rewrite peek_bufferAt.
  replace (r =? 61) with false by lia. replace (r =? 33) with false by lia.
  replace (r =? 60) with false by lia. replace (r =? 62) with false by lia.
  cbn [obind]. rewrite Hscope. cbn [negb obind].
  destruct fuel as [|fuel]; [cbn [List.length] in Hfuel; lia|].
  cbn [parseAndExpression_loop].
  rewrite parseBlankSpace_bufferAt by (unfold isSpaceChar; lia).
  rewrite atChar_bufferAt. replace (r =? 38) with false by lia.
  cbn [negb obind]. cbn [parseOrExpression_loop].
  rewrite parseBlankSpace_bufferAt by (unfold isSpaceChar; lia).
  rewrite atChar_bufferAt. replace (r =? 124) with false by lia.
  reflexivity.
Qed.

(** ** Calls written by the formatter *)

Definition argumentsText (host : Host) (args : list Expression) : JSString :=
  joinWith (js ", ") (map (formatExpression host) args).

Definition moreArguments (host : Host) (args : list Expression) : JSString :=
  List.concat (map (fun arg => js ", " ++ formatExpression host arg) args).

Lemma argumentsText_cons host arg args :
  argumentsText host (arg :: args)
  = formatExpression host arg ++ moreArguments host args.
Proof.
  unfold argumentsText, moreArguments. cbn [map]. rewrite joinWith_cons.
  rewrite map_map. reflexivity.
Qed.

Lemma moreArguments_app host args args' :
  moreArguments host (args ++ args')
  = moreArguments host args ++ moreArguments host args'.
Proof. unfold moreArguments. rewrite map_app, concat_app. reflexivity. Qed.

Lemma moreArguments_cons host arg args :
  moreArguments host (arg :: args)
  = js ", " ++ formatExpression host arg ++ moreArguments host args.
Proof. unfold moreArguments. cbn [map List.concat]. rewrite <- app_assoc. reflexivity. Qed.

Lemma formatExpression_argument_first host arg :
  isPlainArgument arg = true ->
  exists c tail,
    formatExpression host arg = c :: tail /\ (c = 0x40 \/ c = 0x24).
Proof.
  intros Harg.
  destruct (isPlainArgument_query arg Harg) as (identifier & segs & -> & _).
  cbn [formatExpression].
  destruct (formatIdentifier_first identifier) as (c & -> & Hc).
  exists c. eexists. split; [reflexivity | exact Hc].
Qed.

Lemma argumentEnd_more host args rest :
  argumentEnd (moreArguments host args ++ 0x29 :: rest) = true.
Proof. destruct args; reflexivity. Qed.

(** The loop of [parseFunctionArguments] at the closing parenthesis. *)
Lemma parseFunctionArguments_loop_close fuel context func parsed consumed rest :
  parseFunctionArguments_loop (S fuel) context func parsed
    (bufferAt consumed (0x29 :: rest))
  = Done (parsed, bufferAt (consumed ++ [0x29]) rest).
Proof.
  cbn [parseFunctionArguments_loop]. rewrite atChar_bufferAt.
  cbn [Z.eqb Pos.eqb]. rewrite advance_bufferAt. reflexivity.
Qed.

Lemma parseBlankSpace_blank consumed c rest :
  isSpaceChar c = false ->
  parseBlankSpace (bufferAt consumed (0x20 :: c :: rest))
  = bufferAt (consumed ++ [0x20]) (c :: rest).
Proof.
  intros Hc. unfold parseBlankSpace.
  apply (skipWhile_bufferAt isSpaceChar consumed [0x20] (c :: rest) eq_refl).
  rewrite Hc. reflexivity.
Qed.

(** The loop when every declared argument has been read and a comma
    follows: it ends after the comma and the blank space, and leaves
    what follows unread. *)
Lemma parseFunctionArguments_loop_extra fuel context func parsed consumed c rest :
  parsed <> [] ->
  (List.length (parameterTypes func) <= List.length parsed)%nat ->
  isSpaceChar c = false ->
  parseFunctionArguments_loop (S fuel) context func parsed
    (bufferAt consumed (js ", " ++ c :: rest))
  = Done (parsed, bufferAt (consumed ++ js ", ") (c :: rest)).
Proof.
  intros Hdone Hn Hc. change (js ", ") with [0x2c; 0x20].
  cbn [parseFunctionArguments_loop app].
  rewrite !atChar_bufferAt. cbn [Z.eqb Pos.eqb].
  destruct parsed as [|d tl]; [contradiction|].
  cbn [List.length Nat.eqb negb]. rewrite advance_bufferAt.
  rewrite parseBlankSpace_blank by exact Hc.
  cbn [obind].
  replace (List.length (parameterTypes func) <=? S (List.length tl))%nat
    with true by (symmetry; apply Nat.leb_le; cbn [List.length] in Hn; lia).
  rewrite <- !app_assoc. reflexivity.
Qed.

(** The loop reads the arguments it was written with, as long as the
    function declares a parameter for each. *)
Lemma parseFunctionArguments_loop_prefix host context func read :
  forallb isPlainArgument read = true ->
  forall fuel parsed consumed rest,
    parsed <> [] ->
    argumentEnd rest = true ->
    (List.length parsed + List.length read
     <= List.length (parameterTypes func))%nat ->
    (2 * List.length (moreArguments host read) + 12 <= fuel)%nat ->
    parseFunctionArguments_loop (List.length read + fuel) context func parsed
      (bufferAt consumed (moreArguments host read ++ rest))
    = parseFunctionArguments_loop fuel context func (parsed ++ read)
        (bufferAt (consumed ++ moreArguments host read) rest).
Proof.
  induction read as [|arg read IH];
    intros Hread fuel parsed consumed rest Hdone Hrest Hn Hfuel.
  - cbn [moreArguments map List.concat app List.length Nat.add].
    rewrite !app_nil_r. reflexivity.
  - cbn [forallb] in Hread. apply andb_prop in Hread.
    destruct Hread as [Harg Hread].
    rewrite moreArguments_cons in Hfuel |- *.
    rewrite !length_app in Hfuel. change (List.length (js ", ")) with 2%nat in Hfuel.
    cbn [List.length Nat.add parseFunctionArguments_loop] in Hn |- *.
    change (js ", ") with [0x2c; 0x20]. cbn [app].
    rewrite !atChar_bufferAt. cbn [Z.eqb Pos.eqb].
    destruct parsed as [|d tl] eqn:Ed; [contradiction|]. rewrite <- Ed in *.
    replace (List.length parsed =? 0)%nat with false
      by (rewrite Ed; reflexivity).
    cbn [negb]. rewrite advance_bufferAt.
    destruct (formatExpression_argument_first host arg Harg)
      as (c & tail & Htext & Hc).
    rewrite <- app_assoc. rewrite Htext. cbn [app].
    rewrite parseBlankSpace_blank
      by (unfold isSpaceChar; destruct Hc as [->| ->]; reflexivity).
    cbn [obind].
    replace (List.length (parameterTypes func) <=? List.length parsed)%nat
      with false by (symmetry; apply Nat.leb_gt; lia).
    change (c :: tail ++ moreArguments host read ++ rest)
      with ((c :: tail) ++ moreArguments host read ++ rest).
    rewrite <- Htext.
    assert (Hnext : argumentEnd (moreArguments host read ++ rest) = true).
    { destruct read as [|next read]; [exact Hrest | reflexivity]. }
    rewrite (@parseExpression_buf_argument host
               (withQueryScope context (Some QueryScope.Argument)) arg _ _ _
               Harg Hnext eq_refl)
      by lia.
    cbn [obind]. rewrite checkArgumentType_argument by exact Harg.
    cbn [obind].
    rewrite parseBlankSpace_bufferAt.
    + rewrite IH; [|exact Hread|..].
      * rewrite <- !app_assoc, Htext. reflexivity.
      * destruct parsed; discriminate.
      * exact Hrest.
      * rewrite length_app. cbn [List.length]. lia.
      * lia.
    + destruct (moreArguments host read ++ rest) as [|x xs];
        [discriminate Hnext|].
      cbn [argumentEnd] in Hnext. unfold isSpaceChar. lia.
Qed.

Lemma parseFunctionArguments_loop_first host context func arg fuel consumed
    rest :
  isPlainArgument arg = true ->
  argumentEnd rest = true ->
  (1 <= List.length (parameterTypes func))%nat ->
  (2 * List.length (formatExpression host arg) + 10 <= fuel)%nat ->
  parseFunctionArguments_loop (S fuel) context func []
    (bufferAt consumed (formatExpression host arg ++ rest))
  = parseFunctionArguments_loop fuel context func [arg]
      (bufferAt (consumed ++ formatExpression host arg) rest).
Proof.
  intros Harg Hrest Hn Hfuel. cbn [parseFunctionArguments_loop].
  destruct (formatExpression_argument_first host arg Harg)
    as (c & tail & Htext & Hc).
  rewrite Htext at 1. cbn [app]. rewrite atChar_bufferAt.
  replace (c =? 41) with false by lia.
  cbn [List.length Nat.eqb negb obind].
  replace (List.length (parameterTypes func) <=? 0)%nat with false
    by (symmetry; apply Nat.leb_gt; lia).
  rewrite (@parseExpression_buf_argument host
             (withQueryScope context (Some QueryScope.Argument)) arg _ _ _
             Harg Hrest eq_refl)
    by lia.
  cbn [obind]. rewrite checkArgumentType_argument by exact Harg.
  cbn [obind app]. rewrite parseBlankSpace_bufferAt; [reflexivity|].
  destruct rest as [|x xs]; [discriminate Hrest|].
  cbn [argumentEnd] in Hrest. unfold isSpaceChar. lia.
Qed.

(** A function that declares no parameter reads no argument. *)
Lemma parseFunctionArguments_loop_none fuel context func consumed c rest :
  List.length (parameterTypes func) = 0%nat ->
  c <> 0x29 ->
  parseFunctionArguments_loop (S fuel) context func []
    (bufferAt consumed (c :: rest))
  = Done ([], bufferAt consumed (c :: rest)).
Proof.
  intros Hn Hc. cbn [parseFunctionArguments_loop].
  rewrite atChar_bufferAt. replace (c =? 41) with false by lia.
  cbn [List.length Nat.eqb negb obind]. rewrite Hn. reflexivity.
Qed.

Lemma moreArguments_length host args :
  forallb isPlainArgument args = true ->
  (3 * List.length args <= List.length (moreArguments host args))%nat.
Proof.
  induction args as [|arg args IH]; [cbn; lia|].
  cbn [forallb]. intros H. apply andb_prop in H. destruct H as [Harg Hargs].
  rewrite moreArguments_cons, !length_app.
  change (List.length (js ", ")) with 2%nat.
  destruct (formatExpression_argument_first host arg Harg)
    as (c & tail & -> & _).
  specialize (IH Hargs). cbn [List.length]. lia.
Qed.

(** The arguments a call was written with, when the function declares
    at least as many parameters: all are read, and the count is
    compared with the declared one. *)
Lemma parseFunctionArguments_read host context func args fuel consumed rest :
  forallb isPlainArgument args = true ->
  (List.length args <= List.length (parameterTypes func))%nat ->
  (3 * List.length (argumentsText host args) + 30 <= fuel)%nat ->
  parseFunctionArguments fuel context func
    (bufferAt consumed (js "(" ++ argumentsText host args ++ js ")" ++ rest))
  = if (List.length args =? List.length (parameterTypes func))%nat
    then Done (FunctionExpression func args,
               bufferAt (consumed ++ js "(" ++ argumentsText host args ++ js ")")
                 rest)
    else Raise (QueryError (arityMessage func (List.length args))
                  (List.length
                     (consumed ++ js "(" ++ argumentsText host args ++ js ")"))).
Proof.
  intros Hargs Hn Hfuel.
  assert (Hloop : exists f,
             fuel = S f
             /\ parseFunctionArguments_loop f context func []
                  (bufferAt (consumed ++ [0x28])
                     (argumentsText host args ++ 0x29 :: rest))
                = Done (args,
                        bufferAt
                          (consumed ++ [0x28] ++ argumentsText host args
                           ++ [0x29])
                          rest)).
  { destruct args as [|arg args].
    - exists (fuel - 1)%nat. split; [lia|].
      replace (fuel - 1)%nat with (S (fuel - 2)) by lia.
      cbn [argumentsText map joinWith app].
      rewrite parseFunctionArguments_loop_close, <- app_assoc. reflexivity.
    - cbn [forallb] in Hargs. apply andb_prop in Hargs.
      destruct Hargs as [Harg Hargs].
      rewrite argumentsText_cons in Hfuel |- *. rewrite length_app in Hfuel.
      pose proof (moreArguments_length host args Hargs) as Hmore.
      cbn [List.length] in Hn.
      exists (S (List.length args
                 + S (fuel - 3 - List.length args)))%nat.
      split; [lia|].
      rewrite <- app_assoc.
      rewrite parseFunctionArguments_loop_first;
        [|exact Harg|apply argumentEnd_more|lia|lia].
      rewrite parseFunctionArguments_loop_prefix;
        [|exact Hargs|discriminate|reflexivity|cbn [List.length]; lia|lia].
      rewrite parseFunctionArguments_loop_close.
      cbn [app]. rewrite <- !app_assoc. reflexivity. }
  destruct Hloop as (f & -> & Hloop).
  cbn [parseFunctionArguments]. change (js "(") with [0x28].
  change (js ")") with [0x29]. cbn [app].
  rewrite atChar_bufferAt. cbn [Z.eqb Pos.eqb negb].
  rewrite advance_bufferAt.
  rewrite parseBlankSpace_bufferAt.
  - rewrite Hloop. cbn [obind]. rewrite offset_bufferAt.
    destruct (List.length args =? List.length (parameterTypes func))%nat;
      reflexivity.
  - destruct args as [|arg args]; [reflexivity|].
    cbn [forallb] in Hargs. apply andb_prop in Hargs.
    destruct Hargs as [Harg _]. rewrite argumentsText_cons.
    destruct (formatExpression_argument_first host arg Harg)
      as (c & tail & -> & Hc).
    cbn [app]. unfold isSpaceChar. lia.
Qed.

(** The text before an argument that is not read. *)
Definition readText (host : Host) (read : list Expression) : JSString :=
  match read with
  | [] => []
  | _ :: _ => argumentsText host read ++ js ", "
  end.

Lemma argumentsText_extra host read extra more :
  argumentsText host (read ++ extra :: more)
  = readText host read ++ formatExpression host extra
    ++ moreArguments host more.
Proof.
  destruct read as [|arg read]; cbn [readText app].
  - apply argumentsText_cons.
  - rewrite !argumentsText_cons, moreArguments_app, moreArguments_cons.
    rewrite <- !app_assoc. reflexivity.
Qed.

(** The arguments a call was written with, when the function declares
    fewer parameters: the declared number is read, the loop ends before
    the next argument, and the count is the declared one. *)
Lemma parseFunctionArguments_extra host context func read extra fuel
    consumed rest :
  forallb isPlainArgument read = true ->
  isPlainArgument extra = true ->
  List.length read = List.length (parameterTypes func) ->
  (3 * List.length (argumentsText host read) + 30 <= fuel)%nat ->
  parseFunctionArguments fuel context func
    (bufferAt consumed
       (js "(" ++ readText host read ++ formatExpression host extra ++ rest))
  = Done (FunctionExpression func read,
          bufferAt (consumed ++ js "(" ++ readText host read)
            (formatExpression host extra ++ rest)).
Proof.
  intros Hread Hextra Hn Hfuel.
  destruct (formatExpression_argument_first host extra Hextra)
    as (c & tail & Htext & Hc).
  assert (Hloop : exists f,
             fuel = S f
             /\ parseFunctionArguments_loop f context func []
                  (bufferAt (consumed ++ [0x28])
                     (readText host read ++ formatExpression host extra
                      ++ rest))
                = Done (read,
                        bufferAt (consumed ++ [0x28] ++ readText host read)
                          (formatExpression host extra ++ rest))).
  { destruct read as [|arg read].
    - exists (fuel - 1)%nat. split; [lia|].
      replace (fuel - 1)%nat with (S (fuel - 2)) by lia.
      cbn [readText app]. rewrite Htext. cbn [app].
      rewrite parseFunctionArguments_loop_none;
        [|symmetry; exact Hn|lia].
      reflexivity.
    - cbn [forallb] in Hread. apply andb_prop in Hread.
      destruct Hread as [Harg Hread].
      cbn [readText]. rewrite argumentsText_cons in Hfuel |- *.
      rewrite length_app in Hfuel.
      pose proof (moreArguments_length host read Hread) as Hmore.
      cbn [List.length] in Hn.
      exists (S (List.length read
                 + S (fuel - 3 - List.length read)))%nat.
      split; [lia|].
      rewrite <- !app_assoc.
      rewrite parseFunctionArguments_loop_first;
        [|exact Harg| |lia|lia].
      + rewrite parseFunctionArguments_loop_prefix;
          [|exact Hread|discriminate|reflexivity|cbn [List.length]; lia|lia].
        rewrite Htext. cbn [app].
        rewrite parseFunctionArguments_loop_extra;
          [|discriminate|cbn [List.length]; lia
           |unfold isSpaceChar; destruct Hc as [->| ->]; reflexivity].
        cbn [app]. rewrite <- !app_assoc. reflexivity.
      + destruct read; reflexivity. }
  destruct Hloop as (f & -> & Hloop).
  cbn [parseFunctionArguments]. change (js "(") with [0x28]. cbn [app].
  rewrite atChar_bufferAt. cbn [Z.eqb Pos.eqb negb].
  rewrite advance_bufferAt.
  rewrite parseBlankSpace_bufferAt.
  - rewrite Hloop. cbn [obind]. rewrite Hn, Nat.eqb_refl. reflexivity.
  - destruct read as [|arg read]; cbn [readText app].
    + rewrite Htext. cbn [app]. unfold isSpaceChar. lia.
    + cbn [forallb] in Hread. apply andb_prop in Hread.
      destruct Hread as [Harg _]. rewrite argumentsText_cons.
      destruct (formatExpression_argument_first host arg Harg)
        as (c' & tail' & -> & Hc').
      cbn [app]. unfold isSpaceChar. lia.
Qed.

(** [parseComparable] on a call: the name is looked up, and the
    arguments are parsed for the function found. *)
Lemma parseComparable_call fuel context func consumed rest :
  isFunctionName (name func) = true ->
  getFunctionExtension context (name func) = Some (ExtensionValue func) ->
  parseComparable (S fuel) context
    (bufferAt consumed (name func ++ 0x28 :: rest))
  = parseFunctionArguments fuel context func
      (bufferAt (consumed ++ name func) (0x28 :: rest)).
Proof.
  intros Hname Hfunc.
  destruct (isFunctionName_first _ Hname) as (c & tail & Hn & Hc).
  assert (Hpeek : peek (bufferAt consumed (name func ++ 0x28 :: rest)) = c)
    by (rewrite Hn; apply peek_bufferAt).
  cbn [parseComparable]. cbv zeta. rewrite !Hpeek.
  unfold isLowercase in Hc.
  replace (c =? 64) with false by lia. replace (c =? 36) with false by lia.
  replace (c =? 34) with false by lia. replace (c =? 39) with false by lia.
  replace (c =? 45) with false by lia.
  replace (isDigit c) with false by (unfold isDigit; lia).
  replace (isLowercase c) with true by (unfold isLowercase; lia).
  cbn [orb negb].
  rewrite parseFunctionName_bufferAt
    by (apply isFunctionName_identifier, Hname || reflexivity).
  cbn [obind].
  unfold isFunctionName in Hname.
  apply andb_prop in Hname. destruct Hname as [Hname Hnull].
  apply andb_prop in Hname. destruct Hname as [Hname Hfalse].
  apply andb_prop in Hname. destruct Hname as [_ Htrue].
  apply negb_true_iff in Hnull, Hfalse, Htrue.
  rewrite Htrue, Hfalse, Hnull, Hfunc. reflexivity.
Qed.

(** ** The first filter of a query *)

(** The first character of an operand: of a query, of a function name
    or keyword, or of a string literal. *)
Definition isOperandStart (c : Z) : Prop :=
  c = 0x40 \/ c = 0x24 \/ isLowercase c = true \/ c = 0x27.

Definition operandStart (text : JSString) : Prop :=
  exists c tail, text = c :: tail /\ isOperandStart c.

(** It is no blank space, no [!] and no parenthesis. *)
Lemma operandStart_tests c :
  isOperandStart c ->
  isSpaceChar c = false /\ (c =? 0x21) = false /\ (c =? 0x28) = false.
Proof. unfold isOperandStart, isSpaceChar, isLowercase. lia. Qed.

(** An exception raised by the first basic expression of a filter is
    the outcome of parsing the segments. *)
Lemma parseSegments_filter_raises context fuel0 fuel parsed consumed text e :
  operandStart text ->
  (forall f, (fuel0 <= f)%nat ->
     parseBasicExpression f
       (withQueryScope context (Some QueryScope.Expression))
       (bufferAt (consumed ++ js "[?") text)
     = Raise e) ->
  (fuel0 + 8 <= fuel)%nat ->
  parseSegments fuel context parsed (bufferAt consumed (js "[?" ++ text))
  = Raise e.
Proof.
  intros (c & tail & -> & Hc) Hbasic Hfuel.
  destruct (operandStart_tests Hc) as (Hspace & _).
  change (js "[?") with [0x5b; 0x3f] in *. cbn [app].
  destruct fuel as [|[|[|[|[|[|[|[|fuel]]]]]]]]; try lia.
  cbn [parseSegments].
  rewrite parseBlankSpace_bufferAt by reflexivity.
  cbn [parseSegment_buf]. rewrite peek_bufferAt. cbn [Z.eqb Pos.eqb negb].
  rewrite advance_bufferAt.
  rewrite parseBlankSpace_bufferAt by reflexivity.
  cbn [parseSegment_loop]. rewrite atChar_bufferAt.
  cbn [Z.eqb Pos.eqb Nat.eqb negb obind].
  cbn [parseSelector_buf]. rewrite peek_bufferAt.
  cbn [Z.eqb Pos.eqb orb isDigit Z.leb Z.compare Pos.compare
         Pos.compare_cont andb].
  cbn [parseFilterSelector]. rewrite atChar_bufferAt.
  cbn [Z.eqb Pos.eqb negb]. rewrite advance_bufferAt, <- app_assoc.
  cbn [app].
  rewrite parseBlankSpace_bufferAt by (rewrite Hspace; reflexivity).
  cbn [parseExpression_buf parseOrExpression parseAndExpression].
  rewrite Hbasic by lia. reflexivity.
Qed.

(** When the first basic expression of a filter returns in front of the
    start of a query, the selection expects a comma there. *)
Lemma parseSegments_filter_comma context fuel0 fuel parsed consumed text
    expr consumed' c rest :
  operandStart text ->
  c = 0x40 \/ c = 0x24 ->
  (forall f, (fuel0 <= f)%nat ->
     parseBasicExpression f
       (withQueryScope context (Some QueryScope.Expression))
       (bufferAt (consumed ++ js "[?") text)
     = Done (expr, bufferAt consumed' (c :: rest))) ->
  (fuel0 + 9 <= fuel)%nat ->
  parseSegments fuel context parsed (bufferAt consumed (js "[?" ++ text))
  = Raise (QueryError "Expected comma" (List.length consumed')).
Proof.
  intros (x & tail & -> & Hx) Hc Hbasic Hfuel.
  destruct (operandStart_tests Hx) as (Hspace & _).
  assert (Hblank : parseBlankSpace (bufferAt consumed' (c :: rest))
                   = bufferAt consumed' (c :: rest))
    by (apply parseBlankSpace_bufferAt; unfold isSpaceChar; lia).
  change (js "[?") with [0x5b; 0x3f] in *. cbn [app].
  destruct fuel as [|[|[|[|[|[|[|[|[|fuel]]]]]]]]]; try lia.
  cbn [parseSegments].
  rewrite parseBlankSpace_bufferAt by reflexivity.
  cbn [parseSegment_buf]. rewrite peek_bufferAt. cbn [Z.eqb Pos.eqb negb].
  rewrite advance_bufferAt.
  rewrite parseBlankSpace_bufferAt by reflexivity.
  cbn [parseSegment_loop]. rewrite atChar_bufferAt.
  cbn [Z.eqb Pos.eqb Nat.eqb negb obind].
  cbn [parseSelector_buf]. rewrite peek_bufferAt.
  cbn [Z.eqb Pos.eqb orb isDigit Z.leb Z.compare Pos.compare
         Pos.compare_cont andb].
  cbn [parseFilterSelector]. rewrite atChar_bufferAt.
  cbn [Z.eqb Pos.eqb negb]. rewrite advance_bufferAt, <- app_assoc.
  cbn [app].
  rewrite parseBlankSpace_bufferAt by (rewrite Hspace; reflexivity).
  cbn [parseExpression_buf parseOrExpression parseAndExpression].
  rewrite Hbasic by lia. cbn [obind].
  cbn [parseAndExpression_loop]. rewrite Hblank, atChar_bufferAt.
  replace (c =? 38) with false by lia. cbn [negb obind].
  cbn [parseOrExpression_loop]. rewrite Hblank, atChar_bufferAt.
  replace (c =? 124) with false by lia. cbn [negb obind].
  rewrite Hblank.
  cbn [parseSegment_loop]. rewrite !atChar_bufferAt.
  replace (c =? 93) with false by lia. replace (c =? 44) with false by lia.
  cbn [app List.length Nat.add Nat.eqb negb obind].
  rewrite offset_bufferAt. reflexivity.
Qed.

(** The same for a query: a plain prefix, then the filter. *)
Lemma parseQuery_filter_raises host context prefix text fuel0 e :
  forallb isPlainSegment prefix = true ->
  operandStart text ->
  (forall f, (fuel0 <= f)%nat ->
     parseBasicExpression f
       (withQueryScope context (Some QueryScope.Expression))
       (bufferAt (formatQuery host (createQuery prefix) ++ js "[?") text)
     = Raise e) ->
  parseQuery (formatQuery host (createQuery prefix) ++ js "[?" ++ text) context
  = Throw e.
Proof.
  intros Hprefix Htext Hbasic.
  apply (@parseQuery_raises
           (List.length prefix
            + (List.length (segmentsText host prefix) + fuel0 + 8))).
  unfold parseQuery_fuel, formatQuery in *. cbn [segments] in *.
  fold (segmentsText host prefix) in *.
  change (js "$") with [0x24] in *. cbn [app].
  rewrite bufferOf_bufferAt, peek_bufferAt, advance_bufferAt.
  cbn [Z.eqb Pos.eqb negb app].
  rewrite parseSegments_plain_prefix; [|exact Hprefix|reflexivity|lia].
  cbn [app].
  rewrite (@parseSegments_filter_raises context fuel0 _ _ _ text e Htext);
    [reflexivity| |lia].
  intros f Hf. apply Hbasic, Hf.
Qed.

Lemma parseQuery_filter_comma host context prefix text fuel0 expr consumed'
    c rest :
  forallb isPlainSegment prefix = true ->
  operandStart text ->
  c = 0x40 \/ c = 0x24 ->
  (forall f, (fuel0 <= f)%nat ->
     parseBasicExpression f
       (withQueryScope context (Some QueryScope.Expression))
       (bufferAt (formatQuery host (createQuery prefix) ++ js "[?") text)
     = Done (expr, bufferAt consumed' (c :: rest))) ->
  parseQuery (formatQuery host (createQuery prefix) ++ js "[?" ++ text) context
  = Throw (QueryError "Expected comma" (List.length consumed')).
Proof.
  intros Hprefix Htext Hc Hbasic.
  apply (@parseQuery_raises
           (List.length prefix
            + (List.length (segmentsText host prefix) + fuel0 + 9))).
  unfold parseQuery_fuel, formatQuery in *. cbn [segments] in *.
  fold (segmentsText host prefix) in *.
  change (js "$") with [0x24] in *. cbn [app].
  rewrite bufferOf_bufferAt, peek_bufferAt, advance_bufferAt.
  cbn [Z.eqb Pos.eqb negb app].
  rewrite parseSegments_plain_prefix; [|exact Hprefix|reflexivity|lia].
  cbn [app].
  rewrite (@parseSegments_filter_comma context fuel0 _ _ _ text expr
             consumed' c rest Htext Hc);
    [reflexivity| |lia].
  intros f Hf. apply Hbasic, Hf.
Qed.

(** ** Comparisons and calls at the start of a filter *)




Lemma formatExpression_call host func args :
  formatExpression host (FunctionExpression func args)
  = name func ++ js "(" ++ argumentsText host args ++ js ")".
Proof. reflexivity. Qed.











(** ** Calls with another number of arguments than declared *)

Lemma isCall_scope context scope e :
  isCall (withQueryScope context scope) e <-> isCall context e.
Proof. destruct e; cbn; tauto. Qed.


Lemma operandStart_call host context func args rest :
  isCall context (FunctionExpression func args) ->
  operandStart (formatExpression host (FunctionExpression func args) ++ rest).
Proof.
  intros (Hname & _).
  destruct (isFunctionName_first _ Hname) as (c & tail & Hn & Hc).
  rewrite formatExpression_call, Hn. eexists. eexists.
  split; [reflexivity | unfold isOperandStart; tauto].
Qed.

(** The start of [parseBasicExpression] on a call. *)
Lemma parseBasicExpression_call host context func args fuel consumed rest :
  isCall context (FunctionExpression func args) ->
  parseBasicExpression (S (S fuel)) context
    (bufferAt consumed
       (formatExpression host (FunctionExpression func args) ++ rest))
  = '(expr, buf) <-
      ('(expr, buf) <-
         parseFunctionArguments fuel context func
           (bufferAt (consumed ++ name func)
              (js "(" ++ argumentsText host args ++ js ")" ++ rest)) ;;
       let exprOffset := offset buf in
       let buf := parseBlankSpace buf in
       '(operator, buf) <- parseComparisonOperator buf ;;
       match operator with
       | Some operator =>
           let buf := parseBlankSpace buf in
           if isNonSingularQueryExpression expr then
             Raise (QueryError "Only singular queries can be compared"
                      exprOffset)
           else
             _ <- checkComparableType expr buf ;;
             '(rhs, buf) <- parseComparable (S fuel) context buf ;;
             if isNonSingularQueryExpression rhs then
               Raise (QueryError "Only singular queries can be compared"
                        (offset buf))
             else
               _ <- checkComparableType rhs buf ;;
               Done (createComparisonExpression expr operator rhs, buf)
       | None =>
           if negb (scopeIsArgument context) then
             _ <- checkLogicalType expr buf ;; Done (expr, buf)
           else Done (expr, buf)
       end) ;;
    Done (expr, buf).
Proof.
  intros Hcall.
  destruct (@operandStart_call host context func args rest Hcall)
    as (c & tail & Htext & Hc).
  destruct (operandStart_tests Hc) as (_ & Hnot & Hparen).
  destruct Hcall as (Hname & Hfunc & _).
  cbn [parseBasicExpression].
  assert (Hat : atChar 0x21
                  (bufferAt consumed
                     (formatExpression host (FunctionExpression func args)
                      ++ rest))
                = false)
    by (rewrite Htext; rewrite atChar_bufferAt; exact Hnot).
  assert (Hpeek : peek
                    (bufferAt consumed
                       (formatExpression host (FunctionExpression func args)
                        ++ rest))
                  = c)
    by (rewrite Htext; apply peek_bufferAt).
  rewrite Hat, Hpeek, Hparen.
  rewrite formatExpression_call, <- !app_assoc.
  change (js "(") with [0x28]. cbn [app].
  rewrite parseComparable_call by assumption.
  cbn [Z.eqb]. reflexivity.
Qed.

(** Too few arguments: the count is compared at the closing
    parenthesis. *)
Lemma parseBasicExpression_too_few host context func args fuel consumed rest :
  isCall context (FunctionExpression func args) ->
  (List.length args < List.length (parameterTypes func))%nat ->
  (3 * List.length (formatExpression host (FunctionExpression func args))
   + 41 <= fuel)%nat ->
  parseBasicExpression fuel context
    (bufferAt consumed
       (formatExpression host (FunctionExpression func args) ++ rest))
  = Raise (QueryError (arityMessage func (List.length args))
             (List.length
                (consumed
                 ++ formatExpression host (FunctionExpression func args)))).
Proof.
  intros Hcall Hn Hfuel.
  destruct fuel as [|[|fuel]]; try lia.
  rewrite parseBasicExpression_call by exact Hcall.
  destruct Hcall as (_ & _ & Hargs).
  rewrite formatExpression_call in Hfuel |- *.
  rewrite !length_app in Hfuel.
  rewrite parseFunctionArguments_read; [|exact Hargs|lia|lia].
  replace (List.length args =? List.length (parameterTypes func))%nat
    with false by (symmetry; apply Nat.eqb_neq; lia).
  cbn [obind]. rewrite <- !app_assoc. reflexivity.
Qed.

Definition testMessage (func : FunctionExtension) : string :=
  if DeclaredType.eqb (resultType func) DeclaredType.Value
  then "ValueType function not supported in test expression"
  else "Expected comma".

(** Too many arguments: the call ends before the first argument that
    has no parameter, with the declared number of arguments.  As a test
    expression, a call of a function with result type Value is rejected
    there; another call is returned. *)
Lemma parseBasicExpression_too_many host context func args consumed rest :
  isCall context (FunctionExpression func args) ->
  (List.length (parameterTypes func) < List.length args)%nat ->
  scopeIsArgument context = false ->
  exists consumed' c rest',
    (c = 0x40 \/ c = 0x24)
    /\ forall fuel,
         (3 * List.length
                (formatExpression host (FunctionExpression func args))
          + 41 <= fuel)%nat ->
         parseBasicExpression fuel context
           (bufferAt consumed
              (formatExpression host (FunctionExpression func args) ++ rest))
         = if DeclaredType.eqb (resultType func) DeclaredType.Value
           then Raise (QueryError (testMessage func) (List.length consumed'))
           else Done (FunctionExpression func
                        (firstn (List.length (parameterTypes func)) args),
                      bufferAt consumed' (c :: rest')).
Proof.
  intros Hcall Hn Hscope.
  pose proof Hcall as (_ & _ & Hargs).
  set (n := List.length (parameterTypes func)) in *.
  rewrite <- (firstn_skipn n args) in Hargs.
  rewrite forallb_app in Hargs. apply andb_prop in Hargs.
  destruct Hargs as [Hread Hunread].
  destruct (skipn n args) as [|extra more] eqn:Eskip.
  { exfalso. apply (f_equal (@List.length _)) in Eskip.
    rewrite length_skipn in Eskip. cbn in Eskip. lia. }
  cbn [forallb] in Hunread. apply andb_prop in Hunread.
  destruct Hunread as [Hextra _].
  assert (Hsplit : args = firstn n args ++ extra :: more)
    by (rewrite <- Eskip; symmetry; apply firstn_skipn).
  assert (Hlen : List.length (firstn n args) = n)
    by (apply firstn_length_le; lia).
  set (read := firstn n args) in *.
  assert (Htext : argumentsText host args
                  = readText host read ++ formatExpression host extra
                    ++ moreArguments host more)
    by (rewrite Hsplit at 1; apply argumentsText_extra).
  assert (Hsize : (List.length (argumentsText host read)
                   <= List.length (argumentsText host args))%nat).
  { rewrite Htext, !length_app. unfold readText.
    destruct read; [cbn; lia|]. rewrite length_app. lia. }
  destruct (formatExpression_argument_first host extra Hextra)
    as (c & tail & Hc & Hcs).
  exists ((consumed ++ name func) ++ js "(" ++ readText host read), c,
    (tail ++ moreArguments host more ++ js ")" ++ rest).
  split; [exact Hcs|]. intros fuel Hfuel.
  destruct fuel as [|[|fuel]]; try lia.
  rewrite parseBasicExpression_call by exact Hcall.
  rewrite formatExpression_call in Hfuel. rewrite !length_app in Hfuel.
  rewrite Htext, <- !app_assoc.
  rewrite parseFunctionArguments_extra; [|exact Hread|exact Hextra|exact Hlen|lia].
  rewrite Hc. cbn [app obind]. cbv zeta.
  rewrite parseBlankSpace_bufferAt by (unfold isSpaceChar; lia).
  unfold parseComparisonOperator. rewrite peek_bufferAt.
  replace (c =? 61) with false by lia. replace (c =? 33) with false by lia.
  replace (c =? 60) with false by lia. replace (c =? 62) with false by lia.
  cbn [obind]. rewrite Hscope. cbn [negb checkLogicalType].
  unfold testMessage.
  destruct (resultType func); cbn [DeclaredType.eqb obind];
    rewrite ?offset_bufferAt, <- ?app_assoc; reflexivity.
Qed.

(** The same for a query whose first filter starts with the call. *)
Lemma parseQuery_too_few host context prefix func args rest :
  forallb isPlainSegment prefix = true ->
  isCall context (FunctionExpression func args) ->
  (List.length args < List.length (parameterTypes func))%nat ->
  parseQuery
    (formatQuery host (createQuery prefix) ++ js "[?"
     ++ formatExpression host (FunctionExpression func args) ++ rest)
    context
  = Throw (QueryError (arityMessage func (List.length args))
             (List.length
                (formatQuery host (createQuery prefix) ++ js "[?"
                 ++ formatExpression host (FunctionExpression func args)))).
Proof.
  intros Hprefix Hcall Hn.
  rewrite (app_assoc (formatQuery host (createQuery prefix)) (js "[?")
             (formatExpression host (FunctionExpression func args))).
  eapply parseQuery_filter_raises; [exact Hprefix| |].
  - apply (@operandStart_call host context func args rest Hcall).
  - intros f Hf. apply parseBasicExpression_too_few; [|exact Hn|exact Hf].
    apply isCall_scope. exact Hcall.
Qed.

Lemma parseQuery_too_many host context prefix func args rest :
  forallb isPlainSegment prefix = true ->
  isCall context (FunctionExpression func args) ->
  (List.length (parameterTypes func) < List.length args)%nat ->
  exists offset,
    parseQuery
      (formatQuery host (createQuery prefix) ++ js "[?"
       ++ formatExpression host (FunctionExpression func args) ++ rest)
      context
    = Throw (QueryError (testMessage func) offset).
Proof.
  intros Hprefix Hcall Hn.
  destruct (@parseBasicExpression_too_many host
              (withQueryScope context (Some QueryScope.Expression))
              func args
              (formatQuery host (createQuery prefix) ++ js "[?") rest)
    as (consumed' & c & rest' & Hc & Hbasic);
    [apply isCall_scope; exact Hcall|exact Hn|reflexivity|].
  exists (List.length consumed').
  unfold testMessage in *.
  destruct (DeclaredType.eqb (resultType func) DeclaredType.Value).
  - eapply parseQuery_filter_raises; [exact Hprefix| |exact Hbasic].
    apply (@operandStart_call host context func args rest Hcall).
  - eapply parseQuery_filter_comma; [exact Hprefix| |exact Hc|exact Hbasic].
    apply (@operandStart_call host context func args rest Hcall).
Qed.

(** ** Comparisons at the start of the first filter of a query *)




(** ** A name that the registry inherits *)

(** [parseComparable] on a name that the registry has through its
    prototype chain: what is found there is passed on as the function
    extension, and its [parameterTypes] are read after the opening
    parenthesis. *)
Lemma parseComparable_foreign fuel context n consumed rest :
  isFunctionName n = true ->
  getFunctionExtension context n = Some ForeignValue ->
  parseComparable (S fuel) context (bufferAt consumed (n ++ 0x28 :: rest))
  = Raise (TypeError undefinedLength).
Proof.
  intros Hname Hfunc.
  destruct (isFunctionName_first _ Hname) as (c & tail & Hn & Hc).
  assert (Hpeek : peek (bufferAt consumed (n ++ 0x28 :: rest)) = c)
    by (rewrite Hn; apply peek_bufferAt).
  cbn [parseComparable]. cbv zeta. rewrite !Hpeek.
  unfold isLowercase in Hc.
  replace (c =? 64) with false by lia. replace (c =? 36) with false by lia.
  replace (c =? 34) with false by lia. replace (c =? 39) with false by lia.
  replace (c =? 45) with false by lia.
  replace (isDigit c) with false by (unfold isDigit; lia).
  replace (isLowercase c) with true by (unfold isLowercase; lia).
  cbn [orb negb].
  rewrite parseFunctionName_bufferAt
    by (apply isFunctionName_identifier, Hname || reflexivity).
  cbn [obind].
  unfold isFunctionName in Hname.
  apply andb_prop in Hname. destruct Hname as [Hname Hnull].
  apply andb_prop in Hname. destruct Hname as [Hname Hfalse].
  apply andb_prop in Hname. destruct Hname as [_ Htrue].
  apply negb_true_iff in Hnull, Hfalse, Htrue.
  rewrite Htrue, Hfalse, Hnull, Hfunc.
  unfold parseFunctionArguments_foreign.
  rewrite atChar_bufferAt. reflexivity.
Qed.

Lemma parseBasicExpression_foreign fuel context n consumed rest :
  isFunctionName n = true ->
  getFunctionExtension context n = Some ForeignValue ->
  parseBasicExpression (S (S fuel)) context
    (bufferAt consumed (n ++ 0x28 :: rest))
  = Raise (TypeError undefinedLength).
Proof.
  intros Hname Hfunc.
  destruct (isFunctionName_first _ Hname) as (c & tail & Hn & Hc).
  assert (Hstart : isOperandStart c) by (unfold isOperandStart; tauto).
  destruct (operandStart_tests Hstart) as (_ & Hnot & Hparen).
  cbn [parseBasicExpression].
  assert (Hat : atChar 0x21 (bufferAt consumed (n ++ 0x28 :: rest)) = false)
    by (rewrite Hn; cbn [app]; rewrite atChar_bufferAt; exact Hnot).
  assert (Hpeek : peek (bufferAt consumed (n ++ 0x28 :: rest)) = c)
    by (rewrite Hn; apply peek_bufferAt).
  rewrite Hat, Hpeek, Hparen.
  rewrite parseComparable_foreign by assumption.
  reflexivity.
Qed.

Lemma parseQuery_foreign host context prefix n rest :
  forallb isPlainSegment prefix = true ->
  isFunctionName n = true ->
  getFunctionExtension context n = Some ForeignValue ->
  parseQuery
    (formatQuery host (createQuery prefix) ++ js "[?" ++ n ++ js "(" ++ rest)
    context
  = Throw (TypeError undefinedLength).
Proof.
  intros Hprefix Hname Hfunc.
  eapply (@parseQuery_filter_raises host context prefix _ 2);
    [exact Hprefix| |].
  - destruct (isFunctionName_first _ Hname) as (c & tail & Hn & Hc).
    exists c, (tail ++ js "(" ++ rest). rewrite Hn.
    split; [reflexivity | unfold isOperandStart; tauto].
  - intros f Hf. destruct f as [|[|f]]; try lia.
    change (js "(" ++ rest) with (0x28 :: rest).
    apply parseBasicExpression_foreign; assumption.
Qed.

(** ** The first characters of a segment *)

Lemma peek_bufferAt_first consumed rest :
  peek (bufferAt consumed rest) = charCodeAt rest 0.
Proof.
  destruct rest as [|c rest]; [apply peek_bufferAt_end | apply peek_bufferAt].
Qed.

Lemma atChar_bufferAt_other x consumed rest :
  charCodeAt rest 0 <> x -> atChar x (bufferAt consumed rest) = false.
Proof.
  intros H. destruct rest as [|c rest].
  - apply atChar_bufferAt_end.
  - rewrite atChar_bufferAt. unfold charCodeAt in H. cbn [nth] in H. lia.
Qed.

(** The first character of a selector: of a name, a wildcard, an index
    or slice, or a filter. *)
Definition isSelectorStart (c : Z) : bool :=
  (c =? 0x22) || (c =? 0x27) || (c =? 0x2a) || (c =? 0x2d) || isDigit c
  || (c =? 0x3a) || (c =? 0x3f).

Lemma parseSegment_buf_dot fuel context consumed after :
  charCodeAt after 0 <> 0x2e ->
  charCodeAt after 0 <> 0x2a ->
  isNameFirstChar (charCodeAt after 0) = false ->
  parseSegment_buf (S fuel) context (bufferAt consumed (0x2e :: after))
  = Raise (QueryError "Expected dot segment" (S (List.length consumed))).
Proof.
  intros Hdot Hstar Hname.
  cbn [parseSegment_buf]. cbv zeta.
  rewrite peek_bufferAt, advance_bufferAt. cbn [Z.eqb Pos.eqb].
  rewrite !peek_bufferAt_first.
  replace (charCodeAt after 0 =? 46) with false by lia. cbv iota beta.
  replace (charCodeAt after 0 =? 42) with false by lia.
  rewrite Hname. cbn [Nat.eqb].
  rewrite offset_bufferAt, length_app. cbn [List.length].
  rewrite Nat.add_1_r. reflexivity.
Qed.

Lemma parseSegment_buf_dots fuel context consumed after :
  charCodeAt after 0 <> 0x2a ->
  isNameFirstChar (charCodeAt after 0) = false ->
  charCodeAt after 0 <> 0x5b ->
  parseSegment_buf (S fuel) context (bufferAt consumed (0x2e :: 0x2e :: after))
  = Raise (QueryError "Expected bracketed selection"
             (S (S (List.length consumed)))).
Proof.
  intros Hstar Hname Hbracket.
  cbn [parseSegment_buf]. cbv zeta.
  rewrite peek_bufferAt, advance_bufferAt. cbn [Z.eqb Pos.eqb].
  rewrite peek_bufferAt, advance_bufferAt. cbn [Z.eqb Pos.eqb].
  rewrite !peek_bufferAt_first.
  replace (charCodeAt after 0 =? 42) with false by lia.
  rewrite Hname. cbn [Nat.eqb].
  replace (charCodeAt after 0 =? 91) with false by lia. cbn [negb].
  rewrite offset_bufferAt, !length_app. cbn [List.length].
  rewrite !Nat.add_1_r. reflexivity.
Qed.

Lemma parseSegment_loop_selector fuel context consumed after :
  charCodeAt after 0 <> 0x5d ->
  isSelectorStart (charCodeAt after 0) = false ->
  parseSegment_loop (S (S fuel)) context [] 0 (bufferAt consumed after)
  = Raise (QueryError "Expected selector" (List.length consumed)).
Proof.
  intros Hclose Hstart.
  cbn [parseSegment_loop parseSelector_buf]. cbv zeta.
  rewrite atChar_bufferAt_other by exact Hclose.
  cbn [Nat.eqb negb obind]. rewrite peek_bufferAt_first.
  unfold isSelectorStart in Hstart.
  destruct (charCodeAt after 0 =? 34); [discriminate Hstart|].
  destruct (charCodeAt after 0 =? 39); [discriminate Hstart|].
  destruct (charCodeAt after 0 =? 42); [discriminate Hstart|].
  destruct (charCodeAt after 0 =? 45); [discriminate Hstart|].
  destruct (isDigit (charCodeAt after 0)); [discriminate Hstart|].
  destruct (charCodeAt after 0 =? 58); [discriminate Hstart|].
  destruct (charCodeAt after 0 =? 63); [discriminate Hstart|].
  reflexivity.
Qed.

Lemma parseBlankSpace_blanks consumed blanks after :
  forallb isSpaceChar blanks = true ->
  isSpaceChar (charCodeAt after 0) = false ->
  parseBlankSpace (bufferAt consumed (blanks ++ after))
  = bufferAt (consumed ++ blanks) after.
Proof.
  intros Hblanks Hafter. unfold parseBlankSpace.
  apply skipWhile_bufferAt; [exact Hblanks|].
  destruct after as [|c after]; [reflexivity|].
  unfold charCodeAt in Hafter. cbn [nth] in Hafter. rewrite Hafter.
  reflexivity.
Qed.

Lemma parseSegment_buf_bracket fuel context consumed blanks after :
  forallb isSpaceChar blanks = true ->
  isSpaceChar (charCodeAt after 0) = false ->
  charCodeAt after 0 <> 0x5d ->
  isSelectorStart (charCodeAt after 0) = false ->
  parseSegment_buf (S (S (S fuel))) context
    (bufferAt consumed (0x5b :: blanks ++ after))
  = Raise (QueryError "Expected selector"
             (List.length (consumed ++ 0x5b :: blanks))).
Proof.
  intros Hblanks Hspace Hclose Hstart.
  cbn [parseSegment_buf]. cbv zeta.
  rewrite peek_bufferAt, advance_bufferAt. cbn [Z.eqb Pos.eqb negb].
  rewrite parseBlankSpace_blanks by assumption.
  rewrite parseSegment_loop_selector by assumption.
  cbn [obind]. rewrite <- app_assoc. reflexivity.
Qed.

Lemma parseSegment_buf_dots_bracket fuel context consumed blanks after :
  forallb isSpaceChar blanks = true ->
  isSpaceChar (charCodeAt after 0) = false ->
  charCodeAt after 0 <> 0x5d ->
  isSelectorStart (charCodeAt after 0) = false ->
  parseSegment_buf (S (S (S fuel))) context
    (bufferAt consumed (0x2e :: 0x2e :: 0x5b :: blanks ++ after))
  = Raise (QueryError "Expected selector"
             (List.length (consumed ++ 0x2e :: 0x2e :: 0x5b :: blanks))).
Proof.
  intros Hblanks Hspace Hclose Hstart.
  cbn [parseSegment_buf]. cbv zeta.
  rewrite peek_bufferAt, advance_bufferAt. cbn [Z.eqb Pos.eqb].
  rewrite peek_bufferAt, advance_bufferAt. cbn [Z.eqb Pos.eqb].
  rewrite !peek_bufferAt. cbn [Z.eqb Pos.eqb isNameFirstChar isAlpha
    isUppercase isLowercase Z.leb Z.compare Pos.compare Pos.compare_cont
    andb orb Nat.eqb negb].
  rewrite advance_bufferAt.
  rewrite parseBlankSpace_blanks by assumption.
  rewrite parseSegment_loop_selector by assumption.
  cbn [obind]. rewrite <- !app_assoc. reflexivity.
Qed.

Lemma parseSegment_at context input e :
  (forall fuel,
      parseSegment_buf (S (S (S (S fuel)))) context (bufferAt [] input)
      = Raise e) ->
  parseSegment input context = Throw e.
Proof.
  intros H. unfold parseSegment, parseSegment_fuel.
  destruct (parseFuel_ge input) as [fuel ->].
  rewrite bufferOf_bufferAt, H. reflexivity.
Qed.

Lemma parseSegment_undefined context input :
  parseSegment input context = Ok None <-> input = [].
Proof.
  split.
  - intros E.
    apply (@completed_checked _
             (fun r => match r with
                       | Some segment => everySegment arityExact segment = true
                       | None => input = []
                       end)
             (parseSegment_fuel (parseFuel input) input context) None);
      [|exact E].
    apply (@parseSegment_fuel_post arityExact wellTypedNode_arityExact).
  - intros ->. reflexivity.
Qed.

Lemma parseSegment_other context input :
  input <> [] ->
  charCodeAt input 0 <> 0x2e ->
  charCodeAt input 0 <> 0x5b ->
  parseSegment input context
  = Throw (QueryError "Invalid JSONPath segment" 0).
Proof.
  intros Hne Hdot Hbracket.
  destruct input as [|c rest]; [contradiction|].
  unfold parseSegment, parseSegment_fuel, parseFuel.
  cbn [List.length Nat.mul Nat.add parseSegment_buf].
  unfold charCodeAt in Hdot, Hbracket. cbn [nth] in Hdot, Hbracket.
  unfold peek, bufferOf, charCodeAt.
  cbn [offset limit input List.length Nat.ltb Nat.leb nth].
  destruct (Z.eqb_spec c 46) as [?|_]; [contradiction|].
  destruct (Z.eqb_spec c 91) as [?|_]; [contradiction|].
  reflexivity.
Qed.

(* ================================================================== *)
(** * What the parser rejects *)
(* ================================================================== *)



(** X27.  The arity of calls.  No query that [parseQuery] returns has a
    call with another number of arguments than its function declares
    parameter types.  And where the first filter of a query, after
    segments without filters, starts with a call of a function that the
    context has under its name, with singular queries as arguments,
    [parseQuery] raises a [QueryError] when the arguments are fewer
    than declared (the count is compared at the closing parenthesis)
    and when they are more (the argument loop ends before the first
    argument that has no parameter, and the caller rejects what it
    finds there), whatever follows the call. *)
Theorem parseQuery_exact_arity (host : Host) (context : QueryContext) :
  (forall input query,
      parseQuery input context = Ok query ->
      everyQuery arityExact query = true)
  /\ (forall prefix func args rest,
         forallb isPlainSegment prefix = true ->
         isCall context (FunctionExpression func args) ->
         (List.length args < List.length (parameterTypes func))%nat ->
         parseQuery
           (formatQuery host (createQuery prefix) ++ js "[?"
            ++ formatExpression host (FunctionExpression func args) ++ rest)
           context
         = Throw (QueryError (arityMessage func (List.length args))
                    (List.length
                       (formatQuery host (createQuery prefix) ++ js "[?"
                        ++ formatExpression host
                             (FunctionExpression func args)))))
  /\ (forall prefix func args rest,
         forallb isPlainSegment prefix = true ->
         isCall context (FunctionExpression func args) ->
         (List.length (parameterTypes func) < List.length args)%nat ->
         exists offset,
           parseQuery
             (formatQuery host (createQuery prefix) ++ js "[?"
              ++ formatExpression host (FunctionExpression func args) ++ rest)
             context
           = Throw (QueryError (testMessage func) offset)).
Proof.
  split; [|split].
  - intros input query.
    apply (@parseQuery_checked arityExact wellTypedNode_arityExact).
  - intros prefix func args rest. apply parseQuery_too_few.
  - intros prefix func args rest. apply parseQuery_too_many.
Qed.

Lemma parseQuery_exact_arity_witness :
  everyQuery arityExact
    (createQuery
       [ChildSegment
          [FilterSelector
             (FunctionExpression (matchFunction SmallHost.host)
                [QueryExpression CurrentIdentifier
                   [ChildSegment [NameSelector (js "a")]];
                 LiteralExpression (JString (js "b"))])]])
  = true
  /\ parseQuery (js "$.a[?match(@.a) || @.b]") SmallHost.context
     = Throw (QueryError
                "Expected 2 arguments for function match, but received 1 arguments"
                15)
  /\ (exists offset,
         parseQuery (js "$[?count(@.a, @.b) > 1]") SmallHost.context
         = Throw (QueryError
                    "ValueType function not supported in test expression"
                    offset))
  /\ (exists offset,
         parseQuery (js "$[?match(@.a, @.b, @.c)]") SmallHost.context
         = Throw (QueryError "Expected comma" offset)).
Proof.
  split; [|split; [|split]].
  - apply (proj1 (parseQuery_exact_arity SmallHost.host SmallHost.context)
             (js "$[?match(@.a, 'b')]")).
    vm_compute. reflexivity.
  - apply (proj1 (proj2 (parseQuery_exact_arity SmallHost.host
                           SmallHost.context))
             [ChildSegment [NameSelector (js "a")]]
             (matchFunction SmallHost.host)
             [QueryExpression CurrentIdentifier
                [ChildSegment [NameSelector (js "a")]]]
             (js " || @.b]")).
    + reflexivity.
    + repeat split; reflexivity.
    + cbn. lia.
  - apply (proj2 (proj2 (parseQuery_exact_arity SmallHost.host
                           SmallHost.context))
             [] (countFunction)
             [QueryExpression CurrentIdentifier
                [ChildSegment [NameSelector (js "a")]];
              QueryExpression CurrentIdentifier
                [ChildSegment [NameSelector (js "b")]]]
             (js " > 1]")).
    + reflexivity.
    + repeat split; reflexivity.
    + cbn. lia.
  - apply (proj2 (proj2 (parseQuery_exact_arity SmallHost.host
                           SmallHost.context))
             [] (matchFunction SmallHost.host)
             [QueryExpression CurrentIdentifier
                [ChildSegment [NameSelector (js "a")]];
              QueryExpression CurrentIdentifier
                [ChildSegment [NameSelector (js "b")]];
              QueryExpression CurrentIdentifier
                [ChildSegment [NameSelector (js "c")]]]
             (js "]")).
    + reflexivity.
    + repeat split; reflexivity.
    + cbn. lia.
Defined.

(** X28.  The first characters of the input of [parseSegment].  The
    result is [undefined] for the empty string only.  An input that
    starts with neither a dot nor a bracket is rejected at offset 0; a
    dot followed by no name, wildcard or second dot, two dots followed
    by no name, wildcard or bracket, and an opening bracket (after two
    dots or none) followed, after blank space, by neither a closing
    bracket nor the first character of a selector, raise the
    [QueryError] of that place. *)
Theorem parseSegment_first_characters (context : QueryContext) :
  (forall input, parseSegment input context = Ok None <-> input = [])
  /\ (forall input,
         input <> [] ->
         charCodeAt input 0 <> 0x2e ->
         charCodeAt input 0 <> 0x5b ->
         parseSegment input context
         = Throw (QueryError "Invalid JSONPath segment" 0))
  /\ (forall after,
         charCodeAt after 0 <> 0x2e ->
         charCodeAt after 0 <> 0x2a ->
         isNameFirstChar (charCodeAt after 0) = false ->
         parseSegment (js "." ++ after) context
         = Throw (QueryError "Expected dot segment" 1))
  /\ (forall after,
         charCodeAt after 0 <> 0x2a ->
         isNameFirstChar (charCodeAt after 0) = false ->
         charCodeAt after 0 <> 0x5b ->
         parseSegment (js ".." ++ after) context
         = Throw (QueryError "Expected bracketed selection" 2))
  /\ (forall dots blanks after,
         dots = [] \/ dots = js ".." ->
         forallb isSpaceChar blanks = true ->
         isSpaceChar (charCodeAt after 0) = false ->
         charCodeAt after 0 <> 0x5d ->
         isSelectorStart (charCodeAt after 0) = false ->
         parseSegment (dots ++ js "[" ++ blanks ++ after) context
         = Throw (QueryError "Expected selector"
                    (List.length (dots ++ js "[" ++ blanks)))).
Proof.
  split; [|split; [|split; [|split]]].
  - intros input. apply parseSegment_undefined.
  - intros input. apply parseSegment_other.
  - intros after Hdot Hstar Hname. apply parseSegment_at. intros fuel.
    apply (@parseSegment_buf_dot _ context [] after Hdot Hstar Hname).
  - intros after Hstar Hname Hbracket. apply parseSegment_at. intros fuel.
    apply (@parseSegment_buf_dots _ context [] after Hstar Hname Hbracket).
  - intros dots blanks after [-> | ->] Hblanks Hspace Hclose Hstart;
      apply parseSegment_at; intros fuel.
    + apply (@parseSegment_buf_bracket _ context [] blanks after);
        assumption.
    + apply (@parseSegment_buf_dots_bracket _ context [] blanks after);
        assumption.
Qed.

Lemma parseSegment_first_characters_witness :
  (parseSegment [] SmallHost.context = Ok None -> @nil Z = [])
  /\ parseSegment (js "a") SmallHost.context
     = Throw (QueryError "Invalid JSONPath segment" 0)
  /\ parseSegment (js ".[0]") SmallHost.context
     = Throw (QueryError "Expected dot segment" 1)
  /\ parseSegment (js "..") SmallHost.context
     = Throw (QueryError "Expected bracketed selection" 2)
  /\ parseSegment (js "[ ,'a']") SmallHost.context
     = Throw (QueryError "Expected selector" 2)
  /\ parseSegment (js "..[a]") SmallHost.context
     = Throw (QueryError "Expected selector" 3).
Proof.
  pose proof (parseSegment_first_characters SmallHost.context)
    as (Hnone & Hother & Hdot & Hdots & Hbracket).
  split; [|split; [|split; [|split; [|split]]]].
  - apply (proj1 (Hnone [])).
  - apply (Hother (js "a")); [discriminate | cbn; lia | cbn; lia].
  - apply (Hdot (js "[0]")); [cbn; lia | cbn; lia | reflexivity].
  - apply (Hdots []); [cbn; lia | reflexivity | cbn; lia].
  - apply (Hbracket [] (js " ") (js ",'a']"));
      [left; reflexivity | reflexivity | reflexivity | cbn; lia | reflexivity].
  - apply (Hbracket (js "..") [] (js "a]"));
      [right; reflexivity | reflexivity | reflexivity | cbn; lia | reflexivity].
Defined.

(** X29.  A name that the registry of the context inherits.  Where the
    first filter of a query, after segments without filters, starts
    with a function name under which the registry has no function
    extension of its own but a property of its prototype chain, followed
    by an opening parenthesis, [parseQuery] throws the [TypeError] of
    reading [parameterTypes.length] of what it found, whatever
    follows.  In a context created without options, [constructor] is
    such a name. *)
Theorem parseQuery_inherited_name (host : Host) (context : QueryContext)
    (prefix : list Segment) (n rest : JSString) :
  forallb isPlainSegment prefix = true ->
  isFunctionName n = true ->
  getFunctionExtension context n = Some ForeignValue ->
  parseQuery
    (formatQuery host (createQuery prefix) ++ js "[?" ++ n ++ js "(" ++ rest)
    context
  = Throw (TypeError undefinedLength).
Proof. apply parseQuery_foreign. Qed.

Lemma parseQuery_inherited_name_witness :
  parseQuery (js "$.a[?constructor(@.b) == 1]") SmallHost.context
  = Throw (TypeError undefinedLength).
Proof.
  apply (parseQuery_inherited_name SmallHost.host SmallHost.context
           [ChildSegment [NameSelector (js "a")]] (js "constructor")
           (js "@.b) == 1]"));
    reflexivity.
Defined.
